(** * A verification development for the scene-graph renderer bundle

    The program is the renderer chunk [chunk-67ULRFHS.js]: broadcast
    runners, the system registry of the renderer facade, the colour and
    stencil mask pipes, the batcher pipe, the render-group transform
    propagator, the render-group system and the renderable collector.

    Every component is embedded as executable Rocq definitions that
    follow the JavaScript statement by statement; objects that the
    program compares by identity are named by handles, shared mutable
    objects live in explicit stores, and calls into classes that are
    imported from the sibling chunk are either parameters of a Section
    or recorded as events. *)

From Stdlib Require Import ZArith Lia List Bool.
From Stdlib Require Import Floats.SpecFloat.
From stdpp Require Import gmap strings list.

Local Open Scope Z_scope.

(** ** Runner: a named broadcast list (class [I]) *)

Module Runner.

(** Handler objects are compared with [===] by [indexOf]; a handle stands
    for the identity of an object. *)
Definition obj := nat.

Record runner := mkRunner { items : list obj; _name : string }.

(** [new I(e)] *)
Definition new (e : string) : runner := {| items := []; _name := e |}.

(** [Array.prototype.indexOf]: the first index holding [e], or [-1]. *)
Fixpoint indexOf (l : list obj) (e : obj) : Z :=
  match l with
  | [] => -1
  | x :: l' =>
      if Nat.eqb x e then 0
      else let t := indexOf l' e in if t =? -1 then -1 else t + 1
  end.

(** [remove(e){let t=this.items.indexOf(e);
     return t!==-1&&this.items.splice(t,1),this}] *)
Definition remove (r : runner) (e : obj) : runner :=
  let t := indexOf (items r) e in
  if negb (t =? -1)
  then {| items := delete (Z.to_nat t) (items r); _name := _name r |}
  else r.

(** [contains(e){return this.items.indexOf(e)!==-1}] *)
Definition contains (r : runner) (e : obj) : bool :=
  negb (indexOf (items r) e =? -1).

(** [removeAll(){return this.items.length=0,this}] *)
Definition removeAll (r : runner) : runner :=
  {| items := []; _name := _name r |}.

(** [get empty(){return this.items.length===0}] *)
Definition empty (r : runner) : bool :=
  match items r with [] => true | _ => false end.

Section Handlers.

(** [defines e d] is the truthiness of the property [e[d]]: whether the
    object carries a method of that name. *)
Variable defines : obj -> string -> bool.

(** The arguments of a broadcast and the state the handlers act on.  The
    runner itself is not part of that state: a handler that edits the
    list it is being called from is outside this model. *)
Variable Args : Type.
Variable World : Type.
Variable call : obj -> string -> Args -> World -> World.

(** [add(e){return e[this._name]&&(this.remove(e),this.items.push(e)),this}] *)
Definition add (r : runner) (e : obj) : runner :=
  if defines e (_name r)
  then let r' := remove r e in
       {| items := items r' ++ [e]; _name := _name r' |}
  else r.

(** [emit(...){let{name:d,items:h}=this;
     for(let f=0,x=h.length;f<x;f++)h[f][d](...);return this}]:
    the loop walks the array from index 0; the result is the world after
    every call and the calls made, oldest first. *)
Fixpoint emit_loop (d : string) (h : list obj) (a : Args) (w : World)
    (calls : list (obj * string)) : World * list (obj * string) :=
  match h with
  | [] => (w, calls)
  | x :: h' => emit_loop d h' a (call x d a w) (calls ++ [(x, d)])
  end.

Definition emit (r : runner) (a : Args) (w : World) : World * list (obj * string) :=
  emit_loop (_name r) (items r) a w [].

(** The registration calls a client can make. *)
Inductive op := Add (e : obj) | Remove (e : obj) | RemoveAll.

Definition apply_op (r : runner) (o : op) : runner :=
  match o with
  | Add e => add r e
  | Remove e => remove r e
  | RemoveAll => removeAll r
  end.

Definition run_ops (r : runner) (os : list op) : runner :=
  fold_left apply_op os r.

Definition adds (r : runner) (es : list obj) : runner :=
  fold_left add es r.

End Handlers.

(** How often a run of calls reaches the object [h]. *)
Definition times_called (h : obj) (calls : list (obj * string)) : nat :=
  length (List.filter (fun c => Nat.eqb (fst c) h) calls).

(** The list without the first occurrence of [e]. *)
Fixpoint remove_first (e : obj) (l : list obj) : list obj :=
  match l with
  | [] => []
  | x :: l' => if Nat.eqb x e then l' else x :: remove_first e l'
  end.

End Runner.

(** ** The renderer facade (class [Rt]): runners, systems and pipes *)

Module Renderer.
Import Runner.

(** What a property of the renderer object may hold, as far as its
    truthiness goes. *)
Inductive jsval :=
| VUndefined
| VNull
| VBoolean (b : bool)
| VNumber (z : Z)
| VString (s : string)
| VObject (o : obj)
| VFunction.

Definition truthy (v : jsval) : bool :=
  match v with
  | VUndefined | VNull => false
  | VBoolean b => b
  | VNumber z => negb (z =? 0)
  | VString s => negb (String.eqb s EmptyString)
  | VObject _ | VFunction => true
  end.

(** What [throw] carries: [new Error(message)], or the [TypeError] the
    engine raises on a property read from [undefined]. *)
Inductive exn := Error (message : string) | TypeError (message : string).

Inductive result (A : Type) : Type :=
| Ok (a : A)
| Throw (e : exn).
Arguments Ok {A} a.
Arguments Throw {A} e.

Definition bind {A B} (o : result A) (k : A -> result B) : result B :=
  match o with
  | Ok a => k a
  | Throw e => Throw e
  end.

(** A system or pipe class, as far as the registry sees it: the methods
    its instances carry.  [new t(this)] allocates a fresh object. *)
Record class := mkClass { methods : list string }.

(** An entry of [config.systems] or [config.renderPipes]:
    [{value: class, name}]. *)
Record extension := mkExtension { value : class; name : string }.

Record renderer := mkRenderer {
  props : gmap string jsval;         (* this[r], own and inherited members *)
  _systemsHash : gmap string obj;
  runners : gmap string runner;
  renderPipes : gmap string obj;
  instances : gmap obj (list string);  (* methods of every allocated instance *)
  fresh : obj                          (* next unused handle *)
}.

(** [e[d]] is truthy when the instance [e] carries a method [d]. *)
Definition defines (inst : gmap obj (list string)) (e : obj) (d : string) : bool :=
  match inst !! e with
  | Some ms => existsb (String.eqb d) ms
  | None => false
  end.

Definition dquote : string := String (Ascii.ascii_of_nat 34) EmptyString.

(** The message of the duplicate-name error:
    [`Whoops! The name "${r}" is already in use`]. *)
Definition name_in_use (r : string) : exn :=
  Error (String.append "Whoops! The name "
          (String.append dquote
            (String.append r (String.append dquote " is already in use")))).

(** [Pt]: the runners every renderer starts with. *)
Definition Pt : list string :=
  ["init"; "destroy"; "contextChange"; "resolutionChange"; "resetState";
   "renderEnd"; "renderStart"; "render"; "update"; "postrender"; "prerender"].

(** [_addRunners(...t){t.forEach(r=>{this.runners[r]=new I(r)})}] *)
Definition _addRunners (R : renderer) (t : list string) : renderer :=
  {| props := props R; _systemsHash := _systemsHash R;
     runners := fold_left (fun m r => <[r := Runner.new r]> m) t (runners R);
     renderPipes := renderPipes R; instances := instances R; fresh := fresh R |}.

(** The members a renderer has before any system is registered.  The
    own fields the constructor assigns:
    [this.uid=b("renderer"),this.runners=Object.create(null),
     this.renderPipes=Object.create(null),this._initOptions={},
     this._systemsHash=Object.create(null),this.type=t.type,
     this.name=t.name,this.config=t]; [uid] is the count of the
    renderers made before, 0 for the first one. *)
Definition own_fields (uid : Z) (type name : jsval) : list (string * jsval) :=
  [("uid", VNumber uid); ("runners", VObject 0%nat); ("renderPipes", VObject 0%nat);
   ("_initOptions", VObject 0%nat); ("_systemsHash", VObject 0%nat);
   ("type", type); ("name", name); ("config", VObject 0%nat)].

(** The methods of the class, which an instance finds on its
    prototype. *)
Definition class_members : list string :=
  ["constructor"; "init"; "render"; "resize"; "clear"; "_addRunners"; "_addSystems";
   "_addSystem"; "_addPipes"; "destroy"; "generateTexture";
   "_unsafeEvalCheck"; "resetState"].

(** [constructor(t)]: the registries start empty, the runners [Pt] and
    [config.runners] are created, and construction fails when
    [_unsafeEvalCheck] finds that functions cannot be synthesised ([xe()]
    is false).  [inherited] is what [this[r]] reads for the names that
    are neither own fields nor methods of the class: the members of the
    imported base class [L] and of [Object.prototype], which are not
    part of these sources, and what the getters of the class
    ([resolution], [width], [height], [canvas], [lastObjectRendered],
    [renderingToScreen], [screen], [roundPixels]) read.  An own field
    hides a method, and a method an inherited member.  A write to one
    of the names with a getter, which runs the setter of [resolution]
    and fails for the others, is not covered: the names of systems are
    taken to differ from them. *)
Definition constructor (inherited : gmap string jsval) (uid : Z) (type name : jsval)
    (config_runners : list string) (unsafe_eval : bool)
    : result renderer :=
  let R := {| props :=
                fold_left (fun m kv => <[fst kv := snd kv]> m) (own_fields uid type name)
                  (fold_left (fun m k => <[k := VFunction]> m) class_members inherited);
              _systemsHash := ∅; runners := ∅; renderPipes := ∅;
              instances := ∅; fresh := 1%nat |} in
  let R := _addRunners R (Pt ++ config_runners) in
  if unsafe_eval then Ok R
  else Throw (Error "Current environment does not allow unsafe-eval, please use pixi.js/unsafe-eval module to enable support.").

(** [this[r]] *)
Definition get_prop (R : renderer) (r : string) : jsval :=
  match props R !! r with Some v => v | None => VUndefined end.

(** [_addSystem(t,r){let s=new t(this);
      if(this[r])throw new Error(`Whoops! ...`);
      this[r]=s,this._systemsHash[r]=s;
      for(let i in this.runners)this.runners[i].add(s);return this}] *)
Definition _addSystem (R : renderer) (t : class) (r : string) : result renderer :=
  let s := fresh R in
  let inst := <[s := methods t]> (instances R) in
  if truthy (get_prop R r) then Throw (name_in_use r)
  else Ok {| props := <[r := VObject s]> (props R);
             _systemsHash := <[r := s]> (_systemsHash R);
             runners := (fun i => Runner.add (defines inst) i s) <$> runners R;
             renderPipes := renderPipes R;
             instances := inst;
             fresh := S s |}.

(** [_addSystems(t){let r;for(r in t){let s=t[r];
      this._addSystem(s.value,s.name)}}] *)
Fixpoint _addSystems (R : renderer) (t : list extension) : result renderer :=
  match t with
  | [] => Ok R
  | s :: t' => bind (_addSystem R (value s) (name s)) (fun R' => _addSystems R' t')
  end.

(** [_addPipes(t,r)]: every pipe is constructed (with its adaptor, which
    the registry does not look into), stored under its name in
    [renderPipes] and added to the [destroy] runner. *)
Definition _addPipe (R : renderer) (i : extension) : result renderer :=
  let p := fresh R in
  let inst := <[p := methods (value i)]> (instances R) in
  match runners R !! "destroy" with
  | None => Throw (TypeError "Cannot read properties of undefined (reading 'add')")
  | Some d =>
      Ok {| props := props R; _systemsHash := _systemsHash R;
            runners := <["destroy" := Runner.add (defines inst) d p]> (runners R);
            renderPipes := <[name i := p]> (renderPipes R);
            instances := inst;
            fresh := S p |}
  end.

Fixpoint _addPipes (R : renderer) (t : list extension) : result renderer :=
  match t with
  | [] => Ok R
  | i :: t' => bind (_addPipe R i) (fun R' => _addPipes R' t')
  end.

(** The first renderer of a page as the constructor leaves it, with the
    members [on], [off] and [emit] of the base class and [toString] of
    [Object.prototype], and the same renderer with one system registered
    under "view". *)
Definition sample_inherited : gmap string jsval :=
  {[ "on" := VFunction; "off" := VFunction; "emit" := VFunction;
     "toString" := VFunction ]}.

Definition sample_renderer : renderer :=
  match constructor sample_inherited 0 (VNumber 1) (VString "webgl") [] true with
  | Ok R => R
  | Throw _ => mkRenderer ∅ ∅ ∅ ∅ ∅ 0%nat
  end.

Definition sample_with_view : renderer :=
  match _addSystem sample_renderer (mkClass ["init"; "resize"]) "view" with
  | Ok R => R
  | Throw _ => sample_renderer
  end.

Section Frame.

(** The state the systems act on, the options of a call, and the methods
    of the registered instances. *)
Variable World : Type.
Variable Options : Type.
Variable call : obj -> string -> Options -> World -> World.

(** The loop of [init]:
    [for(let s=0;s<this.runners.init.items.length;s++)
       yield this.runners.init.items[s].init(t)] *)
Definition init_items (h : list obj) (t : Options) (w : World) : World :=
  fold_left (fun w x => call x "init" t w) h w.

(** [init(t)]: the systems and pipes of the configuration are registered,
    then every system's [init] runs with the merged options. *)
Definition init (R : renderer) (systems pipes : list extension) (t : Options)
    (w : World) : result (renderer * World) :=
  bind (_addSystems R systems) (fun R1 =>
  bind (_addPipes R1 pipes) (fun R2 =>
  match runners R2 !! "init" with
  | None => Throw (TypeError "Cannot read properties of undefined (reading 'items')")
  | Some r => Ok (R2, init_items (items r) t w)
  end)).

(** [this.runners[d].emit(s)] *)
Definition emit_runner (R : renderer) (d : string) (s : Options) (w : World)
    : result World :=
  match runners R !! d with
  | None => Throw (TypeError "Cannot read properties of undefined (reading 'emit')")
  | Some r => Ok (fst (Runner.emit Options World call r s w))
  end.

(** The frame of [render(t,r)] once the options are normalised:
    [s.container.visible&&(s.container.enableRenderGroup(),
       this.runners.prerender.emit(s),this.runners.renderStart.emit(s),
       this.runners.render.emit(s),this.runners.renderEnd.emit(s),
       this.runners.postrender.emit(s))] *)
Variable visible : Options -> World -> bool.
Variable enableRenderGroup : Options -> World -> World.

Definition render (R : renderer) (s : Options) (w : World) : result World :=
  if visible s w then
    let w := enableRenderGroup s w in
    bind (emit_runner R "prerender" s w) (fun w =>
    bind (emit_runner R "renderStart" s w) (fun w =>
    bind (emit_runner R "render" s w) (fun w =>
    bind (emit_runner R "renderEnd" s w) (fun w =>
    emit_runner R "postrender" s w))))
  else Ok w.

End Frame.

End Renderer.

(** ** Instruction sets *)

Module InstructionSet.

(** A batchable element as the pipes hand it to a batcher: the renderable
    it draws, its draw-state key and the texture it samples
    ([_initGPUSprite] fills [renderable] and [texture]; [batcherName]
    selects the batcher). *)
Record batchable := mkBatchable {
  renderable : nat;
  batcherName : string;
  texture : nat
}.

(** The actions of the stencil mask pipe. *)
Inductive mask_action := pushMaskBegin | pushMaskEnd | popMaskBegin | popMaskEnd.

(** The instructions the pipes of this chunk put into a set. *)
Inductive instruction :=
| Batch (batcher : string) (elements : list batchable)
    (* {renderPipeId:"batch", action:"startBatch", ...}, one closed batch *)
| ColorMask (colorMask : option Z)
    (* {renderPipeId:"colorMask", colorMask, canBundle:false} *)
| StencilMask (action : mask_action) (inverse : bool)
    (* {renderPipeId:"stencilMask", action, inverse, canBundle:false} *)
| Renderable (renderPipeId : string) (handle : nat).
    (* a renderable or render group added as its own instruction *)

(** [instructions] holds the live entries of the set, the first
    [instructionSize] slots of the JavaScript array; [N] and the pipes
    only ever read those. *)
Record t := mkSet {
  uid : nat;
  instructions : list instruction;
  gcTick : Z
}.

Definition instructionSize (s : t) : nat := length (instructions s).

(** [add(i)]: [this.instructions[this.instructionSize++]=i].  The method
    is the instruction-set class's; [Q.pop] below writes the same slot
    by hand. *)
Definition add (s : t) (i : instruction) : t :=
  {| uid := uid s; instructions := instructions s ++ [i]; gcTick := gcTick s |}.

(** [reset()]: [instructionSize=0]. *)
Definition reset (s : t) : t :=
  {| uid := uid s; instructions := []; gcTick := gcTick s |}.

Definition set_gcTick (x : Z) (s : t) : t :=
  {| uid := uid s; instructions := instructions s; gcTick := x |}.

End InstructionSet.

(** ** The batcher behind the pipe *)

Module Batcher.
Import InstructionSet.

(** Modelled from the spec: the batcher class [Pe] and the batchers
    registered by name are imported from the sibling chunk and are not
    part of these sources.  Following section 4.3 and the glossary, a
    batcher accumulates the elements added to it; [break] closes the run
    accumulated since the last break and emits it as batches, a batch
    being a contiguous run of elements that fits the texture slots: a
    run that needs more textures than [maxTextures] is split where the
    bound would be exceeded.  A break with nothing accumulated closes no
    run and emits nothing.  [maxTextures] is the bound the batcher was
    constructed with: the option [maxTextures] when the constructor is
    given one, the bound of its class otherwise. *)
Record batcher := mkBatcher {
  name : string;
  maxTextures : nat;
  elements : list batchable;
  elementStart : nat
}.

(** [new Batcher({maxTextures})] *)
Definition new (n : string) (maxTextures : nat) : batcher :=
  {| name := n; maxTextures := maxTextures; elements := []; elementStart := 0 |}.

(** [begin()] *)
Definition begin (b : batcher) : batcher :=
  {| name := name b; maxTextures := maxTextures b; elements := []; elementStart := 0 |}.

(** [add(e)] *)
Definition add (b : batcher) (e : batchable) : batcher :=
  {| name := name b; maxTextures := maxTextures b;
     elements := elements b ++ [e]; elementStart := elementStart b |}.

Definition close (cur : list batchable) : list (list batchable) :=
  match cur with [] => [] | _ => [cur] end.

(** The split of a run into batches: [cur] is the open batch and [texs]
    the textures it has bound. *)
Fixpoint split_run (maxTextures : nat) (cur : list batchable) (texs : list nat)
    (run : list batchable) : list (list batchable) :=
  match run with
  | [] => close cur
  | e :: run' =>
      if existsb (Nat.eqb (texture e)) texs
      then split_run maxTextures (cur ++ [e]) texs run'
      else if (length texs <? maxTextures)%nat
      then split_run maxTextures (cur ++ [e]) (texs ++ [texture e]) run'
      else close cur ++ split_run maxTextures [e] [texture e] run'
  end.

(** [break(instructionSet)] *)
Definition break (b : batcher) (s : InstructionSet.t) : batcher * InstructionSet.t :=
  let run := drop (elementStart b) (elements b) in
  ({| name := name b; maxTextures := maxTextures b;
      elements := elements b; elementStart := length (elements b) |},
   fold_left InstructionSet.add
     (map (Batch (name b)) (split_run (maxTextures b) [] [] run)) s).

End Batcher.

(** ** The batcher pipe (class [Ue]) *)

Module BatcherPipe.
Import InstructionSet.

(** [_activeBatches] is the very object stored in
    [_batchersByInstructionSet] under the uid of the set being built, and
    [_activeBatch] one of its members: both are kept as keys into the
    store, so that a write through one name is seen through the other. *)
Record pipe := mkPipe {
  _availableBatchers : gmap string nat;
    (* the registered batcher classes by name, each known by the texture
       bound of the batchers it makes when constructed without options *)
  maxBatchableTextures : nat;           (* renderer.limits.maxBatchableTextures *)
  _batchersByInstructionSet : gmap nat (gmap string Batcher.batcher);
  _activeBatches : option nat;
  _activeBatch : option string
}.

Definition set_store (p : pipe) (m : gmap nat (gmap string Batcher.batcher)) : pipe :=
  {| _availableBatchers := _availableBatchers p;
     maxBatchableTextures := maxBatchableTextures p;
     _batchersByInstructionSet := m;
     _activeBatches := _activeBatches p;
     _activeBatch := _activeBatch p |}.

(** The batchers of the set being built. *)
Definition activeBatches (p : pipe) : option (gmap string Batcher.batcher) :=
  match _activeBatches p with
  | Some u => _batchersByInstructionSet p !! u
  | None => None
  end.

(** The batcher [this._activeBatch] points to. *)
Definition activeBatch (p : pipe) : option Batcher.batcher :=
  match activeBatches p, _activeBatch p with
  | Some m, Some k => m !! k
  | _, _ => None
  end.

(** [static getBatcher(e){return new this._availableBatchers[e]}]: the
    class registered under [e] is constructed without options, so the
    limit of the renderer does not reach the batcher; there is no
    constructor to call when no class is registered under [e]. *)
Definition getBatcher (p : pipe) (e : string) : option Batcher.batcher :=
  match _availableBatchers p !! e with
  | Some maxTextures => Some (Batcher.new e maxTextures)
  | None => None
  end.

(** [buildStart(e)]: the batchers of the set are fetched, or created with
    the default batcher, which is the one batcher that is given
    [renderer.limits.maxBatchableTextures]; all of them begin, and the
    default one becomes the active batch. *)
Definition buildStart (p : pipe) (e : InstructionSet.t) : pipe :=
  let t := match _batchersByInstructionSet p !! uid e with
           | Some t => t
           | None => {[ "default" := Batcher.new "default" (maxBatchableTextures p) ]}
           end in
  {| _availableBatchers := _availableBatchers p;
     maxBatchableTextures := maxBatchableTextures p;
     _batchersByInstructionSet :=
       <[uid e := Batcher.begin <$> t]> (_batchersByInstructionSet p);
     _activeBatches := Some (uid e);
     _activeBatch := Some "default" |}.

(** Writes the batcher [b] back under the key [k] of the active set. *)
Definition store_batcher (p : pipe) (k : string) (b : Batcher.batcher) : pipe :=
  match _activeBatches p, activeBatches p with
  | Some u, Some m => set_store p (<[u := <[k := b]> m]> (_batchersByInstructionSet p))
  | _, _ => p
  end.

(** [break(e){this._activeBatch.break(e)}]; [None] stands for the
    TypeError of a call on an undefined active batch. *)
Definition break (p : pipe) (e : InstructionSet.t) : option (pipe * InstructionSet.t) :=
  match activeBatch p, _activeBatch p with
  | Some b, Some k =>
      let '(b', e') := Batcher.break b e in Some (store_batcher p k b', e')
  | _, _ => None
  end.

(** [addToBatch(e,t){if(this._activeBatch.name!==e.batcherName){
       this._activeBatch.break(t);
       let r=this._activeBatches[e.batcherName];
       r||(r=this._activeBatches[e.batcherName]=nt.getBatcher(e.batcherName),
           r.begin()),
       this._activeBatch=r}
     this._activeBatch.add(e)}] *)
Definition addToBatch (p : pipe) (e : batchable) (t : InstructionSet.t)
    : option (pipe * InstructionSet.t) :=
  match activeBatch p with
  | None => None
  | Some b =>
      if negb (String.eqb (Batcher.name b) (batcherName e)) then
        match break p t with
        | None => None
        | Some (p1, t1) =>
            match activeBatches p1 with
            | None => None
            | Some m =>
                let switch (p2 : pipe) (r : Batcher.batcher) :=
                  let p3 := {| _availableBatchers := _availableBatchers p2;
                               maxBatchableTextures := maxBatchableTextures p2;
                               _batchersByInstructionSet := _batchersByInstructionSet p2;
                               _activeBatches := _activeBatches p2;
                               _activeBatch := Some (batcherName e) |} in
                  Some (store_batcher p3 (batcherName e) (Batcher.add r e), t1) in
                match m !! batcherName e with
                | Some r => switch p1 r
                | None =>
                    match getBatcher p1 (batcherName e) with
                    | None => None
                    | Some r =>
                        switch (store_batcher p1 (batcherName e) (Batcher.begin r))
                               (Batcher.begin r)
                    end
                end
            end
        end
      else
        match _activeBatch p with
        | Some k => Some (store_batcher p k (Batcher.add b e), t)
        | None => None
        end
  end.

(** [buildEnd(e){this._activeBatch.break(e); ...}]: after the last break
    the geometry buffers of every batcher are sized, which changes
    nothing the instruction set can see. *)
Definition buildEnd (p : pipe) (e : InstructionSet.t) : option (pipe * InstructionSet.t) :=
  break p e.

(** A whole build: [buildStart], one [addToBatch] per element in order,
    [buildEnd]. *)
Fixpoint addAll (p : pipe) (es : list batchable) (t : InstructionSet.t)
    : option (pipe * InstructionSet.t) :=
  match es with
  | [] => Some (p, t)
  | e :: es' =>
      match addToBatch p e t with
      | Some (p', t') => addAll p' es' t'
      | None => None
      end
  end.

Definition build (p : pipe) (es : list batchable) (t : InstructionSet.t)
    : option (pipe * InstructionSet.t) :=
  match addAll (buildStart p t) es t with
  | Some (p', t') => buildEnd p' t'
  | None => None
  end.

(** The batches of an instruction set, as (batcher, size) pairs. *)
Definition batches (t : InstructionSet.t) : list (string * nat) :=
  flat_map (fun i => match i with
                     | Batch n es => [(n, length es)]
                     | _ => []
                     end) (instructions t).

(** Adjacent elements whose draw-state keys differ. *)
Fixpoint transitions (es : list batchable) : nat :=
  match es with
  | e1 :: ((e2 :: _) as rest) =>
      (if String.eqb (batcherName e1) (batcherName e2) then 0 else 1) + transitions rest
  | _ => 0
  end%nat.

(** The maximal runs of adjacent elements with one draw-state key: [cur]
    is the run being read and [k] its key. *)
Fixpoint runs_from (cur : list batchable) (k : string) (es : list batchable)
    : list (list batchable) :=
  match es with
  | [] => Batcher.close cur
  | e :: es' =>
      if String.eqb k (batcherName e)
      then runs_from (cur ++ [e]) k es'
      else Batcher.close cur ++ runs_from [e] (batcherName e) es'
  end.

Definition runs (es : list batchable) : list (list batchable) :=
  match es with
  | [] => []
  | e :: es' => runs_from [e] (batcherName e) es'
  end.

Definition run_key (r : list batchable) : string :=
  match r with
  | e :: _ => batcherName e
  | [] => EmptyString
  end.

(** A run fits the texture slots when it samples no more than
    [maxTextures] different textures. *)
Definition fits (maxTextures : nat) (r : list batchable) : Prop :=
  (length (remove_dups (map texture r)) <= maxTextures)%nat.

(** The texture bound of the batcher that a build of the set [u] uses
    for the key [k]: the bound of the batcher the set has under [k];
    when it has none, the bound of the default batcher that [buildStart]
    makes for a set without batchers, or of the batcher that [getBatcher]
    makes.  [None]: the pipe finds no batcher for [k]. *)
Definition limit (p : pipe) (u : nat) (k : string) : option nat :=
  match _batchersByInstructionSet p !! u with
  | Some m =>
      match m !! k with
      | Some b => Some (Batcher.maxTextures b)
      | None => _availableBatchers p !! k
      end
  | None =>
      if String.eqb k "default" then Some (maxBatchableTextures p)
      else _availableBatchers p !! k
  end.

(** The bound as a number, 0 where there is no batcher. *)
Definition slots (p : pipe) (u : nat) (k : string) : nat :=
  default 0%nat (limit p u k).

(** The batches that a batcher with the bound of its key makes of a
    run. *)
Definition batches_of_run (p : pipe) (u : nat) (r : list batchable) : list instruction :=
  map (Batch (run_key r)) (Batcher.split_run (slots p u (run_key r)) [] [] r).

(** The shape of the batcher store between builds: every set has its
    default batcher, and a batcher sits under its own name. *)
Definition well_formed (p : pipe) : Prop :=
  forall u m, _batchersByInstructionSet p !! u = Some m ->
    is_Some (m !! "default")
    /\ forall k b, m !! k = Some b -> Batcher.name b = k.

(** A pipe as constructed, with the batcher classes registered. *)
Definition new (available : gmap string nat) (maxBatchableTextures : nat) : pipe :=
  {| _availableBatchers := available;
     maxBatchableTextures := maxBatchableTextures;
     _batchersByInstructionSet := ∅;
     _activeBatches := None;
     _activeBatch := None |}.

(** The scenario of the spec: three elements with one key, one with
    another, two more with the first key, all sampling one texture. *)
Definition scenario_3_1_2 : list batchable :=
  [mkBatchable 1 "A" 0; mkBatchable 2 "A" 0; mkBatchable 3 "A" 0;
   mkBatchable 4 "B" 0;
   mkBatchable 5 "A" 0; mkBatchable 6 "A" 0].

(** Two elements with the key B and textures of their own, behind two
    with the default key and textures of their own. *)
Definition scenario_two_bounds : list batchable :=
  [mkBatchable 1 "default" 1; mkBatchable 2 "default" 2;
   mkBatchable 3 "B" 3; mkBatchable 4 "B" 4].

(** Seventeen elements with one key, each with a texture of its own. *)
Definition seventeen_textures : list batchable :=
  map (fun i => mkBatchable i "default" i) (seq 0 17).

End BatcherPipe.

(** ** 32-bit integers of the bitwise operators *)

Module Int32.

(** [ToInt32] of an integral number: wrap into [-2^31, 2^31). *)
Definition toInt32 (z : Z) : Z := (z + 2 ^ 31) mod 2 ^ 32 - 2 ^ 31.

(** [ToInt32(undefined)] is 0. *)
Definition ofValue (v : option Z) : Z :=
  match v with Some z => toInt32 z | None => 0 end.

(** [a & b] *)
Definition and (a b : option Z) : Z := Z.land (ofValue a) (ofValue b).

(** [a & b] and [a | b] on numbers. *)
Definition land (a b : Z) : Z := Z.land (toInt32 a) (toInt32 b).
Definition lor (a b : Z) : Z := Z.lor (toInt32 a) (toInt32 b).

(** [a << n] *)
Definition shl (a : Z) (n : Z) : Z := toInt32 (Z.shiftl (toInt32 a) (Z.land n 31)).

End Int32.

(** ** The colour mask pipe (class [J]) *)

Module ColorMaskPipe.
Import InstructionSet.

(** [_colorStack] is an array written slot by slot; a slot that was never
    written reads [undefined], and so does [_currentColor] once it was
    assigned from such a slot. *)
Record pipe := mkPipe {
  _colorStack : gmap Z Z;
  _colorStackIndex : Z;
  _currentColor : option Z
}.

(** [constructor(e){this._colorStack=[],this._colorStackIndex=0,
      this._currentColor=0,...}] *)
Definition new : pipe :=
  {| _colorStack := ∅; _colorStackIndex := 0; _currentColor := Some 0 |}.

(** [buildStart(){this._colorStack[0]=15,this._colorStackIndex=1,
      this._currentColor=15}] *)
Definition buildStart (c : pipe) : pipe :=
  {| _colorStack := <[0 := 15]> (_colorStack c);
     _colorStackIndex := 1;
     _currentColor := Some 15 |}.

(** [a!==this._currentColor] *)
Definition differs (a b : option Z) : bool :=
  match a, b with
  | Some x, Some y => negb (x =? y)
  | None, None => false
  | _, _ => true
  end.

(** [push(e,t,r){this._renderer.renderPipes.batch.break(r);
      let i=this._colorStack;
      i[this._colorStackIndex]=i[this._colorStackIndex-1]&e.mask;
      let a=this._colorStack[this._colorStackIndex];
      a!==this._currentColor&&(this._currentColor=a,
        r.add({renderPipeId:"colorMask",colorMask:a,canBundle:!1})),
      this._colorStackIndex++}] *)
Definition push (c : pipe) (b : BatcherPipe.pipe) (mask : Z) (r : InstructionSet.t)
    : option (pipe * BatcherPipe.pipe * InstructionSet.t) :=
  match BatcherPipe.break b r with
  | None => None
  | Some (b', r') =>
      let idx := _colorStackIndex c in
      let i := <[idx := Int32.and (_colorStack c !! (idx - 1)) (Some mask)]> (_colorStack c) in
      let a := i !! idx in
      if differs a (_currentColor c)
      then Some ({| _colorStack := i; _colorStackIndex := idx + 1; _currentColor := a |},
                 b', InstructionSet.add r' (ColorMask a))
      else Some ({| _colorStack := i; _colorStackIndex := idx + 1;
                    _currentColor := _currentColor c |}, b', r')
  end.

(** [pop(e,t,r){this._renderer.renderPipes.batch.break(r);
      let i=this._colorStack;this._colorStackIndex--;
      let a=i[this._colorStackIndex-1];
      a!==this._currentColor&&(this._currentColor=a,
        r.add({renderPipeId:"colorMask",colorMask:a,canBundle:!1}))}] *)
Definition pop (c : pipe) (b : BatcherPipe.pipe) (r : InstructionSet.t)
    : option (pipe * BatcherPipe.pipe * InstructionSet.t) :=
  match BatcherPipe.break b r with
  | None => None
  | Some (b', r') =>
      let idx := _colorStackIndex c - 1 in
      let a := _colorStack c !! (idx - 1) in
      if differs a (_currentColor c)
      then Some ({| _colorStack := _colorStack c; _colorStackIndex := idx;
                    _currentColor := a |}, b', InstructionSet.add r' (ColorMask a))
      else Some ({| _colorStack := _colorStack c; _colorStackIndex := idx;
                    _currentColor := _currentColor c |}, b', r')
  end.

(** The calls the instruction builder makes for colour-mask effects. *)
Inductive op := Push (mask : Z) | Pop.

Definition step (s : pipe * BatcherPipe.pipe * InstructionSet.t) (o : op)
    : option (pipe * BatcherPipe.pipe * InstructionSet.t) :=
  let '(c, b, r) := s in
  match o with
  | Push mask => push c b mask r
  | Pop => pop c b r
  end.

Fixpoint run (s : pipe * BatcherPipe.pipe * InstructionSet.t) (os : list op)
    : option (pipe * BatcherPipe.pipe * InstructionSet.t) :=
  match os with
  | [] => Some s
  | o :: os' =>
      match step s o with
      | Some s' => run s' os'
      | None => None
      end
  end.

(** The colour-mask instructions of a set, in order. *)
Definition colorMasks (r : InstructionSet.t) : list (option Z) :=
  flat_map (fun i => match i with ColorMask a => [a] | _ => [] end) (instructions r).

(** The top of the stack: [_colorStack[_colorStackIndex-1]]. *)
Definition top (c : pipe) : option Z := _colorStack c !! (_colorStackIndex c - 1).

(** *** What the stack stands for *)

(** The masks that are pushed and not yet popped, outermost first, after
    a sequence of calls; [None] when a [pop] has no [push] to undo. *)
Fixpoint open_masks (open : list Z) (os : list op) : option (list Z) :=
  match os with
  | [] => Some open
  | Push m :: os' => open_masks (open ++ [m]) os'
  | Pop :: os' =>
      match open with
      | [] => None
      | _ => open_masks (removelast open) os'
      end
  end.

(** The bitwise AND of the full mask 15 with every open mask. *)
Definition effective (open : list Z) : Z :=
  fold_left (fun a m => Z.land a (Int32.toInt32 m)) open 15.

(** The effective mask after every call, one value per call. *)
Fixpoint effective_trace (open : list Z) (os : list op) : list Z :=
  match os with
  | [] => []
  | Push m :: os' => effective (open ++ [m]) :: effective_trace (open ++ [m]) os'
  | Pop :: os' => effective (removelast open) :: effective_trace (removelast open) os'
  end.

(** The values of a trace that differ from the value before them. *)
Fixpoint changes (cur : Z) (trace : list Z) : list Z :=
  match trace with
  | [] => []
  | a :: trace' => (if a =? cur then [] else [a]) ++ changes a trace'
  end.

(** A build in which a full mask, a mask 5 and a mask 7 are pushed and
    popped again, on a batcher pipe that has started the set. *)
Definition sample_ops : list op := [Push 15; Push 5; Push 7; Pop; Pop; Pop].

Definition started_batch : BatcherPipe.pipe :=
  BatcherPipe.buildStart (BatcherPipe.new {[ "default" := 16%nat ]} 16) (mkSet 1 [] 0).

End ColorMaskPipe.

(** ** The stencil mask pipe (class [Q]) *)

Module StencilMaskPipe.
Import InstructionSet.

(** The stencil modes named by this chunk ([m.DISABLED], ...). *)
Inductive STENCIL_MODES :=
| DISABLED
| RENDERING_MASK_ADD
| MASK_ACTIVE
| INVERSE_MASK_ACTIVE
| RENDERING_MASK_REMOVE
| NONE.

(** [y.STENCIL] of the clear flags. *)
Definition STENCIL : Z := 1024.

(** What [execute] asks of the other systems of the renderer. *)
Inductive backend_call :=
| ensureDepthStencil                          (* renderTarget.ensureDepthStencil() *)
| setStencilMode (mode : STENCIL_MODES) (ref : Z) (* stencil.setStencilMode(mode,ref) *)
| setMask (mask : Z)                          (* colorMask.setMask(mask) *)
| clear (clearMask : Z).                      (* renderTarget.clear(null,clearMask) *)

Record pipe := mkPipe {
  _maskStackHash : gmap nat Z;
  calls : list backend_call
}.

(** [this._maskStackHash[s]??0]: the reference count of a render target. *)
Definition count (q : pipe) (s : nat) : Z :=
  match _maskStackHash q !! s with Some i => i | None => 0 end.

(** [execute(e)], with [s] the uid of the bound render target:
    [let i=(t=this._maskStackHash)[s]??(t[s]=0);
     e.action==="pushMaskBegin"?(ensureDepthStencil(),
         setStencilMode(RENDERING_MASK_ADD,i),i++,setMask(0))
     :e.action==="pushMaskEnd"?(e.inverse?setStencilMode(INVERSE_MASK_ACTIVE,i)
         :setStencilMode(MASK_ACTIVE,i),setMask(15))
     :e.action==="popMaskBegin"?(setMask(0),
         i!==0?setStencilMode(RENDERING_MASK_REMOVE,i)
              :(clear(null,STENCIL),setStencilMode(DISABLED,i)),i--)
     :e.action==="popMaskEnd"&&(e.inverse?setStencilMode(INVERSE_MASK_ACTIVE,i)
         :setStencilMode(MASK_ACTIVE,i),setMask(15)),
     this._maskStackHash[s]=i] *)
Definition execute (s : nat) (q : pipe) (e : instruction) : pipe :=
  let i := count q s in
  let active (inverse : bool) :=
    [setStencilMode (if inverse then INVERSE_MASK_ACTIVE else MASK_ACTIVE) i; setMask 15] in
  let '(i', cs) :=
    match e with
    | StencilMask pushMaskBegin _ =>
        (i + 1, [ensureDepthStencil; setStencilMode RENDERING_MASK_ADD i; setMask 0])
    | StencilMask pushMaskEnd inverse => (i, active inverse)
    | StencilMask popMaskBegin _ =>
        (i - 1,
         setMask 0 ::
         (if negb (i =? 0) then [setStencilMode RENDERING_MASK_REMOVE i]
          else [clear STENCIL; setStencilMode DISABLED i]))
    | StencilMask popMaskEnd inverse => (i, active inverse)
    | _ => (i, [])
    end in
  {| _maskStackHash := <[s := i']> (_maskStackHash q); calls := calls q ++ cs |}.

(** The stencil instructions of a set run in order against one target. *)
Definition run (s : nat) (q : pipe) (es : list instruction) : pipe :=
  fold_left (execute s) es q.

(** A sequence is balanced when every [popMaskBegin] has an earlier
    [pushMaskBegin] of its own and none is left open: [d] counts the
    masks open so far. *)
Fixpoint balanced_from (d : nat) (es : list instruction) : bool :=
  match es with
  | [] => Nat.eqb d 0
  | StencilMask pushMaskBegin _ :: es' => balanced_from (S d) es'
  | StencilMask popMaskBegin _ :: es' =>
      match d with
      | O => false
      | S d' => balanced_from d' es'
      end
  | _ :: es' => balanced_from d es'
  end.

Definition balanced (es : list instruction) : bool := balanced_from 0 es.

(** Mask A, mask B inside it, both popped in reverse order. *)
Definition nested_A_B : list instruction :=
  [StencilMask pushMaskBegin false; StencilMask pushMaskEnd false;
   StencilMask pushMaskBegin false; StencilMask pushMaskEnd false;
   StencilMask popMaskBegin false; StencilMask popMaskEnd false;
   StencilMask popMaskBegin false; StencilMask popMaskEnd false].

End StencilMaskPipe.

(** ** Numbers *)

Module Number.

(** A JavaScript number is an IEEE 754 binary64 value. *)
Definition number := spec_float.

Definition prec : Z := 53.
Definition emax : Z := 1024.

Definition mul : number -> number -> number := SFmul prec emax.
Definition sub : number -> number -> number := SFsub prec emax.
Definition div : number -> number -> number := SFdiv prec emax.

(** [x<y] and [x>y]; both are false when an operand is NaN. *)
Definition ltb : number -> number -> bool := SFltb.
Definition gtb (x y : number) : bool := SFltb y x.

(** [x===y] on numbers. *)
Definition eqb : number -> number -> bool := SFeqb.

(** The number written as an integer literal, and as a decimal literal
    [a/b]: the binary64 value nearest to it. *)
Definition ofZ (z : Z) : number := binary_normalize prec emax z 0 false.
Definition ratio (a b : Z) : number := div (ofZ a) (ofZ b).

Definition zero : number := ofZ 0.
Definition one : number := ofZ 1.

(** The integer part of a finite number, toward zero; 0 for NaN and the
    infinities, as in [ToInt32]. *)
Definition truncate (x : number) : Z :=
  match x with
  | S754_finite s m e =>
      let v := if 0 <=? e then Zpos m * 2 ^ e else Zpos m / 2 ^ (- e) in
      if s then - v else v
  | _ => 0
  end.

(** [x|0] *)
Definition toInt32 (x : number) : Z := Int32.toInt32 (truncate x).

(** [t<0?0:t>1?1:t] *)
Definition clamp01 (t : number) : number :=
  if ltb t zero then zero else if gtb t one then one else t.

(** [(t*255|0)<<24] *)
Definition alphaBits (t : number) : Z := Int32.shl (toInt32 (mul t (ofZ 255))) 24.

End Number.

(** ** Matrices *)

Module Matrix.
Import Number.

(** The six entries of a 2D affine matrix. *)
Record t := mk { a : number; b : number; c : number; d : number;
                 tx : number; ty : number }.

Definition identity : t := mk one zero zero one zero zero.

End Matrix.

(** ** The scene: containers and render groups *)

Module Container.
Import Number.

Record t := mk {
  parent : option nat;  (* the parent container *)
  children : list nat;
  sortableChildren : bool;
  renderGroup : option nat;  (* its own render group, when it is the root of one *)
  parentRenderGroup : option nat;  (* the render group it belongs to *)
  relativeRenderGroupDepth : Z;
  renderPipeId : option string;  (* set on renderables *)
  updateTick : Z;
  didChange : bool;
  didViewUpdate : bool;
  _updateFlags : Z;
  localTransform : Matrix.t;
  relativeGroupTransform : Matrix.t;
  localColor : Z;
  groupColor : Z;
  localAlpha : number;
  groupAlpha : number;
  groupColorAlpha : Z;
  localBlendMode : string;
  groupBlendMode : string;
  localDisplayStatus : Z;
  globalDisplayStatus : Z;
  destroyed : bool;
  _lastUsed : number  (* stamp of the renderable collector *)
}.

Definition set_parent (x : option nat) (o : t) : t :=
  {| parent := x; children := children o;
     sortableChildren := sortableChildren o; renderGroup := renderGroup o;
     parentRenderGroup := parentRenderGroup o;
     relativeRenderGroupDepth := relativeRenderGroupDepth o;
     renderPipeId := renderPipeId o; updateTick := updateTick o;
     didChange := didChange o; didViewUpdate := didViewUpdate o;
     _updateFlags := _updateFlags o; localTransform := localTransform o;
     relativeGroupTransform := relativeGroupTransform o;
     localColor := localColor o; groupColor := groupColor o;
     localAlpha := localAlpha o; groupAlpha := groupAlpha o;
     groupColorAlpha := groupColorAlpha o;
     localBlendMode := localBlendMode o; groupBlendMode := groupBlendMode o;
     localDisplayStatus := localDisplayStatus o;
     globalDisplayStatus := globalDisplayStatus o; destroyed := destroyed o;
     _lastUsed := _lastUsed o |}.

Definition set_updateTick (x : Z) (o : t) : t :=
  {| parent := parent o; children := children o;
     sortableChildren := sortableChildren o; renderGroup := renderGroup o;
     parentRenderGroup := parentRenderGroup o;
     relativeRenderGroupDepth := relativeRenderGroupDepth o;
     renderPipeId := renderPipeId o; updateTick := x;
     didChange := didChange o; didViewUpdate := didViewUpdate o;
     _updateFlags := _updateFlags o; localTransform := localTransform o;
     relativeGroupTransform := relativeGroupTransform o;
     localColor := localColor o; groupColor := groupColor o;
     localAlpha := localAlpha o; groupAlpha := groupAlpha o;
     groupColorAlpha := groupColorAlpha o;
     localBlendMode := localBlendMode o; groupBlendMode := groupBlendMode o;
     localDisplayStatus := localDisplayStatus o;
     globalDisplayStatus := globalDisplayStatus o; destroyed := destroyed o;
     _lastUsed := _lastUsed o |}.

Definition set_didChange (x : bool) (o : t) : t :=
  {| parent := parent o; children := children o;
     sortableChildren := sortableChildren o; renderGroup := renderGroup o;
     parentRenderGroup := parentRenderGroup o;
     relativeRenderGroupDepth := relativeRenderGroupDepth o;
     renderPipeId := renderPipeId o; updateTick := updateTick o;
     didChange := x; didViewUpdate := didViewUpdate o;
     _updateFlags := _updateFlags o; localTransform := localTransform o;
     relativeGroupTransform := relativeGroupTransform o;
     localColor := localColor o; groupColor := groupColor o;
     localAlpha := localAlpha o; groupAlpha := groupAlpha o;
     groupColorAlpha := groupColorAlpha o;
     localBlendMode := localBlendMode o; groupBlendMode := groupBlendMode o;
     localDisplayStatus := localDisplayStatus o;
     globalDisplayStatus := globalDisplayStatus o; destroyed := destroyed o;
     _lastUsed := _lastUsed o |}.

Definition set_didViewUpdate (x : bool) (o : t) : t :=
  {| parent := parent o; children := children o;
     sortableChildren := sortableChildren o; renderGroup := renderGroup o;
     parentRenderGroup := parentRenderGroup o;
     relativeRenderGroupDepth := relativeRenderGroupDepth o;
     renderPipeId := renderPipeId o; updateTick := updateTick o;
     didChange := didChange o; didViewUpdate := x;
     _updateFlags := _updateFlags o; localTransform := localTransform o;
     relativeGroupTransform := relativeGroupTransform o;
     localColor := localColor o; groupColor := groupColor o;
     localAlpha := localAlpha o; groupAlpha := groupAlpha o;
     groupColorAlpha := groupColorAlpha o;
     localBlendMode := localBlendMode o; groupBlendMode := groupBlendMode o;
     localDisplayStatus := localDisplayStatus o;
     globalDisplayStatus := globalDisplayStatus o; destroyed := destroyed o;
     _lastUsed := _lastUsed o |}.

Definition set_updateFlags (x : Z) (o : t) : t :=
  {| parent := parent o; children := children o;
     sortableChildren := sortableChildren o; renderGroup := renderGroup o;
     parentRenderGroup := parentRenderGroup o;
     relativeRenderGroupDepth := relativeRenderGroupDepth o;
     renderPipeId := renderPipeId o; updateTick := updateTick o;
     didChange := didChange o; didViewUpdate := didViewUpdate o;
     _updateFlags := x; localTransform := localTransform o;
     relativeGroupTransform := relativeGroupTransform o;
     localColor := localColor o; groupColor := groupColor o;
     localAlpha := localAlpha o; groupAlpha := groupAlpha o;
     groupColorAlpha := groupColorAlpha o;
     localBlendMode := localBlendMode o; groupBlendMode := groupBlendMode o;
     localDisplayStatus := localDisplayStatus o;
     globalDisplayStatus := globalDisplayStatus o; destroyed := destroyed o;
     _lastUsed := _lastUsed o |}.

Definition set_localTransform (x : Matrix.t) (o : t) : t :=
  {| parent := parent o; children := children o;
     sortableChildren := sortableChildren o; renderGroup := renderGroup o;
     parentRenderGroup := parentRenderGroup o;
     relativeRenderGroupDepth := relativeRenderGroupDepth o;
     renderPipeId := renderPipeId o; updateTick := updateTick o;
     didChange := didChange o; didViewUpdate := didViewUpdate o;
     _updateFlags := _updateFlags o; localTransform := x;
     relativeGroupTransform := relativeGroupTransform o;
     localColor := localColor o; groupColor := groupColor o;
     localAlpha := localAlpha o; groupAlpha := groupAlpha o;
     groupColorAlpha := groupColorAlpha o;
     localBlendMode := localBlendMode o; groupBlendMode := groupBlendMode o;
     localDisplayStatus := localDisplayStatus o;
     globalDisplayStatus := globalDisplayStatus o; destroyed := destroyed o;
     _lastUsed := _lastUsed o |}.

Definition set_relativeGroupTransform (x : Matrix.t) (o : t) : t :=
  {| parent := parent o; children := children o;
     sortableChildren := sortableChildren o; renderGroup := renderGroup o;
     parentRenderGroup := parentRenderGroup o;
     relativeRenderGroupDepth := relativeRenderGroupDepth o;
     renderPipeId := renderPipeId o; updateTick := updateTick o;
     didChange := didChange o; didViewUpdate := didViewUpdate o;
     _updateFlags := _updateFlags o; localTransform := localTransform o;
     relativeGroupTransform := x; localColor := localColor o;
     groupColor := groupColor o; localAlpha := localAlpha o;
     groupAlpha := groupAlpha o; groupColorAlpha := groupColorAlpha o;
     localBlendMode := localBlendMode o; groupBlendMode := groupBlendMode o;
     localDisplayStatus := localDisplayStatus o;
     globalDisplayStatus := globalDisplayStatus o; destroyed := destroyed o;
     _lastUsed := _lastUsed o |}.

Definition set_groupColor (x : Z) (o : t) : t :=
  {| parent := parent o; children := children o;
     sortableChildren := sortableChildren o; renderGroup := renderGroup o;
     parentRenderGroup := parentRenderGroup o;
     relativeRenderGroupDepth := relativeRenderGroupDepth o;
     renderPipeId := renderPipeId o; updateTick := updateTick o;
     didChange := didChange o; didViewUpdate := didViewUpdate o;
     _updateFlags := _updateFlags o; localTransform := localTransform o;
     relativeGroupTransform := relativeGroupTransform o;
     localColor := localColor o; groupColor := x; localAlpha := localAlpha o;
     groupAlpha := groupAlpha o; groupColorAlpha := groupColorAlpha o;
     localBlendMode := localBlendMode o; groupBlendMode := groupBlendMode o;
     localDisplayStatus := localDisplayStatus o;
     globalDisplayStatus := globalDisplayStatus o; destroyed := destroyed o;
     _lastUsed := _lastUsed o |}.

Definition set_groupAlpha (x : number) (o : t) : t :=
  {| parent := parent o; children := children o;
     sortableChildren := sortableChildren o; renderGroup := renderGroup o;
     parentRenderGroup := parentRenderGroup o;
     relativeRenderGroupDepth := relativeRenderGroupDepth o;
     renderPipeId := renderPipeId o; updateTick := updateTick o;
     didChange := didChange o; didViewUpdate := didViewUpdate o;
     _updateFlags := _updateFlags o; localTransform := localTransform o;
     relativeGroupTransform := relativeGroupTransform o;
     localColor := localColor o; groupColor := groupColor o;
     localAlpha := localAlpha o; groupAlpha := x;
     groupColorAlpha := groupColorAlpha o;
     localBlendMode := localBlendMode o; groupBlendMode := groupBlendMode o;
     localDisplayStatus := localDisplayStatus o;
     globalDisplayStatus := globalDisplayStatus o; destroyed := destroyed o;
     _lastUsed := _lastUsed o |}.

Definition set_groupColorAlpha (x : Z) (o : t) : t :=
  {| parent := parent o; children := children o;
     sortableChildren := sortableChildren o; renderGroup := renderGroup o;
     parentRenderGroup := parentRenderGroup o;
     relativeRenderGroupDepth := relativeRenderGroupDepth o;
     renderPipeId := renderPipeId o; updateTick := updateTick o;
     didChange := didChange o; didViewUpdate := didViewUpdate o;
     _updateFlags := _updateFlags o; localTransform := localTransform o;
     relativeGroupTransform := relativeGroupTransform o;
     localColor := localColor o; groupColor := groupColor o;
     localAlpha := localAlpha o; groupAlpha := groupAlpha o;
     groupColorAlpha := x; localBlendMode := localBlendMode o;
     groupBlendMode := groupBlendMode o;
     localDisplayStatus := localDisplayStatus o;
     globalDisplayStatus := globalDisplayStatus o; destroyed := destroyed o;
     _lastUsed := _lastUsed o |}.

Definition set_groupBlendMode (x : string) (o : t) : t :=
  {| parent := parent o; children := children o;
     sortableChildren := sortableChildren o; renderGroup := renderGroup o;
     parentRenderGroup := parentRenderGroup o;
     relativeRenderGroupDepth := relativeRenderGroupDepth o;
     renderPipeId := renderPipeId o; updateTick := updateTick o;
     didChange := didChange o; didViewUpdate := didViewUpdate o;
     _updateFlags := _updateFlags o; localTransform := localTransform o;
     relativeGroupTransform := relativeGroupTransform o;
     localColor := localColor o; groupColor := groupColor o;
     localAlpha := localAlpha o; groupAlpha := groupAlpha o;
     groupColorAlpha := groupColorAlpha o;
     localBlendMode := localBlendMode o; groupBlendMode := x;
     localDisplayStatus := localDisplayStatus o;
     globalDisplayStatus := globalDisplayStatus o; destroyed := destroyed o;
     _lastUsed := _lastUsed o |}.

Definition set_globalDisplayStatus (x : Z) (o : t) : t :=
  {| parent := parent o; children := children o;
     sortableChildren := sortableChildren o; renderGroup := renderGroup o;
     parentRenderGroup := parentRenderGroup o;
     relativeRenderGroupDepth := relativeRenderGroupDepth o;
     renderPipeId := renderPipeId o; updateTick := updateTick o;
     didChange := didChange o; didViewUpdate := didViewUpdate o;
     _updateFlags := _updateFlags o; localTransform := localTransform o;
     relativeGroupTransform := relativeGroupTransform o;
     localColor := localColor o; groupColor := groupColor o;
     localAlpha := localAlpha o; groupAlpha := groupAlpha o;
     groupColorAlpha := groupColorAlpha o;
     localBlendMode := localBlendMode o; groupBlendMode := groupBlendMode o;
     localDisplayStatus := localDisplayStatus o; globalDisplayStatus := x;
     destroyed := destroyed o; _lastUsed := _lastUsed o |}.

Definition set_lastUsed (x : number) (o : t) : t :=
  {| parent := parent o; children := children o;
     sortableChildren := sortableChildren o; renderGroup := renderGroup o;
     parentRenderGroup := parentRenderGroup o;
     relativeRenderGroupDepth := relativeRenderGroupDepth o;
     renderPipeId := renderPipeId o; updateTick := updateTick o;
     didChange := didChange o; didViewUpdate := didViewUpdate o;
     _updateFlags := _updateFlags o; localTransform := localTransform o;
     relativeGroupTransform := relativeGroupTransform o;
     localColor := localColor o; groupColor := groupColor o;
     localAlpha := localAlpha o; groupAlpha := groupAlpha o;
     groupColorAlpha := groupColorAlpha o;
     localBlendMode := localBlendMode o; groupBlendMode := groupBlendMode o;
     localDisplayStatus := localDisplayStatus o;
     globalDisplayStatus := globalDisplayStatus o; destroyed := destroyed o;
     _lastUsed := x |}.

Definition set_renderGroup (x : option nat) (o : t) : t :=
  {| parent := parent o; children := children o;
     sortableChildren := sortableChildren o; renderGroup := x;
     parentRenderGroup := parentRenderGroup o;
     relativeRenderGroupDepth := relativeRenderGroupDepth o;
     renderPipeId := renderPipeId o; updateTick := updateTick o;
     didChange := didChange o; didViewUpdate := didViewUpdate o;
     _updateFlags := _updateFlags o; localTransform := localTransform o;
     relativeGroupTransform := relativeGroupTransform o;
     localColor := localColor o; groupColor := groupColor o;
     localAlpha := localAlpha o; groupAlpha := groupAlpha o;
     groupColorAlpha := groupColorAlpha o;
     localBlendMode := localBlendMode o; groupBlendMode := groupBlendMode o;
     localDisplayStatus := localDisplayStatus o;
     globalDisplayStatus := globalDisplayStatus o; destroyed := destroyed o;
     _lastUsed := _lastUsed o |}.

End Container.

(** An update list ([childrenToUpdate[depth]], [childrenRenderablesToUpdate]):
    an array whose slots hold an object or [null], and the count of its
    live entries. *)
Module UpdateList.

Record t := mk { list : Datatypes.list (option nat); index : nat }.

End UpdateList.

Module RenderGroup.
Import Number.

Record t := mk {
  root : nat;  (* the container the group is rooted at *)
  renderGroupParent : option nat;
  renderGroupChildren : list nat;
  localTransform : Matrix.t;
  worldTransform : Matrix.t;
  worldColor : Z;
  worldAlpha : number;
  worldColorAlpha : Z;
  updateTick : Z;
  childrenToUpdate : list (Z * UpdateList.t);  (* one bucket per relative depth, by ascending depth *)
  childrenRenderablesToUpdate : UpdateList.t;
  structureDidChange : bool;
  instructionSet : InstructionSet.t;
  isCachedAsTexture : bool;
  textureNeedsUpdate : bool;
  texture : option nat;
  _parentCacheAsTextureRenderGroup : option nat;
  gcTick : Z
}.

Definition set_renderGroupParent (x : option nat) (o : t) : t :=
  {| root := root o; renderGroupParent := x;
     renderGroupChildren := renderGroupChildren o;
     localTransform := localTransform o; worldTransform := worldTransform o;
     worldColor := worldColor o; worldAlpha := worldAlpha o;
     worldColorAlpha := worldColorAlpha o; updateTick := updateTick o;
     childrenToUpdate := childrenToUpdate o;
     childrenRenderablesToUpdate := childrenRenderablesToUpdate o;
     structureDidChange := structureDidChange o;
     instructionSet := instructionSet o;
     isCachedAsTexture := isCachedAsTexture o;
     textureNeedsUpdate := textureNeedsUpdate o; texture := texture o;
     _parentCacheAsTextureRenderGroup := _parentCacheAsTextureRenderGroup o;
     gcTick := gcTick o |}.

Definition set_localTransform (x : Matrix.t) (o : t) : t :=
  {| root := root o; renderGroupParent := renderGroupParent o;
     renderGroupChildren := renderGroupChildren o; localTransform := x;
     worldTransform := worldTransform o; worldColor := worldColor o;
     worldAlpha := worldAlpha o; worldColorAlpha := worldColorAlpha o;
     updateTick := updateTick o; childrenToUpdate := childrenToUpdate o;
     childrenRenderablesToUpdate := childrenRenderablesToUpdate o;
     structureDidChange := structureDidChange o;
     instructionSet := instructionSet o;
     isCachedAsTexture := isCachedAsTexture o;
     textureNeedsUpdate := textureNeedsUpdate o; texture := texture o;
     _parentCacheAsTextureRenderGroup := _parentCacheAsTextureRenderGroup o;
     gcTick := gcTick o |}.

Definition set_worldTransform (x : Matrix.t) (o : t) : t :=
  {| root := root o; renderGroupParent := renderGroupParent o;
     renderGroupChildren := renderGroupChildren o;
     localTransform := localTransform o; worldTransform := x;
     worldColor := worldColor o; worldAlpha := worldAlpha o;
     worldColorAlpha := worldColorAlpha o; updateTick := updateTick o;
     childrenToUpdate := childrenToUpdate o;
     childrenRenderablesToUpdate := childrenRenderablesToUpdate o;
     structureDidChange := structureDidChange o;
     instructionSet := instructionSet o;
     isCachedAsTexture := isCachedAsTexture o;
     textureNeedsUpdate := textureNeedsUpdate o; texture := texture o;
     _parentCacheAsTextureRenderGroup := _parentCacheAsTextureRenderGroup o;
     gcTick := gcTick o |}.

Definition set_worldColor (x : Z) (o : t) : t :=
  {| root := root o; renderGroupParent := renderGroupParent o;
     renderGroupChildren := renderGroupChildren o;
     localTransform := localTransform o; worldTransform := worldTransform o;
     worldColor := x; worldAlpha := worldAlpha o;
     worldColorAlpha := worldColorAlpha o; updateTick := updateTick o;
     childrenToUpdate := childrenToUpdate o;
     childrenRenderablesToUpdate := childrenRenderablesToUpdate o;
     structureDidChange := structureDidChange o;
     instructionSet := instructionSet o;
     isCachedAsTexture := isCachedAsTexture o;
     textureNeedsUpdate := textureNeedsUpdate o; texture := texture o;
     _parentCacheAsTextureRenderGroup := _parentCacheAsTextureRenderGroup o;
     gcTick := gcTick o |}.

Definition set_worldAlpha (x : number) (o : t) : t :=
  {| root := root o; renderGroupParent := renderGroupParent o;
     renderGroupChildren := renderGroupChildren o;
     localTransform := localTransform o; worldTransform := worldTransform o;
     worldColor := worldColor o; worldAlpha := x;
     worldColorAlpha := worldColorAlpha o; updateTick := updateTick o;
     childrenToUpdate := childrenToUpdate o;
     childrenRenderablesToUpdate := childrenRenderablesToUpdate o;
     structureDidChange := structureDidChange o;
     instructionSet := instructionSet o;
     isCachedAsTexture := isCachedAsTexture o;
     textureNeedsUpdate := textureNeedsUpdate o; texture := texture o;
     _parentCacheAsTextureRenderGroup := _parentCacheAsTextureRenderGroup o;
     gcTick := gcTick o |}.

Definition set_worldColorAlpha (x : Z) (o : t) : t :=
  {| root := root o; renderGroupParent := renderGroupParent o;
     renderGroupChildren := renderGroupChildren o;
     localTransform := localTransform o; worldTransform := worldTransform o;
     worldColor := worldColor o; worldAlpha := worldAlpha o;
     worldColorAlpha := x; updateTick := updateTick o;
     childrenToUpdate := childrenToUpdate o;
     childrenRenderablesToUpdate := childrenRenderablesToUpdate o;
     structureDidChange := structureDidChange o;
     instructionSet := instructionSet o;
     isCachedAsTexture := isCachedAsTexture o;
     textureNeedsUpdate := textureNeedsUpdate o; texture := texture o;
     _parentCacheAsTextureRenderGroup := _parentCacheAsTextureRenderGroup o;
     gcTick := gcTick o |}.

Definition set_updateTick (x : Z) (o : t) : t :=
  {| root := root o; renderGroupParent := renderGroupParent o;
     renderGroupChildren := renderGroupChildren o;
     localTransform := localTransform o; worldTransform := worldTransform o;
     worldColor := worldColor o; worldAlpha := worldAlpha o;
     worldColorAlpha := worldColorAlpha o; updateTick := x;
     childrenToUpdate := childrenToUpdate o;
     childrenRenderablesToUpdate := childrenRenderablesToUpdate o;
     structureDidChange := structureDidChange o;
     instructionSet := instructionSet o;
     isCachedAsTexture := isCachedAsTexture o;
     textureNeedsUpdate := textureNeedsUpdate o; texture := texture o;
     _parentCacheAsTextureRenderGroup := _parentCacheAsTextureRenderGroup o;
     gcTick := gcTick o |}.

Definition set_childrenToUpdate (x : list (Z * UpdateList.t)) (o : t) : t :=
  {| root := root o; renderGroupParent := renderGroupParent o;
     renderGroupChildren := renderGroupChildren o;
     localTransform := localTransform o; worldTransform := worldTransform o;
     worldColor := worldColor o; worldAlpha := worldAlpha o;
     worldColorAlpha := worldColorAlpha o; updateTick := updateTick o;
     childrenToUpdate := x;
     childrenRenderablesToUpdate := childrenRenderablesToUpdate o;
     structureDidChange := structureDidChange o;
     instructionSet := instructionSet o;
     isCachedAsTexture := isCachedAsTexture o;
     textureNeedsUpdate := textureNeedsUpdate o; texture := texture o;
     _parentCacheAsTextureRenderGroup := _parentCacheAsTextureRenderGroup o;
     gcTick := gcTick o |}.

Definition set_childrenRenderablesToUpdate (x : UpdateList.t) (o : t) : t :=
  {| root := root o; renderGroupParent := renderGroupParent o;
     renderGroupChildren := renderGroupChildren o;
     localTransform := localTransform o; worldTransform := worldTransform o;
     worldColor := worldColor o; worldAlpha := worldAlpha o;
     worldColorAlpha := worldColorAlpha o; updateTick := updateTick o;
     childrenToUpdate := childrenToUpdate o;
     childrenRenderablesToUpdate := x;
     structureDidChange := structureDidChange o;
     instructionSet := instructionSet o;
     isCachedAsTexture := isCachedAsTexture o;
     textureNeedsUpdate := textureNeedsUpdate o; texture := texture o;
     _parentCacheAsTextureRenderGroup := _parentCacheAsTextureRenderGroup o;
     gcTick := gcTick o |}.

Definition set_structureDidChange (x : bool) (o : t) : t :=
  {| root := root o; renderGroupParent := renderGroupParent o;
     renderGroupChildren := renderGroupChildren o;
     localTransform := localTransform o; worldTransform := worldTransform o;
     worldColor := worldColor o; worldAlpha := worldAlpha o;
     worldColorAlpha := worldColorAlpha o; updateTick := updateTick o;
     childrenToUpdate := childrenToUpdate o;
     childrenRenderablesToUpdate := childrenRenderablesToUpdate o;
     structureDidChange := x; instructionSet := instructionSet o;
     isCachedAsTexture := isCachedAsTexture o;
     textureNeedsUpdate := textureNeedsUpdate o; texture := texture o;
     _parentCacheAsTextureRenderGroup := _parentCacheAsTextureRenderGroup o;
     gcTick := gcTick o |}.

Definition set_instructionSet (x : InstructionSet.t) (o : t) : t :=
  {| root := root o; renderGroupParent := renderGroupParent o;
     renderGroupChildren := renderGroupChildren o;
     localTransform := localTransform o; worldTransform := worldTransform o;
     worldColor := worldColor o; worldAlpha := worldAlpha o;
     worldColorAlpha := worldColorAlpha o; updateTick := updateTick o;
     childrenToUpdate := childrenToUpdate o;
     childrenRenderablesToUpdate := childrenRenderablesToUpdate o;
     structureDidChange := structureDidChange o; instructionSet := x;
     isCachedAsTexture := isCachedAsTexture o;
     textureNeedsUpdate := textureNeedsUpdate o; texture := texture o;
     _parentCacheAsTextureRenderGroup := _parentCacheAsTextureRenderGroup o;
     gcTick := gcTick o |}.

Definition set_textureNeedsUpdate (x : bool) (o : t) : t :=
  {| root := root o; renderGroupParent := renderGroupParent o;
     renderGroupChildren := renderGroupChildren o;
     localTransform := localTransform o; worldTransform := worldTransform o;
     worldColor := worldColor o; worldAlpha := worldAlpha o;
     worldColorAlpha := worldColorAlpha o; updateTick := updateTick o;
     childrenToUpdate := childrenToUpdate o;
     childrenRenderablesToUpdate := childrenRenderablesToUpdate o;
     structureDidChange := structureDidChange o;
     instructionSet := instructionSet o;
     isCachedAsTexture := isCachedAsTexture o; textureNeedsUpdate := x;
     texture := texture o;
     _parentCacheAsTextureRenderGroup := _parentCacheAsTextureRenderGroup o;
     gcTick := gcTick o |}.

Definition set_texture (x : option nat) (o : t) : t :=
  {| root := root o; renderGroupParent := renderGroupParent o;
     renderGroupChildren := renderGroupChildren o;
     localTransform := localTransform o; worldTransform := worldTransform o;
     worldColor := worldColor o; worldAlpha := worldAlpha o;
     worldColorAlpha := worldColorAlpha o; updateTick := updateTick o;
     childrenToUpdate := childrenToUpdate o;
     childrenRenderablesToUpdate := childrenRenderablesToUpdate o;
     structureDidChange := structureDidChange o;
     instructionSet := instructionSet o;
     isCachedAsTexture := isCachedAsTexture o;
     textureNeedsUpdate := textureNeedsUpdate o; texture := x;
     _parentCacheAsTextureRenderGroup := _parentCacheAsTextureRenderGroup o;
     gcTick := gcTick o |}.

Definition set_parentCacheAsTextureRenderGroup (x : option nat) (o : t) : t :=
  {| root := root o; renderGroupParent := renderGroupParent o;
     renderGroupChildren := renderGroupChildren o;
     localTransform := localTransform o; worldTransform := worldTransform o;
     worldColor := worldColor o; worldAlpha := worldAlpha o;
     worldColorAlpha := worldColorAlpha o; updateTick := updateTick o;
     childrenToUpdate := childrenToUpdate o;
     childrenRenderablesToUpdate := childrenRenderablesToUpdate o;
     structureDidChange := structureDidChange o;
     instructionSet := instructionSet o;
     isCachedAsTexture := isCachedAsTexture o;
     textureNeedsUpdate := textureNeedsUpdate o; texture := texture o;
     _parentCacheAsTextureRenderGroup := x; gcTick := gcTick o |}.

Definition set_gcTick (x : Z) (o : t) : t :=
  {| root := root o; renderGroupParent := renderGroupParent o;
     renderGroupChildren := renderGroupChildren o;
     localTransform := localTransform o; worldTransform := worldTransform o;
     worldColor := worldColor o; worldAlpha := worldAlpha o;
     worldColorAlpha := worldColorAlpha o; updateTick := updateTick o;
     childrenToUpdate := childrenToUpdate o;
     childrenRenderablesToUpdate := childrenRenderablesToUpdate o;
     structureDidChange := structureDidChange o;
     instructionSet := instructionSet o;
     isCachedAsTexture := isCachedAsTexture o;
     textureNeedsUpdate := textureNeedsUpdate o; texture := texture o;
     _parentCacheAsTextureRenderGroup := _parentCacheAsTextureRenderGroup o;
     gcTick := x |}.

End RenderGroup.

Module Scene.
Import Number.

(** Calls that leave this chunk: methods of the container and
    render-group classes and of the pipes of other renderables. *)
Inductive event :=
| updateLocalTransform (n : nat)      (* n.updateLocalTransform() *)
| updateRenderable (g n : nat)        (* g.updateRenderable(n) *)
| validateRenderable (n : nat)        (* pipes[n.renderPipeId].validateRenderable(n) *)
| runOnRender (g : nat)               (* g.runOnRender(renderer) *)
| sortChildren (n : nat)              (* root.sortChildren() *)
| collectRenderablesWithEffects (n : nat)
| blendModeBuildStart
| blendModeBuildEnd
| upload (g : nat)                    (* renderPipes.batch.upload(g.instructionSet) *)
| invalidateMatrices (g : nat)
| globalUniformsStart (g : nat)
| executeInstructions (g : nat)       (* N(g, renderPipes) *)
| uniformBatchRenderEnd
| destroyRenderable (n : nat)         (* pipes[n.renderPipeId].destroyRenderable(n) *)
| once_destroyed (n : nat)            (* n.once("destroyed", ...) *)
| off_destroyed (n : nat)             (* n.off("destroyed", ...) *)
| returnTexture (t : nat)             (* S.returnTexture(t, true) *)
| createTexture (t : nat)             (* ve.create(...) returning t *)
| updateMipmaps (t : nat).            (* t.source.updateMipmaps() *)

(** The shared store: containers and render groups by handle, the pipes
    the instruction builder drives, the scratch matrix [It] of the
    render-group system, and the calls made so far. *)
Record world := mkWorld {
  nodes : gmap nat Container.t;
  groups : gmap nat RenderGroup.t;
  batch : BatcherPipe.pipe;
  colorMask : ColorMaskPipe.pipe;
  It : Matrix.t;
  events : Datatypes.list event
}.

Definition set_nodes (x : gmap nat Container.t) (w : world) : world :=
  {| nodes := x; groups := groups w; batch := batch w; colorMask := colorMask w;
     It := It w; events := events w |}.

Definition set_groups (x : gmap nat RenderGroup.t) (w : world) : world :=
  {| nodes := nodes w; groups := x; batch := batch w; colorMask := colorMask w;
     It := It w; events := events w |}.

Definition set_pipes (b : BatcherPipe.pipe) (c : ColorMaskPipe.pipe) (w : world) : world :=
  {| nodes := nodes w; groups := groups w; batch := b; colorMask := c;
     It := It w; events := events w |}.

Definition set_It (x : Matrix.t) (w : world) : world :=
  {| nodes := nodes w; groups := groups w; batch := batch w; colorMask := colorMask w;
     It := x; events := events w |}.

Definition log (e : event) (w : world) : world :=
  {| nodes := nodes w; groups := groups w; batch := batch w; colorMask := colorMask w;
     It := It w; events := events w ++ [e] |}.

Definition set_node (n : nat) (x : Container.t) (w : world) : world :=
  set_nodes (<[n := x]> (nodes w)) w.

Definition set_group (g : nat) (x : RenderGroup.t) (w : world) : world :=
  set_groups (<[g := x]> (groups w)) w.

(** One step the traversal of [collectRenderablesWithEffects] asks of
    the pipes of this chunk. *)
Inductive build_op :=
| addSprite (n : nat)          (* renderPipes.sprite.addRenderable(n, set) *)
| addCustomRender (n : nat)    (* renderPipes.customRender.addRenderable(n, set) *)
| pushColorMask (mask : Z)     (* renderPipes.colorMask.push(effect, n, set) *)
| popColorMask.                (* renderPipes.colorMask.pop(effect, n, set) *)

(** What this chunk imports and this development does not embed: the
    update flags [Ce], [ye], [ke] (visibility, colour, blend mode), the
    colour product [be], the matrix product behind [appendFrom], the
    recomputation of a local transform, the fresh container [Et], the
    texture check of a batcher, the validation of renderables that are
    not sprites or custom renderables, the GPU record of a sprite, the
    traversal that collects the renderables of a container, the texture
    the pool hands out for the bounds of a cached group, and whether the
    renderer has a uniform-batch pipe. *)
Record externals := mkExternals {
  Ce : Z;
  ye : Z;
  ke : Z;
  be : Z -> Z -> Z;
  appendFrom : Matrix.t -> Matrix.t -> Matrix.t;
  localTransformOf : Container.t -> Matrix.t;
  Et : Container.t;
  checkAndUpdateTexture : nat -> bool;
  validateOther : string -> nat -> bool;
  _getGpuSprite : nat -> InstructionSet.batchable;
  collect : gmap nat Container.t -> nat -> Datatypes.list build_op;
  getOptimalTexture : nat -> nat;
  uniformBatch : bool
}.

Section WithExternals.
Variable X : externals.

(** [et=Ce|ye|ke] *)
Definition et : Z := Int32.lor (Int32.lor (Ce X) (ye X)) (ke X).

(** Truthiness of [t&m]. *)
Definition has (t m : Z) : bool := negb (Int32.land t m =? 0).

(** [function q(n,e){e||(e=0);for(let t=e;t<n.length&&n[t];t++)n[t]=null}]:
    from slot [e] on, the entries up to the first empty slot are set to
    [null]. *)
Fixpoint q_from (n : Datatypes.list (option nat)) : Datatypes.list (option nat) :=
  match n with
  | Some _ :: n' => None :: q_from n'
  | _ => n
  end.

Definition q (n : Datatypes.list (option nat)) (e : nat) : Datatypes.list (option nat) :=
  take e n ++ q_from (drop e n).

(** [function tt(n,e,t)] *)
Definition tt (n e : Container.t) (t : Z) : Container.t :=
  let n :=
    if has t (ye X) then
      let groupColor := be X (Container.localColor n) (Container.groupColor e) in
      let r := clamp01 (mul (Container.localAlpha n) (Container.groupAlpha e)) in
      Container.set_groupColorAlpha (groupColor + alphaBits r)
        (Container.set_groupAlpha r (Container.set_groupColor groupColor n))
    else n in
  let n :=
    if has t (ke X) then
      Container.set_groupBlendMode
        (if String.eqb (Container.localBlendMode n) "inherit"
         then Container.groupBlendMode e else Container.localBlendMode n) n
    else n in
  let n :=
    if has t (Ce X) then
      Container.set_globalDisplayStatus
        (Int32.land (Container.localDisplayStatus n) (Container.globalDisplayStatus e)) n
    else n in
  Container.set_updateFlags 0 n.

(** The body of [Ut] on the group [n] with root [e] and parent group
    [r]:
    [if(n.renderGroupParent){let r=n.renderGroupParent;
        n.worldTransform.appendFrom(e.relativeGroupTransform,r.worldTransform),
        n.worldColor=be(e.groupColor,r.worldColor),
        t=e.groupAlpha*r.worldAlpha}
     else n.worldTransform.copyFrom(e.localTransform),
        n.worldColor=e.localColor,t=e.localAlpha;
     t=t<0?0:t>1?1:t,n.worldAlpha=t,
     n.worldColorAlpha=n.worldColor+((t*255|0)<<24)] *)
Definition Ut_group (n : RenderGroup.t) (e : Container.t) (r : option RenderGroup.t)
    : RenderGroup.t :=
  let '(n, t) :=
    match r with
    | Some r =>
        (RenderGroup.set_worldColor
           (be X (Container.groupColor e) (RenderGroup.worldColor r))
           (RenderGroup.set_worldTransform
              (appendFrom X (Container.relativeGroupTransform e)
                 (RenderGroup.worldTransform r)) n),
         mul (Container.groupAlpha e) (RenderGroup.worldAlpha r))
    | None =>
        (RenderGroup.set_worldColor (Container.localColor e)
           (RenderGroup.set_worldTransform (Container.localTransform e) n),
         Container.localAlpha e)
    end in
  let t := clamp01 t in
  RenderGroup.set_worldColorAlpha (RenderGroup.worldColor n + alphaBits t)
    (RenderGroup.set_worldAlpha t n).

(** [function Ut(n)]; [None] stands for a TypeError on a dangling
    reference. *)
Definition Ut (w : world) (g : nat) : option world :=
  n ← groups w !! g;
  e ← nodes w !! RenderGroup.root n;
  r ← match RenderGroup.renderGroupParent n with
      | Some rp => Some <$> groups w !! rp
      | None => Some None
      end;
  Some (set_group g (Ut_group n e r) w).

(** The parent [s] when [s&&!s.renderGroup] holds. *)
Definition flat_parent (s : option Container.t) : option Container.t :=
  match s with
  | Some s =>
      match Container.renderGroup s with
      | None => Some s
      | Some _ => None
      end
  | None => None
  end.

(** The middle of [rt]: the transform relative to the group and the
    inherited colour, blend mode and visibility of [nd], whose parent is
    [s]; the result carries the flags handed down to the children.
    [s&&!s.renderGroup?(t|=n._updateFlags,
        n.relativeGroupTransform.appendFrom(r,s.relativeGroupTransform),
        t&et&&tt(n,s,t))
      :(t=n._updateFlags,n.relativeGroupTransform.copyFrom(r),
        t&et&&tt(n,Et,t))] *)
Definition relative (nd : Container.t) (s : option Container.t) (t : Z)
    : Container.t * Z :=
  let r := Container.localTransform nd in
  match flat_parent s with
  | Some s =>
      let t := Int32.lor t (Container._updateFlags nd) in
      let nd := Container.set_relativeGroupTransform
                  (appendFrom X r (Container.relativeGroupTransform s)) nd in
      (if has t et then tt nd s t else nd, t)
  | None =>
      let t := Container._updateFlags nd in
      let nd := Container.set_relativeGroupTransform r nd in
      (if has t et then tt nd (Et X) t else nd, t)
  end.

(** The head of [rt]: [n.updateTick=e,n.didChange=!1;
    let r=n.localTransform;n.updateLocalTransform()]; [r] names the
    matrix that the call recomputes in place. *)
Definition touch (nd : Container.t) (e : Z) : Container.t :=
  let nd := Container.set_didChange false (Container.set_updateTick e nd) in
  Container.set_localTransform (localTransformOf X nd) nd.

(** The tail of [rt] for a renderable:
    [let l=n.parentRenderGroup,u=n;
     u.renderPipeId&&!l.structureDidChange&&l.updateRenderable(u)] *)
Definition refresh (w : world) (n : nat) (nd : Container.t) : option world :=
  match Container.renderPipeId nd with
  | None => Some w
  | Some _ =>
      l ← Container.parentRenderGroup nd;
      lg ← groups w !! l;
      if negb (RenderGroup.structureDidChange lg)
      then Some (log (updateRenderable l n) w)
      else Some w
  end.

(** [function rt(n,e,t)].  The recursion follows handles through the
    store, so it carries a bound on its depth: [None] is returned when
    the bound is used up, and also for the TypeError of a dangling
    reference. *)
Fixpoint rt (fuel : nat) (w : world) (n : nat) (e : Z) (t : Z) : option world :=
  match fuel with
  | O => None
  | S fuel =>
      nd ← nodes w !! n;
      if e =? Container.updateTick nd then Some w
      else
        let nd := touch nd e in
        let w := log (updateLocalTransform n) w in
        s ← match Container.parent nd with
            | Some sid => Some <$> nodes w !! sid
            | None => Some None
            end;
        let '(nd, t) := relative nd s t in
        let w := set_node n nd w in
        match Container.renderGroup nd with
        | Some _ => Some w
        | None =>
            w ← foldl (fun ow c => w ← ow; rt fuel w c e t) (Some w) (Container.children nd);
            refresh w n nd
        end
  end.

(** The inner loop of [Be] over one bucket:
    [for(let d=0;d<u;d++){let h=l[d];
       h.parentRenderGroup===n&&h.relativeRenderGroupDepth===i&&rt(h,r,0)}];
    a slot that is empty or past the end of the array makes the property
    read fail. *)
Definition visit_entry (fuel : nat) (g : nat) (i : Z) (r : Z)
    (l : Datatypes.list (option nat)) (ow : option world) (d : nat) : option world :=
  w ← ow;
  h ← mjoin (l !! d);
  nd ← nodes w !! h;
  if bool_decide (Container.parentRenderGroup nd = Some g)
     && (Container.relativeRenderGroupDepth nd =? i)
  then rt fuel w h r 0
  else Some w.

(** One bucket of [Be]: the live entries are visited, then
    [q(l,u),a.index=0]. *)
Definition update_bucket (fuel : nat) (g : nat) (r : Z) (ow : option world)
    (k : nat) : option world :=
  w ← ow;
  n ← groups w !! g;
  '(i, a) ← RenderGroup.childrenToUpdate n !! k;
  let l := UpdateList.list a in
  let u := UpdateList.index a in
  w ← foldl (visit_entry fuel g i r l) (Some w) (seq 0 u);
  n ← groups w !! g;
  Some (set_group g
          (RenderGroup.set_childrenToUpdate
             (<[k := (i, UpdateList.mk (q l u) 0)]> (RenderGroup.childrenToUpdate n)) n) w).

(** [function Be(n,e=!1)] *)
Fixpoint Be (fuel : nat) (w : world) (g : nat) (e : bool) : option world :=
  match fuel with
  | O => None
  | S fuel =>
      w ← Ut w g;
      n ← groups w !! g;
      let r := RenderGroup.updateTick n in
      let w := set_group g (RenderGroup.set_updateTick (r + 1) n) w in
      w ← foldl (update_bucket fuel g r) (Some w)
             (seq 0 (length (RenderGroup.childrenToUpdate n)));
      if e then
        n ← groups w !! g;
        foldl (fun ow c => w ← ow; Be fuel w c e) (Some w) (RenderGroup.renderGroupChildren n)
      else Some w
  end.

(** [e[a.renderPipeId].validateRenderable(a)]: the sprite pipe answers
    [!t._batcher.checkAndUpdateTexture(t,e._texture)], the custom-render
    pipe [false]; a true answer asks for a rebuild.  [None] stands for
    the TypeError of a renderable without a pipe. *)
Definition validate (w : world) (a : nat) : option bool :=
  nd ← nodes w !! a;
  id ← Container.renderPipeId nd;
  Some (if String.eqb id "sprite" then negb (checkAndUpdateTexture X a)
        else if String.eqb id "customRender" then false
        else validateOther X id a).

(** The loop of [st]:
    [for(let i=0;i<r;i++){let a=t[i];
       if(s=e[a.renderPipeId].validateRenderable(a),s)break}] *)
Fixpoint st_loop (w : world) (t : Datatypes.list (option nat)) (ix : Datatypes.list nat)
    : option (world * bool) :=
  match ix with
  | [] => Some (w, false)
  | i :: ix =>
      a ← mjoin (t !! i);
      s ← validate w a;
      let w := log (validateRenderable a) w in
      match s with
      | true => Some (w, true)
      | false => st_loop w t ix
      end
  end.

(** [function st(n,e)]: the queued renderables are validated in place
    until one asks for a rebuild; the answer becomes the group's
    [structureDidChange]. *)
Definition st (w : world) (g : nat) : option (world * bool) :=
  n ← groups w !! g;
  let a := RenderGroup.childrenRenderablesToUpdate n in
  '(w, s) ← st_loop w (UpdateList.list a) (seq 0 (UpdateList.index a));
  n ← groups w !! g;
  Some (set_group g (RenderGroup.set_structureDidChange s n) w, s).

(** One turn of the loop of [_updateRenderables]:
    [let i=t[s];i.didViewUpdate&&e.updateRenderable(i)] *)
Definition refresh_entry (g : nat) (t : Datatypes.list (option nat))
    (ow : option world) (s : nat) : option world :=
  w ← ow;
  i ← mjoin (t !! s);
  nd ← nodes w !! i;
  Some (if Container.didViewUpdate nd then log (updateRenderable g i) w else w).

(** [_updateRenderables(e)] *)
Definition _updateRenderables (w : world) (g : nat) : option world :=
  n ← groups w !! g;
  let a := RenderGroup.childrenRenderablesToUpdate n in
  w ← foldl (refresh_entry g (UpdateList.list a)) (Some w) (seq 0 (UpdateList.index a));
  n ← groups w !! g;
  Some (set_group g
          (RenderGroup.set_childrenRenderablesToUpdate
             (UpdateList.mk (q (UpdateList.list a) (UpdateList.index a)) (UpdateList.index a))
             n) w).

(** What one step of the collecting traversal does to the pipes and to
    the set [s] under construction:
    the sprite pipe's [addRenderable(e,t)] ends in
    [renderPipes.batch.addToBatch(r,t)] with [r] the GPU record of the
    sprite; the custom-render pipe's is
    [renderPipes.batch.break(t),t.add(e)]. *)
Definition run_build_op (acc : option (world * InstructionSet.t)) (o : build_op)
    : option (world * InstructionSet.t) :=
  '(w, s) ← acc;
  match o with
  | addSprite n =>
      '(b, s) ← BatcherPipe.addToBatch (batch w) (_getGpuSprite X n) s;
      Some (set_pipes b (colorMask w) w, s)
  | addCustomRender n =>
      '(b, s) ← BatcherPipe.break (batch w) s;
      Some (set_pipes b (colorMask w) w,
            InstructionSet.add s (InstructionSet.Renderable "customRender" n))
  | pushColorMask mask =>
      '(c, b, s) ← ColorMaskPipe.push (colorMask w) (batch w) mask s;
      Some (set_pipes b c w, s)
  | popColorMask =>
      '(c, b, s) ← ColorMaskPipe.pop (colorMask w) (batch w) s;
      Some (set_pipes b c w, s)
  end.

(** [_buildInstructions(e,t)]: the set is reset and filled again by the
    traversal of the root. *)
Definition _buildInstructions (w : world) (g : nat) : option world :=
  n ← groups w !! g;
  r ← nodes w !! RenderGroup.root n;
  let s := InstructionSet.reset (RenderGroup.instructionSet n) in
  let w := set_pipes (BatcherPipe.buildStart (batch w) s) (colorMask w) w in
  let w := log blendModeBuildStart w in
  let w := set_pipes (batch w) (ColorMaskPipe.buildStart (colorMask w)) w in
  let w := if Container.sortableChildren r
           then log (sortChildren (RenderGroup.root n)) w else w in
  let w := log (collectRenderablesWithEffects (RenderGroup.root n)) w in
  '(w, s) ← foldl run_build_op (Some (w, s)) (collect X (nodes w) (RenderGroup.root n));
  '(b, s) ← BatcherPipe.buildEnd (batch w) s;
  let w := log blendModeBuildEnd (set_pipes b (colorMask w) w) in
  n ← groups w !! g;
  Some (set_group g (RenderGroup.set_instructionSet s n) w).

(** The first half of the body of [_updateRenderGroups(e)]:
    [e.runOnRender(t),e.instructionSet.renderPipes=r,
     e.structureDidChange?q(e.childrenRenderablesToUpdate.list,0):st(e,r)] *)
Definition revalidate (w : world) (g : nat) : option world :=
  let w := log (runOnRender g) w in
  e ← groups w !! g;
  if RenderGroup.structureDidChange e
  then
    let a := RenderGroup.childrenRenderablesToUpdate e in
    Some (set_group g
            (RenderGroup.set_childrenRenderablesToUpdate
               (UpdateList.mk (q (UpdateList.list a) 0) (UpdateList.index a)) e) w)
  else fst <$> st w g.

(** The second half, after [Be(e)]:
    [e.structureDidChange?(e.structureDidChange=!1,this._buildInstructions(e,t))
       :this._updateRenderables(e),
     e.childrenRenderablesToUpdate.index=0,
     t.renderPipes.batch.upload(e.instructionSet)] *)
Definition rebuild_or_refresh (w : world) (g : nat) : option world :=
  e ← groups w !! g;
  w ← (if RenderGroup.structureDidChange e
       then _buildInstructions
              (set_group g (RenderGroup.set_structureDidChange false e) w) g
       else _updateRenderables w g);
  e ← groups w !! g;
  let a := RenderGroup.childrenRenderablesToUpdate e in
  Some (log (upload g)
          (set_group g
             (RenderGroup.set_childrenRenderablesToUpdate
                (UpdateList.mk (UpdateList.list a) 0) e) w)).

(** What [_updateRenderGroups(e)] does to the group [e] itself. *)
Definition update_group (fuel : nat) (w : world) (g : nat) : option world :=
  w ← revalidate w g;
  w ← Be fuel w g false;
  rebuild_or_refresh w g.

(** [_updateRenderGroups(e)]: the group, then its child groups unless
    the group is cached as a texture that is still valid. *)
Fixpoint _updateRenderGroups (fuel : nat) (w : world) (g : nat) : option world :=
  match fuel with
  | O => None
  | S fuel =>
      w ← update_group fuel w g;
      e ← groups w !! g;
      if RenderGroup.isCachedAsTexture e && negb (RenderGroup.textureNeedsUpdate e)
      then Some w
      else foldl (fun ow c => w ← ow; _updateRenderGroups fuel w c) (Some w)
             (RenderGroup.renderGroupChildren e)
  end.

(** [_updateCachedRenderGroups(e,t)]: every group learns the cached
    group [t] above it; a group cached as a texture whose texture is
    still valid is left alone with its subtree; a stale one gets a
    texture for its bounds from the pool, and tells its parent group to
    rebuild when the texture is another one. *)
Fixpoint _updateCachedRenderGroups (fuel : nat) (w : world) (g : nat) (t : option nat)
    : option world :=
  match fuel with
  | O => None
  | S fuel =>
      e ← groups w !! g;
      let e := RenderGroup.set_parentCacheAsTextureRenderGroup t e in
      let w := set_group g e w in
      if RenderGroup.isCachedAsTexture e && negb (RenderGroup.textureNeedsUpdate e)
      then Some w
      else
        let t := if RenderGroup.isCachedAsTexture e then Some g else t in
        w ← foldl (fun ow c => w ← ow; _updateCachedRenderGroups fuel w c t) (Some w)
               (rev (RenderGroup.renderGroupChildren e));
        let w := log (invalidateMatrices g) w in
        e ← groups w !! g;
        if RenderGroup.isCachedAsTexture e then
          if RenderGroup.textureNeedsUpdate e then
            let s := RenderGroup.texture e in
            let w := match s with
                     | Some tx => log (returnTexture tx) w
                     | None => w
                     end in
            let d := getOptimalTexture X g in
            let w := set_group g (RenderGroup.set_texture (Some d) e) w in
            match RenderGroup.renderGroupParent e with
            | Some p =>
                if bool_decide (s = Some d) then Some w
                else
                  pg ← groups w !! p;
                  Some (set_group p (RenderGroup.set_structureDidChange true pg) w)
            | None => Some w
            end
          else Some w
        else
          match RenderGroup.texture e with
          | Some tx =>
              Some (set_group g (RenderGroup.set_texture None e)
                      (log (returnTexture tx) w))
          | None => Some w
          end
  end.

(** [render({container:e,transform:t})] of the render-group system: the
    container is detached from its parent and its group from the parent
    group, and with a transform the local transform of the group is
    parked in the scratch matrix [It]; the groups are updated and the
    instructions executed; then what was saved is put back. *)
Definition render (fuel : nat) (w : world) (e : nat) (t : option Matrix.t)
    : option world :=
  nd ← nodes w !! e;
  g ← Container.renderGroup nd;
  grp ← groups w !! g;
  let r := Container.parent nd in
  let s := RenderGroup.renderGroupParent grp in
  let w := set_node e (Container.set_parent None nd) w in
  let grp := RenderGroup.set_renderGroupParent None grp in
  let w := set_group g grp w in
  let w := match t with
           | Some t =>
               set_group g (RenderGroup.set_localTransform t grp)
                 (set_It (RenderGroup.localTransform grp) w)
           | None => w
           end in
  w ← _updateCachedRenderGroups fuel w g None;
  w ← _updateRenderGroups fuel w g;
  let w := log (executeInstructions g) (log (globalUniformsStart g) w) in
  let w := if uniformBatch X then log uniformBatchRenderEnd w else w in
  nd ← nodes w !! e;
  g ← Container.renderGroup nd;
  grp ← groups w !! g;
  let grp := match t with
             | Some _ => RenderGroup.set_localTransform (It w) grp
             | None => grp
             end in
  let w := set_node e (Container.set_parent r nd) w in
  Some (set_group g (RenderGroup.set_renderGroupParent s grp) w).

End WithExternals.

End Scene.

(** ** The renderable collector (class [He]) *)

Module RenderableGC.
Import Number Scene.

(** A property of an options object: absent, or present with the value
    [undefined], [null] or a proper value. *)
Inductive given (A : Type) : Type :=
| Absent
| Undefined
| Null
| Value (a : A).
Arguments Absent {A}.
Arguments Undefined {A}.
Arguments Null {A}.
Arguments Value {A} a.

(** The options [init] reads. *)
Record options := mkOptions {
  renderableGCActive : given bool;
  renderableGCMaxUnusedTime : given number;
  renderableGCFrequency : given number
}.

(** [He.defaultOptions={renderableGCActive:!0,
      renderableGCMaxUnusedTime:6e4,renderableGCFrequency:3e4}] *)
Definition defaultOptions : options :=
  {| renderableGCActive := Value true;
     renderableGCMaxUnusedTime := Value (ofZ 60000);
     renderableGCFrequency := Value (ofZ 30000) |}.

(** The spread [c(c({},d),e)] copies every property that [e] has,
    whatever its value, over the property of [d]. *)
Definition or_else {A} (e d : given A) : given A :=
  match e with
  | Absent => d
  | _ => e
  end.

(** [c(c({},d),e)] *)
Definition merge (d e : options) : options :=
  {| renderableGCActive := or_else (renderableGCActive e) (renderableGCActive d);
     renderableGCMaxUnusedTime :=
       or_else (renderableGCMaxUnusedTime e) (renderableGCMaxUnusedTime d);
     renderableGCFrequency :=
       or_else (renderableGCFrequency e) (renderableGCFrequency d) |}.

(** The number a property reads as in arithmetic and comparisons:
    [null] is 0, [undefined] is NaN. *)
Definition to_number (x : given number) : number :=
  match x with
  | Value v => v
  | Null => zero
  | Absent | Undefined => S754_nan
  end.

(** The truth of a property. *)
Definition to_boolean (x : given bool) : bool :=
  match x with
  | Value b => b
  | _ => false
  end.

(** The collector: the tracked renderables, with [None] for a slot that
    [_removeRenderable] emptied, the configuration, the time of the last
    [prerender], and the tick counter [Ht] that all collectors share.
    [maxUnusedTime] and [_frequency] are kept as the numbers they read
    as, since the program only compares them and hands them on;
    [enabled] is what the getter answers, [!!this._handler]. *)
Record t := mkGC {
  _managedRenderables : list (option nat);
  maxUnusedTime : number;
  _frequency : number;
  enabled : bool;
  _now : number;
  Ht : Z
}.

(** [constructor(e)]: an empty list; the configuration and the time are
    not assigned yet and read [undefined], NaN in arithmetic. *)
Definition new : t :=
  {| _managedRenderables := []; maxUnusedTime := S754_nan; _frequency := S754_nan;
     enabled := false; _now := S754_nan; Ht := 0 |}.

Definition set_managedRenderables (x : list (option nat)) (c : t) : t :=
  {| _managedRenderables := x; maxUnusedTime := maxUnusedTime c;
     _frequency := _frequency c; enabled := enabled c; _now := _now c; Ht := Ht c |}.

(** [init(e){e=c(c({},xt.defaultOptions),e),
      this.maxUnusedTime=e.renderableGCMaxUnusedTime,
      this._frequency=e.renderableGCFrequency,
      this.enabled=e.renderableGCActive}]: the setter of [enabled]
    schedules the sweep when the option is true and the collector has
    no handler yet; it never clears the handler, so a collector that was
    enabled stays so. *)
Definition init (c : t) (e : options) : t :=
  let e := merge defaultOptions e in
  {| _managedRenderables := _managedRenderables c;
     maxUnusedTime := to_number (renderableGCMaxUnusedTime e);
     _frequency := to_number (renderableGCFrequency e);
     enabled := enabled c || to_boolean (renderableGCActive e);
     _now := _now c; Ht := Ht c |}.

(** [_updateInstructionGCTick(e,t)] *)
Fixpoint _updateInstructionGCTick (fuel : nat) (w : world) (g : nat) (t : Z)
    : option world :=
  match fuel with
  | O => None
  | S fuel =>
      e ← groups w !! g;
      let w := set_group g
                 (RenderGroup.set_instructionSet
                    (InstructionSet.set_gcTick t (RenderGroup.instructionSet e)) e) w in
      foldl (fun ow r => w ← ow; _updateInstructionGCTick fuel w r t) (Some w)
        (RenderGroup.renderGroupChildren e)
  end.

(** [prerender({container:e})] at the time [now] of the clock:
    [this._now=performance.now(),e.renderGroup.gcTick=Ht++,
     this._updateInstructionGCTick(e.renderGroup,e.renderGroup.gcTick)] *)
Definition prerender (fuel : nat) (c : t) (w : world) (e : nat) (now : number)
    : option (t * world) :=
  nd ← nodes w !! e;
  g ← Container.renderGroup nd;
  grp ← groups w !! g;
  let tick := Ht c in
  let c := {| _managedRenderables := _managedRenderables c;
              maxUnusedTime := maxUnusedTime c; _frequency := _frequency c;
              enabled := enabled c; _now := now; Ht := tick + 1 |} in
  let w := set_group g (RenderGroup.set_gcTick tick grp) w in
  w ← _updateInstructionGCTick fuel w g tick;
  Some (c, w).

(** [addRenderable(e)] *)
Definition addRenderable (c : t) (w : world) (e : nat) : option (t * world) :=
  if enabled c then
    nd ← nodes w !! e;
    let '(c, w) :=
      if eqb (Container._lastUsed nd) (ofZ (-1))
      then (set_managedRenderables (_managedRenderables c ++ [Some e]) c,
            log (once_destroyed e) w)
      else (c, w) in
    Some (c, set_node e (Container.set_lastUsed (_now c) nd) w)
  else Some (c, w).

(** [a.renderGroup??a.parentRenderGroup] *)
Definition group_of (nd : Container.t) : option nat :=
  match Container.renderGroup nd with
  | Some g => Some g
  | None => Container.parentRenderGroup nd
  end.

(** [(l?.gcTick??0)===(l?.instructionSet?.gcTick??-1)] *)
Definition same_tick (l : option RenderGroup.t) : bool :=
  match l with
  | Some grp => RenderGroup.gcTick grp =? InstructionSet.gcTick (RenderGroup.instructionSet grp)
  | None => false
  end.

Section Pipes.

(** Whether [this._renderer.renderPipes] has a pipe under an id and that
    pipe has a method [destroyRenderable]. *)
Variable destroys : string -> bool.

(** The body of the loop of [run] for a tracked renderable [a]: its
    stamp is renewed when the ticks of its group agree; when the stamp
    is older than the limit the renderable is handed to its pipe unless
    it is destroyed already, marked as untracked and unsubscribed.  The
    answer says whether it stays in the list.  [None] stands for a
    TypeError: [d[a.renderPipeId].destroyRenderable(a)] throws when
    there is no such pipe or the pipe has no such method, after the
    flag of the group was set and before anything else is written. *)
Definition visit (c : t) (w : world) (a : nat) : option (world * bool) :=
  nd ← nodes w !! a;
  let l := group_of nd in
  lg ← match l with
       | Some g => Some <$> groups w !! g
       | None => Some None
       end;
  let nd := if same_tick lg then Container.set_lastUsed (_now c) nd else nd in
  let w := set_node a nd w in
  if gtb (sub (_now c) (Container._lastUsed nd)) (maxUnusedTime c) then
    w ← (if Container.destroyed nd then Some w
         else
           let w := match l, lg with
                    | Some g, Some grp =>
                        set_group g (RenderGroup.set_structureDidChange true grp) w
                    | _, _ => w
                    end in
           id ← Container.renderPipeId nd;
           if destroys id then Some (log (destroyRenderable a) w) else None);
    Some (log (off_destroyed a)
            (set_node a (Container.set_lastUsed (ofZ (-1)) nd) w), false)
  else Some (w, true).

(** One turn of the loop of [run]:
    [let a=t[i];if(a===null){s++;continue} ... s++ ... else t[i-s]=a] *)
Definition sweep_entry (c : t) (st : option (list (option nat) * nat * world)) (i : nat)
    : option (list (option nat) * nat * world) :=
  '(t, s, w) ← st;
  slot ← t !! i;
  match slot with
  | None => Some (t, S s, w)
  | Some a =>
      '(w, keep) ← visit c w a;
      Some (if keep : bool then (<[(i - s)%nat := Some a]> t, s, w) else (t, S s, w))
  end.

(** [run()]: the list is swept and compacted in place, and cut to the
    entries that stay: [t.length-=s].  A sweep that throws has no
    result here; it leaves the list with the entries it has moved so
    far and its old length. *)
Definition run (c : t) (w : world) : option (t * world) :=
  '(t, s, w) ← foldl (sweep_entry c) (Some (_managedRenderables c, 0%nat, w))
                 (seq 0 (length (_managedRenderables c)));
  Some (set_managedRenderables (take (length t - s) t) c, w).

End Pipes.

(** The pipes of this chunk that draw renderables: the custom-render
    pipe [V] has a method [destroyRenderable], the sprite pipe [K] and
    the render-group pipe [j] have none; [others] answers for the pipes
    of other chunks. *)
Definition chunk_pipes (others : string -> bool) (id : string) : bool :=
  if String.eqb id "customRender" then true
  else if String.eqb id "sprite" then false
  else if String.eqb id "renderGroup" then false
  else others id.

(** [_removeRenderable(e)] *)
Fixpoint index_of (e : nat) (l : list (option nat)) : option nat :=
  match l with
  | [] => None
  | x :: l' =>
      if bool_decide (x = Some e) then Some 0%nat
      else S <$> index_of e l'
  end.

Definition _removeRenderable (c : t) (w : world) (e : nat) : t * world :=
  match index_of e (_managedRenderables c) with
  | Some i =>
      (set_managedRenderables (<[i := None]> (_managedRenderables c)) c,
       log (off_destroyed e) w)
  | None => (c, w)
  end.

End RenderableGC.

(** ** The texture generator (class [te]) and the frame it asks for *)

Module TextureGenerator.
Import Number Scene.

(** The options of [render] after they were normalised: the container,
    the transform and the render target. *)
Record RenderOptions := mkOptions {
  container : nat;
  transform : option Matrix.t;
  target : nat
}.

(** The corner of a frame or of the bounds of a container. *)
Record Rectangle := mkRectangle { x : number; y : number }.

(** [g.shared.translate(x,y)]: the identity moved by [(x,y)]. *)
Definition translate (x y : number) : Matrix.t :=
  Matrix.mk one zero zero one (SFadd prec emax zero x) (SFadd prec emax zero y).

Section WithRenderer.
Variable X : externals.
Variable fuel : nat.
Variable R : Renderer.renderer.

(** The render-group system among the instances of the renderer, the
    hooks of the other systems, the [visible] getter and
    [enableRenderGroup] of the container class, and the bounds of a
    container ([je(s,Dt).rectangle]). *)
Variable renderGroup : Runner.obj.
Variable hooks : Runner.obj -> string -> RenderOptions -> world -> option world.
Variable visible : Container.t -> bool.
Variable enableRenderGroup : nat -> world -> world.
Variable bounds : world -> nat -> Rectangle.

(** A method of a registered instance, called by a runner; [None] is the
    state after an exception, which ends the frame. *)
Definition call (o : Runner.obj) (m : string) (s : RenderOptions) (ow : option world)
    : option world :=
  w ← ow;
  if Nat.eqb o renderGroup && String.eqb m "render"
  then Scene.render X fuel w (container s) (transform s)
  else hooks o m s w.

Definition is_visible (s : RenderOptions) (ow : option world) : bool :=
  match ow with
  | Some w =>
      match nodes w !! container s with
      | Some nd => visible nd
      | None => false
      end
  | None => false
  end.

(** [this._renderer.render(s)] for options that name a target and a
    transform. *)
Definition renderer_render (s : RenderOptions) (w : world) : option world :=
  match Renderer.render (option world) RenderOptions call is_visible
          (fun s ow => enableRenderGroup (container s) <$> ow) R s (Some w) with
  | Renderer.Ok ow => ow
  | Renderer.Throw _ => None
  end.

(** [generateTexture(e)] for the container [s], with the texture [l]
    that [ve.create] allocates:
    [let a=e.frame?.copyTo(Ot)||je(s,Dt).rectangle; ...
     let l=ve.create(...),u=g.shared.translate(-a.x,-a.y);
     return this._renderer.render({container:s,transform:u,target:l,clearColor:i}),
       l.source.updateMipmaps(),l] *)
Definition generateTexture (w : world) (s : nat) (frame : option Rectangle) (l : nat)
    : option (world * nat) :=
  let a := match frame with
           | Some f => f
           | None => bounds w s
           end in
  let w := log (createTexture l) w in
  let u := translate (SFopp (x a)) (SFopp (y a)) in
  w ← renderer_render (mkOptions s (Some u) l) w;
  Some (log (updateMipmaps l) w, l).

End WithRenderer.

End TextureGenerator.

(** ** A sample scene *)

Module Sample.
Import Number Scene.

(** The product of two colours, channel by channel. *)
Definition multiplyColors (c1 c2 : Z) : Z :=
  if c1 =? 16777215 then c2
  else if c2 =? 16777215 then c1
  else
    let ch (s : Z) := ((Z.land (Z.shiftr c1 s) 255) * (Z.land (Z.shiftr c2 s) 255)) / 255 in
    Z.shiftl (ch 16) 16 + Z.shiftl (ch 8) 8 + ch 0.

Definition add : number -> number -> number := SFadd prec emax.

(** The product of two affine matrices. *)
Definition product (m1 m2 : Matrix.t) : Matrix.t :=
  let '(Matrix.mk a1 b1 c1 d1 tx1 ty1) := m1 in
  let '(Matrix.mk a2 b2 c2 d2 tx2 ty2) := m2 in
  Matrix.mk (add (mul a1 a2) (mul b1 c2)) (add (mul a1 b2) (mul b1 d2))
            (add (mul c1 a2) (mul d1 c2)) (add (mul c1 b2) (mul d1 d2))
            (add (add (mul tx1 a2) (mul ty1 c2)) tx2)
            (add (add (mul tx1 b2) (mul ty1 d2)) ty2).

(** A container as it is constructed: white, opaque, visible, with all
    update flags set. *)
Definition container : Container.t :=
  {| Container.parent := None; Container.children := [];
     Container.sortableChildren := false;
     Container.renderGroup := None; Container.parentRenderGroup := None;
     Container.relativeRenderGroupDepth := 0; Container.renderPipeId := None;
     Container.updateTick := -1; Container.didChange := false;
     Container.didViewUpdate := false; Container._updateFlags := 15;
     Container.localTransform := Matrix.identity;
     Container.relativeGroupTransform := Matrix.identity;
     Container.localColor := 16777215; Container.groupColor := 16777215;
     Container.localAlpha := one; Container.groupAlpha := one;
     Container.groupColorAlpha := -1;
     Container.localBlendMode := "inherit"; Container.groupBlendMode := "normal";
     Container.localDisplayStatus := 7; Container.globalDisplayStatus := 7;
     Container.destroyed := false; Container._lastUsed := ofZ (-1) |}.

(** A collecting traversal for scenes of sprites: the sprites below a
    container, in drawing order. *)
Fixpoint collect_sprites (fuel : nat) (nodes : gmap nat Container.t) (n : nat)
    : list build_op :=
  match fuel with
  | O => []
  | S fuel =>
      match nodes !! n with
      | None => []
      | Some nd =>
          (if bool_decide (Container.renderPipeId nd = Some "sprite")
           then [addSprite n] else [])
          ++ flat_map (collect_sprites fuel nodes) (Container.children nd)
      end
  end.

Definition X : externals :=
  {| Ce := 4; ye := 1; ke := 2;
     be := multiplyColors;
     appendFrom := product;
     localTransformOf := Container.localTransform;
     Et := container;
     checkAndUpdateTexture := fun _ => true;
     validateOther := fun _ _ => false;
     _getGpuSprite := fun n => InstructionSet.mkBatchable n "default" 0;
     collect := collect_sprites 8;
     getOptimalTexture := fun g => g;
     uniformBatch := false |}.

Definition renderGroup (root : nat) : RenderGroup.t :=
  {| RenderGroup.root := root; RenderGroup.renderGroupParent := None;
     RenderGroup.renderGroupChildren := [];
     RenderGroup.localTransform := Matrix.identity;
     RenderGroup.worldTransform := Matrix.identity;
     RenderGroup.worldColor := 16777215; RenderGroup.worldAlpha := one;
     RenderGroup.worldColorAlpha := -1; RenderGroup.updateTick := 0;
     RenderGroup.childrenToUpdate := [];
     RenderGroup.childrenRenderablesToUpdate := UpdateList.mk [] 0;
     RenderGroup.structureDidChange := true;
     RenderGroup.instructionSet := InstructionSet.mkSet root [] 0;
     RenderGroup.isCachedAsTexture := false; RenderGroup.textureNeedsUpdate := false;
     RenderGroup.texture := None;
     RenderGroup._parentCacheAsTextureRenderGroup := None;
     RenderGroup.gcTick := 0 |}.

(** The scene of the spec's alpha scenario: the stage 0 is the root of
    render group 100 and has alpha 1.0; the container 1 inside it has
    alpha 0.8; the sprite 2 inside that has alpha 0.5.  The sprite is
    listed in the bucket of its own depth and is also reached as a child
    of container 1. *)
Definition stage : Container.t :=
  Container.set_renderGroup (Some 100%nat)
    {| Container.parent := None; Container.children := [1%nat];
       Container.sortableChildren := false;
       Container.renderGroup := None; Container.parentRenderGroup := None;
       Container.relativeRenderGroupDepth := 0; Container.renderPipeId := None;
       Container.updateTick := -1; Container.didChange := false;
       Container.didViewUpdate := false; Container._updateFlags := 15;
       Container.localTransform := Matrix.identity;
       Container.relativeGroupTransform := Matrix.identity;
       Container.localColor := 16777215; Container.groupColor := 16777215;
       Container.localAlpha := ratio 10 10; Container.groupAlpha := one;
       Container.groupColorAlpha := -1;
       Container.localBlendMode := "inherit"; Container.groupBlendMode := "normal";
       Container.localDisplayStatus := 7; Container.globalDisplayStatus := 7;
       Container.destroyed := false; Container._lastUsed := ofZ (-1) |}.

Definition faded : Container.t :=
  {| Container.parent := Some 0%nat; Container.children := [2%nat];
     Container.sortableChildren := false;
     Container.renderGroup := None; Container.parentRenderGroup := Some 100%nat;
     Container.relativeRenderGroupDepth := 1; Container.renderPipeId := None;
     Container.updateTick := -1; Container.didChange := true;
     Container.didViewUpdate := false; Container._updateFlags := 15;
     Container.localTransform := Matrix.identity;
     Container.relativeGroupTransform := Matrix.identity;
     Container.localColor := 16777215; Container.groupColor := 16777215;
     Container.localAlpha := ratio 8 10; Container.groupAlpha := one;
     Container.groupColorAlpha := -1;
     Container.localBlendMode := "inherit"; Container.groupBlendMode := "normal";
     Container.localDisplayStatus := 7; Container.globalDisplayStatus := 7;
     Container.destroyed := false; Container._lastUsed := ofZ (-1) |}.

Definition sprite : Container.t :=
  {| Container.parent := Some 1%nat; Container.children := [];
     Container.sortableChildren := false;
     Container.renderGroup := None; Container.parentRenderGroup := Some 100%nat;
     Container.relativeRenderGroupDepth := 2; Container.renderPipeId := Some "sprite";
     Container.updateTick := -1; Container.didChange := true;
     Container.didViewUpdate := true; Container._updateFlags := 15;
     Container.localTransform := Matrix.identity;
     Container.relativeGroupTransform := Matrix.identity;
     Container.localColor := 16777215; Container.groupColor := 16777215;
     Container.localAlpha := ratio 5 10; Container.groupAlpha := one;
     Container.groupColorAlpha := -1;
     Container.localBlendMode := "inherit"; Container.groupBlendMode := "normal";
     Container.localDisplayStatus := 7; Container.globalDisplayStatus := 7;
     Container.destroyed := false; Container._lastUsed := ofZ (-1) |}.

Definition stage_group : RenderGroup.t :=
  RenderGroup.set_childrenRenderablesToUpdate (UpdateList.mk [Some 2%nat] 1)
    (RenderGroup.set_childrenToUpdate
       [(1, UpdateList.mk [Some 1%nat] 1); (2, UpdateList.mk [Some 2%nat] 1)]
       (renderGroup 0)).

Definition scene : world :=
  {| nodes := {[ 0%nat := stage; 1%nat := faded; 2%nat := sprite ]};
     groups := {[ 100%nat := stage_group ]};
     batch := BatcherPipe.new {[ "default" := 16%nat ]} 16;
     colorMask := ColorMaskPipe.new;
     It := Matrix.identity;
     events := [] |}.

(** A scene with a nested render group: the card 1, of alpha 0.5, is
    the root of render group 200 inside the stage group 100, and holds
    the opaque label 2. *)
Definition card : Container.t :=
  {| Container.parent := Some 0%nat; Container.children := [2%nat];
     Container.sortableChildren := false;
     Container.renderGroup := Some 200%nat; Container.parentRenderGroup := Some 100%nat;
     Container.relativeRenderGroupDepth := 1; Container.renderPipeId := Some "renderGroup";
     Container.updateTick := -1; Container.didChange := true;
     Container.didViewUpdate := false; Container._updateFlags := 15;
     Container.localTransform := Matrix.identity;
     Container.relativeGroupTransform := Matrix.identity;
     Container.localColor := 16777215; Container.groupColor := 16777215;
     Container.localAlpha := ratio 5 10; Container.groupAlpha := one;
     Container.groupColorAlpha := -1;
     Container.localBlendMode := "inherit"; Container.groupBlendMode := "normal";
     Container.localDisplayStatus := 7; Container.globalDisplayStatus := 7;
     Container.destroyed := false; Container._lastUsed := ofZ (-1) |}.

Definition label : Container.t :=
  {| Container.parent := Some 1%nat; Container.children := [];
     Container.sortableChildren := false;
     Container.renderGroup := None; Container.parentRenderGroup := Some 200%nat;
     Container.relativeRenderGroupDepth := 1; Container.renderPipeId := Some "sprite";
     Container.updateTick := -1; Container.didChange := true;
     Container.didViewUpdate := true; Container._updateFlags := 15;
     Container.localTransform := Matrix.identity;
     Container.relativeGroupTransform := Matrix.identity;
     Container.localColor := 16777215; Container.groupColor := 16777215;
     Container.localAlpha := one; Container.groupAlpha := one;
     Container.groupColorAlpha := -1;
     Container.localBlendMode := "inherit"; Container.groupBlendMode := "normal";
     Container.localDisplayStatus := 7; Container.globalDisplayStatus := 7;
     Container.destroyed := false; Container._lastUsed := ofZ (-1) |}.

Definition nested_scene : world :=
  {| nodes := {[ 0%nat := stage; 1%nat := card; 2%nat := label ]};
     groups :=
       {[ 100%nat :=
            {| RenderGroup.root := 0; RenderGroup.renderGroupParent := None;
               RenderGroup.renderGroupChildren := [200%nat];
               RenderGroup.localTransform := Matrix.identity;
               RenderGroup.worldTransform := Matrix.identity;
               RenderGroup.worldColor := 16777215; RenderGroup.worldAlpha := one;
               RenderGroup.worldColorAlpha := -1; RenderGroup.updateTick := 0;
               RenderGroup.childrenToUpdate := [(1, UpdateList.mk [Some 1%nat] 1)];
               RenderGroup.childrenRenderablesToUpdate := UpdateList.mk [] 0;
               RenderGroup.structureDidChange := true;
               RenderGroup.instructionSet := InstructionSet.mkSet 100 [] 0;
               RenderGroup.isCachedAsTexture := false;
               RenderGroup.textureNeedsUpdate := false;
               RenderGroup.texture := None;
               RenderGroup._parentCacheAsTextureRenderGroup := None;
               RenderGroup.gcTick := 0 |};
          200%nat :=
            {| RenderGroup.root := 1; RenderGroup.renderGroupParent := Some 100%nat;
               RenderGroup.renderGroupChildren := [];
               RenderGroup.localTransform := Matrix.identity;
               RenderGroup.worldTransform := Matrix.identity;
               RenderGroup.worldColor := 16777215; RenderGroup.worldAlpha := one;
               RenderGroup.worldColorAlpha := -1; RenderGroup.updateTick := 0;
               RenderGroup.childrenToUpdate := [(1, UpdateList.mk [Some 2%nat] 1)];
               RenderGroup.childrenRenderablesToUpdate := UpdateList.mk [] 0;
               RenderGroup.structureDidChange := true;
               RenderGroup.instructionSet := InstructionSet.mkSet 200 [] 0;
               RenderGroup.isCachedAsTexture := false;
               RenderGroup.textureNeedsUpdate := false;
               RenderGroup.texture := None;
               RenderGroup._parentCacheAsTextureRenderGroup := None;
               RenderGroup.gcTick := 0 |} ]};
     batch := BatcherPipe.new {[ "default" := 16%nat ]} 16;
     colorMask := ColorMaskPipe.new;
     It := Matrix.identity;
     events := [] |}.

(** The scene after one pass of the propagator over the stage group. *)
Definition scene_after_pass : world :=
  match Be X 10 scene 100 false with
  | Some w => w
  | None => scene
  end.

(** The same externals with a batcher that cannot take the new texture
    of a sprite in place. *)
Definition X_new_texture : externals :=
  {| Ce := Ce X; ye := ye X; ke := ke X; be := be X; appendFrom := appendFrom X;
     localTransformOf := localTransformOf X; Et := Et X;
     checkAndUpdateTexture := fun _ => false;
     validateOther := validateOther X; _getGpuSprite := _getGpuSprite X;
     collect := collect X; getOptimalTexture := getOptimalTexture X;
     uniformBatch := uniformBatch X |}.

(** The scene after its first frame. *)
Definition scene_after_frame : world :=
  match _updateRenderGroups X 10 scene 100 with
  | Some w => w
  | None => scene
  end.

(** The sprite was given another texture after the first frame:
    its view changed, and it is queued in the list of renderables to
    update of its render group. *)
Definition queue_sprite (w : world) : world :=
  match nodes w !! 2%nat, groups w !! 100%nat with
  | Some nd, Some n =>
      set_group 100
        (RenderGroup.set_childrenRenderablesToUpdate (UpdateList.mk [Some 2%nat] 1) n)
        (set_node 2 (Container.set_didViewUpdate true nd) w)
  | _, _ => w
  end.

Definition scene_texture_changed : world := queue_sprite scene_after_frame.

Definition stage_group_texture_changed : RenderGroup.t :=
  match groups scene_texture_changed !! 100%nat with
  | Some n => n
  | None => stage_group
  end.

(** The scene after the stage group was updated in the second frame. *)
Definition scene_second_frame : world :=
  match update_group X 10 scene_texture_changed 100 with
  | Some w => w
  | None => scene_texture_changed
  end.

(** The container [nd] as a renderable of the custom-render pipe. *)
Definition as_custom (nd : Container.t) : Container.t :=
  {| Container.parent := Container.parent nd; Container.children := Container.children nd;
     Container.sortableChildren := Container.sortableChildren nd;
     Container.renderGroup := Container.renderGroup nd;
     Container.parentRenderGroup := Container.parentRenderGroup nd;
     Container.relativeRenderGroupDepth := Container.relativeRenderGroupDepth nd;
     Container.renderPipeId := Some "customRender";
     Container.updateTick := Container.updateTick nd;
     Container.didChange := Container.didChange nd;
     Container.didViewUpdate := Container.didViewUpdate nd;
     Container._updateFlags := Container._updateFlags nd;
     Container.localTransform := Container.localTransform nd;
     Container.relativeGroupTransform := Container.relativeGroupTransform nd;
     Container.localColor := Container.localColor nd;
     Container.groupColor := Container.groupColor nd;
     Container.localAlpha := Container.localAlpha nd;
     Container.groupAlpha := Container.groupAlpha nd;
     Container.groupColorAlpha := Container.groupColorAlpha nd;
     Container.localBlendMode := Container.localBlendMode nd;
     Container.groupBlendMode := Container.groupBlendMode nd;
     Container.localDisplayStatus := Container.localDisplayStatus nd;
     Container.globalDisplayStatus := Container.globalDisplayStatus nd;
     Container.destroyed := Container.destroyed nd;
     Container._lastUsed := Container._lastUsed nd |}.

(** The two scenes with a custom-render renderable in the place of the
    sprite and of the label: a renderable the collector can hand to its
    pipe. *)
Definition custom_scene : world := set_node 2 (as_custom sprite) scene.

Definition nested_custom_scene : world := set_node 2 (as_custom label) nested_scene.

(** The pipes of the samples: those of this chunk and no other. *)
Definition pipes : string -> bool := RenderableGC.chunk_pipes (fun _ => false).

(** A collector with the default options follows a scene: a first frame
    at time 0, in which the renderable 2 is added, and a second frame at
    time 70000. *)
Definition collector_after_two_frames (w0 : world) : option (RenderableGC.t * world) :=
  let c := RenderableGC.init RenderableGC.new
             (RenderableGC.mkOptions RenderableGC.Absent RenderableGC.Absent
                RenderableGC.Absent) in
  '(c, w) ← RenderableGC.prerender 10 c w0 0 (ofZ 0);
  '(c, w) ← RenderableGC.addRenderable c w 2;
  RenderableGC.prerender 10 c w 0 (ofZ 70000).

(** The sample scene, whose renderable 2 belongs to the render group of
    the stage, before and after the sweep that follows the second
    frame. *)
Definition before_sweep : RenderableGC.t * world :=
  match collector_after_two_frames custom_scene with
  | Some x => x
  | None => (RenderableGC.new, custom_scene)
  end.

Definition after_sweep : RenderableGC.t * world :=
  match RenderableGC.run pipes (fst before_sweep) (snd before_sweep) with
  | Some x => x
  | None => before_sweep
  end.

(** The nested scene, whose renderable 2 belongs to the render group of
    the card, before the sweep that follows the second frame. *)
Definition nested_before_sweep : RenderableGC.t * world :=
  match collector_after_two_frames nested_custom_scene with
  | Some x => x
  | None => (RenderableGC.new, nested_custom_scene)
  end.

(** The nested scene with the label as the sprite it is, tracked all
    the same. *)
Definition nested_sprite_before_sweep : RenderableGC.t * world :=
  match collector_after_two_frames nested_scene with
  | Some x => x
  | None => (RenderableGC.new, nested_scene)
  end.

(** A renderer whose only system is the render-group system, which gets
    the handle 1, and a texture generated from the card of the nested
    scene by that renderer: no other hooks, the card visible and already
    the root of a render group, its bounds with the corner (3,4), the
    new texture 900. *)
Definition renderer : Renderer.renderer :=
  match Renderer._addSystem Renderer.sample_renderer (Renderer.mkClass ["render"])
          "renderGroup" with
  | Renderer.Ok R => R
  | Renderer.Throw _ => Renderer.sample_renderer
  end.

Definition texture_of_card : option (world * nat) :=
  TextureGenerator.generateTexture X 10 renderer 1%nat (fun _ _ _ w => Some w)
    (fun _ => true) (fun _ w => w)
    (fun _ _ => TextureGenerator.mkRectangle (ofZ 3) (ofZ 4))
    nested_scene 1%nat None 900%nat.

Definition scene_after_texture : world :=
  match texture_of_card with
  | Some (w, _) => w
  | None => nested_scene
  end.

End Sample.

(** ** Cleaning of managed hashes and arrays (functions [pt] and [mt]) *)

Module Clean.
Import Renderer.

(** [v==null]: the value is [null] or [undefined]. *)
Definition nullish (v : jsval) : bool :=
  match v with
  | VUndefined | VNull => true
  | _ => false
  end.

(** An object as [for(let r in n)] walks it: the enumerable keys in the
    order of the enumeration, each with its value. *)
Definition object := list (string * jsval).

(** [function pt(n){let e=!1;for(let r in n)if(n[r]==null){e=!0;break}
      if(!e)return n;let t=Object.create(null);
      for(let r in n){let s=n[r];s&&(t[r]=s)}return t}] *)
Definition pt (n : object) : object :=
  let e := existsb (fun kv => nullish (snd kv)) n in
  if negb e then n
  else fold_left (fun t kv => if truthy (snd kv) then t ++ [kv] else t) n [].

(** One turn of the loop of [mt]: [n[t]==null?e++:n[t-e]=n[t]]. *)
Definition mt_step (st : list jsval * nat) (t : nat) : list jsval * nat :=
  let '(n, e) := st in
  match n !! t with
  | Some v => if nullish v then (n, S e) else (<[(t - e)%nat := v]> n, e)
  | None => (n, S e)
  end.

(** [function mt(n){let e=0;for(let t=0;t<n.length;t++)
      n[t]==null?e++:n[t-e]=n[t];return n.length-=e,n}]: the array is
    compacted in place and cut. *)
Definition mt (n : list jsval) : list jsval :=
  let '(n', e) := foldl mt_step (n, 0%nat) (seq 0 (length n)) in
  take (length n' - e) n'.

End Clean.

(** ** Building stencil masks (class [Q], methods [push] and [pop]) *)

Module StencilMaskBuild.
Import InstructionSet.

(** What [_maskHash] keeps for a mask effect: where the instructions
    that draw the mask start in the set, and how many they are. *)
Record span := mkSpan { instructionsStart : nat; instructionsLength : Z }.

(** The pipe while a set is built: the reference counts that [execute]
    works on, and [_maskHash], a WeakMap keyed by the effect object. *)
Record builder := mkBuilder {
  pipe : StencilMaskPipe.pipe;
  _maskHash : gmap nat span
}.

Definition set_maskHash (m : gmap nat span) (q : builder) : builder :=
  {| pipe := pipe q; _maskHash := m |}.

(** [(s=this._maskStackHash)[h]??(s[h]=0)] *)
Definition touch_target (h : nat) (q : builder) : builder :=
  match StencilMaskPipe._maskStackHash (pipe q) !! h with
  | Some _ => q
  | None =>
      {| pipe := StencilMaskPipe.mkPipe
                   (<[h := 0]> (StencilMaskPipe._maskStackHash (pipe q)))
                   (StencilMaskPipe.calls (pipe q));
         _maskHash := _maskHash q |}
  end.

(** The loop of [pop]:
    [for(let l=0;l<a.instructionsLength;l++)
       r.instructions[r.instructionSize++]=r.instructions[a.instructionsStart++]].
    The set keeps its live entries only; [None] stands for a read past
    them, which would copy whatever an earlier build left in the slot. *)
Fixpoint replay (n : nat) (start : nat) (r : InstructionSet.t)
    : option (nat * InstructionSet.t) :=
  match n with
  | O => Some (start, r)
  | S n =>
      i ← instructions r !! start;
      replay n (S start) (InstructionSet.add r i)
  end.

Section Build.

(** The other pipes of the renderer, with the containers they walk, and
    the calls [push] and [pop] make on them: [batch.break(r)],
    [blendMode.setBlendMode(mask,"none",r)], the flag [includeInBuild]
    of the mask, [mask.collectRenderables(r,renderer,null)], which may
    come back to this pipe for masks inside the mask, and the uid of the
    bound render target.  [None] is an exception. *)
Variable Pipes : Type.
Variable batch_break : Pipes -> InstructionSet.t -> option (Pipes * InstructionSet.t).
Variable setBlendMode :
  nat -> string -> Pipes -> InstructionSet.t -> option (Pipes * InstructionSet.t).
Variable set_includeInBuild : nat -> bool -> Pipes -> Pipes.
Variable collectRenderables :
  nat -> Pipes * builder -> InstructionSet.t -> option (Pipes * builder * InstructionSet.t).
Variable renderTarget : Pipes -> nat.

(** [push(e,t,r)] for the effect [e] with the mask container [mask] on a
    container whose [_maskOptions.inverse] is [inverse]. *)
Definition push (q : builder) (p : Pipes) (e mask : nat) (inverse : bool)
    (r : InstructionSet.t) : option (builder * Pipes * InstructionSet.t) :=
  '(p, r) ← batch_break p r;
  '(p, r) ← setBlendMode mask "none" p r;
  let r := InstructionSet.add r (StencilMask pushMaskBegin inverse) in
  let p := set_includeInBuild mask true p in
  let q := match _maskHash q !! e with
           | Some _ => q
           | None => set_maskHash (<[e := mkSpan 0 0]> (_maskHash q)) q
           end in
  u ← _maskHash q !! e;
  let q := set_maskHash
             (<[e := mkSpan (instructionSize r) (instructionsLength u)]> (_maskHash q)) q in
  '(p, q, r) ← collectRenderables mask (p, q) r;
  let p := set_includeInBuild mask false p in
  '(p, r) ← batch_break p r;
  let r := InstructionSet.add r (StencilMask pushMaskEnd inverse) in
  u ← _maskHash q !! e;
  let d := Z.of_nat (instructionSize r) - Z.of_nat (instructionsStart u) - 1 in
  let q := set_maskHash (<[e := mkSpan (instructionsStart u) d]> (_maskHash q)) q in
  Some (touch_target (renderTarget p) q, p, r).

(** [pop(e,t,r)]: the instructions that drew the mask are copied between
    [popMaskBegin] and [popMaskEnd]; the span of the effect moves on
    with the copy.  An effect that was never pushed has no span, and the
    read of [a.instructionsLength] fails. *)
Definition pop (q : builder) (p : Pipes) (e mask : nat) (inverse : bool)
    (r : InstructionSet.t) : option (builder * Pipes * InstructionSet.t) :=
  '(p, r) ← batch_break p r;
  '(p, r) ← setBlendMode mask "none" p r;
  let r := InstructionSet.add r (StencilMask popMaskBegin inverse) in
  a ← _maskHash q !! e;
  '(start, r) ← replay (Z.to_nat (instructionsLength a)) (instructionsStart a) r;
  let q := set_maskHash (<[e := mkSpan start (instructionsLength a)]> (_maskHash q)) q in
  let r := InstructionSet.add r (StencilMask popMaskEnd false) in
  Some (q, p, r).

End Build.

(** A build in which the batcher has nothing to break, the blend mode
    stays as it is, and a mask container is drawn by one instruction of
    the sprite pipe; the render target has the uid 1. *)
Definition sample_break (p : unit) (r : InstructionSet.t)
    : option (unit * InstructionSet.t) := Some (p, r).

Definition sample_blend (m : nat) (b : string) (p : unit) (r : InstructionSet.t)
    : option (unit * InstructionSet.t) := Some (p, r).

Definition sample_collect (m : nat) (pq : unit * builder) (r : InstructionSet.t)
    : option (unit * builder * InstructionSet.t) :=
  Some (fst pq, snd pq, InstructionSet.add r (Renderable "sprite" m)).

Definition sample_push :=
  push unit sample_break sample_blend (fun _ _ p => p) sample_collect (fun _ => 1%nat).

Definition sample_pop := pop unit sample_break sample_blend.

Definition sample_builder : builder := mkBuilder (StencilMaskPipe.mkPipe ∅ []) ∅.

End StencilMaskBuild.

(** ** The scheduler (class [se]) *)

Module Scheduler.
Import Number.

(** A task: [{func,duration,start,offset,last,repeat:!0,id}]; the
    callback is named by a handle. *)
Record task := mkTask {
  func : nat;
  duration : number;
  start : number;
  offset : number;
  last : number;
  id : Z
}.

Definition set_last (x : number) (r : task) : task :=
  {| func := func r; duration := duration r; start := start r; offset := offset r;
     last := x; id := id r |}.

(** A scheduler with the counter [Lt] of task ids, which all schedulers
    share. *)
Record t := mkScheduler {
  _tasks : list task;
  _offset : number;
  Lt : Z
}.

(** [var Lt=1] and [constructor(){this._tasks=[],this._offset=0}] *)
Definition new : t := {| _tasks := []; _offset := zero; Lt := 1 |}.

(** [repeat(e,t,r=!0){let s=Lt++,i=0;
      return r&&(this._offset+=1e3,i=this._offset),
      this._tasks.push({func:e,duration:t,start:performance.now(),offset:i,
        last:performance.now(),repeat:!0,id:s}),s}]; the two readings of
    the clock are [now1] and [now2]. *)
Definition repeat (s : t) (e : nat) (d : number) (r : bool) (now1 now2 : number)
    : t * Z :=
  let i := Lt s in
  let off := if r then SFadd prec emax (_offset s) (ofZ 1000) else _offset s in
  ({| _tasks := _tasks s ++ [mkTask e d now1 (if r then off else zero) now2 i];
      _offset := off;
      Lt := Lt s + 1 |}, i).

(** The loop of [cancel]:
    [for(let t=0;t<this._tasks.length;t++)
       if(this._tasks[t].id===e){this._tasks.splice(t,1);return}] *)
Fixpoint cancel_first (l : list task) (e : Z) : list task :=
  match l with
  | [] => []
  | x :: l' => if id x =? e then l' else x :: cancel_first l' e
  end.

Definition cancel (s : t) (e : Z) : t :=
  {| _tasks := cancel_first (_tasks s) e; _offset := _offset s; Lt := Lt s |}.

(** [e-r.offset-r.last>=r.duration] *)
Definition due (now : number) (r : task) : bool :=
  SFleb (duration r) (sub (sub now (offset r)) (last r)).

(** The loop of [_update] at the time [e] of the clock:
    [if(e-r.offset-r.last>=r.duration){let s=e-r.start;r.func(s),r.last=e}];
    the calls of the callbacks are handed back, each with its argument.
    A callback that edits the task list while the loop runs is outside
    this model. *)
Fixpoint update_loop (e : number) (l : list task) : list task * list (nat * number) :=
  match l with
  | [] => ([], [])
  | r :: l' =>
      let '(l'', calls) := update_loop e l' in
      if due e r then (set_last e r :: l'', (func r, sub e (start r)) :: calls)
      else (r :: l'', calls)
  end.

Definition _update (s : t) (e : number) : t * list (nat * number) :=
  let '(l, calls) := update_loop e (_tasks s) in
  ({| _tasks := l; _offset := _offset s; Lt := Lt s |}, calls).

End Scheduler.

(** ** Enabling the renderable collector (accessor [enabled] of [He]) *)

Module CollectorSwitch.
Import Number.

(** The handles of the three tasks of a collector: [_handler],
    [_hashHandler], [_arrayHandler]; [None] is a field that was never
    assigned. *)
Record handlers := mkHandlers {
  _handler : option Z;
  _hashHandler : option Z;
  _arrayHandler : option Z
}.

Definition new : handlers := mkHandlers None None None.

(** [get enabled(){return!!this._handler}] *)
Definition enabled (h : handlers) : bool :=
  match _handler h with
  | Some z => negb (z =? 0)
  | None => false
  end.

(** The callbacks of the three tasks: [()=>this.run()], the cleaner of
    the managed hashes and the cleaner of the managed arrays. *)
Definition run_callback : nat := 0.
Definition hash_callback : nat := 1.
Definition array_callback : nat := 2.

(** [scheduler.cancel(x)] for a handle that may be [undefined]: no task
    has the id [undefined]. *)
Definition cancel_handle (s : Scheduler.t) (x : option Z) : Scheduler.t :=
  match x with
  | Some z => Scheduler.cancel s z
  | None => s
  end.

(** [set enabled(e){this.enabled!==e&&(e?
      (this._handler=scheduler.repeat(()=>this.run(),this._frequency,!1),
       this._hashHandler=scheduler.repeat(...,this._frequency),
       this._arrayHandler=scheduler.repeat(...,this._frequency))
     :(scheduler.cancel(this._handler),scheduler.cancel(this._hashHandler),
       scheduler.cancel(this._arrayHandler)))}]; [now k] is the [k]-th
    reading of the clock during the call. *)
Definition set_enabled (h : handlers) (s : Scheduler.t) (_frequency : number)
    (e : bool) (now : nat -> number) : handlers * Scheduler.t :=
  if Bool.eqb (enabled h) e then (h, s)
  else if e then
    let '(s, a) := Scheduler.repeat s run_callback _frequency false (now 0%nat) (now 1%nat) in
    let '(s, b) := Scheduler.repeat s hash_callback _frequency true (now 2%nat) (now 3%nat) in
    let '(s, c) := Scheduler.repeat s array_callback _frequency true (now 4%nat) (now 5%nat) in
    (mkHandlers (Some a) (Some b) (Some c), s)
  else
    (h, cancel_handle (cancel_handle (cancel_handle s (_handler h)) (_hashHandler h))
          (_arrayHandler h)).

End CollectorSwitch.

(** ** The texture collector (class [ze]) *)

Module TextureGC.

Import RenderableGC (given, Absent, Undefined, Null, Value).

(** The options [init] reads. *)
Record options := mkOptions {
  textureGCActive : given bool;
  textureGCAMaxIdle : given Z;
  textureGCMaxIdle : given Z;
  textureGCCheckCountMax : given Z
}.

(** [ze.defaultOptions={textureGCActive:!0,textureGCAMaxIdle:null,
      textureGCMaxIdle:3600,textureGCCheckCountMax:600}] *)
Definition defaultOptions : options :=
  {| textureGCActive := Value true;
     textureGCAMaxIdle := Null;
     textureGCMaxIdle := Value 3600;
     textureGCCheckCountMax := Value 600 |}.

(** [c(c({},d),e)] *)
Definition merge (d e : options) : options :=
  {| textureGCActive := RenderableGC.or_else (textureGCActive e) (textureGCActive d);
     textureGCAMaxIdle := RenderableGC.or_else (textureGCAMaxIdle e) (textureGCAMaxIdle d);
     textureGCMaxIdle := RenderableGC.or_else (textureGCMaxIdle e) (textureGCMaxIdle d);
     textureGCCheckCountMax :=
       RenderableGC.or_else (textureGCCheckCountMax e) (textureGCCheckCountMax d) |}.

(** A managed texture source, as far as the collector looks at it:
    [autoGarbageCollect], whether [resource] is set, and the frame count
    [_touched] at which it was last used, -1 once it is unloaded. *)
Record source := mkSource {
  uid : nat;
  autoGarbageCollect : bool;
  resource : bool;
  _touched : Z
}.

Definition set_touched (x : Z) (r : source) : source :=
  {| uid := uid r; autoGarbageCollect := autoGarbageCollect r; resource := resource r;
     _touched := x |}.

(** A limit as the comparisons of the collector read it: a number, with
    0 for [null], or [None] for [undefined]. *)
Definition limit (x : given Z) : option Z :=
  match x with
  | Value v => Some v
  | Null => Some 0
  | Absent | Undefined => None
  end.

(** The collector with the textures it sweeps
    ([this._renderer.texture.managedTextures]) and the textures it has
    asked to [unload()], oldest first.  The counters are frame counts;
    [checkCountMax] and [maxIdle] are not assigned before [init] and
    read [undefined] until then.  Both are only ever read by [>], and
    are kept as [limit] reads them. *)
Record t := mkGC {
  count : Z;
  checkCount : Z;
  checkCountMax : option Z;
  maxIdle : option Z;
  active : bool;
  managedTextures : list source;
  unloaded : list nat
}.

(** [constructor(e){this._renderer=e,this.count=0,this.checkCount=0}] *)
Definition new (textures : list source) : t :=
  {| count := 0; checkCount := 0; checkCountMax := None; maxIdle := None;
     active := false; managedTextures := textures; unloaded := [] |}.

(** [init(e){e=c(c({},vt.defaultOptions),e),
      this.checkCountMax=e.textureGCCheckCountMax,
      this.maxIdle=e.textureGCAMaxIdle??e.textureGCMaxIdle,
      this.active=e.textureGCActive}] *)
Definition init (s : t) (e : options) : t :=
  let e := merge defaultOptions e in
  {| count := count s; checkCount := checkCount s;
     checkCountMax := limit (textureGCCheckCountMax e);
     maxIdle := match textureGCAMaxIdle e with
                | Value v => Some v
                | _ => limit (textureGCMaxIdle e)
                end;
     active := RenderableGC.to_boolean (textureGCActive e);
     managedTextures := managedTextures s; unloaded := unloaded s |}.

(** [x>y] for a limit [y]: no number is greater than [undefined]. *)
Definition exceeds (x : Z) (y : option Z) : bool :=
  match y with
  | Some y => y <? x
  | None => false
  end.

(** The test of [run] on the texture [r]:
    [r.autoGarbageCollect&&r.resource&&r._touched>-1
       &&this.count-r._touched>this.maxIdle] *)
Definition idle (s : t) (r : source) : bool :=
  autoGarbageCollect r && resource r && (-1 <? _touched r)
  && exceeds (count s - _touched r) (maxIdle s).

(** The loop of [run]: [(r._touched=-1,r.unload())] for every texture
    that passes the test. *)
Fixpoint run_loop (s : t) (l : list source) : list source * list nat :=
  match l with
  | [] => ([], [])
  | r :: l' =>
      let '(l'', us) := run_loop s l' in
      if idle s r then (set_touched (-1) r :: l'', uid r :: us) else (r :: l'', us)
  end.

Definition run (s : t) : t :=
  let '(l, us) := run_loop s (managedTextures s) in
  {| count := count s; checkCount := checkCount s; checkCountMax := checkCountMax s;
     maxIdle := maxIdle s; active := active s;
     managedTextures := l; unloaded := unloaded s ++ us |}.

Definition set_counts (c k : Z) (s : t) : t :=
  {| count := c; checkCount := k; checkCountMax := checkCountMax s;
     maxIdle := maxIdle s; active := active s;
     managedTextures := managedTextures s; unloaded := unloaded s |}.

(** [postrender(){this._renderer.renderingToScreen&&(this.count++,
      this.active&&(this.checkCount++,
        this.checkCount>this.checkCountMax&&(this.checkCount=0,this.run())))}] *)
Definition postrender (s : t) (renderingToScreen : bool) : t :=
  if renderingToScreen then
    let s := set_counts (count s + 1) (checkCount s) s in
    if active s then
      let s := set_counts (count s) (checkCount s + 1) s in
      if exceeds (checkCount s) (checkCountMax s)
      then run (set_counts (count s) 0 s)
      else s
    else s
  else s.

(** [n] frames that are rendered to the screen. *)
Definition frames (n : nat) (s : t) : t :=
  Nat.iter n (fun s => postrender s true) s.

(** Two textures: one last used in frame 10, one in frame 3000. *)
Definition sample : t :=
  set_counts 3700 0
    (init (new [mkSource 1 true true 10; mkSource 2 true true 3000])
       (mkOptions Absent Absent Absent Absent)).

End TextureGC.

(** ** Global uniforms (class [re]) *)

Module GlobalUniforms.
Import Number.

(** A point or a size: two numbers. *)
Definition pair := (number * number)%type.

(** The options of [bind]; [None] is a field that is not given. *)
Record options := mkOptions {
  size : option pair;
  projectionMatrix : option Matrix.t;
  worldTransformMatrix : option Matrix.t;
  worldColor : option Z;
  offset : option pair
}.

(** An entry of the stack, [{projectionMatrix,resolution,
    worldTransformMatrix,worldColor,offset,bindGroup}]. *)
Record data := mkData {
  d_projectionMatrix : Matrix.t;
  d_resolution : pair;
  d_worldTransformMatrix : Matrix.t;
  d_worldColor : Z;
  d_offset : pair;
  d_bindGroup : nat
}.

(** The values of a uniform group made by [_createUniforms]. *)
Record uniforms := mkUniforms {
  uProjectionMatrix : Matrix.t;
  uWorldTransformMatrix : Matrix.t;
  uWorldColorAlpha : Z;
  uResolution : pair
}.

(** Calls that leave the class: [d.update()] on a uniform group and
    [bindGroup.resources[0].update()] on a bind group. *)
Inductive call :=
| update (d : nat)
| update_resource (bindGroup : nat).

(** The system: uniform groups and bind groups are objects, named by
    handles; [groups] holds the values of the uniform groups that exist
    and [resources] the resource 0 of every bind group. *)
Record t := mkSystem {
  _stackIndex : Z;
  _globalUniformDataStack : gmap Z data;
  _uniformsPool : list nat;
  _activeUniforms : list nat;
  _bindGroupPool : list nat;
  _activeBindGroups : list nat;
  _currentGlobalUniformData : option data;
  groups : gmap nat uniforms;
  resources : gmap nat nat;
  fresh : nat;
  calls : list call
}.

(** [constructor(e)] *)
Definition new : t :=
  {| _stackIndex := 0; _globalUniformDataStack := ∅;
     _uniformsPool := []; _activeUniforms := [];
     _bindGroupPool := []; _activeBindGroups := [];
     _currentGlobalUniformData := None;
     groups := ∅; resources := ∅; fresh := 0; calls := [] |}.

(** [reset()]: the stack is emptied and the uniform groups and bind
    groups of the last frame go back to their pools, in their order. *)
Definition reset (s : t) : t :=
  {| _stackIndex := 0; _globalUniformDataStack := _globalUniformDataStack s;
     _uniformsPool := _uniformsPool s ++ _activeUniforms s; _activeUniforms := [];
     _bindGroupPool := _bindGroupPool s ++ _activeBindGroups s; _activeBindGroups := [];
     _currentGlobalUniformData := _currentGlobalUniformData s;
     groups := groups s; resources := resources s; fresh := fresh s; calls := calls s |}.

(** [a||b] on a field that may be missing. *)
Definition or_field {A} (a : option A) (b : A) : A :=
  match a with
  | Some a => a
  | None => b
  end.

(** [s||l.worldColor]: the colour 0 is falsy. *)
Definition or_color (s : option Z) (l : Z) : Z :=
  match s with
  | Some s => if s =? 0 then l else s
  | None => l
  end.

(** [pool.pop()||make()]: the last object of the pool, or a new one. *)
Definition take_or_make (pool : list nat) (fresh : nat) : nat * list nat * nat :=
  match last pool with
  | Some d => (d, removelast pool, fresh)
  | None => (fresh, pool, S fresh)
  end.

Section System.

(** The render target that is bound, [renderTarget.renderTarget.size]
    and [renderTarget.projectionMatrix]; the unpacking [Je] of a colour
    into the four floats of [uWorldColorAlpha], kept as the colour it
    unpacks; the uniform-batch pipe of the renderer, if it has one,
    which hands out the bind group for a uniform group; and whether the
    renderer is the WebGL one. *)
Variable target_size : pair.
Variable target_projection : Matrix.t.
Variable uniformBatch : option (nat -> nat).
Variable webgl : bool.

(** [bind({size:e,projectionMatrix:t,worldTransformMatrix:r,worldColor:s,
    offset:i})]; [None] is the TypeError of a read from the entry below
    when the stack holds none there. *)
Definition bind (s : t) (o : options) : option t :=
  let l := if _stackIndex s =? 0
           then Some (mkData target_projection target_size Matrix.identity 4294967295
                        (zero, zero) 0)
           else _globalUniformDataStack s !! (_stackIndex s - 1) in
  wt ← match worldTransformMatrix o with
       | Some r => Some r
       | None => d_worldTransformMatrix <$> l
       end;
  wc ← match worldColor o with
       | Some c => if c =? 0 then d_worldColor <$> l else Some c
       | None => d_worldColor <$> l
       end;
  off ← match offset o with
        | Some i => Some i
        | None => d_offset <$> l
        end;
  let pm := or_field (projectionMatrix o) target_projection in
  let res := or_field (size o) target_size in
  let '(d, pool, fr) := take_or_make (_uniformsPool s) (fresh s) in
  let h := {| uProjectionMatrix := pm;
              uWorldTransformMatrix :=
                Matrix.mk (Matrix.a wt) (Matrix.b wt) (Matrix.c wt) (Matrix.d wt)
                  (sub (Matrix.tx wt) (fst off)) (sub (Matrix.ty wt) (snd off));
              uWorldColorAlpha := wc;
              uResolution := res |} in
  let '(f, bpool, active, rs, fr) :=
    match uniformBatch with
    | Some getUniformBindGroup =>
        (getUniformBindGroup d, _bindGroupPool s, _activeBindGroups s, resources s, fr)
    | None =>
        let '(f, bpool, fr) := take_or_make (_bindGroupPool s) fr in
        (f, bpool, _activeBindGroups s ++ [f], <[f := d]> (resources s), fr)
    end in
  Some {| _stackIndex := _stackIndex s;
          _globalUniformDataStack := _globalUniformDataStack s;
          _uniformsPool := pool; _activeUniforms := _activeUniforms s ++ [d];
          _bindGroupPool := bpool; _activeBindGroups := active;
          _currentGlobalUniformData := Some (mkData pm res wt wc off f);
          groups := <[d := h]> (groups s);
          resources := rs; fresh := fr;
          calls := calls s ++ [update d] |}.

(** [push(e){this.bind(e),
      this._globalUniformDataStack[this._stackIndex++]=
        this._currentGlobalUniformData}] *)
Definition push (s : t) (o : options) : option t :=
  s ← bind s o;
  u ← _currentGlobalUniformData s;
  Some {| _stackIndex := _stackIndex s + 1;
          _globalUniformDataStack := <[_stackIndex s := u]> (_globalUniformDataStack s);
          _uniformsPool := _uniformsPool s; _activeUniforms := _activeUniforms s;
          _bindGroupPool := _bindGroupPool s; _activeBindGroups := _activeBindGroups s;
          _currentGlobalUniformData := Some u;
          groups := groups s; resources := resources s; fresh := fresh s;
          calls := calls s |}.

(** [start(e){this.reset(),this.push(e)}] *)
Definition start (s : t) (o : options) : option t := push (reset s) o.

(** [pop(){this._currentGlobalUniformData=
      this._globalUniformDataStack[--this._stackIndex-1],
      this._renderer.type===U.WEBGL
        &&this._currentGlobalUniformData.bindGroup.resources[0].update()}];
    on WebGL an empty slot below the top makes the read of [bindGroup]
    fail. *)
Definition pop (s : t) : option t :=
  let i := _stackIndex s - 1 in
  let u := _globalUniformDataStack s !! (i - 1) in
  cs ← (if webgl then (fun d => [update_resource (d_bindGroup d)]) <$> u else Some []);
  Some {| _stackIndex := i;
          _globalUniformDataStack := _globalUniformDataStack s;
          _uniformsPool := _uniformsPool s; _activeUniforms := _activeUniforms s;
          _bindGroupPool := _bindGroupPool s; _activeBindGroups := _activeBindGroups s;
          _currentGlobalUniformData := u;
          groups := groups s; resources := resources s; fresh := fresh s;
          calls := calls s ++ cs |}.

(** The calls of a frame. *)
Inductive op := Start (o : options) | Bind (o : options) | Push (o : options) | Pop.

Definition step (s : option t) (o : op) : option t :=
  match s with
  | Some s =>
      match o with
      | Start o => start s o
      | Bind o => bind s o
      | Push o => push s o
      | Pop => pop s
      end
  | None => None
  end.

Definition run (s : t) (os : list op) : option t := foldl step (Some s) os.

End System.

(** Every [Pop] of a sequence of pushes and pops undoes a [Push] of the
    sequence: [d] counts the pushes that are open. *)
Fixpoint nested (d : nat) (os : list op) : bool :=
  match os with
  | [] => Nat.eqb d 0
  | Push _ :: os' => nested (S d) os'
  | Pop :: os' =>
      match d with
      | O => false
      | S d' => nested d' os'
      end
  | _ :: os' => false
  end.

(** A frame on a WebGL renderer without a uniform-batch pipe, on a
    target of 800 by 600: the stage is started, a render group with the
    colour 16711680 and one with an offset are pushed and popped. *)
Definition plain : options := mkOptions None None None None None.

Definition sample_ops : list op :=
  [Push (mkOptions None None None (Some 16711680) None);
   Push (mkOptions None None None None (Some (ofZ 10, ofZ 20)));
   Pop; Pop].

Definition sample_run (s : t) (os : list op) : option t :=
  run (ofZ 800, ofZ 600) Matrix.identity None true s os.

End GlobalUniforms.

(** ** The blend mode pipe (class [ee]) *)

Module BlendModePipe.

(** What [setBlendMode] is handed as its first argument: a renderable,
    or a render group (an instance of [Te]) with its root. *)
Inductive target :=
| renderable (n : nat)
| renderGroup (g root : nat).

(** Calls that leave the pipe: [renderPipes.batch.break(set)],
    [set.add(i)] for the two filter instructions, and the warning [P]
    about a blend mode without a filter.  The array
    [renderables] of a [pushFilter] instruction is an object the pipe
    keeps writing to; the instruction holds its handle. *)
Inductive call :=
| batch_break
| add_pushFilter (filterEffect : nat) (renderables : option nat) (container : option nat)
| add_popFilter
| warn.

(** The pipe.  [_activeBlendMode] is not assigned before the first
    [prerender]; [_renderableList] is [null], unassigned, or the array
    of the open [pushFilter] instruction; [arrays] holds the arrays that
    were made and [fresh] the next unused handle of an array or filter
    effect. *)
Record pipe := mkPipe {
  _blendModeStack : list string;
  _isAdvanced : bool;
  _filterHash : gmap string nat;
  _activeBlendMode : option string;
  _renderableList : option nat;
  arrays : gmap nat (list nat);
  fresh : nat;
  calls : list call
}.

(** [constructor(e)] *)
Definition new : pipe :=
  {| _blendModeStack := []; _isAdvanced := false; _filterHash := ∅;
     _activeBlendMode := None; _renderableList := None;
     arrays := ∅; fresh := 0; calls := [] |}.

Definition set_isAdvanced (x : bool) (p : pipe) : pipe :=
  {| _blendModeStack := _blendModeStack p; _isAdvanced := x; _filterHash := _filterHash p;
     _activeBlendMode := _activeBlendMode p; _renderableList := _renderableList p;
     arrays := arrays p; fresh := fresh p; calls := calls p |}.

Definition set_activeBlendMode (x : option string) (p : pipe) : pipe :=
  {| _blendModeStack := _blendModeStack p; _isAdvanced := _isAdvanced p;
     _filterHash := _filterHash p;
     _activeBlendMode := x; _renderableList := _renderableList p;
     arrays := arrays p; fresh := fresh p; calls := calls p |}.

Definition set_blendModeStack (x : list string) (p : pipe) : pipe :=
  {| _blendModeStack := x; _isAdvanced := _isAdvanced p; _filterHash := _filterHash p;
     _activeBlendMode := _activeBlendMode p; _renderableList := _renderableList p;
     arrays := arrays p; fresh := fresh p; calls := calls p |}.

Definition log (cs : list call) (p : pipe) : pipe :=
  {| _blendModeStack := _blendModeStack p; _isAdvanced := _isAdvanced p;
     _filterHash := _filterHash p;
     _activeBlendMode := _activeBlendMode p; _renderableList := _renderableList p;
     arrays := arrays p; fresh := fresh p; calls := calls p ++ cs |}.

(** [prerender(){this._activeBlendMode="normal",this._isAdvanced=!1}] *)
Definition prerender (p : pipe) : pipe :=
  set_isAdvanced false (set_activeBlendMode (Some "normal") p).

(** [buildStart(){this._isAdvanced=!1}] *)
Definition buildStart (p : pipe) : pipe := set_isAdvanced false p.

Section Modes.

(** [!!Z[t]]: whether a filter is registered for the blend mode [t]. *)
Variable advanced : string -> bool.

(** [_ensureFilterEffect(e)]: the filter effect of a mode is made once. *)
Definition _ensureFilterEffect (p : pipe) (e : string) : pipe * nat :=
  match _filterHash p !! e with
  | Some t => (p, t)
  | None =>
      ({| _blendModeStack := _blendModeStack p; _isAdvanced := _isAdvanced p;
          _filterHash := <[e := fresh p]> (_filterHash p);
          _activeBlendMode := _activeBlendMode p; _renderableList := _renderableList p;
          arrays := arrays p; fresh := S (fresh p); calls := calls p |}, fresh p)
  end.

(** [_beginAdvancedBlendMode(e,t)]; without a filter for the active mode
    it warns and leaves after the break. *)
Definition _beginAdvancedBlendMode (p : pipe) (e : target) : pipe :=
  let p := log [batch_break] p in
  match _activeBlendMode p with
  | Some r =>
      if advanced r then
        let '(p, s) := _ensureFilterEffect p r in
        match e with
        | renderGroup _ root =>
            log [add_pushFilter s None (Some root)]
              {| _blendModeStack := _blendModeStack p; _isAdvanced := _isAdvanced p;
                 _filterHash := _filterHash p; _activeBlendMode := _activeBlendMode p;
                 _renderableList := None;
                 arrays := arrays p; fresh := fresh p; calls := calls p |}
        | renderable n =>
            log [add_pushFilter s (Some (fresh p)) None]
              {| _blendModeStack := _blendModeStack p; _isAdvanced := _isAdvanced p;
                 _filterHash := _filterHash p; _activeBlendMode := _activeBlendMode p;
                 _renderableList := Some (fresh p);
                 arrays := <[fresh p := [n]]> (arrays p); fresh := S (fresh p);
                 calls := calls p |}
        end
      else log [warn] p
  | None => log [warn] p
  end.

(** [_endAdvancedBlendMode(e)] *)
Definition _endAdvancedBlendMode (p : pipe) : pipe :=
  log [batch_break; add_popFilter]
    {| _blendModeStack := _blendModeStack p; _isAdvanced := false;
       _filterHash := _filterHash p; _activeBlendMode := _activeBlendMode p;
       _renderableList := None;
       arrays := arrays p; fresh := fresh p; calls := calls p |}.

(** [this._renderableList?.push(e)] *)
Definition list_push (p : pipe) (n : nat) : pipe :=
  match _renderableList p with
  | Some h =>
      {| _blendModeStack := _blendModeStack p; _isAdvanced := _isAdvanced p;
         _filterHash := _filterHash p; _activeBlendMode := _activeBlendMode p;
         _renderableList := _renderableList p;
         arrays := <[h := match arrays p !! h with
                          | Some l => l ++ [n]
                          | None => [n]
                          end]> (arrays p);
         fresh := fresh p; calls := calls p |}
  | None => p
  end.

(** [setBlendMode(e,t,r){let s=e instanceof Te;
      if(this._activeBlendMode===t){
        this._isAdvanced&&e&&!s&&this._renderableList?.push(e);return}
      this._isAdvanced&&this._endAdvancedBlendMode(r),
      this._activeBlendMode=t,
      e&&(this._isAdvanced=!!Z[t],
          this._isAdvanced&&this._beginAdvancedBlendMode(e,r))}] *)
Definition setBlendMode (p : pipe) (e : option target) (t : string) : pipe :=
  if bool_decide (_activeBlendMode p = Some t) then
    match _isAdvanced p, e with
    | true, Some (renderable n) => list_push p n
    | _, _ => p
    end
  else
    let p := if _isAdvanced p then _endAdvancedBlendMode p else p in
    let p := set_activeBlendMode (Some t) p in
    match e with
    | Some e =>
        let p := set_isAdvanced (advanced t) p in
        if _isAdvanced p then _beginAdvancedBlendMode p e else p
    | None => p
    end.

(** [pushBlendMode(e,t,r){this._blendModeStack.push(t),
      this.setBlendMode(e,t,r)}] *)
Definition pushBlendMode (p : pipe) (e : target) (t : string) : pipe :=
  setBlendMode (set_blendModeStack (_blendModeStack p ++ [t]) p) (Some e) t.

(** [popBlendMode(e){this._blendModeStack.pop();
      let t=this._blendModeStack[this._activeBlendMode.length-1]??"normal";
      this.setBlendMode(null,t,e)}]: the slot that is read is the length
    of the name of the active mode less one (the names of the blend
    modes are ASCII, so the length counts their characters); before the
    first [prerender] there is no active mode and the read of its
    length fails. *)
Definition popBlendMode (p : pipe) : option pipe :=
  let p := set_blendModeStack (removelast (_blendModeStack p)) p in
  a ← _activeBlendMode p;
  let t := match String.length a with
           | O => "normal"
           | S k => match _blendModeStack p !! k with
                    | Some t => t
                    | None => "normal"
                    end
           end in
  Some (setBlendMode p None t).

(** [buildEnd(e){this._isAdvanced&&this._endAdvancedBlendMode(e)}] *)
Definition buildEnd (p : pipe) : pipe :=
  if _isAdvanced p then _endAdvancedBlendMode p else p.

(** The calls the instruction builder makes while a set is built. *)
Inductive op :=
| SetBlendMode (e : option target) (t : string)
| PushBlendMode (e : target) (t : string)
| PopBlendMode.

Definition step (s : option pipe) (o : op) : option pipe :=
  match s with
  | Some p =>
      match o with
      | SetBlendMode e t => Some (setBlendMode p e t)
      | PushBlendMode e t => Some (pushBlendMode p e t)
      | PopBlendMode => popBlendMode p
      end
  | None => None
  end.

(** A whole build: [buildStart], the calls, [buildEnd]. *)
Definition build (p : pipe) (os : list op) : option pipe :=
  buildEnd <$> foldl step (Some (buildStart p)) os.

End Modes.

(** The filter instructions of a set read from left to right: what the
    reader expects next. *)
Inductive reader :=
| Idle (open : bool)      (* between instructions; [open]: a filter is pushed *)
| Broke (open : bool).    (* the batch was just broken *)

Definition read (s : option reader) (c : call) : option reader :=
  match s, c with
  | Some (Idle o), batch_break => Some (Broke o)
  | Some (Broke false), add_pushFilter _ _ _ => Some (Idle true)
  | Some (Broke true), add_popFilter => Some (Idle false)
  | _, _ => None
  end.

(** The calls [cs] push and pop filters in turn, each right after a
    break of the batch, and leave no filter pushed. *)
Definition bracketed (cs : list call) : bool :=
  match foldl read (Some (Idle false)) cs with
  | Some (Idle false) => true
  | _ => false
  end.

(** A renderer with a filter for the blend mode "color-burn" only, and
    a build in a started frame: two renderables with that mode inside a
    pushed blend mode, which is popped again. *)
Definition sample_advanced (t : string) : bool := String.eqb t "color-burn".

Definition sample_ops : list op :=
  [PushBlendMode (renderable 1) "color-burn";
   SetBlendMode (Some (renderable 2)) "color-burn";
   PopBlendMode].

End BlendModePipe.

(** ** Tearing the renderer down (method [destroy] of [Rt]) *)

Module RendererDestroy.
Import Runner Renderer.

Section Destroy.

(** The state the systems and pipes act on, the argument of [destroy],
    the [destroy] methods of the registered instances, whether the
    argument asks for the global resources to be released
    ([t===!0||typeof t=="object"&&t.releaseGlobalResources]), and
    [ue.release()]. *)
Variable World : Type.
Variable Options : Type.
Variable call : obj -> string -> Options -> World -> World.
Variable releases : Options -> bool.
Variable release : World -> World.

(** [destroy(t=!1){this.runners.destroy.items.reverse(),
      this.runners.destroy.emit(t),
      Object.values(this.runners).forEach(r=>{r.destroy()}),
      (t===!0||typeof t=="object"&&t.releaseGlobalResources)&&ue.release(),
      this._systemsHash=null,this.renderPipes=null}]: the state after
    the calls and the calls made, oldest first.  The runners and the
    registries of the facade are cleared; it is not used again. *)
Definition destroy (R : renderer) (t : Options) (w : World)
    : result (World * list (obj * string)) :=
  match runners R !! "destroy" with
  | None => Throw (TypeError "Cannot read properties of undefined (reading 'items')")
  | Some d =>
      let d := mkRunner (rev (items d)) (_name d) in
      let '(w, calls) := Runner.emit Options World call d t w in
      Ok (if releases t then release w else w, calls)
  end.

End Destroy.

(** Whether the instances of a class carry a [destroy] method. *)
Definition has_destroy (x : extension) : bool :=
  existsb (String.eqb "destroy") (methods (value x)).

(** The handles of the instances with a [destroy] method, when the
    extensions [l] are registered one after the other and the first one
    gets the handle [first]. *)
Fixpoint destroy_handlers (first : obj) (l : list extension) : list obj :=
  match l with
  | [] => []
  | x :: l' => (if has_destroy x then [first] else []) ++ destroy_handlers (S first) l'
  end.

(** A renderer with the systems "view", which has a [destroy] method,
    and "renderGroup", which has none, and the pipe "batch", which has
    one; the state is the list of the handles that were destroyed. *)
Definition sample_systems : list extension :=
  [mkExtension (mkClass ["init"; "destroy"]) "view";
   mkExtension (mkClass ["render"]) "renderGroup"].

Definition sample_pipes : list extension :=
  [mkExtension (mkClass ["destroy"]) "batch"].

Definition sample_call (h : obj) (m : string) (t : bool) (w : list obj) : list obj :=
  w ++ [h].

Definition with_systems : renderer :=
  match _addSystems sample_renderer sample_systems with
  | Ok R => R
  | Throw _ => sample_renderer
  end.

Definition with_pipes : renderer :=
  match _addPipes with_systems sample_pipes with
  | Ok R => R
  | Throw _ => with_systems
  end.

End RendererDestroy.

(** ** The byte layout of vertex attributes (function [Wt]) *)

Module GeometryLayout.

(** A number that counts bytes: an integer (the sums of a layout stay
    far below 2^53, where the addition of doubles is exact), or NaN. *)
Inductive num := Int (z : Z) | NaN.

(** [a+b]; a slot of a table that was never written reads [undefined],
    and [undefined+b] is NaN. *)
Definition plus (a : option num) (b : Z) : num :=
  match a with
  | Some (Int x) => Int (x + b)
  | _ => NaN
  end.

(** An attribute of a geometry: the uid of its buffer, its format, and
    [stride] and [start], which may be missing. *)
Record attribute := mkAttribute {
  buffer : nat;
  format : option string;
  stride : option num;
  start : option num
}.

Section Formats.

(** [Me(format).stride]: the bytes one value of the format takes;
    [None] when the table has no answer and the read of [stride]
    fails. *)
Variable Me : option string -> option Z.

(** [for(let i in e){let a=e[i];r[a.uid]=0,s[a.uid]=0}] *)
Definition zeros (buffers : list nat) : gmap nat num :=
  fold_left (fun (m : gmap nat num) u => <[u := Int 0]> m) buffers ∅.

(** [for(let i in t){let a=t[i];r[a.buffer.uid]+=Me(a.format).stride}] *)
Fixpoint totals (r : gmap nat num) (t : list (string * attribute))
    : option (gmap nat num) :=
  match t with
  | [] => Some r
  | (_, a) :: t' =>
      n ← Me (format a);
      totals (<[buffer a := plus (r !! buffer a) n]> r) t'
  end.

(** [for(let i in t){let a=t[i];a.stride??(a.stride=r[a.buffer.uid]),
      a.start??(a.start=s[a.buffer.uid]),
      s[a.buffer.uid]+=Me(a.format).stride}] *)
Fixpoint place (r s : gmap nat num) (t : list (string * attribute))
    : option (list (string * attribute)) :=
  match t with
  | [] => Some []
  | (i, a) :: t' =>
      let a' := {| buffer := buffer a; format := format a;
                   stride := match stride a with
                             | Some x => Some x
                             | None => r !! buffer a
                             end;
                   start := match start a with
                            | Some x => Some x
                            | None => s !! buffer a
                            end |} in
      n ← Me (format a);
      rest ← place r (<[buffer a := plus (s !! buffer a) n]> s) t';
      Some ((i, a') :: rest)
  end.

(** [function Wt(n)] on the buffers and the attributes of a geometry,
    both in the order of their enumeration, every name with an
    attribute object of its own: the attributes as the function leaves
    them. *)
Definition Wt (buffers : list nat) (attributes : list (string * attribute))
    : option (list (string * attribute)) :=
  r ← totals (zeros buffers) attributes;
  place r (zeros buffers) attributes.

(** The bytes that the attributes of [t] on the buffer [u] take
    together. *)
Fixpoint bytes (u : nat) (t : list (string * attribute)) : option Z :=
  match t with
  | [] => Some 0
  | (_, a) :: t' =>
      n ← Me (format a);
      m ← bytes u t';
      Some ((if Nat.eqb (buffer a) u then n else 0) + m)
  end.

End Formats.

(** The formats of a sprite batch and the attributes of its geometry:
    position and uv as pairs of floats, the colour as four bytes, all
    on buffer 7. *)
Definition sample_Me (f : option string) : option Z :=
  match f with
  | Some f =>
      if String.eqb f "float32x2" then Some 8
      else if String.eqb f "unorm8x4" then Some 4
      else None
  | None => None
  end.

Definition sample_attributes : list (string * attribute) :=
  [("aPosition", mkAttribute 7 (Some "float32x2") None None);
   ("aUV", mkAttribute 7 (Some "float32x2") None None);
   ("aColor", mkAttribute 7 (Some "unorm8x4") None None)].

End GeometryLayout.

(** * Properties *)

(** ** Runner *)

Section RunnerFacts.
Import Runner.

Variable defines : obj -> string -> bool.

Lemma indexOf_range (l : list obj) (e : obj) :
  indexOf l e = -1 \/ 0 <= indexOf l e.
Proof.
  induction l as [|x l IH]; simpl; [now left|].
  destruct (Nat.eqb x e); [right; lia|].
  destruct (Z.eqb_spec (indexOf l e) (-1)); [now left|right; lia].
Qed.

Lemma remove_items (r : runner) (e : obj) :
  items (remove r e) = remove_first e (items r).
Proof.
  unfold remove. destruct r as [l d]; simpl.
  induction l as [|x l IH]; simpl; [reflexivity|].
  destruct (Nat.eqb x e) eqn:Hx; simpl; [reflexivity|].
  destruct (Z.eqb_spec (indexOf l e) (-1)) as [Hm|Hm]; simpl in *.
  - now rewrite <- IH.
  - destruct (indexOf_range l e) as [?|Hr]; [contradiction|].
    destruct (Z.eqb_spec (indexOf l e + 1) (-1)); [lia|]. simpl.
    replace (Z.to_nat (indexOf l e + 1)) with (S (Z.to_nat (indexOf l e))) by lia.
    simpl. now rewrite <- IH.
Qed.

Lemma remove_name (r : runner) (e : obj) : _name (remove r e) = _name r.
Proof. unfold remove. now destruct (negb _). Qed.

Lemma add_items (r : runner) (e : obj) :
  items (add defines r e) =
  if defines e (_name r) then remove_first e (items r) ++ [e] else items r.
Proof.
  unfold add. destruct (defines e (_name r)); simpl; [|reflexivity].
  now rewrite remove_items.
Qed.

Lemma add_name (r : runner) (e : obj) : _name (add defines r e) = _name r.
Proof.
  unfold add. destruct (defines e (_name r)); simpl; [apply remove_name|reflexivity].
Qed.

Lemma elem_of_remove_first_ne (e x : obj) (l : list obj) :
  x <> e -> x ∈ remove_first e l <-> x ∈ l.
Proof.
  intros Hne. induction l as [|y l IH]; simpl; [reflexivity|].
  destruct (Nat.eqb_spec y e) as [->|Hy].
  - rewrite elem_of_cons. intuition congruence.
  - rewrite !elem_of_cons, IH. reflexivity.
Qed.

Lemma remove_first_notin (e : obj) (l : list obj) :
  e ∉ l -> remove_first e l = l.
Proof.
  induction l as [|y l IH]; simpl; [reflexivity|].
  rewrite not_elem_of_cons. intros [Hne Hl].
  destruct (Nat.eqb_spec y e); [congruence|]. now rewrite IH.
Qed.

Lemma remove_first_sublist (e x : obj) (l : list obj) :
  x ∈ remove_first e l -> x ∈ l.
Proof.
  induction l as [|y l IH]; simpl; [trivial|].
  destruct (Nat.eqb y e); rewrite ?elem_of_cons; intuition.
Qed.

Lemma NoDup_remove_first (e : obj) (l : list obj) :
  NoDup l -> NoDup (remove_first e l) /\ e ∉ remove_first e l.
Proof.
  induction 1 as [|y l Hy Hl IH]; simpl.
  - split; [constructor|apply not_elem_of_nil].
  - destruct (Nat.eqb_spec y e) as [->|Hne]; [now split|].
    destruct IH as [IH1 IH2]. split.
    + constructor; [|assumption].
      intros Hin. apply Hy. eapply remove_first_sublist, Hin.
    + rewrite not_elem_of_cons. split; [congruence|assumption].
Qed.

Lemma add_NoDup (r : runner) (e : obj) :
  NoDup (items r) -> NoDup (items (add defines r e)).
Proof.
  intros H. rewrite add_items. destruct (defines e (_name r)); [|assumption].
  destruct (NoDup_remove_first e _ H) as [H1 H2].
  apply NoDup_app. split; [assumption|]. split.
  - intros x Hx Hx'. apply list_elem_of_singleton in Hx'. now subst.
  - apply NoDup_singleton.
Qed.

Lemma remove_NoDup (r : runner) (e : obj) :
  NoDup (items r) -> NoDup (items (remove r e)).
Proof.
  intros H. rewrite remove_items. now apply NoDup_remove_first.
Qed.

(** The registration calls keep the list free of repetitions. *)
Lemma run_ops_NoDup (os : list op) (r : runner) :
  NoDup (items r) -> NoDup (items (run_ops defines r os)).
Proof.
  revert r. induction os as [|o os IH]; intros r H; simpl; [assumption|].
  apply IH. destruct o; simpl;
    [now apply add_NoDup|now apply remove_NoDup|constructor].
Qed.

Lemma remove_dups_snoc (l : list obj) (e : obj) :
  remove_dups (l ++ [e]) = remove_first e (remove_dups l) ++ [e].
Proof.
  induction l as [|x l IH]; simpl; [reflexivity|].
  rewrite IH.
  destruct (decide_rel elem_of x (l ++ [e])) as [H1|H1];
    destruct (decide_rel elem_of x l) as [H2|H2];
    rewrite elem_of_app, list_elem_of_singleton in H1; simpl.
  - reflexivity.
  - destruct H1 as [H1 | ->]; [contradiction|].
    rewrite Nat.eqb_refl. rewrite remove_first_notin; [reflexivity|].
    now rewrite elem_of_remove_dups.
  - exfalso. apply H1. now left.
  - destruct (Nat.eqb_spec x e) as [->|Hne]; [|reflexivity].
    exfalso. apply H1. now right.
Qed.

Lemma adds_as_ops (es : list obj) (r : runner) :
  adds defines r es = run_ops defines r (map Add es).
Proof.
  revert r. induction es as [|e es IH]; intros r; [reflexivity|].
  simpl. apply IH.
Qed.

Lemma adds_snoc (r : runner) (es : list obj) (e : obj) :
  adds defines r (es ++ [e]) = add defines (adds defines r es) e.
Proof. unfold adds. now rewrite fold_left_app. Qed.

Lemma adds_name (es : list obj) (r : runner) :
  _name (adds defines r es) = _name r.
Proof.
  revert r. induction es as [|e es IH]; intros r; [reflexivity|].
  change (adds defines r (e :: es)) with (adds defines (add defines r e) es).
  rewrite IH. apply add_name.
Qed.

Lemma adds_items (d : string) (es : list obj) :
  items (adds defines (new d) es) =
  remove_dups (List.filter (fun e => defines e d) es).
Proof.
  induction es as [|e es IH] using rev_ind; [reflexivity|].
  rewrite adds_snoc, add_items, adds_name, IH, List.filter_app. simpl.
  destruct (defines e d); simpl.
  - now rewrite remove_dups_snoc.
  - now rewrite app_nil_r.
Qed.

Lemma times_called_NoDup (d : string) (h : obj) (l : list obj) :
  NoDup l -> h ∈ l -> times_called h (map (fun x => (x, d)) l) = 1%nat.
Proof.
  unfold times_called.
  induction 1 as [|x l Hx Hl IH]; intros Hh; [inversion Hh|].
  simpl. apply elem_of_cons in Hh.
  destruct (Nat.eqb_spec x h) as [->|E]; simpl.
  - f_equal. clear IH Hh.
    induction l as [|y l IHl]; [reflexivity|]. simpl.
    apply not_elem_of_cons in Hx as [Hy Hx]. inversion Hl; subst.
    destruct (Nat.eqb_spec y h); [congruence|]. now apply IHl.
  - destruct Hh as [->|Hh]; [congruence|]. now apply IH.
Qed.

Section Emit.
Variable Args World : Type.
Variable call : obj -> string -> Args -> World -> World.

Lemma emit_loop_spec (d : string) (h : list obj) (a : Args) (w : World)
    (calls : list (obj * string)) :
  emit_loop Args World call d h a w calls =
  (fold_left (fun w x => call x d a w) h w, calls ++ map (fun x => (x, d)) h).
Proof.
  revert w calls. induction h as [|x h IH]; intros w calls; simpl.
  - now rewrite app_nil_r.
  - rewrite IH. now rewrite <- app_assoc.
Qed.

(** C10: [add] drops an earlier registration of the handler and skips
    objects without the runner's method, so after any sequence of [add]
    calls on a new runner no handler is listed twice, the list holds the
    handlers that define the method in the order of their latest
    registration, and one [emit] calls the method of every listed
    handler exactly once, in that order. *)
Theorem runner_add_emit_once (d : string) (es : list obj) (a : Args) (w : World) :
  let r := adds defines (new d) es in
  NoDup (items r)
  /\ items r = remove_dups (List.filter (fun e => defines e d) es)
  /\ (forall e, e ∈ items r <-> e ∈ es /\ defines e d = true)
  /\ snd (emit Args World call r a w) = map (fun h => (h, d)) (items r)
  /\ (forall h, h ∈ items r ->
        times_called h (snd (emit Args World call r a w)) = 1%nat)
  /\ fst (emit Args World call r a w) =
       fold_left (fun w x => call x d a w) (items r) w.
Proof.
  intros r.
  assert (Hnd : NoDup (items r)).
  { subst r. rewrite adds_as_ops. apply run_ops_NoDup. constructor. }
  assert (Hit : items r = remove_dups (List.filter (fun e => defines e d) es))
    by apply adds_items.
  assert (Hname : _name r = d) by (subst r; now rewrite adds_name).
  assert (Hcalls : snd (emit Args World call r a w) = map (fun h => (h, d)) (items r)).
  { unfold emit. rewrite emit_loop_spec, Hname. reflexivity. }
  split; [assumption|]. split; [assumption|]. split; [|split; [assumption|split]].
  - intros e.
    rewrite Hit, elem_of_remove_dups, list_elem_of_In, filter_In, <- list_elem_of_In.
    tauto.
  - intros h Hh. rewrite Hcalls. now apply times_called_NoDup.
  - unfold emit. now rewrite emit_loop_spec, Hname.
Qed.

End Emit.
End RunnerFacts.

(** ** The system registry of the renderer *)

Section RendererFacts.
Import Runner Renderer.

(** A name is taken when [this[r]] is truthy. *)
Definition taken (R : renderer) (r : string) : Prop :=
  truthy (get_prop R r) = true.

Lemma addSystem_throws_iff (R : renderer) (t : class) (r : string) :
  _addSystem R t r = Throw (name_in_use r) <-> taken R r.
Proof.
  unfold _addSystem, taken. destruct (truthy (get_prop R r)); split;
    intros H; try reflexivity; discriminate.
Qed.

Lemma addSystem_throw_kind (R : renderer) (t : class) (r : string) (e : exn) :
  _addSystem R t r = Throw e -> e = name_in_use r.
Proof.
  unfold _addSystem. destruct (truthy (get_prop R r)); intros H;
    [now inversion H|discriminate].
Qed.

Lemma addSystem_taken (R R' : renderer) (t : class) (r : string) :
  _addSystem R t r = Ok R' -> ~ taken R r /\ forall n, n = r \/ taken R n -> taken R' n.
Proof.
  unfold _addSystem, taken.
  destruct (truthy (get_prop R r)) eqn:Hr; intros H; [discriminate|].
  inversion H; subst; clear H. split; [congruence|].
  intros n Hn. unfold get_prop; simpl.
  destruct (decide (r = n)) as [->|Hne].
  - now rewrite lookup_insert_eq.
  - rewrite lookup_insert_ne by assumption.
    destruct Hn as [->|Hn]; [contradiction|exact Hn].
Qed.

Lemma addSystems_taken (l : list extension) (R R' : renderer) :
  _addSystems R l = Ok R' ->
  NoDup (map name l)
  /\ (forall n, n ∈ map name l -> ~ taken R n)
  /\ (forall n, n ∈ map name l \/ taken R n -> taken R' n).
Proof.
  revert R. induction l as [|s l IH]; intros R; simpl.
  - intros H; inversion H; subst. split; [constructor|].
    split; [intros n Hn; inversion Hn|].
    intros n [Hn|Hn]; [inversion Hn|assumption].
  - destruct (_addSystem R (value s) (name s)) as [R1|e] eqn:H1; simpl; [|discriminate].
    intros H. destruct (IH _ H) as (Hnd & Hfree & Hkeep).
    destruct (addSystem_taken _ _ _ _ H1) as [Hs Hs'].
    split; [|split].
    + constructor; [|assumption].
      intros Hin. apply (Hfree _ Hin). apply Hs'. now left.
    + intros n Hn. apply elem_of_cons in Hn as [->|Hn]; [assumption|].
      intros Ht. apply (Hfree _ Hn). apply Hs'. now right.
    + intros n Hn. apply Hkeep. rewrite elem_of_cons in Hn.
      destruct Hn as [[->|Hn]|Hn].
      * right. apply Hs'. now left.
      * now left.
      * right. apply Hs'. now right.
Qed.

Lemma addSystems_throw_kind (l : list extension) (R : renderer) (e : exn) :
  _addSystems R l = Throw e -> exists n, n ∈ map name l /\ e = name_in_use n.
Proof.
  revert R. induction l as [|s l IH]; intros R; simpl; [discriminate|].
  destruct (_addSystem R (value s) (name s)) as [R1|e1] eqn:H1; simpl.
  - intros H. destruct (IH _ H) as (n & Hn & ->). exists n.
    split; [now apply elem_of_cons; right|reflexivity].
  - intros H; inversion H; subst. exists (name s).
    split; [apply elem_of_cons; now left|].
    eapply addSystem_throw_kind, H1.
Qed.

(** A configuration that lists one name twice cannot be registered. *)
Lemma addSystems_duplicate (R : renderer) (l1 l2 l3 : list extension)
    (s1 s2 : extension) :
  name s1 = name s2 ->
  exists n, _addSystems R (l1 ++ s1 :: l2 ++ s2 :: l3) = Throw (name_in_use n).
Proof.
  intros Hn.
  destruct (_addSystems R (l1 ++ s1 :: l2 ++ s2 :: l3)) as [R'|e] eqn:H.
  - exfalso. apply addSystems_taken in H as (Hnd & _).
    rewrite map_app in Hnd. simpl in Hnd. rewrite map_app in Hnd. simpl in Hnd.
    apply NoDup_app in Hnd as (_ & _ & Hnd).
    apply NoDup_cons in Hnd as [Hnot _]. apply Hnot.
    apply elem_of_app. right. rewrite Hn. apply elem_of_cons. now left.
  - apply addSystems_throw_kind in H as (n & _ & ->). now exists n.
Qed.

Lemma addPipe_taken (R R' : renderer) (i : extension) (n : string) :
  _addPipe R i = Ok R' -> taken R n -> taken R' n.
Proof.
  unfold _addPipe. destruct (runners R !! "destroy"); [|discriminate].
  intros H; inversion H; subst. exact (fun x => x).
Qed.

Section Frames.
Variable World Options : Type.
Variable call : obj -> string -> Options -> World -> World.
Variable visible : Options -> World -> bool.
Variable enableRenderGroup : Options -> World -> World.

Lemma emit_runner_throw (R : renderer) (d : string) (s : Options) (w : World) (e : exn) :
  emit_runner World Options call R d s w = Throw e -> exists m, e = TypeError m.
Proof.
  unfold emit_runner. destruct (runners R !! d); [discriminate|].
  intros H; inversion H. eauto.
Qed.

Lemma render_throw (R : renderer) (s : Options) (w : World) (e : exn) :
  render World Options call visible enableRenderGroup R s w = Throw e ->
  exists m, e = TypeError m.
Proof.
  unfold render. destruct (visible s w); [|discriminate].
  repeat match goal with
  | |- bind ?o _ = _ -> _ =>
      let H := fresh in destruct o eqn:H; simpl;
      [|intros H'; inversion H'; subst; eapply emit_runner_throw, H]
  end.
  apply emit_runner_throw.
Qed.

(** What every method call and [enableRenderGroup] keep, a whole frame
    keeps. *)
Lemma render_invariant (P : World -> Prop) (R : renderer) (s : Options) (w w' : World) :
  (forall x m w0, P w0 -> P (call x m s w0)) ->
  (forall w0, P w0 -> P (enableRenderGroup s w0)) ->
  P w ->
  render World Options call visible enableRenderGroup R s w = Ok w' ->
  P w'.
Proof.
  intros Hcall Hen Hw.
  assert (Hemit : forall d w1 w2,
             P w1 -> emit_runner World Options call R d s w1 = Ok w2 -> P w2).
  { intros d w1 w2 H1. unfold emit_runner. destruct (runners R !! d) as [r|]; [|discriminate].
    intros H; injection H as <-. unfold Runner.emit. rewrite emit_loop_spec. cbn [fst].
    revert w1 H1. induction (items r) as [|x h IH]; intros w1 H1; cbn [fold_left]; auto. }
  unfold render. destruct (visible s w); [|intros H; injection H as <-; exact Hw].
  cbv zeta.
  destruct (emit_runner World Options call R "prerender" s _) as [w1|] eqn:H1;
    [|discriminate].
  cbn [bind].
  destruct (emit_runner World Options call R "renderStart" s w1) as [w2|] eqn:H2;
    [|discriminate].
  cbn [bind].
  destruct (emit_runner World Options call R "render" s w2) as [w3|] eqn:H3;
    [|discriminate].
  cbn [bind].
  destruct (emit_runner World Options call R "renderEnd" s w3) as [w4|] eqn:H4;
    [|discriminate].
  cbn [bind]. intros H5.
  eapply Hemit; [|exact H5]. eapply Hemit; [|exact H4]. eapply Hemit; [|exact H3].
  eapply Hemit; [|exact H2]. eapply Hemit; [|exact H1]. now apply Hen.
Qed.

(** C9: once a system is registered under a name, registering another
    one under that name throws the duplicate-name [Error], whatever was
    registered in between; [init], which registers the configured systems,
    throws it when the configuration lists a name twice; and the
    per-frame [render] never throws it. *)
Theorem duplicate_system_name_throws_at_setup
    (R R1 : renderer) (t1 t2 : class) (n : string) :
  _addSystem R t1 n = Ok R1 ->
  _addSystem R1 t2 n = Throw (name_in_use n)
  /\ (forall between R2, _addSystems R1 between = Ok R2 ->
        _addSystem R2 t2 n = Throw (name_in_use n))
  /\ (forall R0 l1 l2 l3 pipes o w,
        exists m,
          init World Options call R0
            (l1 ++ mkExtension t1 n :: l2 ++ mkExtension t2 n :: l3) pipes o w
          = Throw (name_in_use m))
  /\ (forall R' s w m,
        render World Options call visible enableRenderGroup R' s w
        <> Throw (name_in_use m)).
Proof.
  intros H1. destruct (addSystem_taken _ _ _ _ H1) as [_ Hk].
  split; [|split; [|split]].
  - apply addSystem_throws_iff, Hk. now left.
  - intros between R2 H2. apply addSystem_throws_iff.
    apply addSystems_taken in H2 as (_ & _ & Hk2). apply Hk2. right.
    apply Hk. now left.
  - intros R0 l1 l2 l3 pipes o w.
    destruct (addSystems_duplicate R0 l1 l2 l3 (mkExtension t1 n) (mkExtension t2 n)
                eq_refl) as [m Hm].
    exists m. unfold init. now rewrite Hm.
  - intros R' s w m H. apply render_throw in H as [m' H]. discriminate.
Qed.

End Frames.

(** A renderer with the default runners, a first system named "view" and
    a second class asking for the same name. *)
Lemma duplicate_system_name_witness :
  _addSystem sample_renderer (mkClass ["init"; "resize"]) "view" = Ok sample_with_view
  /\ _addSystem sample_with_view (mkClass ["render"]) "view"
     = Throw (name_in_use "view").
Proof.
  assert (H1 : _addSystem sample_renderer (mkClass ["init"; "resize"]) "view"
               = Ok sample_with_view) by (vm_compute; reflexivity).
  split; [exact H1|].
  exact (proj1 (duplicate_system_name_throws_at_setup unit unit
                  (fun _ _ _ w => w) (fun _ _ => true) (fun _ w => w)
                  sample_renderer sample_with_view _ (mkClass ["render"]) "view" H1)).
Defined.

End RendererFacts.

(** ** The batcher pipe *)

Section BatcherFacts.
Import InstructionSet BatcherPipe.

Lemma close_app_nonempty (cur : list batchable) (e : batchable) :
  Batcher.close (cur ++ [e]) = [cur ++ [e]].
Proof. destruct cur; reflexivity. Qed.

(** A run that fits the texture slots is closed as one batch. *)
Lemma split_run_fits (max : nat) (run cur : list batchable) (texs : list nat) :
  NoDup texs ->
  (forall x, x ∈ texs -> x ∈ map texture cur) ->
  fits max (cur ++ run) ->
  Batcher.split_run max cur texs run = Batcher.close (cur ++ run).
Proof.
  revert cur texs. induction run as [|e run IH]; intros cur texs Hnd Hsub Hfit; simpl.
  - now rewrite app_nil_r.
  - assert (Happ : cur ++ e :: run = (cur ++ [e]) ++ run)
      by now rewrite <- app_assoc.
    destruct (existsb (Nat.eqb (texture e)) texs) eqn:Hex.
    + rewrite Happ. apply IH; [assumption| |now rewrite <- Happ].
      intros x Hx. rewrite map_app. apply elem_of_app. left. now apply Hsub.
    + assert (Hnot : texture e ∉ texs).
      { intros Hin. apply list_elem_of_In in Hin.
        assert (existsb (Nat.eqb (texture e)) texs = true)
          by (apply existsb_exists; exists (texture e); split;
              [assumption|apply Nat.eqb_refl]).
        congruence. }
      assert (Hnd' : NoDup (texs ++ [texture e])).
      { apply NoDup_app. split; [assumption|]. split; [|apply NoDup_singleton].
        intros x Hx Hx'. apply list_elem_of_singleton in Hx'. now subst. }
      assert (Hsub' : forall x, x ∈ texs ++ [texture e] -> x ∈ map texture (cur ++ [e])).
      { intros x Hx. rewrite map_app. simpl.
        apply elem_of_app in Hx as [Hx|Hx]; apply elem_of_app; [left; auto|now right]. }
      assert (Hlen : (length (texs ++ [texture e]) <= max)%nat).
      { unfold fits in Hfit. etransitivity; [|exact Hfit].
        apply submseteq_length, NoDup_submseteq; [assumption|].
        intros x Hx. apply elem_of_remove_dups. apply Hsub' in Hx.
        rewrite Happ, map_app. apply elem_of_app. now left. }
      rewrite length_app in Hlen. simpl in Hlen.
      destruct (Nat.ltb_spec (length texs) max) as [_|Hge]; [|lia].
      rewrite Happ. apply IH; [assumption|assumption|now rewrite <- Happ].
Qed.

Lemma fold_add_instructions (l : list instruction) (t : InstructionSet.t) :
  fold_left InstructionSet.add l t =
  mkSet (uid t) (instructions t ++ l) (InstructionSet.gcTick t).
Proof.
  revert t. induction l as [|i l IH]; intros t; simpl.
  - rewrite app_nil_r. now destruct t.
  - rewrite IH. simpl. now rewrite <- app_assoc.
Qed.

(** The pipe is building the set [u]: its batchers are [m] and the
    active one sits under [k]. *)
Definition building (p : pipe) (u : nat) (m : gmap string Batcher.batcher)
    (k : string) : Prop :=
  _activeBatches p = Some u
  /\ _batchersByInstructionSet p !! u = Some m
  /\ _activeBatch p = Some k.

(** While a set is built, every batcher sits under its name and has the
    bound [lim] gives for that name, the idle ones have nothing pending,
    and the active one holds the open run; a batcher that is yet to be
    made will have the bound [lim] gives too. *)
Definition open_run (lim : string -> nat) (avail : gmap string nat)
    (m : gmap string Batcher.batcher) (k : string)
    (pending : list batchable) : Prop :=
  is_Some (m !! k)
  /\ is_Some (m !! "default")
  /\ (forall k' n, m !! k' = None -> avail !! k' = Some n -> lim k' = n)
  /\ forall k' b, m !! k' = Some b ->
       Batcher.name b = k' /\ Batcher.maxTextures b = lim k'
       /\ (Batcher.elementStart b <= length (Batcher.elements b))%nat
       /\ drop (Batcher.elementStart b) (Batcher.elements b)
          = if decide (k' = k) then pending else [].

(** What a break of the batcher under [k] emits for the run
    [pending]. *)
Definition emitted (lim : string -> nat) (k : string) (pending : list batchable)
    : list instruction :=
  map (Batch k) (Batcher.split_run (lim k) [] [] pending).

Lemma building_active (p : pipe) (u : nat) (m : gmap string Batcher.batcher) (k : string) :
  building p u m k -> activeBatches p = Some m /\ activeBatch p = m !! k.
Proof.
  intros (Hu & Hm & Hk). unfold activeBatch, activeBatches. rewrite Hu, Hm, Hk.
  split; reflexivity.
Qed.

Lemma store_batcher_building (p : pipe) (u : nat) (m : gmap string Batcher.batcher)
    (k k' : string) (b : Batcher.batcher) :
  building p u m k ->
  building (store_batcher p k' b) u (<[k' := b]> m) k
  /\ _availableBatchers (store_batcher p k' b) = _availableBatchers p
  /\ maxBatchableTextures (store_batcher p k' b) = maxBatchableTextures p
  /\ forall u', u' <> u ->
       _batchersByInstructionSet (store_batcher p k' b) !! u'
       = _batchersByInstructionSet p !! u'.
Proof.
  intros Hb. destruct (building_active _ _ _ _ Hb) as [Ha _].
  destruct Hb as (Hu & Hm & Hk).
  unfold store_batcher. rewrite Hu, Ha. unfold building; simpl.
  rewrite lookup_insert_eq. repeat split; try assumption.
  intros u' Hne. now rewrite lookup_insert_ne.
Qed.

(** Writing a batcher back under its key keeps the shape of the store
    when the new batcher has the name and the bound of the old one. *)
Lemma open_run_update (lim : string -> nat) (avail : gmap string nat)
    (m : gmap string Batcher.batcher) (k k2 : string) (pending pending' : list batchable)
    (b : Batcher.batcher) :
  open_run lim avail m k pending ->
  (m !! k2 = None -> forall n, avail !! k2 = Some n -> Batcher.maxTextures b = n) ->
  (forall b0, m !! k2 = Some b0 -> Batcher.maxTextures b = Batcher.maxTextures b0) ->
  Batcher.name b = k2 ->
  (Batcher.elementStart b <= length (Batcher.elements b))%nat ->
  drop (Batcher.elementStart b) (Batcher.elements b) = pending' ->
  (k2 <> k -> pending = []) ->
  (is_Some (avail !! k2) \/ is_Some (m !! k2)) ->
  open_run lim avail (<[k2 := b]> m) k2 pending'.
Proof.
  intros (Hk & Hd & Hnew & Hall) Hfresh Hold Hn Hle Hdrop Hidle Hsome.
  split; [rewrite lookup_insert_eq; eauto|]. split.
  { destruct (decide (k2 = "default")) as [->|Hne];
      [rewrite lookup_insert_eq; eauto|now rewrite lookup_insert_ne]. }
  split.
  { intros k' n Hl. destruct (decide (k2 = k')) as [<-|Hne].
    - rewrite lookup_insert_eq in Hl. discriminate.
    - rewrite lookup_insert_ne in Hl by assumption. now apply Hnew. }
  intros k' b0 Hl. destruct (decide (k2 = k')) as [<-|Hne].
  - rewrite lookup_insert_eq in Hl. inversion Hl; subst b0.
    rewrite decide_True by reflexivity. split; [exact Hn|]. split; [|split; assumption].
    destruct (m !! k2) as [b1|] eqn:Hb1.
    + rewrite (Hold b1 eq_refl). now destruct (Hall _ _ Hb1) as (_ & -> & _).
    + destruct Hsome as [[n Hav]|[? ?]]; [|discriminate].
      rewrite (Hfresh eq_refl n Hav). symmetry. now apply Hnew.
  - rewrite lookup_insert_ne in Hl by assumption.
    destruct (Hall _ _ Hl) as (H1 & H2 & H3 & H4).
    rewrite decide_False by congruence. repeat split; try assumption.
    destruct (decide (k' = k)) as [->|_]; [|assumption].
    rewrite H4. apply Hidle. congruence.
Qed.

(** A break hands the open run to the batcher, whatever the run holds. *)
Lemma break_step (lim : string -> nat) (p : pipe) (u : nat)
    (m : gmap string Batcher.batcher) (k : string)
    (pending : list batchable) (t : InstructionSet.t) :
  building p u m k ->
  open_run lim (_availableBatchers p) m k pending ->
  exists p' m',
    break p t = Some (p', mkSet (uid t) (instructions t ++ emitted lim k pending)
                        (InstructionSet.gcTick t))
    /\ building p' u m' k
    /\ open_run lim (_availableBatchers p) m' k []
    /\ _availableBatchers p' = _availableBatchers p
    /\ (forall k', is_Some (m !! k') -> is_Some (m' !! k')).
Proof.
  intros Hb Hopen.
  destruct (building_active _ _ _ _ Hb) as [_ Hact].
  pose proof Hopen as ([b Hbk] & Hd & Hnew & Hall).
  destruct (Hall _ _ Hbk) as (Hn & Hmax & Hle & Hdrop).
  rewrite decide_True in Hdrop by reflexivity.
  set (b' := Batcher.mkBatcher k (lim k)
               (Batcher.elements b) (length (Batcher.elements b))).
  destruct (store_batcher_building p u m k k b' Hb) as (Hb' & Hav & _).
  exists (store_batcher p k b'), (<[k := b']> m).
  split; [|split; [exact Hb'|split; [|split; [exact Hav|]]]].
  - unfold break. rewrite Hact, Hbk. destruct Hb as (_ & _ & ->).
    unfold Batcher.break. rewrite Hdrop, Hmax, fold_add_instructions, Hn.
    reflexivity.
  - apply (open_run_update lim _ m k k pending); try assumption.
    + intros Hnone. congruence.
    + intros b0 Hb0. rewrite Hbk in Hb0. inversion Hb0; subst b0. simpl. now symmetry.
    + reflexivity.
    + subst b'; simpl. lia.
    + subst b'; simpl. apply drop_all.
    + congruence.
    + right; eauto.
  - intros k' Hk'. destruct (decide (k = k')) as [<-|Hne'];
      [rewrite lookup_insert_eq; eauto|now rewrite lookup_insert_ne].
Qed.

Lemma addToBatch_step (lim : string -> nat) (p : pipe) (u : nat)
    (m : gmap string Batcher.batcher)
    (k : string) (pending : list batchable) (e : batchable) (t : InstructionSet.t) :
  building p u m k ->
  open_run lim (_availableBatchers p) m k pending ->
  is_Some (m !! batcherName e) \/ is_Some (_availableBatchers p !! batcherName e) ->
  exists p' m',
    addToBatch p e t =
      Some (p', mkSet (uid t)
                  (instructions t ++
                   if String.eqb k (batcherName e) then []
                   else emitted lim k pending)
                  (InstructionSet.gcTick t))
    /\ building p' u m' (batcherName e)
    /\ open_run lim (_availableBatchers p) m' (batcherName e)
         (if String.eqb k (batcherName e) then pending ++ [e] else [e])
    /\ _availableBatchers p' = _availableBatchers p
    /\ (forall k', is_Some (m !! k') -> is_Some (m' !! k')).
Proof.
  intros Hb Hopen Hknown.
  destruct (building_active _ _ _ _ Hb) as [Hacts Hact].
  pose proof Hopen as ([b Hbk] & Hd & Hnew & Hall).
  destruct (Hall _ _ Hbk) as (Hn & Hmax & Hle & Hdrop).
  rewrite decide_True in Hdrop by reflexivity.
  unfold addToBatch. rewrite Hact, Hbk, Hn.
  destruct (String.eqb_spec k (batcherName e)) as [Heq|Hne]; simpl.
  - (* the key of the active batch *)
    destruct (store_batcher_building p u m k k (Batcher.add b e) Hb) as (Hb' & Hav & _).
    exists (store_batcher p k (Batcher.add b e)), (<[k := Batcher.add b e]> m).
    destruct Hb as (_ & _ & Hk). rewrite Hk, app_nil_r, <- Heq.
    split; [destruct t; reflexivity|]. split; [exact Hb'|].
    split; [|split; [exact Hav|]].
    + apply (open_run_update lim _ m k k pending); try assumption.
      * intros Hnone. congruence.
      * intros b0 Hb0. rewrite Hbk in Hb0. now inversion Hb0.
      * simpl. rewrite length_app. simpl. lia.
      * simpl. rewrite drop_app_le by assumption. now rewrite Hdrop.
      * congruence.
      * right; eauto.
    + intros k' Hk'. destruct (decide (k = k')) as [<-|Hne'];
        [rewrite lookup_insert_eq; eauto|now rewrite lookup_insert_ne].
  - (* another key: the active batch is broken first *)
    destruct (break_step lim p u m k pending t Hb Hopen)
      as (p1 & m1 & Hbr & Hb1 & Hopen1 & Hav1 & Hkeep).
    rewrite Hbr.
    destruct (building_active _ _ _ _ Hb1) as [Hacts1 _]. rewrite Hacts1.
    pose proof Hopen1 as (_ & Hd1 & Hnew1 & Hall1).
    set (t1 := mkSet (uid t) (instructions t ++ emitted lim k pending)
                 (InstructionSet.gcTick t)).
    assert (Hswitch : forall p2 m2 r,
      building p2 u m2 k -> open_run lim (_availableBatchers p) m2 k [] ->
      _availableBatchers p2 = _availableBatchers p ->
      m2 !! batcherName e = Some r ->
      drop (Batcher.elementStart r) (Batcher.elements r) = [] ->
      (forall k', is_Some (m !! k') -> is_Some (m2 !! k')) ->
      exists p' m',
        Some (store_batcher
                {| _availableBatchers := _availableBatchers p2;
                   maxBatchableTextures := maxBatchableTextures p2;
                   _batchersByInstructionSet := _batchersByInstructionSet p2;
                   _activeBatches := _activeBatches p2;
                   _activeBatch := Some (batcherName e) |}
                (batcherName e) (Batcher.add r e), t1) = Some (p', t1)
        /\ building p' u m' (batcherName e)
        /\ open_run lim (_availableBatchers p) m' (batcherName e) [e]
        /\ _availableBatchers p' = _availableBatchers p
        /\ (forall k', is_Some (m !! k') -> is_Some (m' !! k'))).
    { intros p2 m2 r Hb2 Hopen2 Hav2 Hr Hrd Hkeep2.
      set (p3 := {| _availableBatchers := _availableBatchers p2;
                    maxBatchableTextures := maxBatchableTextures p2;
                    _batchersByInstructionSet := _batchersByInstructionSet p2;
                    _activeBatches := _activeBatches p2;
                    _activeBatch := Some (batcherName e) |}).
      assert (Hb3 : building p3 u m2 (batcherName e)).
      { destruct Hb2 as (H1 & H2 & _). repeat split; assumption. }
      destruct (store_batcher_building p3 u m2 _ (batcherName e) (Batcher.add r e) Hb3)
        as (Hb4 & Hav4 & _).
      pose proof Hopen2 as (_ & _ & _ & Hall2).
      destruct (Hall2 _ _ Hr) as (Hrn & Hrm & Hrl & _).
      eexists _, _. split; [reflexivity|]. split; [exact Hb4|].
      split; [|split; [rewrite Hav4; exact Hav2|]].
      - apply (open_run_update lim _ m2 k (batcherName e) []); try assumption.
        + intros Hnone. congruence.
        + intros b0 Hb0. rewrite Hr in Hb0. now inversion Hb0.
        + simpl. rewrite length_app. simpl. lia.
        + simpl. rewrite drop_app_le by assumption. now rewrite Hrd.
        + reflexivity.
        + right; eauto.
      - intros k' Hk'. destruct (decide (batcherName e = k')) as [<-|Hne'];
          [rewrite lookup_insert_eq; eauto|rewrite lookup_insert_ne by assumption; auto]. }
    destruct (m1 !! batcherName e) as [r|] eqn:Hr.
    + destruct (Hall1 _ _ Hr) as (H1 & H2 & H3 & H4).
      rewrite decide_False in H4 by congruence.
      apply (Hswitch p1 m1 r); assumption.
    + destruct Hknown as [Hin|[n Hn']].
      { apply Hkeep in Hin. rewrite Hr in Hin. destruct Hin; discriminate. }
      unfold getBatcher. rewrite Hav1, Hn'.
      set (r := Batcher.begin (Batcher.new (batcherName e) n)).
      destruct (store_batcher_building p1 u m1 _ (batcherName e) r Hb1)
        as (Hb2 & Hav2 & _).
      apply (Hswitch (store_batcher p1 (batcherName e) r) (<[batcherName e := r]> m1) r);
        try reflexivity; try assumption; try congruence.
      * pose proof Hopen1 as (Hk1 & _).
        split; [rewrite lookup_insert_ne by congruence; assumption|].
        split.
        { destruct (decide (batcherName e = "default")) as [->|Hne'];
            [rewrite lookup_insert_eq; eauto|now rewrite lookup_insert_ne]. }
        split.
        { intros k' n' Hl. destruct (decide (batcherName e = k')) as [<-|Hne'].
          - rewrite lookup_insert_eq in Hl. discriminate.
          - rewrite lookup_insert_ne in Hl by assumption. now apply Hnew1. }
        intros k' b0 Hl. destruct (decide (batcherName e = k')) as [<-|Hne'].
        -- rewrite lookup_insert_eq in Hl. inversion Hl; subst b0; simpl.
           rewrite decide_False by congruence.
           repeat split; try reflexivity. symmetry. now apply Hnew1.
        -- rewrite lookup_insert_ne in Hl by assumption. now apply Hall1.
      * apply lookup_insert_eq.
      * intros k' Hk'. apply Hkeep in Hk'.
        destruct (decide (batcherName e = k')) as [<-|Hne'];
          [rewrite lookup_insert_eq; eauto|now rewrite lookup_insert_ne].
Qed.

(** The batch instructions a build emits, read off the element sequence:
    [pending] is the open run and [k] the key of the active batch. *)
Fixpoint batch_instrs_from (lim : string -> nat) (pending : list batchable) (k : string)
    (es : list batchable) : list instruction :=
  match es with
  | [] => emitted lim k pending
  | e :: es' =>
      if String.eqb k (batcherName e)
      then batch_instrs_from lim (pending ++ [e]) k es'
      else emitted lim k pending ++ batch_instrs_from lim [e] (batcherName e) es'
  end.

Lemma finish_build (lim : string -> nat) (es : list batchable) (p : pipe) (u : nat)
    (m : gmap string Batcher.batcher) (k : string) (pending : list batchable)
    (t : InstructionSet.t) :
  building p u m k ->
  open_run lim (_availableBatchers p) m k pending ->
  Forall (fun x => is_Some (m !! batcherName x)
                   \/ is_Some (_availableBatchers p !! batcherName x)) es ->
  exists p1 t1 p2,
    addAll p es t = Some (p1, t1)
    /\ buildEnd p1 t1 =
         Some (p2, mkSet (uid t) (instructions t ++ batch_instrs_from lim pending k es)
                     (InstructionSet.gcTick t)).
Proof.
  revert p m k pending t.
  induction es as [|e es IH]; intros p m k pending t Hb Hopen Hknown; simpl in *.
  - destruct (break_step lim p u m k pending t Hb Hopen) as (p2 & m2 & Hbr & _).
    exists p, t, p2. split; [reflexivity|exact Hbr].
  - inversion Hknown as [|? ? Hke Hkes]; subst.
    destruct (addToBatch_step lim p u m k pending e t Hb Hopen Hke)
      as (p' & m' & Hadd & Hb' & Hopen' & Hav' & Hkeep).
    rewrite Hadd. rewrite <- Hav' in Hopen'.
    assert (Hkes' : Forall (fun x => is_Some (m' !! batcherName x)
                     \/ is_Some (_availableBatchers p' !! batcherName x)) es).
    { eapply Forall_impl; [exact Hkes|]. intros x [H|H]; [left; auto|right; now rewrite Hav']. }
    destruct (String.eqb k (batcherName e)) eqn:Hk.
    + destruct (IH p' m' (batcherName e) (pending ++ [e])
                  (mkSet (uid t) (instructions t ++ []) (InstructionSet.gcTick t))
                  Hb' Hopen' Hkes')
        as (p1 & t1 & p2 & H1 & H2).
      exists p1, t1, p2. split; [exact H1|]. rewrite H2. simpl.
      apply String.eqb_eq in Hk. rewrite <- Hk, app_nil_r. reflexivity.
    + destruct (IH p' m' (batcherName e) [e]
                  (mkSet (uid t) (instructions t ++ emitted lim k pending)
                     (InstructionSet.gcTick t))
                  Hb' Hopen' Hkes')
        as (p1 & t1 & p2 & H1 & H2).
      exists p1, t1, p2. split; [exact H1|]. rewrite H2. simpl.
      now rewrite <- app_assoc.
Qed.

Lemma emitted_nil (lim : string -> nat) (k : string) : emitted lim k [] = [].
Proof. reflexivity. Qed.

Lemma batch_instrs_runs (lim : string -> nat) (es : list batchable)
    (pending : list batchable) (k : string) :
  Forall (fun x => batcherName x = k) pending ->
  batch_instrs_from lim pending k es =
  flat_map (fun r => emitted lim (run_key r) r) (runs_from pending k es).
Proof.
  assert (Hclose : forall pending k, Forall (fun x => batcherName x = k) pending ->
            emitted lim k pending
            = flat_map (fun r => emitted lim (run_key r) r) (Batcher.close pending)).
  { intros [|x l] k0 Hp; [reflexivity|]. simpl. rewrite app_nil_r.
    inversion Hp; subst. reflexivity. }
  revert pending k. induction es as [|e es IH]; intros pending k Hp; simpl.
  - now apply Hclose.
  - destruct (String.eqb_spec k (batcherName e)) as [Hk|Hk].
    + apply IH. apply Forall_app. split; [assumption|]. constructor; [now symmetry|constructor].
    + rewrite flat_map_app. f_equal; [now apply Hclose|].
      apply IH. constructor; [reflexivity|constructor].
Qed.

(** Adjacent key changes, counted from a key. *)
Fixpoint transitions_from (k : string) (es : list batchable) : nat :=
  match es with
  | [] => 0
  | e :: es' =>
      (if String.eqb k (batcherName e) then 0 else 1) + transitions_from (batcherName e) es'
  end%nat.

Lemma transitions_cons (e : batchable) (es : list batchable) :
  transitions (e :: es) = transitions_from (batcherName e) es.
Proof.
  revert e. induction es as [|e2 es IH]; intros e; [reflexivity|].
  change (transitions (e :: e2 :: es)) with
    ((if String.eqb (batcherName e) (batcherName e2) then 0 else 1)
     + transitions (e2 :: es))%nat.
  now rewrite IH.
Qed.

Lemma runs_from_length (es : list batchable) (cur : list batchable) (k : string) :
  cur <> [] ->
  length (runs_from cur k es) = S (transitions_from k es).
Proof.
  revert cur k. induction es as [|e es IH]; intros cur k Hc; simpl.
  - destruct cur; [contradiction|reflexivity].
  - destruct (String.eqb k (batcherName e)) eqn:Hk.
    + apply String.eqb_eq in Hk. rewrite <- Hk. apply IH. now destruct cur.
    + rewrite length_app, IH by discriminate.
      destruct cur; [contradiction|]. simpl. lia.
Qed.

Lemma runs_from_nonempty (es : list batchable) (cur : list batchable) (k : string) :
  Forall (fun r => r <> []) (runs_from cur k es).
Proof.
  revert cur k. induction es as [|e es IH]; intros cur k; simpl.
  - destruct cur; repeat constructor. discriminate.
  - destruct (String.eqb k (batcherName e)); [apply IH|].
    apply Forall_app. split; [|apply IH].
    destruct cur; repeat constructor. discriminate.
Qed.

(** After [buildStart] every batcher of the set is idle and has the
    bound that [limit] gives for its key. *)
Lemma buildStart_building (p : pipe) (t : InstructionSet.t) :
  well_formed p ->
  exists m,
    building (buildStart p t) (uid t) m "default"
    /\ open_run (slots p (uid t)) (_availableBatchers p) m "default" []
    /\ _availableBatchers (buildStart p t) = _availableBatchers p
    /\ forall k, is_Some (limit p (uid t) k) ->
         is_Some (m !! k) \/ is_Some (_availableBatchers p !! k).
Proof.
  intros Hwf. unfold buildStart.
  set (t0 := match _batchersByInstructionSet p !! uid t with
             | Some t0 => t0
             | None => {[ "default" := Batcher.new "default" (maxBatchableTextures p) ]}
             end).
  assert (Ht0 : is_Some (t0 !! "default")
                /\ (forall k b, t0 !! k = Some b ->
                      Batcher.name b = k
                      /\ limit p (uid t) k = Some (Batcher.maxTextures b))
                /\ forall k, t0 !! k = None ->
                     limit p (uid t) k = _availableBatchers p !! k).
  { subst t0. unfold limit.
    destruct (_batchersByInstructionSet p !! uid t) as [m|] eqn:Hm.
    - destruct (Hwf _ _ Hm) as [Hd Hn]. split; [exact Hd|]. split.
      + intros k b Hl. rewrite Hl. split; [now apply Hn|reflexivity].
      + intros k Hl. now rewrite Hl.
    - split; [rewrite lookup_singleton_eq; eauto|]. split.
      + intros k b Hl. apply lookup_singleton_Some in Hl as [<- <-]. now split.
      + intros k Hl. destruct (String.eqb_spec k "default") as [->|Hne]; [|reflexivity].
        rewrite lookup_singleton_eq in Hl. discriminate. }
  destruct Ht0 as ([d Hd] & Hall & Hnone).
  exists (Batcher.begin <$> t0).
  split; [|split; [|split; [reflexivity|]]].
  - unfold building; simpl. rewrite lookup_insert_eq. now repeat split.
  - assert (Hsome : is_Some ((Batcher.begin <$> t0) !! "default"))
      by (rewrite lookup_fmap, Hd; simpl; eauto).
    split; [exact Hsome|]. split; [exact Hsome|]. split.
    + intros k n Hl Hn. rewrite lookup_fmap in Hl.
      destruct (t0 !! k) eqn:Hk; [discriminate|].
      unfold slots. now rewrite (Hnone _ Hk), Hn.
    + intros k b Hl. rewrite lookup_fmap in Hl.
      destruct (t0 !! k) as [b0|] eqn:Hb0; [|discriminate].
      simpl in Hl. inversion Hl; subst b; simpl.
      destruct (Hall _ _ Hb0) as [H1 H2]. unfold slots. rewrite H2.
      repeat split; try assumption; try lia. now destruct (decide _).
  - intros k [n Hn]. rewrite lookup_fmap.
    destruct (t0 !! k) as [b0|] eqn:Hb0; [left; simpl; eauto|].
    right. rewrite <- (Hnone _ Hb0), Hn. eauto.
Qed.

Lemma batches_app (u : nat) (g : Z) (l1 l2 : list instruction) :
  batches (mkSet u (l1 ++ l2) g) = batches (mkSet u l1 g) ++ batches (mkSet u l2 g).
Proof. unfold batches; simpl. apply flat_map_app. Qed.

Lemma batches_of_runs (u : nat) (g : Z) (rs : list (list batchable)) :
  batches (mkSet u (map (fun r => Batch (run_key r) r) rs) g)
  = map (fun r => (run_key r, length r)) rs.
Proof.
  unfold batches; simpl. induction rs as [|r rs IH]; [reflexivity|].
  simpl. now rewrite IH.
Qed.

(** Runs that fit the slots of their batchers are emitted whole. *)
Lemma fitting_runs_whole (p : pipe) (u : nat) (rs : list (list batchable)) :
  Forall (fun r => r <> []) rs ->
  Forall (fun r => fits (slots p u (run_key r)) r) rs ->
  flat_map (batches_of_run p u) rs = map (fun r => Batch (run_key r) r) rs.
Proof.
  induction 1 as [|r rs Hr _ IH]; intros Hfit; [reflexivity|].
  apply Forall_cons in Hfit as [Hf Hfit]. simpl. rewrite (IH Hfit). f_equal.
  unfold batches_of_run.
  rewrite (split_run_fits _ r [] []); [|constructor| |exact Hf].
  - destruct r; [contradiction|reflexivity].
  - intros x Hx. inversion Hx.
Qed.

(** C3, as the code and the batcher of section 4.3 have it: the pipe
    breaks the active batch exactly where the draw-state key of the
    incoming element differs from the name of the active batcher.  A
    build of a non-empty sequence whose keys have batchers returns, and
    what it adds to the set is, for every maximal run of equal keys in
    turn, what the batcher of that key makes of the run; the runs are
    one more than the key transitions.  Where every run fits the texture
    slots of its batcher - the limit of the renderer for the default
    batcher that [buildStart] makes, the bound of its class for a
    batcher that [getBatcher] makes - the build emits one batch per
    run, with the size of that run. *)
Theorem batches_follow_key_runs (p : pipe) (e : batchable) (es : list batchable)
    (t : InstructionSet.t) :
  well_formed p ->
  Forall (fun x => is_Some (limit p (uid t) (batcherName x))) (e :: es) ->
  exists p' t',
    build p (e :: es) t = Some (p', t')
    /\ instructions t' =
         instructions t ++ flat_map (batches_of_run p (uid t)) (runs (e :: es))
    /\ length (runs (e :: es)) = (transitions (e :: es) + 1)%nat
    /\ (Forall (fun r => fits (slots p (uid t) (run_key r)) r) (runs (e :: es)) ->
        instructions t' =
          instructions t ++ map (fun r => Batch (run_key r) r) (runs (e :: es))
        /\ batches t' = batches t ++ map (fun r => (run_key r, length r)) (runs (e :: es))).
Proof.
  intros Hwf Hknown.
  destruct (buildStart_building p t Hwf) as (m & Hb & Hopen & Hav & Hlim).
  assert (Hruns : runs_from [] "default" (e :: es) = runs (e :: es)).
  { change (runs_from [] "default" (e :: es)) with
      (if String.eqb "default" (batcherName e)
       then runs_from ([] ++ [e]) "default" es
       else Batcher.close [] ++ runs_from [e] (batcherName e) es).
    unfold runs.
    destruct (String.eqb_spec "default" (batcherName e)) as [Heq|_];
      [rewrite <- Heq|]; reflexivity. }
  rewrite <- Hav in Hopen.
  destruct (finish_build (slots p (uid t)) (e :: es) (buildStart p t) (uid t) m
              "default" [] t Hb Hopen)
    as (p1 & t1 & p2 & H1 & H2).
  { eapply Forall_impl; [exact Hknown|]. intros x Hx. rewrite Hav. now apply Hlim. }
  rewrite (batch_instrs_runs _ (e :: es) [] "default") in H2 by constructor.
  rewrite Hruns in H2.
  eexists p2, _.
  split; [unfold build; rewrite H1; exact H2|]. simpl instructions.
  split; [reflexivity|]. split.
  - simpl runs. rewrite runs_from_length by discriminate.
    rewrite transitions_cons. lia.
  - intros Hfits.
    assert (Hwhole : flat_map (batches_of_run p (uid t)) (runs (e :: es))
                     = map (fun r => Batch (run_key r) r) (runs (e :: es))).
    { apply fitting_runs_whole; [|exact Hfits]. apply runs_from_nonempty. }
    change (runs_from [e] (batcherName e) es) with (runs (e :: es)).
    change (fun r => emitted (slots p (uid t)) (run_key r) r)
      with (batches_of_run p (uid t)).
    rewrite Hwhole. split; [reflexivity|].
    rewrite batches_app, batches_of_runs. now destruct t.
Qed.

(** The scenario of the spec, on a fresh pipe with sixteen texture
    slots for the default batcher and two for the batchers of the
    classes A and B: three batches, of sizes 3, 1 and 2. *)
Lemma batches_follow_key_runs_witness :
  exists p' t',
    build (new {[ "default" := 16%nat; "A" := 2%nat; "B" := 2%nat ]} 16)
      scenario_3_1_2 (mkSet 1 [] 0) = Some (p', t')
    /\ batches t' = [("A", 3%nat); ("B", 1%nat); ("A", 2%nat)]
    /\ transitions scenario_3_1_2 = 2%nat.
Proof.
  destruct (batches_follow_key_runs
              (new {[ "default" := 16%nat; "A" := 2%nat; "B" := 2%nat ]} 16)
              (mkBatchable 1 "A" 0) (tl scenario_3_1_2) (mkSet 1 [] 0))
    as (p' & t' & H1 & _ & _ & H3).
  - intros u m H. unfold new in H; simpl in H. rewrite lookup_empty in H. discriminate.
  - repeat constructor; vm_compute; eauto.
  - destruct H3 as [_ H3].
    + repeat constructor; unfold fits; vm_compute; lia.
    + exists p', t'. split; [exact H1|]. split; [exact H3|reflexivity].
Defined.

(** The limit of the renderer reaches the default batcher only: with
    sixteen slots for the renderer and a class B whose batchers have
    one, two elements with textures of their own are one batch under
    the default key and two under the key B. *)
Lemma registered_batcher_has_the_bound_of_its_class :
  option_map (fun x => batches (snd x))
    (build (new {[ "default" := 16%nat; "B" := 1%nat ]} 16) scenario_two_bounds
       (mkSet 1 [] 0))
  = Some [("default", 2%nat); ("B", 1%nat); ("B", 1%nat)].
Proof. vm_compute. reflexivity. Qed.

(** Seventeen elements with one key and seventeen textures on sixteen
    slots: no key transition, yet two batches. *)
Lemma texture_slots_split_a_run :
  option_map (fun x => batches (snd x))
    (build (new {[ "default" := 16%nat ]} 16) seventeen_textures (mkSet 1 [] 0))
  = Some [("default", 16%nat); ("default", 1%nat)]
  /\ transitions seventeen_textures = 0%nat.
Proof. split; vm_compute; reflexivity. Qed.

End BatcherFacts.

(** ** The colour mask pipe *)

Section ColorMaskFacts.
Import InstructionSet ColorMaskPipe.

Lemma toInt32_small (z : Z) : - 2 ^ 31 <= z < 2 ^ 31 -> Int32.toInt32 z = z.
Proof.
  intros H. unfold Int32.toInt32. rewrite Z.mod_small; lia.
Qed.

Lemma land_nibble (a b : Z) : 0 <= a <= 15 -> 0 <= Z.land a b <= 15.
Proof.
  intros Ha.
  assert (Hm : forall x, Z.land x 15 = x mod 16).
  { intros x. change 15 with (Z.ones 4). now rewrite Z.land_ones by lia. }
  assert (Ha' : a = Z.land a 15) by (rewrite Hm, Z.mod_small; lia).
  rewrite Ha', <- Z.land_assoc, (Z.land_comm 15 b), Z.land_assoc, Hm.
  pose proof (Z.mod_pos_bound (Z.land a b) 16). lia.
Qed.

Lemma effective_snoc (open : list Z) (m : Z) :
  effective (open ++ [m]) = Z.land (effective open) (Int32.toInt32 m).
Proof. unfold effective. now rewrite fold_left_app. Qed.

Lemma effective_range (open : list Z) : 0 <= effective open <= 15.
Proof.
  induction open as [|m open IH] using rev_ind.
  - unfold effective; simpl; lia.
  - rewrite effective_snoc. now apply land_nibble.
Qed.

(** The stack holds, slot by slot, the AND of the masks open at that
    depth, and the current colour is its top. *)
Definition stack_of (c : pipe) (open : list Z) : Prop :=
  _colorStackIndex c = 1 + Z.of_nat (length open)
  /\ (forall j : nat, (j <= length open)%nat ->
        _colorStack c !! Z.of_nat j = Some (effective (take j open)))
  /\ _currentColor c = Some (effective open).

Lemma stack_of_top (c : pipe) (open : list Z) :
  stack_of c open -> top c = Some (effective open).
Proof.
  intros (Hi & Hs & _). unfold top. rewrite Hi.
  replace (1 + Z.of_nat (length open) - 1) with (Z.of_nat (length open)) by lia.
  rewrite Hs by lia. now rewrite firstn_all.
Qed.

Lemma buildStart_stack (c : pipe) : stack_of (buildStart c) [].
Proof.
  split; [reflexivity|]. split; [|reflexivity].
  intros j Hj. simpl in Hj. replace j with 0%nat by lia. simpl.
  now rewrite lookup_insert_eq.
Qed.

Lemma break_colorMasks (b b' : BatcherPipe.pipe) (r r' : InstructionSet.t) :
  BatcherPipe.break b r = Some (b', r') ->
  colorMasks r' = colorMasks r /\ is_Some (BatcherPipe.activeBatch b').
Proof.
  unfold BatcherPipe.break.
  destruct (BatcherPipe.activeBatch b) as [x|] eqn:Hx; [|discriminate].
  destruct (BatcherPipe._activeBatch b) as [k|] eqn:Hk; [|discriminate].
  unfold Batcher.break. intros H; inversion H; subst; clear H. split.
  - rewrite fold_add_instructions. unfold colorMasks; simpl.
    rewrite flat_map_app.
    match goal with |- _ ++ ?l = _ => assert (Hl : l = []) end.
    { induction (Batcher.split_run _ _ _ _) as [|y l IH]; [reflexivity|exact IH]. }
    rewrite Hl. apply app_nil_r.
  - unfold BatcherPipe.activeBatch, BatcherPipe.activeBatches in *.
    unfold BatcherPipe.store_batcher, BatcherPipe.activeBatches.
    destruct (BatcherPipe._activeBatches b) as [u|] eqn:Hu; [|discriminate].
    destruct (BatcherPipe._batchersByInstructionSet b !! u) as [m|] eqn:Hm; [|discriminate].
    simpl. rewrite Hu, Hk, lookup_insert_eq, lookup_insert_eq. eauto.
Qed.

Lemma break_succeeds (b : BatcherPipe.pipe) (r : InstructionSet.t) :
  is_Some (BatcherPipe.activeBatch b) -> is_Some (BatcherPipe.break b r).
Proof.
  intros [x Hx]. unfold BatcherPipe.break. rewrite Hx.
  unfold BatcherPipe.activeBatch in Hx.
  destruct (BatcherPipe.activeBatches b); [|discriminate].
  destruct (BatcherPipe._activeBatch b); [|discriminate].
  destruct (Batcher.break x r). eauto.
Qed.

Lemma colorMasks_add (r : InstructionSet.t) (a : option Z) :
  colorMasks (InstructionSet.add r (ColorMask a)) = colorMasks r ++ [a].
Proof. unfold colorMasks; simpl. now rewrite flat_map_app. Qed.

Lemma differs_Some (x y : Z) : differs (Some x) (Some y) = negb (x =? y).
Proof. reflexivity. Qed.

Lemma push_stack (c : pipe) (b : BatcherPipe.pipe) (r : InstructionSet.t)
    (open : list Z) (m : Z) :
  stack_of c open -> is_Some (BatcherPipe.activeBatch b) ->
  exists c' b' r',
    push c b m r = Some (c', b', r')
    /\ stack_of c' (open ++ [m])
    /\ is_Some (BatcherPipe.activeBatch b')
    /\ colorMasks r' =
       colorMasks r ++ map Some (changes (effective open) [effective (open ++ [m])]).
Proof.
  intros Hst Hb. pose proof (stack_of_top _ _ Hst) as Htop.
  destruct Hst as (Hi & Hs & Hc).
  destruct (break_succeeds b r Hb) as [[b' r'] Hbr].
  destruct (break_colorMasks _ _ _ _ Hbr) as [Hcm Hb'].
  unfold push. rewrite Hbr. unfold top in Htop. rewrite Htop, lookup_insert_eq, Hc.
  assert (Heff : Int32.and (Some (effective open)) (Some m) = effective (open ++ [m])).
  { unfold Int32.and, Int32.ofValue. rewrite effective_snoc, toInt32_small; [reflexivity|].
    pose proof (effective_range open). lia. }
  rewrite Heff, differs_Some.
  assert (Hslots : forall j : nat, (j <= length (open ++ [m]))%nat ->
            <[_colorStackIndex c := effective (open ++ [m])]> (_colorStack c) !! Z.of_nat j
            = Some (effective (take j (open ++ [m])))).
  { intros j Hj. rewrite length_app in Hj. simpl in Hj.
    destruct (decide (j = S (length open))) as [->|Hne].
    - rewrite Hi. replace (1 + Z.of_nat (length open)) with (Z.of_nat (S (length open))) by lia.
      rewrite lookup_insert_eq, firstn_all2; [reflexivity|].
      rewrite length_app; simpl; lia.
    - rewrite lookup_insert_ne by lia. rewrite Hs by lia.
      now rewrite take_app_le by lia. }
  assert (Hidx : _colorStackIndex c + 1 = 1 + Z.of_nat (length (open ++ [m])))
    by (rewrite length_app; simpl; lia).
  simpl changes.
  destruct (Z.eqb_spec (effective (open ++ [m])) (effective open)) as [He|He]; simpl.
  - eexists _, _, _. split; [reflexivity|]. split; [|split; [exact Hb'|]].
    + split; [exact Hidx|]. split; [exact Hslots|]. simpl. now rewrite He.
    + now rewrite app_nil_r.
  - eexists _, _, _. split; [reflexivity|]. split; [|split; [exact Hb'|]].
    + split; [exact Hidx|]. split; [exact Hslots|]. reflexivity.
    + now rewrite colorMasks_add, Hcm.
Qed.

Lemma removelast_take {A} (l : list A) : removelast l = take (length l - 1) l.
Proof.
  induction l as [|x l IH] using rev_ind; [reflexivity|].
  rewrite removelast_last, length_app. simpl.
  replace (length l + 1 - 1)%nat with (length l) by lia.
  now rewrite take_app_length.
Qed.

Lemma pop_stack (c : pipe) (b : BatcherPipe.pipe) (r : InstructionSet.t)
    (open : list Z) :
  stack_of c open -> open <> [] -> is_Some (BatcherPipe.activeBatch b) ->
  exists c' b' r',
    pop c b r = Some (c', b', r')
    /\ stack_of c' (removelast open)
    /\ is_Some (BatcherPipe.activeBatch b')
    /\ colorMasks r' =
       colorMasks r ++ map Some (changes (effective open) [effective (removelast open)]).
Proof.
  intros (Hi & Hs & Hc) Hne Hb.
  destruct (break_succeeds b r Hb) as [[b' r'] Hbr].
  destruct (break_colorMasks _ _ _ _ Hbr) as [Hcm Hb'].
  assert (Hlen : (0 < length open)%nat) by (destruct open; [contradiction|simpl; lia]).
  assert (Hlen' : length (removelast open) = (length open - 1)%nat).
  { rewrite removelast_take, length_take. lia. }
  unfold pop. rewrite Hbr, Hi.
  replace (1 + Z.of_nat (length open) - 1 - 1) with (Z.of_nat (length open - 1)) by lia.
  rewrite Hs by lia. rewrite <- removelast_take, Hc, differs_Some.
  assert (Hslots : forall j : nat, (j <= length (removelast open))%nat ->
            _colorStack c !! Z.of_nat j = Some (effective (take j (removelast open)))).
  { intros j Hj. rewrite Hs by lia. rewrite removelast_take.
    rewrite take_take. now replace (j `min` (length open - 1))%nat with j by lia. }
  assert (Hidx : 1 + Z.of_nat (length open) - 1 = 1 + Z.of_nat (length (removelast open)))
    by lia.
  simpl changes.
  destruct (Z.eqb_spec (effective (removelast open)) (effective open)) as [He|He]; simpl.
  - eexists _, _, _. split; [reflexivity|]. split; [|split; [exact Hb'|]].
    + split; [exact Hidx|]. split; [exact Hslots|]. simpl. now rewrite He.
    + now rewrite app_nil_r.
  - eexists _, _, _. split; [reflexivity|]. split; [|split; [exact Hb'|]].
    + split; [exact Hidx|]. split; [exact Hslots|]. reflexivity.
    + now rewrite colorMasks_add, Hcm.
Qed.

Lemma run_stack (os : list op) (c : pipe) (b : BatcherPipe.pipe) (r : InstructionSet.t)
    (open final : list Z) :
  stack_of c open -> is_Some (BatcherPipe.activeBatch b) ->
  open_masks open os = Some final ->
  exists c' b' r',
    run (c, b, r) os = Some (c', b', r')
    /\ stack_of c' final
    /\ is_Some (BatcherPipe.activeBatch b')
    /\ colorMasks r' =
       colorMasks r ++ map Some (changes (effective open) (effective_trace open os)).
Proof.
  revert c b r open. induction os as [|o os IH]; intros c b r open Hst Hb Hopen.
  - simpl in *. inversion Hopen; subst. exists c, b, r.
    repeat split; try assumption; try apply Hst. now rewrite app_nil_r.
  - destruct o as [m|]; simpl in Hopen.
    + destruct (push_stack c b r open m Hst Hb) as (c1 & b1 & r1 & H1 & Hst1 & Hb1 & Hcm1).
      destruct (IH c1 b1 r1 _ Hst1 Hb1 Hopen) as (c2 & b2 & r2 & H2 & Hst2 & Hb2 & Hcm2).
      exists c2, b2, r2. simpl. rewrite H1. split; [exact H2|].
      split; [exact Hst2|]. split; [exact Hb2|].
      rewrite Hcm2, Hcm1. simpl. rewrite app_nil_r, <- app_assoc, map_app. reflexivity.
    + destruct open as [|x open]; [discriminate|].
      destruct (pop_stack c b r (x :: open) Hst ltac:(discriminate) Hb)
        as (c1 & b1 & r1 & H1 & Hst1 & Hb1 & Hcm1).
      destruct (IH c1 b1 r1 _ Hst1 Hb1 Hopen) as (c2 & b2 & r2 & H2 & Hst2 & Hb2 & Hcm2).
      exists c2, b2, r2. simpl run. simpl step. rewrite H1. split; [exact H2|].
      split; [exact Hst2|]. split; [exact Hb2|].
      rewrite Hcm2, Hcm1.
      change (effective_trace (x :: open) (Pop :: os)) with
        (effective (removelast (x :: open)) :: effective_trace (removelast (x :: open)) os).
      simpl changes. rewrite app_nil_r, <- app_assoc, map_app. reflexivity.
Qed.

Lemma open_masks_app (os1 os2 : list op) (open mid : list Z) :
  open_masks open os1 = Some mid ->
  open_masks open (os1 ++ os2) = open_masks mid os2.
Proof.
  revert open. induction os1 as [|o os1 IH]; intros open H; simpl in *.
  - now inversion H.
  - destruct o; [now apply IH|]. destruct open; [discriminate|now apply IH].
Qed.

Lemma run_app (os1 os2 : list op) (s s1 : pipe * BatcherPipe.pipe * InstructionSet.t) :
  run s os1 = Some s1 -> run s (os1 ++ os2) = run s1 os2.
Proof.
  revert s. induction os1 as [|o os1 IH]; intros s H; simpl in *.
  - now inversion H.
  - destruct (step s o); [now apply IH|discriminate].
Qed.

(** C5: after [buildStart], on any sequence of pushes and pops in which
    no pop lacks its push, the top of the stack and the current colour
    are the AND of the full mask 15 with every open mask; a push followed
    by its pop leaves the current colour, the index and the top as they
    were; and the colour-mask instructions added to the set are exactly
    the effective values that differ from the value before them. *)
Theorem color_mask_stack_is_and_of_open_masks
    (os : list op) (open : list Z) (c0 : pipe) (b : BatcherPipe.pipe)
    (r : InstructionSet.t) :
  is_Some (BatcherPipe.activeBatch b) ->
  open_masks [] os = Some open ->
  exists c b' r',
    run (buildStart c0, b, r) os = Some (c, b', r')
    /\ top c = Some (effective open)
    /\ _currentColor c = Some (effective open)
    /\ _colorStackIndex c = 1 + Z.of_nat (length open)
    /\ colorMasks r' = colorMasks r ++ map Some (changes 15 (effective_trace [] os))
    /\ (forall m, exists c1 b1 r1 c2 b2 r2,
          push c b' m r' = Some (c1, b1, r1)
          /\ top c1 = Some (Z.land (effective open) (Int32.toInt32 m))
          /\ pop c1 b1 r1 = Some (c2, b2, r2)
          /\ _currentColor c2 = _currentColor c
          /\ _colorStackIndex c2 = _colorStackIndex c
          /\ top c2 = top c).
Proof.
  intros Hb Hopen.
  destruct (run_stack os (buildStart c0) b r [] open (buildStart_stack c0) Hb Hopen)
    as (c & b' & r' & Hrun & Hst & Hb' & Hcm).
  exists c, b', r'. split; [exact Hrun|].
  split; [now apply stack_of_top|]. split; [apply Hst|]. split; [apply Hst|].
  split; [exact Hcm|].
  intros m.
  destruct (push_stack c b' r' open m Hst Hb') as (c1 & b1 & r1 & H1 & Hst1 & Hb1 & _).
  destruct (pop_stack c1 b1 r1 (open ++ [m]) Hst1) as (c2 & b2 & r2 & H2 & Hst2 & _);
    [now destruct open|exact Hb1|].
  rewrite removelast_last in Hst2.
  exists c1, b1, r1, c2, b2, r2. split; [exact H1|].
  split; [rewrite (stack_of_top _ _ Hst1); now rewrite effective_snoc|].
  split; [exact H2|].
  pose proof (stack_of_top _ _ Hst) as Ht. pose proof (stack_of_top _ _ Hst2) as Ht2.
  destruct Hst as (Hi & _ & Hc). destruct Hst2 as (Hi2 & _ & Hc2).
  split; [congruence|]. split; congruence.
Qed.

(** Masks 15, 5 and 7 pushed and popped: only the changes to 5 and back
    to 15 reach the instruction set. *)
Lemma color_mask_stack_witness :
  exists c b' r',
    run (buildStart new, started_batch, mkSet 1 [] 0) sample_ops = Some (c, b', r')
    /\ _currentColor c = Some 15
    /\ _colorStackIndex c = 1
    /\ colorMasks r' = [Some 5; Some 15].
Proof.
  destruct (color_mask_stack_is_and_of_open_masks sample_ops [] new started_batch
              (mkSet 1 [] 0))
    as (c & b' & r' & H1 & _ & H3 & H4 & H5 & _).
  - vm_compute. eauto.
  - reflexivity.
  - exists c, b', r'. repeat split; assumption.
Defined.

End ColorMaskFacts.

(** ** The stencil mask pipe *)

Section StencilMaskFacts.
Import InstructionSet StencilMaskPipe.

Lemma count_execute (s : nat) (q : pipe) (e : instruction) :
  count (execute s q e) s =
  match e with
  | StencilMask pushMaskBegin _ => count q s + 1
  | StencilMask popMaskBegin _ => count q s - 1
  | _ => count q s
  end.
Proof.
  unfold execute.
  destruct e as [| |[] inv|]; unfold count at 1; simpl; now rewrite lookup_insert_eq.
Qed.

Lemma count_execute_other (s s' : nat) (q : pipe) (e : instruction) :
  s' <> s -> count (execute s q e) s' = count q s'.
Proof.
  intros Hne. unfold execute.
  destruct e as [| |[] inv|]; unfold count at 1; simpl;
    now rewrite lookup_insert_ne by congruence.
Qed.

Lemma balanced_run (s : nat) (es : list instruction) (d : nat) (q : pipe) :
  balanced_from d es = true ->
  count (run s q es) s = count q s - Z.of_nat d
  /\ forall n, count q s - Z.of_nat d <= count (run s q (take n es)) s.
Proof.
  revert d q. induction es as [|e es IH]; intros d q Hbal.
  - simpl in Hbal. apply Nat.eqb_eq in Hbal. subst d. simpl.
    split; [lia|]. intros n. rewrite take_nil. simpl. lia.
  - assert (Hstep : forall d',
              balanced_from d' es = true ->
              count (execute s q e) s - Z.of_nat d' = count q s - Z.of_nat d ->
              count q s - Z.of_nat d <= count q s ->
              count (run s q (e :: es)) s = count q s - Z.of_nat d
              /\ forall n, count q s - Z.of_nat d <= count (run s q (take n (e :: es))) s).
    { intros d' Hb' Heq Hle. destruct (IH d' (execute s q e) Hb') as [H1 H2].
      split; [simpl; lia|]. intros [|n]; simpl; [lia|]. specialize (H2 n). lia. }
    pose proof (count_execute s q e) as Hc.
    destruct e as [| |[] inv|]; simpl in Hbal;
      try (apply (Hstep d Hbal); lia).
    + apply (Hstep (S d) Hbal); lia.
    + destruct d as [|d]; [discriminate|]. apply (Hstep d Hbal); lia.
Qed.

(** C4, as the code has it: on every balanced sequence run against one
    render target the reference count goes up by one on each
    [pushMaskBegin], is never below its starting value on the way and is
    back at it at the end, so a count that starts at 0 is never negative
    and ends at 0; a [popMaskBegin] met at count 0 clears the stencil
    plane and disables the stencil test. *)
Theorem stencil_count_balanced (s : nat) (q : pipe) (es : list instruction) :
  balanced es = true ->
  0 <= count q s ->
  count (run s q es) s = count q s
  /\ (forall n, 0 <= count q s <= count (run s q (take n es)) s)
  /\ (forall q' inv,
        count (execute s q' (StencilMask pushMaskBegin inv)) s = count q' s + 1)
  /\ (forall q' inv, count q' s = 0 ->
        calls (execute s q' (StencilMask popMaskBegin inv))
        = calls q' ++ [setMask 0; clear STENCIL; setStencilMode DISABLED 0])
  /\ (forall s' e q', s' <> s -> count (execute s q' e) s' = count q' s').
Proof.
  intros Hbal Hq. destruct (balanced_run s es 0 q Hbal) as [H1 H2].
  split; [simpl in H1; lia|]. split; [|split; [|split]].
  - intros n. specialize (H2 n). simpl in H2. lia.
  - intros q' inv. apply (count_execute s q' (StencilMask pushMaskBegin inv)).
  - intros q' inv H0. unfold execute. rewrite H0. reflexivity.
  - intros s' e q' Hne. now apply count_execute_other.
Qed.

(** Masks A and B nested on a fresh target. *)
Lemma stencil_count_balanced_witness :
  count (run 1%nat (mkPipe ∅ []) nested_A_B) 1%nat = 0
  /\ count (run 1%nat (mkPipe ∅ []) (take 3 nested_A_B)) 1%nat = 2.
Proof.
  destruct (stencil_count_balanced 1%nat (mkPipe ∅ []) nested_A_B) as [H1 _].
  - reflexivity.
  - vm_compute. discriminate.
  - split; [exact H1|reflexivity].
Defined.

(** A [popMaskBegin] met at count 0 still decrements: the count is -1
    afterwards. *)
Lemma pop_at_zero_decrements :
  count (mkPipe ∅ []) 1%nat = 0
  /\ count (execute 1%nat (mkPipe ∅ []) (StencilMask popMaskBegin false)) 1%nat = -1
  /\ calls (execute 1%nat (mkPipe ∅ []) (StencilMask popMaskBegin false))
     = [setMask 0; clear STENCIL; setStencilMode DISABLED 0].
Proof. repeat split. Qed.

End StencilMaskFacts.

(** ** The transform propagator *)

Section PropagatorFacts.
Import Number Scene.
Variable X : externals.

(** The links of a container, which propagation reads and never writes. *)
Definition shape (nd : Container.t) :=
  (Container.parent nd, Container.children nd, Container.renderGroup nd,
   Container.parentRenderGroup nd, Container.renderPipeId nd,
   Container.relativeRenderGroupDepth nd).

Lemma tt_shape (n e : Container.t) (t : Z) :
  shape (tt X n e t) = shape n /\ Container.updateTick (tt X n e t) = Container.updateTick n.
Proof.
  unfold tt. destruct (has t (ye X)), (has t (ke X)), (has t (Ce X)); split; reflexivity.
Qed.

Lemma relative_shape (nd : Container.t) (s : option Container.t) (t : Z) :
  shape (fst (relative X nd s t)) = shape nd
  /\ Container.updateTick (fst (relative X nd s t)) = Container.updateTick nd.
Proof.
  unfold relative. destruct (flat_parent s) as [p|]; simpl;
    match goal with |- context [if ?c then _ else _] => destruct c end;
    rewrite ?(proj1 (tt_shape _ _ _)), ?(proj2 (tt_shape _ _ _)); split; reflexivity.
Qed.

(** Whether the container [n] carries the tick [r]. *)
Definition is_marked (w : world) (r : Z) (n : nat) : bool :=
  match nodes w !! n with
  | Some nd => Container.updateTick nd =? r
  | None => false
  end.

(** The containers whose local transform a run of calls recomputed. *)
Fixpoint updated (evs : list event) : list nat :=
  match evs with
  | [] => []
  | updateLocalTransform n :: evs' => n :: updated evs'
  | _ :: evs' => updated evs'
  end.

Lemma updated_app (l1 l2 : list event) : updated (l1 ++ l2) = updated l1 ++ updated l2.
Proof.
  induction l1 as [|e l1 IH]; [reflexivity|]. destruct e; simpl; now rewrite ?IH.
Qed.

(** The calls the propagator makes: it recomputes local transforms and
    asks a render group to refresh a renderable. *)
Definition is_propagation (e : event) : bool :=
  match e with
  | updateLocalTransform _ | updateRenderable _ _ => true
  | _ => false
  end.

(** What a stretch of one propagation pass with tick [r] does to the
    containers: it updates containers that did not carry the tick, each
    one once, marks them with the tick, and touches no other container;
    it makes no other call than those of the propagator. *)
Definition npass (r : Z) (w w' : world) : Prop :=
  exists evs,
    events w' = events w ++ evs
    /\ NoDup (updated evs)
    /\ (forall n, n ∈ updated evs -> is_marked w r n = false /\ is_marked w' r n = true)
    /\ (forall n, n ∉ updated evs -> nodes w' !! n = nodes w !! n)
    /\ (forall n, shape <$> nodes w' !! n = shape <$> nodes w !! n)
    /\ Forall (fun e => is_propagation e = true) evs.

(** The same, for the steps that leave the render groups, the pipes and
    the scratch matrix alone. *)
Definition pass (r : Z) (w w' : world) : Prop :=
  npass r w w'
  /\ groups w' = groups w /\ batch w' = batch w /\ colorMask w' = colorMask w
  /\ It w' = It w.

Lemma npass_refl (r : Z) (w w' : world) :
  nodes w' = nodes w -> events w' = events w -> npass r w w'.
Proof.
  intros Hn He. exists []. rewrite app_nil_r, Hn. simpl.
  split; [assumption|]. split; [apply NoDup_nil_2|].
  split; [intros n H; inversion H|]. split; [reflexivity|]. split; [reflexivity|constructor].
Qed.

Lemma npass_trans (r : Z) (w1 w2 w3 : world) :
  npass r w1 w2 -> npass r w2 w3 -> npass r w1 w3.
Proof.
  intros (e1 & He1 & Hnd1 & Hm1 & Hf1 & Hs1 & Hq1) (e2 & He2 & Hnd2 & Hm2 & Hf2 & Hs2 & Hq2).
  assert (Hkeep : forall n, is_marked w2 r n = true -> n ∉ updated e2).
  { intros n Hn Hin. destruct (Hm2 n Hin). congruence. }
  assert (Hmark : forall n, n ∉ updated e2 -> is_marked w3 r n = is_marked w2 r n).
  { intros n Hn. unfold is_marked. now rewrite Hf2. }
  assert (Hmark1 : forall n, n ∉ updated e1 -> is_marked w2 r n = is_marked w1 r n).
  { intros n Hn. unfold is_marked. now rewrite Hf1. }
  exists (e1 ++ e2). rewrite updated_app.
  split; [rewrite He2, He1; now rewrite app_assoc|].
  split; [|split; [|split; [|split]]].
  - apply NoDup_app. split; [assumption|]. split; [|assumption].
    intros n Hn1 Hn2. apply (Hkeep n); [apply Hm1|]; assumption.
  - intros n Hn. apply elem_of_app in Hn as [Hn|Hn].
    + destruct (Hm1 n Hn) as [Ha Hb]. split; [assumption|].
      rewrite Hmark; [assumption|now apply Hkeep].
    + destruct (Hm2 n Hn) as [Ha Hb]. split; [|assumption].
      destruct (decide (n ∈ updated e1)) as [Hin|Hout].
      * destruct (Hm1 n Hin). congruence.
      * now rewrite <- Hmark1.
  - intros n Hn. rewrite not_elem_of_app in Hn. destruct Hn as [Hn1 Hn2].
    now rewrite Hf2, Hf1.
  - intros n. now rewrite Hs2, Hs1.
  - apply Forall_app. now split.
Qed.

Lemma pass_refl (r : Z) (w : world) : pass r w w.
Proof. split; [now apply npass_refl|repeat split]. Qed.

Lemma pass_trans (r : Z) (w1 w2 w3 : world) :
  pass r w1 w2 -> pass r w2 w3 -> pass r w1 w3.
Proof.
  intros (H1 & Hg1 & Hb1 & Hc1 & Hi1) (H2 & Hg2 & Hb2 & Hc2 & Hi2).
  split; [eapply npass_trans; eassumption|repeat split; congruence].
Qed.

Lemma pass_log (r : Z) (w : world) (e : event) :
  updated [e] = [] -> is_propagation e = true -> pass r w (log e w).
Proof.
  intros He Hq. split; [|repeat split]. exists [e]. rewrite He.
  split; [reflexivity|]. split; [apply NoDup_nil_2|].
  split; [intros n Hn; inversion Hn|]. split; [reflexivity|].
  split; [reflexivity|]. now constructor.
Qed.

(** Marking the container [n]: the first steps of [rt] on a container
    that does not carry the tick. *)
Lemma pass_mark (r : Z) (w : world) (n : nat) (nd nd' : Container.t) :
  nodes w !! n = Some nd ->
  (Container.updateTick nd =? r) = false ->
  Container.updateTick nd' = r ->
  shape nd' = shape nd ->
  pass r w (set_node n nd' (log (updateLocalTransform n) w)).
Proof.
  intros Hn Hne Ht Hsh. split; [|repeat split].
  exists [updateLocalTransform n]. simpl.
  split; [reflexivity|]. split; [apply NoDup_singleton|].
  split; [|split; [|split; [|now repeat constructor]]].
  - intros m Hm. apply list_elem_of_singleton in Hm. subst m.
    unfold is_marked; simpl. rewrite Hn, lookup_insert_eq, Ht, Z.eqb_refl.
    now split.
  - intros m Hm. rewrite list_elem_of_singleton in Hm.
    now rewrite lookup_insert_ne by congruence.
  - intros m. destruct (decide (n = m)) as [<-|Hm].
    + now rewrite lookup_insert_eq, Hn; simpl; rewrite Hsh.
    + now rewrite lookup_insert_ne.
Qed.

Lemma foldl_bind_None {A B} (f : A -> B -> option A) (l : list B) :
  foldl (fun o b => a ← o; f a b) None l = None.
Proof. induction l; simpl; auto. Qed.

Lemma foldl_pass {B} (r : Z) (f : world -> B -> option world) (l : list B)
    (w w' : world) :
  (forall b w1 w2, b ∈ l -> f w1 b = Some w2 -> pass r w1 w2) ->
  foldl (fun o b => a ← o; f a b) (Some w) l = Some w' ->
  pass r w w'.
Proof.
  revert w. induction l as [|b l IH]; intros w Hf H; simpl in H.
  - inversion H. apply pass_refl.
  - destruct (f w b) as [w1|] eqn:H1.
    + eapply pass_trans.
      * eapply Hf; [apply elem_of_cons; now left|exact H1].
      * apply IH; [|exact H]. intros b' w2 w3 Hb'. apply Hf.
        apply elem_of_cons. now right.
    + rewrite foldl_bind_None in H. discriminate.
Qed.

Lemma refresh_pass (r : Z) (w w' : world) (n : nat) (nd : Container.t) :
  refresh w n nd = Some w' -> pass r w w'.
Proof.
  unfold refresh. destruct (Container.renderPipeId nd).
  - destruct (Container.parentRenderGroup nd) as [l|]; [|discriminate]. simpl.
    destruct (groups w !! l) as [lg|]; [|discriminate]. simpl.
    destruct (negb _); intros H; inversion H; [now apply pass_log|apply pass_refl].
  - intros H; inversion H. apply pass_refl.
Qed.

Lemma rt_S (fuel : nat) (w : world) (n : nat) (e t : Z) :
  rt X (S fuel) w n e t =
  match nodes w !! n with
  | None => None
  | Some nd =>
      if e =? Container.updateTick nd then Some w
      else
        let nd1 := touch X nd e in
        let w1 := log (updateLocalTransform n) w in
        match match Container.parent nd1 with
              | Some sid => Some <$> nodes w1 !! sid
              | None => Some None
              end with
        | None => None
        | Some s =>
            let w2 := set_node n (fst (relative X nd1 s t)) w1 in
            match Container.renderGroup (fst (relative X nd1 s t)) with
            | Some _ => Some w2
            | None =>
                match foldl (fun ow c => w ← ow; rt X fuel w c e (snd (relative X nd1 s t)))
                        (Some w2) (Container.children (fst (relative X nd1 s t))) with
                | None => None
                | Some w3 => refresh w3 n (fst (relative X nd1 s t))
                end
            end
        end
  end.
Proof.
  cbn [rt]. destruct (nodes w !! n) as [nd|]; [|reflexivity].
  unfold mbind, option_bind; cbn beta iota.
  destruct (e =? Container.updateTick nd); [reflexivity|].
  destruct (match Container.parent (touch X nd e) with
            | Some sid => Some <$> nodes (log (updateLocalTransform n) w) !! sid
            | None => Some None
            end) as [s|]; [|reflexivity].
  destruct (relative X (touch X nd e) s t) as [nd2 t2]. reflexivity.
Qed.

Lemma rt_pass (fuel : nat) (w w' : world) (n : nat) (r t : Z) :
  rt X fuel w n r t = Some w' -> pass r w w'.
Proof.
  revert w w' n t. induction fuel as [|fuel IH]; intros w w' n t; [discriminate|].
  rewrite rt_S. destruct (nodes w !! n) as [nd|] eqn:Hn; [|discriminate].
  destruct (r =? Container.updateTick nd) eqn:Hr.
  { intros H; inversion H. apply pass_refl. }
  set (nd1 := touch X nd r). cbv zeta.
  destruct (match Container.parent nd1 with
            | Some sid => Some <$> nodes (log (updateLocalTransform n) w) !! sid
            | None => Some None
            end) as [s|]; [|discriminate].
  pose proof (relative_shape nd1 s t) as [Hsh Htick].
  set (nd2 := fst (relative X nd1 s t)) in *.
  assert (Hmark : pass r w (set_node n nd2 (log (updateLocalTransform n) w))).
  { apply (pass_mark r w n nd nd2); try assumption. now rewrite Z.eqb_sym. }
  destruct (Container.renderGroup nd2).
  { intros H; inversion H; subst. exact Hmark. }
  destruct (foldl _ _ (Container.children nd2)) as [w1|] eqn:Hfold; [|discriminate].
  intros Href.
  eapply pass_trans; [exact Hmark|]. eapply pass_trans; [|eapply refresh_pass, Href].
  eapply foldl_pass; [|exact Hfold]. intros c wa wb _ Hc. eapply IH, Hc.
Qed.

(** A bucket after its pass: the index is back at 0; the slots below the
    old index keep their entries, and from the old index on the entries
    up to the first empty slot are [null]. *)
Definition emptied (b : Z * UpdateList.t) : Z * UpdateList.t :=
  (b.1, UpdateList.mk (q (UpdateList.list b.2) (UpdateList.index b.2)) 0).

Lemma Ut_spec (w w1 : world) (g : nat) :
  Ut X w g = Some w1 ->
  exists n e r,
    groups w !! g = Some n
    /\ nodes w !! RenderGroup.root n = Some e
    /\ match RenderGroup.renderGroupParent n with
       | Some rp => groups w !! rp = r /\ is_Some r
       | None => r = None
       end
    /\ w1 = set_group g (Ut_group X n e r) w.
Proof.
  unfold Ut. destruct (groups w !! g) as [n|] eqn:Hn; [|discriminate].
  unfold mbind, option_bind; cbn beta iota.
  destruct (nodes w !! RenderGroup.root n) as [e|] eqn:He; [|discriminate].
  destruct (RenderGroup.renderGroupParent n) as [rp|] eqn:Hrp.
  - destruct (groups w !! rp) as [r|] eqn:Hr; [|discriminate].
    simpl. intros H; inversion H. exists n, e, (Some r). rewrite Hrp, Hr. eauto.
  - intros H; inversion H. exists n, e, None. rewrite Hrp. eauto.
Qed.

Lemma Ut_group_fields (n : RenderGroup.t) (e : Container.t) (r : option RenderGroup.t) :
  RenderGroup.childrenToUpdate (Ut_group X n e r) = RenderGroup.childrenToUpdate n
  /\ RenderGroup.updateTick (Ut_group X n e r) = RenderGroup.updateTick n
  /\ RenderGroup.root (Ut_group X n e r) = RenderGroup.root n
  /\ RenderGroup.renderGroupParent (Ut_group X n e r) = RenderGroup.renderGroupParent n
  /\ RenderGroup.structureDidChange (Ut_group X n e r) = RenderGroup.structureDidChange n
  /\ RenderGroup.childrenRenderablesToUpdate (Ut_group X n e r)
     = RenderGroup.childrenRenderablesToUpdate n
  /\ RenderGroup.instructionSet (Ut_group X n e r) = RenderGroup.instructionSet n.
Proof. destruct r; repeat split. Qed.

Lemma Be_S (fuel : nat) (w : world) (g : nat) :
  Be X (S fuel) w g false =
  match Ut X w g with
  | None => None
  | Some w1 =>
      match groups w1 !! g with
      | None => None
      | Some n =>
          foldl (update_bucket X fuel g (RenderGroup.updateTick n))
            (Some (set_group g
                     (RenderGroup.set_updateTick (RenderGroup.updateTick n + 1) n) w1))
            (seq 0 (length (RenderGroup.childrenToUpdate n)))
      end
  end.
Proof.
  cbn [Be]. destruct (Ut X w g) as [w1|]; [|reflexivity].
  unfold mbind, option_bind; cbn beta iota.
  destruct (groups w1 !! g) as [n|]; [|reflexivity].
  destruct (foldl _ _ _); reflexivity.
Qed.

Lemma visit_entry_pass (fuel : nat) (g : nat) (i r : Z) (l : list (option nat))
    (w w' : world) (d : nat) :
  visit_entry X fuel g i r l (Some w) d = Some w' -> pass r w w'.
Proof.
  unfold visit_entry, mbind, option_bind; cbn beta iota.
  destruct (mjoin (l !! d)) as [h|]; [|discriminate].
  destruct (nodes w !! h) as [nd|]; [|discriminate].
  destruct (_ && _); [apply rt_pass|].
  intros H; inversion H. apply pass_refl.
Qed.

Lemma visit_entry_None (fuel : nat) (g : nat) (i r : Z) (l : list (option nat)) (d : nat) :
  visit_entry X fuel g i r l None d = None.
Proof. reflexivity. Qed.

Lemma foldl_visit_pass (fuel : nat) (g : nat) (i r : Z) (l : list (option nat))
    (ds : list nat) (w w' : world) :
  foldl (visit_entry X fuel g i r l) (Some w) ds = Some w' -> pass r w w'.
Proof.
  revert w. induction ds as [|d ds IH]; intros w H; cbn [foldl] in H.
  - inversion H. apply pass_refl.
  - destruct (visit_entry X fuel g i r l (Some w) d) as [w1|] eqn:H1.
    + eapply pass_trans; [eapply visit_entry_pass, H1|now apply IH].
    + exfalso. clear -H. induction ds as [|d' ds IH]; [discriminate|].
      cbn [foldl] in H. rewrite visit_entry_None in H. now apply IH.
Qed.

Lemma update_bucket_spec (fuel : nat) (g : nat) (r : Z) (w w' : world) (k : nat) :
  update_bucket X fuel g r (Some w) k = Some w' ->
  exists n b,
    groups w !! g = Some n
    /\ RenderGroup.childrenToUpdate n !! k = Some b
    /\ npass r w w'
    /\ groups w' =
       <[g := RenderGroup.set_childrenToUpdate
                (<[k := emptied b]> (RenderGroup.childrenToUpdate n)) n]> (groups w)
    /\ batch w' = batch w /\ colorMask w' = colorMask w /\ It w' = It w.
Proof.
  unfold update_bucket, mbind, option_bind; cbn beta iota.
  destruct (groups w !! g) as [n|] eqn:Hn; [|discriminate].
  destruct (RenderGroup.childrenToUpdate n !! k) as [[i a]|] eqn:Hk; [|discriminate].
  destruct (foldl _ _ _) as [w1|] eqn:Hfold; [|discriminate].
  apply foldl_visit_pass in Hfold as (Hnp & Hg & Hb & Hc & Hi).
  rewrite Hg, Hn. intros H; inversion H; subst; clear H.
  exists n, (i, a). split; [reflexivity|]. split; [exact Hk|].
  split; [|simpl; rewrite Hg; repeat split; assumption].
  eapply npass_trans; [exact Hnp|]. now apply npass_refl.
Qed.

Lemma update_bucket_None (fuel : nat) (g : nat) (r : Z) (k : nat) :
  update_bucket X fuel g r None k = None.
Proof. reflexivity. Qed.

Lemma foldl_update_bucket_None (fuel : nat) (g : nat) (r : Z) (ks : list nat) :
  foldl (update_bucket X fuel g r) None ks = None.
Proof. induction ks; simpl; auto. Qed.

Lemma emptied_insert (B : list (Z * UpdateList.t)) (k : nat)
    (b : Z * UpdateList.t) :
  B !! k = Some b ->
  <[k := emptied b]> (map emptied (take k B) ++ drop k B)
  = map emptied (take (S k) B) ++ drop (S k) B.
Proof.
  intros Hb. pose proof (lookup_lt_Some _ _ _ Hb) as Hlt.
  rewrite (drop_S _ _ _ Hb), (take_S_r _ _ _ Hb), map_app. simpl.
  assert (Hlen : length (map emptied (take k B)) = k)
    by (rewrite length_map, length_take; lia).
  rewrite insert_app_r_alt by lia. rewrite Hlen, Nat.sub_diag. simpl.
  now rewrite <- app_assoc.
Qed.

Lemma set_childrenToUpdate_twice (x y : list (Z * UpdateList.t)) (n : RenderGroup.t) :
  RenderGroup.set_childrenToUpdate x (RenderGroup.set_childrenToUpdate y n)
  = RenderGroup.set_childrenToUpdate x n.
Proof. reflexivity. Qed.

Lemma set_childrenToUpdate_id (n : RenderGroup.t) :
  RenderGroup.set_childrenToUpdate (RenderGroup.childrenToUpdate n) n = n.
Proof. now destruct n. Qed.

(** The loop of [Be] over the first [k] buckets. *)
Lemma buckets_spec (fuel : nat) (g : nat) (r : Z) (n : RenderGroup.t) (k : nat)
    (w w' : world) :
  groups w !! g = Some n ->
  (k <= length (RenderGroup.childrenToUpdate n))%nat ->
  foldl (update_bucket X fuel g r) (Some w) (seq 0 k) = Some w' ->
  npass r w w'
  /\ groups w' =
     <[g := RenderGroup.set_childrenToUpdate
              (map emptied (take k (RenderGroup.childrenToUpdate n))
               ++ drop k (RenderGroup.childrenToUpdate n)) n]> (groups w)
  /\ batch w' = batch w /\ colorMask w' = colorMask w /\ It w' = It w.
Proof.
  intros Hn. revert w'. induction k as [|k IH]; intros w' Hk H.
  - simpl in H. inversion H; subst. split; [now apply npass_refl|].
    simpl. rewrite drop_0, set_childrenToUpdate_id, insert_id by assumption.
    repeat split.
  - rewrite seq_S, foldl_app in H. cbn [foldl plus] in H.
    destruct (foldl (update_bucket X fuel g r) (Some w) (seq 0 k)) as [w1|] eqn:H1;
      [|discriminate].
    destruct (IH w1 ltac:(lia) eq_refl) as (Hp1 & Hg1 & Hb1 & Hc1 & Hi1).
    apply update_bucket_spec in H as (n1 & b & Hn1 & Hb & Hp2 & Hg2 & Hb2 & Hc2 & Hi2).
    rewrite Hg1, lookup_insert_eq in Hn1. inversion Hn1; subst n1; clear Hn1.
    simpl in Hb.
    assert (Hb' : RenderGroup.childrenToUpdate n !! k = Some b).
    { rewrite lookup_app_r in Hb by (rewrite length_map, length_take; lia).
      rewrite length_map, length_take in Hb.
      replace (k - k `min` length (RenderGroup.childrenToUpdate n))%nat with 0%nat in Hb by lia.
      rewrite lookup_drop in Hb. now rewrite Nat.add_0_r in Hb. }
    split; [eapply npass_trans; eassumption|].
    split; [|repeat split; congruence].
    rewrite Hg2, Hg1, insert_insert_eq. f_equal.
    rewrite set_childrenToUpdate_twice. f_equal. simpl.
    now apply emptied_insert.
Qed.

(** One pass of the propagator over a group: what it does to the
    containers, and the group it leaves behind. *)
Lemma Be_spec (fuel : nat) (w w' : world) (g : nat) :
  Be X fuel w g false = Some w' ->
  exists n e r,
    groups w !! g = Some n
    /\ nodes w !! RenderGroup.root n = Some e
    /\ match RenderGroup.renderGroupParent n with
       | Some rp => groups w !! rp = r /\ is_Some r
       | None => r = None
       end
    /\ npass (RenderGroup.updateTick n) w w'
    /\ groups w' =
       <[g := RenderGroup.set_childrenToUpdate
                (map emptied (RenderGroup.childrenToUpdate n))
                (RenderGroup.set_updateTick (RenderGroup.updateTick n + 1)
                   (Ut_group X n e r))]> (groups w)
    /\ batch w' = batch w /\ colorMask w' = colorMask w /\ It w' = It w.
Proof.
  destruct fuel as [|fuel]; [discriminate|]. rewrite Be_S.
  destruct (Ut X w g) as [w1|] eqn:HU; [|discriminate].
  apply Ut_spec in HU as (n & e & r & Hn & He & Hr & ->).
  simpl. rewrite lookup_insert_eq.
  destruct (Ut_group_fields n e r) as (Hc & Ht & _).
  rewrite Hc, Ht. intros H.
  apply (buckets_spec fuel g _
           (RenderGroup.set_updateTick (RenderGroup.updateTick n + 1) (Ut_group X n e r)))
    in H as (Hp & Hg & Hb & Hcm & Hi).
  - exists n, e, r. split; [assumption|]. split; [assumption|]. split; [assumption|].
    split; [|split; [|repeat split; assumption]].
    + eapply npass_trans; [|exact Hp]. now apply npass_refl.
    + rewrite Hg. simpl. rewrite insert_insert_eq, insert_insert_eq. f_equal.
      change (RenderGroup.childrenToUpdate
                (RenderGroup.set_updateTick (RenderGroup.updateTick n + 1)
                   (Ut_group X n e r)))
        with (RenderGroup.childrenToUpdate (Ut_group X n e r)).
      rewrite Hc, firstn_all, drop_all, app_nil_r. reflexivity.
  - simpl. now rewrite lookup_insert_eq.
  - simpl. change (RenderGroup.childrenToUpdate
                     (RenderGroup.set_updateTick (RenderGroup.updateTick n + 1)
                        (Ut_group X n e r)))
      with (RenderGroup.childrenToUpdate (Ut_group X n e r)).
    rewrite Hc. lia.
Qed.

(** All buckets of a group are empty. *)
Definition idle (n : RenderGroup.t) : Prop :=
  Forall (fun b : Z * UpdateList.t => UpdateList.index b.2 = 0%nat)
    (RenderGroup.childrenToUpdate n).

Lemma update_bucket_idle (fuel : nat) (g : nat) (r : Z) (w : world)
    (n : RenderGroup.t) (k : nat) :
  groups w !! g = Some n -> idle n ->
  (k < length (RenderGroup.childrenToUpdate n))%nat ->
  exists w' n',
    update_bucket X fuel g r (Some w) k = Some w'
    /\ nodes w' = nodes w /\ events w' = events w
    /\ groups w' !! g = Some n' /\ idle n'
    /\ length (RenderGroup.childrenToUpdate n') = length (RenderGroup.childrenToUpdate n).
Proof.
  intros Hn Hidle Hk.
  unfold update_bucket, mbind, option_bind; cbn beta iota.
  rewrite Hn; cbn beta iota.
  destruct (RenderGroup.childrenToUpdate n !! k) as [[i a]|] eqn:Hb;
    [|apply lookup_ge_None in Hb; lia].
  assert (Hi : UpdateList.index a = 0%nat).
  { unfold idle in Hidle. rewrite Forall_lookup in Hidle. exact (Hidle _ _ Hb). }
  rewrite Hi. cbn [seq foldl]. rewrite Hn.
  eexists _, _. split; [reflexivity|]. simpl. rewrite lookup_insert_eq.
  split; [reflexivity|]. split; [reflexivity|]. split; [reflexivity|]. split.
  - unfold idle; simpl. apply Forall_insert; [exact Hidle|reflexivity].
  - simpl. apply length_insert.
Qed.

Lemma buckets_idle (fuel : nat) (g : nat) (r : Z) (k : nat) (w : world)
    (n : RenderGroup.t) :
  groups w !! g = Some n -> idle n ->
  (k <= length (RenderGroup.childrenToUpdate n))%nat ->
  exists w' n',
    foldl (update_bucket X fuel g r) (Some w) (seq 0 k) = Some w'
    /\ nodes w' = nodes w /\ events w' = events w
    /\ groups w' !! g = Some n' /\ idle n'
    /\ length (RenderGroup.childrenToUpdate n') = length (RenderGroup.childrenToUpdate n).
Proof.
  intros Hn Hidle. induction k as [|k IH]; intros Hk.
  - exists w, n. repeat split; assumption.
  - destruct (IH ltac:(lia)) as (w1 & n1 & H1 & Hn1 & He1 & Hg1 & Hi1 & Hl1).
    destruct (update_bucket_idle fuel g r w1 n1 k Hg1 Hi1 ltac:(lia))
      as (w2 & n2 & H2 & Hn2 & He2 & Hg2 & Hi2 & Hl2).
    exists w2, n2. rewrite seq_S, foldl_app, H1. cbn [foldl plus].
    split; [exact H2|]. repeat split; try assumption; congruence.
Qed.

Lemma emptied_idle (n : RenderGroup.t) (B : list (Z * UpdateList.t)) :
  idle (RenderGroup.set_childrenToUpdate (map emptied B) n).
Proof. unfold idle; simpl. apply Forall_map, Forall_forall. reflexivity. Qed.

(** A second pass over the same group, right after the first: it
    returns, and neither a container nor the log of calls changes. *)
Lemma Be_again (fuel : nat) (w w1 : world) (g : nat) :
  Be X fuel w g false = Some w1 ->
  exists w2, Be X fuel w1 g false = Some w2
             /\ nodes w2 = nodes w1 /\ events w2 = events w1.
Proof.
  intros H. pose proof (Be_spec _ _ _ _ H)
    as (n & e & r & Hn & He & Hr & Hp & Hg & _).
  destruct fuel as [|fuel]; [discriminate|]. clear H.
  set (n1 := RenderGroup.set_childrenToUpdate
               (map emptied (RenderGroup.childrenToUpdate n))
               (RenderGroup.set_updateTick (RenderGroup.updateTick n + 1)
                  (Ut_group X n e r))) in *.
  assert (Hg1 : groups w1 !! g = Some n1) by (rewrite Hg; apply lookup_insert_eq).
  destruct Hp as (evs & _ & _ & _ & _ & Hshape & _).
  assert (He1 : is_Some (nodes w1 !! RenderGroup.root n)).
  { specialize (Hshape (RenderGroup.root n)). rewrite He in Hshape.
    destruct (nodes w1 !! RenderGroup.root n); [eauto|discriminate]. }
  destruct He1 as [e1 He1].
  destruct (Ut_group_fields n e r) as (_ & _ & Hroot & Hparent & _).
  assert (HU : exists r1, Ut X w1 g = Some (set_group g (Ut_group X n1 e1 r1) w1)).
  { unfold Ut, mbind, option_bind; cbn beta iota. rewrite Hg1.
    change (RenderGroup.root n1) with (RenderGroup.root (Ut_group X n e r)).
    change (RenderGroup.renderGroupParent n1)
      with (RenderGroup.renderGroupParent (Ut_group X n e r)).
    rewrite Hroot, He1, Hparent.
    destruct (RenderGroup.renderGroupParent n) as [rp|]; [|now exists None].
    destruct Hr as [Hr Hsome].
    assert (Hrp : is_Some (groups w1 !! rp)).
    { rewrite Hg. destruct (decide (g = rp)) as [->|Hne];
        [rewrite lookup_insert_eq; eauto|rewrite lookup_insert_ne by assumption].
      now rewrite Hr. }
    destruct Hrp as [r1 Hr1]. rewrite Hr1. now exists (Some r1). }
  destruct HU as [r1 HU]. rewrite Be_S, HU. simpl groups. rewrite lookup_insert_eq.
  destruct (Ut_group_fields n1 e1 r1) as (Hc1 & _).
  set (n2 := RenderGroup.set_updateTick (RenderGroup.updateTick (Ut_group X n1 e1 r1) + 1)
               (Ut_group X n1 e1 r1)).
  assert (Hidle : idle n2).
  { unfold idle.
    change (RenderGroup.childrenToUpdate n2)
      with (RenderGroup.childrenToUpdate (Ut_group X n1 e1 r1)).
    rewrite Hc1. apply (emptied_idle n1 (RenderGroup.childrenToUpdate n)). }
  destruct (buckets_idle fuel g (RenderGroup.updateTick (Ut_group X n1 e1 r1))
              (length (RenderGroup.childrenToUpdate (Ut_group X n1 e1 r1)))
              (set_group g n2 (set_group g (Ut_group X n1 e1 r1) w1)) n2)
    as (w2 & n3 & H2 & Hn2 & He2 & _).
  - simpl. apply lookup_insert_eq.
  - exact Hidle.
  - reflexivity.
  - exists w2. split; [exact H2|]. split; assumption.
Qed.

Lemma rt_marked (fuel : nat) (w : world) (n : nat) (nd : Container.t) (r t : Z) :
  nodes w !! n = Some nd -> Container.updateTick nd = r ->
  rt X (S fuel) w n r t = Some w.
Proof.
  intros Hn Ht. rewrite rt_S, Hn, Ht, Z.eqb_refl. reflexivity.
Qed.

(** C6, as the code has it: a second pass of the propagator over a group
    right after the first returns without updating a container or
    making a call; the first pass leaves every bucket with index 0, its
    entries below the old index in place and the entries from the old
    index up to the first empty slot set to [null]; in one pass no
    container is updated twice, whatever buckets and child lists it is
    reached through, because a container that already carries the tick
    is skipped on entry. *)
Theorem propagator_second_pass_updates_nothing
    (fuel : nat) (w w1 : world) (g : nat) :
  Be X fuel w g false = Some w1 ->
  (exists w2, Be X fuel w1 g false = Some w2
              /\ nodes w2 = nodes w1 /\ events w2 = events w1)
  /\ (exists n n1,
        groups w !! g = Some n /\ groups w1 !! g = Some n1
        /\ RenderGroup.childrenToUpdate n1 = map emptied (RenderGroup.childrenToUpdate n))
  /\ (exists evs, events w1 = events w ++ evs /\ NoDup (updated evs))
  /\ (forall f w' n nd t r,
        nodes w' !! n = Some nd -> Container.updateTick nd = r ->
        rt X (S f) w' n r t = Some w').
Proof.
  intros H. split; [now apply (Be_again fuel w w1 g)|].
  pose proof (Be_spec _ _ _ _ H) as (n & e & r & Hn & He & Hr & Hp & Hg & _).
  split; [|split].
  - eexists n, _. split; [exact Hn|]. split; [rewrite Hg; apply lookup_insert_eq|].
    reflexivity.
  - destruct Hp as (evs & Hev & Hnd & _). now exists evs.
  - intros f w' n' nd t r'. apply rt_marked.
Qed.

(** *** The pass returns *)

Lemma shape_eq (a b : Container.t) :
  shape a = shape b ->
  Container.parent a = Container.parent b
  /\ Container.children a = Container.children b
  /\ Container.renderGroup a = Container.renderGroup b
  /\ Container.parentRenderGroup a = Container.parentRenderGroup b
  /\ Container.renderPipeId a = Container.renderPipeId b.
Proof. unfold shape. intros H. injection H as -> -> -> -> -> _. repeat split. Qed.

(** Every handle a container holds names a container of the store, and
    a renderable knows the render group it belongs to. *)
Definition closed (w : world) : Prop :=
  forall n nd, nodes w !! n = Some nd ->
    (forall c, c ∈ Container.children nd -> is_Some (nodes w !! c))
    /\ (forall p, Container.parent nd = Some p -> is_Some (nodes w !! p))
    /\ (is_Some (Container.renderPipeId nd) ->
        exists l, Container.parentRenderGroup nd = Some l /\ is_Some (groups w !! l)).

(** The containers of [L] that do not carry the tick [r]. *)
Definition unmarked (L : list nat) (w : world) (r : Z) : nat :=
  length (List.filter (fun n => negb (is_marked w r n)) L).

Lemma unmarked_mono (L : list nat) (w w' : world) (r : Z) :
  (forall n, is_marked w r n = true -> is_marked w' r n = true) ->
  (unmarked L w' r <= unmarked L w r)%nat.
Proof.
  intros H. unfold unmarked. induction L as [|n L IH]; simpl; [lia|].
  destruct (is_marked w r n) eqn:Hm; simpl.
  - rewrite (H _ Hm). simpl. exact IH.
  - destruct (is_marked w' r n); simpl; lia.
Qed.

Lemma unmarked_strict (L : list nat) (w w' : world) (r : Z) (n : nat) :
  (forall n, is_marked w r n = true -> is_marked w' r n = true) ->
  n ∈ L -> is_marked w r n = false -> is_marked w' r n = true ->
  (unmarked L w' r < unmarked L w r)%nat.
Proof.
  intros H Hin Hf Ht. unfold unmarked.
  induction L as [|m L IH]; [inversion Hin|]. simpl.
  pose proof (unmarked_mono L w w' r H) as Hle. unfold unmarked in Hle.
  apply elem_of_cons in Hin as [<-|Hin].
  - rewrite Hf, Ht. simpl. lia.
  - specialize (IH Hin). destruct (is_marked w r m) eqn:Hm; simpl.
    + rewrite (H _ Hm). simpl. exact IH.
    + destruct (is_marked w' r m); simpl; lia.
Qed.

Lemma unmarked_le (L : list nat) (w : world) (r : Z) : (unmarked L w r <= length L)%nat.
Proof. unfold unmarked. apply List.filter_length_le. Qed.

(** What [pass] and the writes to render groups have in common. *)
Definition evolve (r : Z) (w w' : world) : Prop :=
  npass r w w' /\ forall l, is_Some (groups w !! l) -> is_Some (groups w' !! l).

Lemma pass_evolve (r : Z) (w w' : world) : pass r w w' -> evolve r w w'.
Proof. intros (H & Hg & _). split; [exact H|]. now rewrite Hg. Qed.

Lemma evolve_trans (r : Z) (w1 w2 w3 : world) :
  evolve r w1 w2 -> evolve r w2 w3 -> evolve r w1 w3.
Proof.
  intros [H1 G1] [H2 G2]. split; [eapply npass_trans; eassumption|auto].
Qed.

Lemma evolve_marks (r : Z) (w w' : world) :
  evolve r w w' -> forall n, is_marked w r n = true -> is_marked w' r n = true.
Proof.
  intros [(evs & _ & _ & Hm & Hf & _) _] n Hn.
  destruct (decide (n ∈ updated evs)) as [Hin|Hout].
  - destruct (Hm n Hin). congruence.
  - unfold is_marked in *. now rewrite Hf.
Qed.

Lemma evolve_nodes (r : Z) (w w' : world) (n : nat) :
  evolve r w w' -> is_Some (nodes w !! n) -> is_Some (nodes w' !! n).
Proof.
  intros [(evs & _ & _ & _ & _ & Hs & _) _] [nd Hn]. specialize (Hs n).
  rewrite Hn in Hs. destruct (nodes w' !! n); [eauto|discriminate].
Qed.

Lemma evolve_closed (r : Z) (w w' : world) : evolve r w w' -> closed w -> closed w'.
Proof.
  intros Hev Hc n nd' Hn'.
  pose proof Hev as [(evs & _ & _ & _ & _ & Hs & _) Hg].
  pose proof (Hs n) as Hsn. rewrite Hn' in Hsn.
  destruct (nodes w !! n) as [nd|] eqn:Hn; [|discriminate].
  assert (Hsh : shape nd' = shape nd) by (cbn [fmap option_fmap option_map] in Hsn; congruence).
  apply shape_eq in Hsh as (E1 & E2 & E3 & E4 & E5).
  destruct (Hc n nd Hn) as (H1 & H2 & H3).
  split; [|split].
  - intros c Hcin. rewrite E2 in Hcin. eapply evolve_nodes; eauto.
  - intros p Hp. rewrite E1 in Hp. eapply evolve_nodes; eauto.
  - intros Hpipe. rewrite E5 in Hpipe. destruct (H3 Hpipe) as (l & Hl & Hgl).
    exists l. split; [congruence|auto].
Qed.

Section Totality.
Variable L : list nat.
Variable r : Z.

(** The store as the bound on the depth sees it: closed, listed in [L],
    and with fewer than [f] containers of [L] left without the tick. *)
Definition within (f : nat) (w : world) : Prop :=
  closed w /\ (forall m, is_Some (nodes w !! m) -> m ∈ L) /\ (unmarked L w r < f)%nat.

Lemma within_evolve (f : nat) (w w' : world) :
  evolve r w w' -> within f w -> within f w'.
Proof.
  intros Hev (Hc & HL & Hu). split; [eapply evolve_closed; eauto|]. split.
  - intros m [nd Hm]. apply HL.
    destruct Hev as [(evs & _ & _ & _ & _ & Hs & _) _]. specialize (Hs m).
    rewrite Hm in Hs. destruct (nodes w !! m); [eauto|discriminate].
  - eapply Nat.le_lt_trans; [|exact Hu]. apply unmarked_mono. now apply evolve_marks.
Qed.

Lemma rt_returns (fuel : nat) (w : world) (n : nat) (t : Z) :
  within fuel w -> is_Some (nodes w !! n) ->
  exists w', rt X fuel w n r t = Some w'.
Proof.
  revert w n t. induction fuel as [|fuel IH]; intros w n t (Hc & HL & Hu) [nd Hn];
    [lia|].
  rewrite rt_S, Hn. destruct (r =? Container.updateTick nd) eqn:Hr; [eauto|].
  cbv zeta. set (nd1 := touch X nd r).
  destruct (Hc n nd Hn) as (Hch & Hpa & Hpipe).
  assert (Hs : exists s, match Container.parent nd1 with
                         | Some sid => Some <$> nodes (log (updateLocalTransform n) w) !! sid
                         | None => Some None
                         end = Some s).
  { change (Container.parent nd1) with (Container.parent nd).
    destruct (Container.parent nd) as [p|]; [|eauto].
    destruct (Hpa p eq_refl) as [s Hs]. simpl. rewrite Hs. simpl. eauto. }
  destruct Hs as [s ->].
  pose proof (relative_shape nd1 s t) as [Hsh Htick].
  set (nd2 := fst (relative X nd1 s t)) in *.
  set (t2 := snd (relative X nd1 s t)).
  set (w2 := set_node n nd2 (log (updateLocalTransform n) w)).
  assert (Hmark : pass r w w2).
  { apply (pass_mark r w n nd nd2); try assumption. now rewrite Z.eqb_sym. }
  assert (Hw2 : within fuel w2).
  { pose proof (within_evolve (S fuel) w w2 (pass_evolve _ _ _ Hmark)
                  (conj Hc (conj HL Hu))) as (Hc2 & HL2 & _).
    split; [exact Hc2|]. split; [exact HL2|].
    assert (unmarked L w2 r < unmarked L w r)%nat; [|lia].
    apply (unmarked_strict L w w2 r n).
    - apply evolve_marks, pass_evolve, Hmark.
    - apply HL. eauto.
    - unfold is_marked. rewrite Hn. now rewrite Z.eqb_sym.
    - unfold is_marked, w2. simpl. rewrite lookup_insert_eq, Htick. apply Z.eqb_refl. }
  destruct (Container.renderGroup nd2); [eauto|].
  assert (Hfold : forall cs wa,
            within fuel wa -> (forall c, c ∈ cs -> is_Some (nodes wa !! c)) ->
            exists wb, foldl (fun ow c => w ← ow; rt X fuel w c r t2) (Some wa) cs = Some wb
                       /\ evolve r wa wb).
  { induction cs as [|c cs IHcs]; intros wa Hwa Hcs.
    - exists wa. split; [reflexivity|]. apply pass_evolve, pass_refl.
    - destruct (IH wa c t2 Hwa) as [wc Hwc]; [apply Hcs, elem_of_cons; now left|].
      pose proof (pass_evolve _ _ _ (rt_pass _ _ _ _ _ _ Hwc)) as Hev.
      destruct (IHcs wc) as (wb & Hwb & Hev2).
      + eapply within_evolve; eassumption.
      + intros c' Hc'. eapply evolve_nodes; [exact Hev|]. apply Hcs, elem_of_cons. now right.
      + exists wb. cbn [foldl]. unfold mbind at 2, option_bind. rewrite Hwc.
        split; [exact Hwb|]. eapply evolve_trans; eassumption. }
  destruct (Hfold (Container.children nd2) w2 Hw2) as (w3 & -> & Hev3).
  { intros c Hcin. eapply evolve_nodes; [apply pass_evolve, Hmark|].
    apply Hch. apply shape_eq in Hsh as (_ & E2 & _).
    change (Container.children nd) with (Container.children nd1). now rewrite <- E2. }
  unfold refresh. destruct (Container.renderPipeId nd2) eqn:Hp; [|eauto].
  apply shape_eq in Hsh as (_ & _ & _ & E4 & E5).
  change (Container.renderPipeId nd1) with (Container.renderPipeId nd) in E5.
  change (Container.parentRenderGroup nd1) with (Container.parentRenderGroup nd) in E4.
  destruct Hpipe as (l & Hl & Hgl); [rewrite <- E5, Hp; eauto|].
  rewrite E4, Hl. simpl.
  assert (Hg3 : is_Some (groups w3 !! l)).
  { destruct Hev3 as [_ Hg3]. apply Hg3.
    destruct Hmark as (_ & Hg2 & _). now rewrite Hg2. }
  destruct Hg3 as [lg ->]. simpl. destruct (negb _); eauto.
Qed.

Lemma visits_return (fuel : nat) (g : nat) (i : Z) (l : list (option nat))
    (ds : list nat) (w : world) :
  within fuel w ->
  (forall d, d ∈ ds -> exists h, l !! d = Some (Some h) /\ is_Some (nodes w !! h)) ->
  exists w', foldl (visit_entry X fuel g i r l) (Some w) ds = Some w' /\ pass r w w'.
Proof.
  revert w. induction ds as [|d ds IH]; intros w Hw Hds.
  - exists w. split; [reflexivity|apply pass_refl].
  - destruct (Hds d) as (h & Hl & [nd Hh]); [apply elem_of_cons; now left|].
    assert (H1 : exists w1, visit_entry X fuel g i r l (Some w) d = Some w1).
    { unfold visit_entry, mbind, option_bind; cbn beta iota. rewrite Hl. simpl.
      rewrite Hh. destruct (_ && _); [|eauto]. apply rt_returns; eauto. }
    destruct H1 as [w1 H1]. pose proof (visit_entry_pass _ _ _ _ _ _ _ _ H1) as Hp1.
    destruct (IH w1) as (w2 & H2 & Hp2).
    + eapply within_evolve; [apply pass_evolve, Hp1|exact Hw].
    + intros d' Hd'. destruct (Hds d') as (h' & Hl' & Hh'); [apply elem_of_cons; now right|].
      exists h'. split; [exact Hl'|]. eapply evolve_nodes; [apply pass_evolve, Hp1|exact Hh'].
    + exists w2. cbn [foldl]. rewrite H1. split; [exact H2|].
      eapply pass_trans; eassumption.
Qed.

End Totality.

(** The group [g] can be propagated: it is in the store with its root
    and its parent group, and the live entries of its buckets are
    containers of the store. *)
Definition ready (w : world) (g : nat) : Prop :=
  exists n e,
    groups w !! g = Some n
    /\ nodes w !! RenderGroup.root n = Some e
    /\ (forall rp, RenderGroup.renderGroupParent n = Some rp -> is_Some (groups w !! rp))
    /\ (forall k b d, RenderGroup.childrenToUpdate n !! k = Some b ->
          (d < UpdateList.index b.2)%nat ->
          exists h, UpdateList.list b.2 !! d = Some (Some h) /\ is_Some (nodes w !! h)).

Lemma evolve_set_group (r : Z) (w : world) (g : nat) (n : RenderGroup.t) :
  evolve r w (set_group g n w).
Proof.
  split; [now apply npass_refl|]. intros l Hl. simpl.
  destruct (decide (g = l)) as [->|Hne];
    [rewrite lookup_insert_eq; eauto|now rewrite lookup_insert_ne].
Qed.

(** On a closed store a pass over a ready group returns once the bound
    exceeds the number of containers. *)
Lemma Be_returns (fuel : nat) (w : world) (g : nat) :
  closed w -> ready w g -> (size (nodes w) < fuel)%nat ->
  exists w', Be X (S fuel) w g false = Some w'.
Proof.
  intros Hc (n & e & Hn & He & Hrp & Hbuckets) Hfuel.
  set (L := (map_to_list (nodes w)).*1).
  assert (HL : forall m, is_Some (nodes w !! m) -> m ∈ L).
  { intros m [nd Hm]. apply list_elem_of_fmap. exists (m, nd).
    split; [reflexivity|]. now apply elem_of_map_to_list. }
  assert (HlenL : length L = size (nodes w)).
  { unfold L. now rewrite length_fmap, length_map_to_list. }
  assert (HU : exists r0, Ut X w g = Some (set_group g (Ut_group X n e r0) w)).
  { unfold Ut, mbind, option_bind; cbn beta iota. rewrite Hn, He.
    destruct (RenderGroup.renderGroupParent n) as [rp|]; [|now exists None].
    destruct (Hrp rp eq_refl) as [r0 Hr0]. rewrite Hr0. now exists (Some r0). }
  destruct HU as [r0 HU]. rewrite Be_S, HU. simpl groups. rewrite lookup_insert_eq.
  destruct (Ut_group_fields n e r0) as (HB & Ht & _).
  set (nU := Ut_group X n e r0) in *.
  set (r := RenderGroup.updateTick nU).
  set (n2 := RenderGroup.set_updateTick (r + 1) nU).
  set (w2 := set_group g n2 (set_group g nU w)).
  assert (Hev2 : evolve r w w2).
  { eapply evolve_trans; apply evolve_set_group. }
  assert (Hw : within L r fuel w).
  { split; [exact Hc|]. split; [exact HL|].
    pose proof (unmarked_le L w r). lia. }
  assert (Hg2 : groups w2 !! g = Some n2) by (simpl; apply lookup_insert_eq).
  assert (HB2 : RenderGroup.childrenToUpdate n2 = RenderGroup.childrenToUpdate n)
    by exact HB.
  rewrite HB.
  assert (Hloop : forall k, (k <= length (RenderGroup.childrenToUpdate n))%nat ->
            exists w', foldl (update_bucket X fuel g r) (Some w2) (seq 0 k) = Some w').
  { induction k as [|k IH]; intros Hk; [eauto|].
    destruct (IH ltac:(lia)) as [wk Hwk].
    rewrite seq_S, foldl_app, Hwk. cbn [foldl plus].
    destruct (buckets_spec fuel g r n2 k w2 wk Hg2 ltac:(rewrite HB2; lia) Hwk)
      as (Hpk & Hgk & _).
    assert (Hevk : evolve r w wk).
    { eapply evolve_trans; [exact Hev2|]. split; [exact Hpk|].
      intros l Hl. rewrite Hgk.
      destruct (decide (g = l)) as [->|Hne];
        [rewrite lookup_insert_eq; eauto|now rewrite lookup_insert_ne]. }
    destruct (lookup_lt_is_Some_2 (RenderGroup.childrenToUpdate n) k ltac:(lia)) as [b Hb].
    unfold update_bucket, mbind, option_bind; cbn beta iota.
    rewrite Hgk, lookup_insert_eq. cbn beta iota.
    change (RenderGroup.childrenToUpdate (RenderGroup.set_childrenToUpdate ?x _)) with x.
    rewrite HB2.
    assert (Hbk : (map emptied (take k (RenderGroup.childrenToUpdate n))
                   ++ drop k (RenderGroup.childrenToUpdate n)) !! k = Some b).
    { rewrite lookup_app_r by (rewrite length_map, length_take; lia).
      rewrite length_map, length_take.
      replace (k - k `min` length (RenderGroup.childrenToUpdate n))%nat with 0%nat by lia.
      rewrite lookup_drop. now rewrite Nat.add_0_r. }
    rewrite Hbk. destruct b as [i a]. cbn beta iota.
    destruct (visits_return L r fuel g i (UpdateList.list a) (seq 0 (UpdateList.index a)) wk)
      as (wv & Hwv & Hpv).
    - eapply within_evolve; eassumption.
    - intros d Hd. apply elem_of_seq in Hd.
      destruct (Hbuckets k (i, a) d Hb ltac:(simpl; lia)) as (h & Hh & Hnh).
      exists h. split; [exact Hh|]. eapply evolve_nodes; eassumption.
    - rewrite Hwv. destruct Hpv as (_ & Hgv & _). rewrite Hgv, Hgk, lookup_insert_eq.
      eauto. }
  apply Hloop. lia.
Qed.


End PropagatorFacts.

(** On the sample scene the sprite sits in the bucket of its own depth
    and under the container of the bucket before it: one pass updates
    each of the two containers once, and a second pass updates nothing. *)
Lemma propagator_second_pass_witness :
  Scene.Be Sample.X 10 Sample.scene 100 false = Some Sample.scene_after_pass
  /\ Scene.events Sample.scene_after_pass
     = [Scene.updateLocalTransform 1; Scene.updateLocalTransform 2]
  /\ exists w2, Scene.Be Sample.X 10 Sample.scene_after_pass 100 false = Some w2
                /\ Scene.nodes w2 = Scene.nodes Sample.scene_after_pass
                /\ Scene.events w2 = Scene.events Sample.scene_after_pass.
Proof.
  assert (H : Scene.Be Sample.X 10 Sample.scene 100 false = Some Sample.scene_after_pass)
    by (vm_compute; reflexivity).
  split; [exact H|]. split; [vm_compute; reflexivity|].
  exact (proj1 (propagator_second_pass_updates_nothing Sample.X 10 Sample.scene
                  Sample.scene_after_pass 100 H)).
Defined.

(** After the pass the processed entries are still in their slots: only
    the index says that the buckets are empty. *)
Lemma processed_entries_stay_in_the_bucket :
  RenderGroup.childrenToUpdate <$> Scene.groups Sample.scene_after_pass !! 100%nat
  = Some [(1, UpdateList.mk [Some 1%nat] 0); (2, UpdateList.mk [Some 2%nat] 0)].
Proof. vm_compute. reflexivity. Qed.

(** ** Alpha and packed colours *)

Section NumberFacts.
Import Number.

Lemma SFcompare_antisym (x y : number) :
  SFcompare y x = option_map CompOpp (SFcompare x y).
Proof.
  destruct x as [sx|sx| |sx mx ex], y as [sy|sy| |sy my ey]; simpl;
    try reflexivity; try (destruct sx; reflexivity); try (destruct sy; reflexivity);
    try (destruct sx, sy; reflexivity).
  destruct sx, sy; simpl; try reflexivity; f_equal;
    rewrite (Z.compare_antisym ex ey); destruct (ex ?= ey)%Z; simpl; try reflexivity;
    change (Pos.compare_cont Eq my mx) with (my ?= mx)%positive;
    change (Pos.compare_cont Eq mx my) with (mx ?= my)%positive;
    rewrite (Pos.compare_antisym mx my); destruct (mx ?= my)%positive; reflexivity.
Qed.

Lemma zero_value : zero = S754_zero false.
Proof. vm_compute. reflexivity. Qed.

Lemma one_value : one = S754_finite false 4503599627370496 (-52).
Proof. vm_compute. reflexivity. Qed.

(** Unless it is NaN, a clamped number lies between 0 and 1. *)
Lemma clamp01_range (t : number) :
  t <> S754_nan -> SFleb zero (clamp01 t) = true /\ SFleb (clamp01 t) one = true.
Proof.
  intros Hnan. unfold clamp01, ltb, gtb. rewrite zero_value, one_value.
  destruct t as [s|s| |s m e]; [| |contradiction|].
  - destruct s; split; reflexivity.
  - destruct s; split; reflexivity.
  - destruct s; [split; reflexivity|].
    unfold SFltb, SFleb.
    change (SFcompare (S754_finite false m e) (S754_zero false)) with (Some Gt).
    pose proof (SFcompare_antisym (S754_finite false 4503599627370496 (-52))
                  (S754_finite false m e)) as A.
    destruct (SFcompare (S754_finite false 4503599627370496 (-52))
                (S754_finite false m e)) as [[]|] eqn:H1;
      cbn [option_map CompOpp] in A; cbn beta iota.
    + rewrite A. split; reflexivity.
    + split; reflexivity.
    + rewrite A. split; reflexivity.
    + exfalso. cbn [SFcompare] in H1. discriminate H1.
Qed.

Lemma clamp01_clamps (t : number) :
  clamp01 t <> S754_nan ->
  SFleb zero (clamp01 t) = true /\ SFleb (clamp01 t) one = true.
Proof.
  intros H. apply clamp01_range. intros ->. apply H. vm_compute. reflexivity.
Qed.

End NumberFacts.

Section AlphaFacts.
Import Number Scene.
Variable X : externals.

(** The container whose group colour and alpha [rt] hands to [tt]: the
    parent, unless the parent is missing or is the root of a render
    group, in which case it is the fresh container [Et]. *)
Definition inherited_from (s : option Container.t) : Container.t :=
  match flat_parent s with
  | Some p => p
  | None => Et X
  end.

(** The flags that [rt] hands to [tt] and to the children. *)
Definition flags_of (nd : Container.t) (s : option Container.t) (t : Z) : Z :=
  match flat_parent s with
  | Some _ => Int32.lor t (Container._updateFlags nd)
  | None => Container._updateFlags nd
  end.

Lemma relative_eq (nd : Container.t) (s : option Container.t) (t : Z) :
  relative X nd s t =
  (let nd1 := Container.set_relativeGroupTransform
                (match flat_parent s with
                 | Some p => appendFrom X (Container.localTransform nd)
                               (Container.relativeGroupTransform p)
                 | None => Container.localTransform nd
                 end) nd in
   if has (flags_of nd s t) (et X)
   then tt X nd1 (inherited_from s) (flags_of nd s t) else nd1,
   flags_of nd s t).
Proof.
  unfold relative, inherited_from, flags_of. destruct (flat_parent s); reflexivity.
Qed.

Lemma tt_alpha (n e : Container.t) (t : Z) :
  Container.groupAlpha (tt X n e t) =
    (if has t (ye X)
     then clamp01 (mul (Container.localAlpha n) (Container.groupAlpha e))
     else Container.groupAlpha n)
  /\ Container.groupColor (tt X n e t) =
    (if has t (ye X)
     then be X (Container.localColor n) (Container.groupColor e)
     else Container.groupColor n)
  /\ Container.groupColorAlpha (tt X n e t) =
    (if has t (ye X)
     then Container.groupColor (tt X n e t) + alphaBits (Container.groupAlpha (tt X n e t))
     else Container.groupColorAlpha n).
Proof.
  unfold tt. destruct (has t (ye X)), (has t (ke X)), (has t (Ce X)); repeat split.
Qed.

End AlphaFacts.

(** C2 (as the program has it).  The group alpha of a node is
    recomputed by the propagator when the colour flag reaches it, and
    then equals its local alpha times the group alpha of the container
    it inherits from, clamped to [0,1]: that container is its parent
    when the parent is not the root of a render group, and the identity
    container otherwise.  The packed group colour is the group colour
    plus [(alpha*255|0)<<24].  The world alpha of a render group is the
    group alpha of its root times the world alpha of the parent group,
    or the local alpha of the root when there is no parent group,
    clamped likewise, and its packed world colour is derived in the same
    way.  A clamped alpha lies in [0,1] unless it is NaN.  In the scene
    where a sprite of alpha 0.5 lies in a container of alpha 0.8 inside
    a stage of alpha 1.0 that is the root of the render group, the
    sprite ends with alpha 0.4 and the group with world alpha 1. *)
Theorem alpha_is_inherited_within_the_render_group (X : Scene.externals) :
  (forall (nd : Container.t) (s : option Container.t) (t : Z),
     let nd' := fst (Scene.relative X nd s t) in
     let f := flags_of nd s t in
     if Scene.has f (Scene.et X) && Scene.has f (Scene.ye X)
     then Container.groupAlpha nd'
            = Number.clamp01 (Number.mul (Container.localAlpha nd)
                                (Container.groupAlpha (inherited_from X s)))
          /\ Container.groupColorAlpha nd'
            = Container.groupColor nd' + Number.alphaBits (Container.groupAlpha nd')
          /\ (Container.groupAlpha nd' <> S754_nan ->
              SFleb Number.zero (Container.groupAlpha nd') = true
              /\ SFleb (Container.groupAlpha nd') Number.one = true)
     else Container.groupAlpha nd' = Container.groupAlpha nd
          /\ Container.groupColorAlpha nd' = Container.groupColorAlpha nd)
  /\ (forall (n : RenderGroup.t) (e : Container.t) (r : option RenderGroup.t),
        let n' := Scene.Ut_group X n e r in
        RenderGroup.worldAlpha n'
          = Number.clamp01
              match r with
              | Some r => Number.mul (Container.groupAlpha e) (RenderGroup.worldAlpha r)
              | None => Container.localAlpha e
              end
        /\ RenderGroup.worldColorAlpha n'
          = RenderGroup.worldColor n' + Number.alphaBits (RenderGroup.worldAlpha n')
        /\ (RenderGroup.worldAlpha n' <> S754_nan ->
            SFleb Number.zero (RenderGroup.worldAlpha n') = true
            /\ SFleb (RenderGroup.worldAlpha n') Number.one = true))
  /\ (exists w : Scene.world,
        Scene.Be Sample.X 10 Sample.scene 100 false = Some w
        /\ Container.groupAlpha <$> Scene.nodes w !! 2%nat = Some (Number.ratio 4 10)
        /\ RenderGroup.worldAlpha <$> Scene.groups w !! 100%nat = Some Number.one
        /\ Number.mul (Number.mul (Number.ratio 5 10) (Number.ratio 8 10)) (Number.ratio 10 10)
           = Number.ratio 4 10).
Proof.
  split; [|split].
  - intros nd s t nd' f. subst nd'. rewrite relative_eq. cbv zeta. fold f.
    cbn [fst]. destruct (Scene.has f (Scene.et X)) eqn:Het; cbn [andb].
    + match goal with
      | |- context [Scene.tt X ?a ?b f] =>
          destruct (tt_alpha X a b f) as (Ha & Hc & Hp)
      end.
      destruct (Scene.has f (Scene.ye X)) eqn:Hye.
      * split; [exact Ha|]. split; [exact Hp|].
        rewrite Ha. apply clamp01_clamps.
      * split; [exact Ha|exact Hp].
    + split; reflexivity.
  - intros n e r n'. subst n'.
    assert (H : RenderGroup.worldAlpha (Scene.Ut_group X n e r)
                = Number.clamp01
                    match r with
                    | Some r => Number.mul (Container.groupAlpha e) (RenderGroup.worldAlpha r)
                    | None => Container.localAlpha e
                    end) by (destruct r; reflexivity).
    split; [exact H|]. split; [destruct r; reflexivity|].
    rewrite H. apply clamp01_clamps.
  - eexists. split; [vm_compute; reflexivity|]. repeat split; vm_compute; reflexivity.
Qed.

(** C2, the case the sentence misses: in the scene where the card of
    alpha 0.5 is the root of a nested render group and holds an opaque
    label, the propagator leaves the label with group alpha 1, not with
    the product 0.5 of its local alpha and its parent's group alpha; the
    alpha of the card reaches the label through the world alpha of the
    nested group. *)
Lemma label_under_a_group_root_keeps_alpha_one :
  exists w : Scene.world,
    Scene.Be Sample.X 10 Sample.nested_scene 100 true = Some w
    /\ Container.parent <$> Scene.nodes w !! 2%nat = Some (Some 1%nat)
    /\ Container.localAlpha <$> Scene.nodes w !! 2%nat = Some Number.one
    /\ Container.groupAlpha <$> Scene.nodes w !! 1%nat = Some (Number.ratio 5 10)
    /\ Container.groupAlpha <$> Scene.nodes w !! 2%nat = Some Number.one
    /\ Number.clamp01 (Number.mul Number.one (Number.ratio 5 10)) = Number.ratio 5 10
    /\ Number.eqb Number.one (Number.ratio 5 10) = false
    /\ RenderGroup.worldAlpha <$> Scene.groups w !! 200%nat = Some (Number.ratio 5 10).
Proof.
  eexists. split; [vm_compute; reflexivity|]. repeat split; vm_compute; reflexivity.
Qed.

(** ** Rebuilding or reusing the instructions of a render group *)

Section RebuildFacts.
Import Number Scene.
Variable X : externals.

(** The world after further calls were made. *)
Definition logs (evs : list event) (w : world) : world :=
  {| nodes := nodes w; groups := groups w; batch := batch w; colorMask := colorMask w;
     It := It w; events := events w ++ evs |}.

Lemma logs_nil (w : world) : logs [] w = w.
Proof. destruct w. unfold logs. simpl. now rewrite app_nil_r. Qed.

Lemma logs_logs (e1 e2 : list event) (w : world) :
  logs e2 (logs e1 w) = logs (e1 ++ e2) w.
Proof. unfold logs. simpl. now rewrite app_assoc. Qed.

Lemma log_logs (e : event) (w : world) : log e w = logs [e] w.
Proof. reflexivity. Qed.

Lemma world_eq (w1 w2 : world) :
  nodes w1 = nodes w2 -> groups w1 = groups w2 -> batch w1 = batch w2 ->
  colorMask w1 = colorMask w2 -> It w1 = It w2 -> events w1 = events w2 -> w1 = w2.
Proof. destruct w1, w2; simpl; intros; subst; reflexivity. Qed.

(** Whether the queued entry [a] asks for a rebuild when it is
    validated. *)
Definition asks_rebuild (w : world) (a : option nat) : bool :=
  match a with
  | Some a =>
      match validate X w a with
      | Some true => true
      | _ => false
      end
  | None => false
  end.

(** The renderables queued in the first [r] slots of the list [t]. *)
Definition queued (t : list (option nat)) (r : nat) : list nat :=
  omap (fun i => mjoin (t !! i)) (seq 0 r).

(** Whether the validation of some queued renderable of the group fails. *)
Definition validation_fails (w : world) (n : RenderGroup.t) : bool :=
  let a := RenderGroup.childrenRenderablesToUpdate n in
  existsb (fun i => asks_rebuild w (mjoin (UpdateList.list a !! i)))
    (seq 0 (UpdateList.index a)).

Definition is_validation (e : event) : bool :=
  match e with
  | validateRenderable _ => true
  | _ => false
  end.

Lemma st_loop_spec (t : list (option nat)) (ix : list nat) (w w1 : world) (s : bool) :
  st_loop X w t ix = Some (w1, s) ->
  s = existsb (fun i => asks_rebuild w (mjoin (t !! i))) ix
  /\ exists vs,
       w1 = logs vs w
       /\ Forall (fun e => is_validation e = true) vs
       /\ (s = false -> vs = map validateRenderable (omap (fun i => mjoin (t !! i)) ix)).
Proof.
  revert w. induction ix as [|i ix IH]; intros w H.
  - inversion H; subst. split; [reflexivity|]. exists []. rewrite logs_nil.
    split; [reflexivity|]. split; [constructor|reflexivity].
  - cbn [st_loop] in H. unfold mbind, option_bind in H. cbn beta iota in H.
    cbn [existsb omap list_omap].
    destruct (mjoin (t !! i)) as [a|] eqn:Ha; [|discriminate].
    cbn [asks_rebuild].
    destruct (validate X w a) as [[|]|] eqn:Hv; [| |discriminate].
    + inversion H; subst. split; [reflexivity|]. exists [validateRenderable a].
      split; [reflexivity|]. split; [now repeat constructor|discriminate].
    + apply IH in H as (Hs & vs & Hw & Hf & Hq).
      split; [exact Hs|]. exists (validateRenderable a :: vs).
      split; [rewrite Hw, log_logs, logs_logs; reflexivity|].
      split; [now constructor|]. intros Hfalse. cbn [map]. now rewrite Hq.
Qed.

Lemma st_spec (w w1 : world) (g : nat) (n : RenderGroup.t) (s : bool) :
  groups w !! g = Some n ->
  st X w g = Some (w1, s) ->
  s = validation_fails w n
  /\ exists vs,
       w1 = set_group g (RenderGroup.set_structureDidChange s n) (logs vs w)
       /\ Forall (fun e => is_validation e = true) vs
       /\ (s = false ->
           vs = map validateRenderable
                  (queued (UpdateList.list (RenderGroup.childrenRenderablesToUpdate n))
                     (UpdateList.index (RenderGroup.childrenRenderablesToUpdate n)))).
Proof.
  intros Hn. unfold st. rewrite Hn. unfold mbind, option_bind; cbn beta iota.
  destruct (st_loop X w _ _) as [[w0 s0]|] eqn:Hl; [|discriminate].
  apply st_loop_spec in Hl as (Hs & vs & -> & Hf & Hq).
  change (groups (logs vs w)) with (groups w). rewrite Hn.
  intros H; injection H as <- <-.
  split; [exact Hs|]. exists vs. split; [reflexivity|]. split; [exact Hf|exact Hq].
Qed.

(** The first half of the update of a group: afterwards the flag of the
    group says whether it was set before or a validation failed. *)
Lemma revalidate_spec (w w1 : world) (g : nat) (n : RenderGroup.t) :
  groups w !! g = Some n ->
  revalidate X w g = Some w1 ->
  exists vs n1,
    w1 = set_group g n1 (logs (runOnRender g :: vs) w)
    /\ RenderGroup.structureDidChange n1
       = RenderGroup.structureDidChange n || validation_fails w n
    /\ RenderGroup.instructionSet n1 = RenderGroup.instructionSet n
    /\ RenderGroup.root n1 = RenderGroup.root n
    /\ UpdateList.index (RenderGroup.childrenRenderablesToUpdate n1)
       = UpdateList.index (RenderGroup.childrenRenderablesToUpdate n)
    /\ Forall (fun e => is_validation e = true) vs
    /\ (RenderGroup.structureDidChange n = true -> vs = [])
    /\ (RenderGroup.structureDidChange n1 = false ->
        RenderGroup.childrenRenderablesToUpdate n1
        = RenderGroup.childrenRenderablesToUpdate n
        /\ vs = map validateRenderable
                  (queued (UpdateList.list (RenderGroup.childrenRenderablesToUpdate n))
                     (UpdateList.index (RenderGroup.childrenRenderablesToUpdate n)))).
Proof.
  intros Hn. unfold revalidate. cbv zeta.
  change (groups (log (runOnRender g) w)) with (groups w). rewrite Hn.
  unfold mbind, option_bind; cbn beta iota.
  destruct (RenderGroup.structureDidChange n) eqn:Hflag.
  - intros H; inversion H; subst w1; clear H.
    eexists [], _. split; [reflexivity|]. cbn [orb].
    split; [exact Hflag|]. split; [reflexivity|]. split; [reflexivity|].
    split; [reflexivity|]. split; [constructor|]. split; [reflexivity|].
    cbn. rewrite Hflag. discriminate.
  - destruct (st X (log (runOnRender g) w) g) as [[w0 s]|] eqn:Hst; [|discriminate].
    cbn. intros H; inversion H; subst w0; clear H.
    apply (st_spec _ _ _ n) in Hst as (Hs & vs & -> & Hf & Hq); [|exact Hn].
    exists vs, (RenderGroup.set_structureDidChange s n).
    split; [rewrite log_logs, logs_logs; reflexivity|].
    split; [exact Hs|]. split; [reflexivity|]. split; [reflexivity|].
    split; [reflexivity|]. split; [exact Hf|]. split; [discriminate|].
    cbn. intros ->. split; [reflexivity|now apply Hq].
Qed.

Lemma refresh_entries_spec (g : nat) (t : list (option nat)) (ix : list nat)
    (w w1 : world) :
  foldl (refresh_entry g t) (Some w) ix = Some w1 ->
  exists us, w1 = logs (map (updateRenderable g) us) w
             /\ us ⊆ omap (fun i => mjoin (t !! i)) ix.
Proof.
  revert w. induction ix as [|i ix IH]; intros w H; cbn [foldl] in H.
  - inversion H; subst. exists []. rewrite logs_nil. split; [reflexivity|].
    apply list_subseteq_nil.
  - unfold refresh_entry at 2 in H. unfold mbind, option_bind in H; cbn beta iota in H.
    cbn [omap list_omap].
    destruct (mjoin (t !! i)) as [a|];
      [|clear IH; exfalso; induction ix; cbn [foldl] in H; [discriminate|auto]].
    destruct (nodes w !! a) as [nd|];
      [|clear IH; exfalso; induction ix; cbn [foldl] in H; [discriminate|auto]].
    apply IH in H as (us & -> & Hsub).
    destruct (Container.didViewUpdate nd).
    + exists (a :: us). split; [rewrite log_logs, logs_logs; reflexivity|].
      intros x Hx. apply elem_of_cons in Hx as [->|Hx]; [now left|right; auto].
    + exists us. split; [reflexivity|]. intros x Hx. right. auto.
Qed.

(** Without a rebuild only renderables of the queue are refreshed, and
    the instruction set and the pipes are left as they are. *)
Lemma _updateRenderables_spec (w w1 : world) (g : nat) (n : RenderGroup.t) :
  groups w !! g = Some n ->
  _updateRenderables w g = Some w1 ->
  exists us,
    us ⊆ queued (UpdateList.list (RenderGroup.childrenRenderablesToUpdate n))
           (UpdateList.index (RenderGroup.childrenRenderablesToUpdate n))
    /\ w1 = set_group g
              (RenderGroup.set_childrenRenderablesToUpdate
                 (UpdateList.mk
                    (q (UpdateList.list (RenderGroup.childrenRenderablesToUpdate n))
                       (UpdateList.index (RenderGroup.childrenRenderablesToUpdate n)))
                    (UpdateList.index (RenderGroup.childrenRenderablesToUpdate n))) n)
              (logs (map (updateRenderable g) us) w).
Proof.
  intros Hn. unfold _updateRenderables. rewrite Hn.
  unfold mbind, option_bind; cbn beta iota.
  destruct (foldl _ _ _) as [w0|] eqn:Hf; [|discriminate].
  apply refresh_entries_spec in Hf as (us & -> & Hsub).
  change (groups (logs (map (updateRenderable g) us) w)) with (groups w). rewrite Hn.
  intros H; inversion H; subst w1. exists us. split; [exact Hsub|reflexivity].
Qed.

(** What a step of the collecting traversal does to the pipes and to the
    set under construction. *)
Definition pipes_step
    (acc : option (BatcherPipe.pipe * ColorMaskPipe.pipe * InstructionSet.t))
    (o : build_op) : option (BatcherPipe.pipe * ColorMaskPipe.pipe * InstructionSet.t) :=
  match acc with
  | None => None
  | Some (b, c, s) =>
      match o with
      | addSprite n =>
          match BatcherPipe.addToBatch b (_getGpuSprite X n) s with
          | Some (b, s) => Some (b, c, s)
          | None => None
          end
      | addCustomRender n =>
          match BatcherPipe.break b s with
          | Some (b, s) =>
              Some (b, c, InstructionSet.add s (InstructionSet.Renderable "customRender" n))
          | None => None
          end
      | pushColorMask mask =>
          match ColorMaskPipe.push c b mask s with
          | Some (c, b, s) => Some (b, c, s)
          | None => None
          end
      | popColorMask =>
          match ColorMaskPipe.pop c b s with
          | Some (c, b, s) => Some (b, c, s)
          | None => None
          end
      end
  end.

(** The instruction set [i] built afresh for the root [root] over the
    containers [nd], with the pipes [b] and [c] as the build leaves
    them: the set is emptied, the batcher and the colour mask pipe start
    over, the renderables below the root are collected, and the last
    batch is closed. *)
Definition rebuilt (nd : gmap nat Container.t) (b : BatcherPipe.pipe)
    (c : ColorMaskPipe.pipe) (i : InstructionSet.t) (root : nat)
    : option (BatcherPipe.pipe * ColorMaskPipe.pipe * InstructionSet.t) :=
  let s := InstructionSet.reset i in
  match foldl pipes_step
          (Some (BatcherPipe.buildStart b s, ColorMaskPipe.buildStart c, s))
          (collect X nd root) with
  | Some (b, c, s) =>
      match BatcherPipe.buildEnd b s with
      | Some (b, s) => Some (b, c, s)
      | None => None
      end
  | None => None
  end.

(** The calls a rebuild makes outside the pipes of this chunk. *)
Definition build_events (r : Container.t) (n : RenderGroup.t) : list event :=
  blendModeBuildStart
  :: (if Container.sortableChildren r then [sortChildren (RenderGroup.root n)] else [])
  ++ [collectRenderablesWithEffects (RenderGroup.root n); blendModeBuildEnd].

Lemma run_build_ops_pure (ops : list build_op) (w : world) (s : InstructionSet.t) :
  foldl (run_build_op X) (Some (w, s)) ops
  = match foldl pipes_step (Some (batch w, colorMask w, s)) ops with
    | Some (b, c, s) => Some (set_pipes b c w, s)
    | None => None
    end.
Proof.
  assert (HN : forall ops, foldl (run_build_op X) None ops = None)
    by (intros l; induction l; cbn [foldl]; auto).
  assert (HP : forall ops, foldl pipes_step None ops = None)
    by (intros l; induction l; cbn [foldl]; auto).
  revert w s. induction ops as [|o ops IH]; intros w s; cbn [foldl].
  - now destruct w.
  - unfold run_build_op at 2, pipes_step at 2. unfold mbind, option_bind; cbn beta iota.
    destruct o as [n|n|mask|].
    + destruct (BatcherPipe.addToBatch _ _ _) as [[b1 s1]|]; [|now rewrite HN, HP].
      rewrite IH. reflexivity.
    + destruct (BatcherPipe.break _ _) as [[b1 s1]|]; [|now rewrite HN, HP].
      rewrite IH. reflexivity.
    + destruct (ColorMaskPipe.push _ _ _ _) as [[[c1 b1] s1]|]; [|now rewrite HN, HP].
      rewrite IH. reflexivity.
    + destruct (ColorMaskPipe.pop _ _ _) as [[[c1 b1] s1]|]; [|now rewrite HN, HP].
      rewrite IH. reflexivity.
Qed.

(** A rebuild replaces the instruction set of the group by the set built
    afresh, and makes the calls of a build. *)
Lemma _buildInstructions_spec (w w1 : world) (g : nat) (n : RenderGroup.t) :
  groups w !! g = Some n ->
  _buildInstructions X w g = Some w1 ->
  exists r b c s,
    nodes w !! RenderGroup.root n = Some r
    /\ rebuilt (nodes w) (batch w) (colorMask w) (RenderGroup.instructionSet n)
         (RenderGroup.root n) = Some (b, c, s)
    /\ w1 = set_group g (RenderGroup.set_instructionSet s n)
              (set_pipes b c (logs (build_events r n) w)).
Proof.
  intros Hn. unfold _buildInstructions. rewrite Hn.
  unfold mbind, option_bind; cbn beta iota.
  destruct (nodes w !! RenderGroup.root n) as [r|] eqn:Hr; [|discriminate].
  cbv zeta. rewrite run_build_ops_pure. unfold rebuilt, build_events.
  destruct (Container.sortableChildren r) eqn:Hsort;
    (match goal with
     | |- context [foldl pipes_step ?a ?l] =>
         change (foldl pipes_step a l)
           with (foldl pipes_step
                   (Some (BatcherPipe.buildStart (batch w)
                            (InstructionSet.reset (RenderGroup.instructionSet n)),
                          ColorMaskPipe.buildStart (colorMask w),
                          InstructionSet.reset (RenderGroup.instructionSet n)))
                   (collect X (nodes w) (RenderGroup.root n)))
     end;
     destruct (foldl pipes_step _ _) as [[[b0 c0] s0]|]; [|discriminate];
     cbn beta iota;
     change (batch (set_pipes b0 c0 _)) with b0;
     destruct (BatcherPipe.buildEnd b0 s0) as [[b s]|]; [|discriminate];
     cbn beta iota;
     match goal with
     | |- context [groups ?x !! g] => change (groups x) with (groups w)
     end;
     rewrite Hn; intros H; injection H as <-;
     exists r, b, c0, s; split; [reflexivity|]; split; [reflexivity|];
     rewrite Hsort;
     apply world_eq; try reflexivity;
     cbn [events set_group set_groups set_pipes logs log];
     rewrite <- ?app_assoc; reflexivity).
Qed.

(** The calls of one update of the group [g]: the hook of the group,
    the validations [vs], the calls [ps] of the propagator, the calls
    [bs] of the rebuild or of the refresh, and the upload. *)
Definition frame_events (g : nat) (vs ps bs : list event) : list event :=
  runOnRender g :: vs ++ ps ++ bs ++ [upload g].

Lemma frame_events_collect (g root : nat) (vs ps bs : list event) :
  Forall (fun e => is_validation e = true) vs ->
  Forall (fun e => is_propagation e = true) ps ->
  (collectRenderablesWithEffects root ∈ frame_events g vs ps bs
   <-> collectRenderablesWithEffects root ∈ bs).
Proof.
  intros Hv Hp. unfold frame_events.
  rewrite elem_of_cons, !elem_of_app, list_elem_of_singleton.
  rewrite Forall_forall in Hv, Hp.
  split; [|tauto].
  intros [H|[H|[H|[H|H]]]]; [discriminate| | |exact H|discriminate].
  - apply Hv in H. discriminate.
  - apply Hp in H. discriminate.
Qed.

End RebuildFacts.

(** C1: when a render group is processed in a frame, its instruction set
    is rebuilt -- emptied and filled again by collecting the renderables
    below the root -- if and only if its [structureDidChange] flag was
    set when the frame reached it or the in-place validation of a queued
    renderable failed.  Otherwise the instruction set and the pipes are
    left as they are, every queued renderable is validated, and only
    queued renderables are refreshed.  So a queued sprite whose new
    texture the batcher accepts in place is validated and refreshed
    without a rebuild.  In both cases the flag is clear afterwards. *)
Theorem rebuild_iff_structure_changed (X : Scene.externals) (fuel : nat)
    (w w' : Scene.world) (g : nat) (n : RenderGroup.t) :
  Scene.groups w !! g = Some n ->
  Scene.update_group X fuel w g = Some w' ->
  let t := RenderGroup.childrenRenderablesToUpdate n in
  exists (vs ps bs : list Scene.event) (n' : RenderGroup.t),
    Scene.events w' = Scene.events w ++ frame_events g vs ps bs
    /\ Forall (fun e => is_validation e = true) vs
    /\ Forall (fun e => is_propagation e = true) ps
    /\ Scene.groups w' !! g = Some n'
    /\ RenderGroup.structureDidChange n' = false
    /\ (Scene.collectRenderablesWithEffects (RenderGroup.root n)
          ∈ frame_events g vs ps bs
        <-> RenderGroup.structureDidChange n = true \/ validation_fails X w n = true)
    /\ if RenderGroup.structureDidChange n || validation_fails X w n
       then exists r,
              Scene.nodes w' !! RenderGroup.root n = Some r
              /\ bs = build_events r n
              /\ rebuilt X (Scene.nodes w') (Scene.batch w) (Scene.colorMask w)
                   (RenderGroup.instructionSet n) (RenderGroup.root n)
                 = Some (Scene.batch w', Scene.colorMask w', RenderGroup.instructionSet n')
       else RenderGroup.instructionSet n' = RenderGroup.instructionSet n
            /\ Scene.batch w' = Scene.batch w
            /\ Scene.colorMask w' = Scene.colorMask w
            /\ vs = map Scene.validateRenderable
                      (queued (UpdateList.list t) (UpdateList.index t))
            /\ exists us,
                 us ⊆ queued (UpdateList.list t) (UpdateList.index t)
                 /\ bs = map (Scene.updateRenderable g) us.
Proof.
  intros Hn Hrun t. unfold Scene.update_group in Hrun.
  destruct (Scene.revalidate X w g) as [w1|] eqn:H1; [|discriminate].
  cbn [mbind option_bind] in Hrun.
  destruct (Scene.Be X fuel w1 g false) as [w2|] eqn:H2; [|discriminate].
  cbn [mbind option_bind] in Hrun.
  apply (revalidate_spec X w w1 g n Hn) in H1
    as (vs & n1 & -> & Hflag & Hset & Hroot & Hidx & Hvs & Hvs0 & Hkeep).
  apply Be_spec in H2 as (n1' & e & rp & Hg1 & He & _ & Hp & Hg2 & Hb2 & Hc2 & _).
  cbn [Scene.groups Scene.set_group Scene.set_groups] in Hg1.
  rewrite lookup_insert_eq in Hg1. injection Hg1 as <-.
  destruct Hp as (ps & Hev2 & _ & _ & _ & _ & Hps).
  destruct (Ut_group_fields X n1 e rp) as (_ & _ & Hroot2 & _ & Hflag2 & Hq2 & Hset2).
  set (n2 := RenderGroup.set_childrenToUpdate
               (map emptied (RenderGroup.childrenToUpdate n1))
               (RenderGroup.set_updateTick (RenderGroup.updateTick n1 + 1)
                  (Scene.Ut_group X n1 e rp))) in *.
  assert (Hn2 : Scene.groups w2 !! g = Some n2) by (rewrite Hg2; apply lookup_insert_eq).
  assert (Hflag2' : RenderGroup.structureDidChange n2
                    = RenderGroup.structureDidChange n || validation_fails X w n)
    by (rewrite <- Hflag, <- Hflag2; reflexivity).
  assert (Hset2' : RenderGroup.instructionSet n2 = RenderGroup.instructionSet n)
    by (rewrite <- Hset, <- Hset2; reflexivity).
  assert (Hroot2' : RenderGroup.root n2 = RenderGroup.root n)
    by (rewrite <- Hroot, <- Hroot2; reflexivity).
  assert (Hq2' : RenderGroup.childrenRenderablesToUpdate n2
                 = RenderGroup.childrenRenderablesToUpdate n1) by exact Hq2.
  cbn [Scene.events Scene.set_group Scene.set_groups logs] in Hev2.
  cbn [Scene.batch Scene.colorMask Scene.set_group Scene.set_groups logs] in Hb2, Hc2.
  unfold Scene.rebuild_or_refresh in Hrun. rewrite Hn2 in Hrun.
  cbn [mbind option_bind] in Hrun.
  destruct (RenderGroup.structureDidChange n2) eqn:Hf2.
  - (* the rebuild *)
    destruct (Scene._buildInstructions X _ g) as [w3|] eqn:H3; [|discriminate].
    cbn [mbind option_bind] in Hrun.
    apply (_buildInstructions_spec X _ w3 g (RenderGroup.set_structureDidChange false n2))
      in H3 as (r & b & c & s & Hr & Hre & ->);
      [|cbn [Scene.groups Scene.set_group Scene.set_groups]; apply lookup_insert_eq].
    cbn [Scene.groups Scene.set_group Scene.set_groups Scene.set_pipes logs] in Hrun.
    rewrite lookup_insert_eq in Hrun. cbn [mbind option_bind] in Hrun.
    injection Hrun as <-.
    change (RenderGroup.root (RenderGroup.set_structureDidChange false n2))
      with (RenderGroup.root n2) in Hr, Hre.
    change (RenderGroup.instructionSet (RenderGroup.set_structureDidChange false n2))
      with (RenderGroup.instructionSet n2) in Hre.
    cbn [Scene.nodes Scene.batch Scene.colorMask Scene.set_group Scene.set_groups] in Hr, Hre.
    rewrite Hroot2' in Hr, Hre. rewrite Hset2', Hb2, Hc2 in Hre.
    exists vs, ps, (build_events r n). eexists.
    split.
    { cbn [Scene.events Scene.set_group Scene.set_groups Scene.set_pipes Scene.log logs].
      rewrite Hev2. unfold frame_events, build_events.
      change (RenderGroup.root (RenderGroup.set_structureDidChange false n2))
        with (RenderGroup.root n2).
      change (Container.sortableChildren r) with (Container.sortableChildren r).
      rewrite Hroot2'.
      rewrite <- !app_assoc. reflexivity. }
    split; [exact Hvs|]. split; [exact Hps|].
    split.
    { cbn [Scene.groups Scene.set_group Scene.set_groups Scene.set_pipes Scene.log logs].
      apply lookup_insert_eq. }
    split; [reflexivity|].
    split.
    { rewrite frame_events_collect by assumption.
      split; [intros _; apply orb_prop; now symmetry|]. intros _. unfold build_events.
      rewrite elem_of_cons, elem_of_app, elem_of_cons. right. right. now left. }
    rewrite <- Hflag2'. exists r.
    split; [exact Hr|]. split; [reflexivity|exact Hre].
  - (* the refresh *)
    destruct (Scene._updateRenderables w2 g) as [w3|] eqn:H3; [|discriminate].
    cbn [mbind option_bind] in Hrun.
    apply (_updateRenderables_spec w2 w3 g n2 Hn2) in H3 as (us & Hus & ->).
    cbn [Scene.groups Scene.set_group Scene.set_groups logs] in Hrun.
    rewrite lookup_insert_eq in Hrun. cbn [mbind option_bind] in Hrun.
    injection Hrun as <-.
    assert (Hf1 : RenderGroup.structureDidChange n1 = false)
      by (rewrite Hflag, <- Hflag2'; reflexivity).
    destruct (Hkeep Hf1) as [Hsame Hvq].
    rewrite Hq2', Hsame in Hus.
    exists vs, ps, (map (Scene.updateRenderable g) us). eexists.
    split.
    { cbn [Scene.events Scene.set_group Scene.set_groups Scene.log logs].
      rewrite Hev2. unfold frame_events. rewrite <- !app_assoc. reflexivity. }
    split; [exact Hvs|]. split; [exact Hps|].
    split.
    { cbn [Scene.groups Scene.set_group Scene.set_groups Scene.log logs].
      apply lookup_insert_eq. }
    split; [exact Hf2|].
    split.
    { rewrite frame_events_collect by assumption.
      split; [|intros [H|H]; rewrite H, ?orb_true_r in Hflag2'; discriminate].
      intros H. apply list_elem_of_fmap in H as (u & Hu & _). discriminate. }
    rewrite <- Hflag2'.
    split; [exact Hset2'|]. split; [exact Hb2|]. split; [exact Hc2|].
    split; [exact Hvq|]. exists us. split; [exact Hus|reflexivity].
Qed.

(** The second frame of the sample scene, after the sprite was given a
    texture that the batcher accepts in place: the sprite is validated
    and refreshed, and the instruction set of the first frame is kept. *)
Lemma rebuild_iff_structure_changed_witness :
  Scene.groups Sample.scene_texture_changed !! 100%nat
    = Some Sample.stage_group_texture_changed
  /\ Scene.update_group Sample.X 10 Sample.scene_texture_changed 100
     = Some Sample.scene_second_frame
  /\ exists (vs ps bs : list Scene.event) (n' : RenderGroup.t),
       Scene.events Sample.scene_second_frame
         = Scene.events Sample.scene_texture_changed ++ frame_events 100 vs ps bs
       /\ Scene.groups Sample.scene_second_frame !! 100%nat = Some n'
       /\ RenderGroup.instructionSet n'
          = RenderGroup.instructionSet Sample.stage_group_texture_changed
       /\ vs = [Scene.validateRenderable 2].
Proof.
  assert (H1 : Scene.groups Sample.scene_texture_changed !! 100%nat
               = Some Sample.stage_group_texture_changed) by (vm_compute; reflexivity).
  assert (H2 : Scene.update_group Sample.X 10 Sample.scene_texture_changed 100
               = Some Sample.scene_second_frame) by (vm_compute; reflexivity).
  split; [exact H1|]. split; [exact H2|].
  destruct (rebuild_iff_structure_changed Sample.X 10 Sample.scene_texture_changed
              Sample.scene_second_frame 100 Sample.stage_group_texture_changed H1 H2)
    as (vs & ps & bs & n' & Hev & _ & _ & Hg & _ & _ & Hif).
  assert (Hno : RenderGroup.structureDidChange Sample.stage_group_texture_changed
                || validation_fails Sample.X Sample.scene_texture_changed
                     Sample.stage_group_texture_changed = false)
    by (vm_compute; reflexivity).
  rewrite Hno in Hif. destruct Hif as (Hset & _ & _ & Hvs & us & Hus & Hbs).
  exists vs, ps, bs, n'. split; [exact Hev|]. split; [exact Hg|]. split; [exact Hset|].
  exact Hvs.
Defined.

(** C1, the case the last sentence misses: the sprite of the sample
    scene was given another texture after the first frame and kept its
    parent, and the flag of its render group is clear; when the batcher
    cannot take the new texture in place, the validation of the sprite
    fails and the second frame rebuilds the instruction set. *)
Lemma rejected_texture_is_rebuilt :
  RenderGroup.structureDidChange Sample.stage_group_texture_changed = false
  /\ Container.parent <$> Scene.nodes Sample.scene_texture_changed !! 2%nat
     = Container.parent <$> Scene.nodes Sample.scene_after_frame !! 2%nat
  /\ Scene.validate Sample.X_new_texture Sample.scene_texture_changed 2 = Some true
  /\ exists w' : Scene.world,
       Scene.update_group Sample.X_new_texture 10 Sample.scene_texture_changed 100
       = Some w'
       /\ Scene.events w'
          = Scene.events Sample.scene_texture_changed
            ++ [Scene.runOnRender 100; Scene.validateRenderable 2;
                Scene.blendModeBuildStart; Scene.collectRenderablesWithEffects 0;
                Scene.blendModeBuildEnd; Scene.upload 100].
Proof.
  split; [vm_compute; reflexivity|]. split; [vm_compute; reflexivity|].
  split; [vm_compute; reflexivity|].
  eexists. split; vm_compute; reflexivity.
Qed.

(** ** The tree of the render groups *)

Section GroupTree.
Import Scene.

(** The render groups below [g] are in the store and nested less than
    [d] deep: the recursions that follow [renderGroupChildren] come to
    an end within [d] calls. *)
Fixpoint nested_within (d : nat) (w : world) (g : nat) : Prop :=
  match d with
  | O => False
  | S d =>
      exists grp, groups w !! g = Some grp
                  /\ Forall (nested_within d w) (RenderGroup.renderGroupChildren grp)
  end.

(** Every group of [w] is a group of [w'], with the same child groups. *)
Definition same_children (w w' : world) : Prop :=
  forall h grp, groups w !! h = Some grp ->
    exists grp', groups w' !! h = Some grp'
                 /\ RenderGroup.renderGroupChildren grp'
                    = RenderGroup.renderGroupChildren grp.

Lemma same_children_refl (w : world) : same_children w w.
Proof. intros h grp H. eauto. Qed.

Lemma same_children_trans (w1 w2 w3 : world) :
  same_children w1 w2 -> same_children w2 w3 -> same_children w1 w3.
Proof.
  intros H1 H2 h grp Hg. destruct (H1 h grp Hg) as (grp1 & Hg1 & Hc1).
  destruct (H2 h grp1 Hg1) as (grp2 & Hg2 & Hc2). exists grp2.
  split; [exact Hg2|congruence].
Qed.

Lemma nested_within_le (d d' : nat) (w : world) (g : nat) :
  (d <= d')%nat -> nested_within d w g -> nested_within d' w g.
Proof.
  revert d' g. induction d as [|d IH]; intros d' g Hle; [intros []|].
  destruct d' as [|d']; [lia|]. cbn [nested_within].
  intros (grp & Hg & Hall). exists grp. split; [exact Hg|].
  eapply Forall_impl; [exact Hall|]. intros c. apply IH. lia.
Qed.

Lemma nested_within_same_children (d : nat) (w w' : world) (g : nat) :
  same_children w w' -> nested_within d w g -> nested_within d w' g.
Proof.
  intros Hs. revert g. induction d as [|d IH]; intros g; [intros []|].
  cbn [nested_within]. intros (grp & Hg & Hall).
  destruct (Hs g grp Hg) as (grp' & Hg' & Hc'). exists grp'.
  split; [exact Hg'|]. rewrite Hc'.
  eapply Forall_impl; [exact Hall|]. intros c. apply IH.
Qed.

End GroupTree.

(** ** Rendering a container on its own *)

Section RenderFacts.
Import Number Scene.
Variable X : externals.

(** What the update of the render groups leaves alone: the links of the
    containers, the local transforms of the groups and the scratch
    matrix. *)
Definition framed (w w' : world) : Prop :=
  (forall n, shape <$> nodes w' !! n = shape <$> nodes w !! n)
  /\ (forall g, RenderGroup.localTransform <$> groups w' !! g
                = RenderGroup.localTransform <$> groups w !! g)
  /\ It w' = It w.

Lemma framed_refl (w : world) : framed w w.
Proof. repeat split. Qed.

Lemma framed_trans (w1 w2 w3 : world) : framed w1 w2 -> framed w2 w3 -> framed w1 w3.
Proof.
  intros (A1 & B1 & C1) (A2 & B2 & C2). split; [|split].
  - intros n. now rewrite A2, A1.
  - intros g. now rewrite B2, B1.
  - congruence.
Qed.

Lemma framed_same (w w' : world) :
  nodes w' = nodes w -> groups w' = groups w -> It w' = It w -> framed w w'.
Proof. intros Hn Hg Hi. unfold framed. rewrite Hn, Hg, Hi. repeat split. Qed.

Lemma framed_set_group (w : world) (g : nat) (grp grp' : RenderGroup.t) :
  groups w !! g = Some grp ->
  RenderGroup.localTransform grp' = RenderGroup.localTransform grp ->
  framed w (set_group g grp' w).
Proof.
  intros Hg Hl. split; [|split]; [reflexivity| |reflexivity].
  intros g'. cbn [groups set_group set_groups].
  destruct (decide (g = g')) as [<-|Hne].
  - rewrite lookup_insert_eq, Hg. cbn. now rewrite Hl.
  - now rewrite lookup_insert_ne.
Qed.

Lemma foldl_framed {B} (f : world -> B -> option world) (l : list B) (w w' : world) :
  (forall b w1 w2, f w1 b = Some w2 -> framed w1 w2) ->
  foldl (fun o b => a ← o; f a b) (Some w) l = Some w' ->
  framed w w'.
Proof.
  intros Hf. revert w. induction l as [|b l IH]; intros w H; cbn [foldl] in H.
  - injection H as <-. apply framed_refl.
  - cbn [mbind option_bind] in H. destruct (f w b) as [w1|] eqn:H1.
    + eapply framed_trans; [eapply Hf; exact H1|now apply IH].
    + rewrite foldl_bind_None in H. discriminate.
Qed.

Lemma revalidate_framed (w w1 : world) (g : nat) :
  revalidate X w g = Some w1 -> framed w w1.
Proof.
  unfold revalidate. cbv zeta.
  change (groups (log (runOnRender g) w)) with (groups w).
  destruct (groups w !! g) as [n|] eqn:Hn; [|discriminate].
  cbn [mbind option_bind].
  destruct (RenderGroup.structureDidChange n).
  - intros H; injection H as <-.
    eapply framed_trans; [|eapply framed_set_group; [exact Hn|reflexivity]].
    now apply framed_same.
  - destruct (st X (log (runOnRender g) w) g) as [[w0 s]|] eqn:Hst; [|discriminate].
    cbn. intros H; injection H as <-.
    apply (st_spec X _ _ _ n) in Hst as (_ & vs & -> & _); [|exact Hn].
    eapply framed_trans; [|eapply framed_set_group; [exact Hn|reflexivity]].
    now apply framed_same.
Qed.

Lemma Be_framed (fuel : nat) (w w' : world) (g : nat) :
  Be X fuel w g false = Some w' -> framed w w'.
Proof.
  intros H. apply Be_spec in H as (n & e & r & Hn & _ & _ & Hp & Hg & _ & _ & Hi).
  destruct Hp as (evs & _ & _ & _ & _ & Hs & _).
  split; [exact Hs|]. split; [|exact Hi].
  intros g'. rewrite Hg. destruct (decide (g = g')) as [<-|Hne].
  - rewrite lookup_insert_eq, Hn. cbn. destruct r; reflexivity.
  - now rewrite lookup_insert_ne.
Qed.

Lemma rebuild_or_refresh_framed (w w' : world) (g : nat) :
  rebuild_or_refresh X w g = Some w' -> framed w w'.
Proof.
  unfold rebuild_or_refresh.
  destruct (groups w !! g) as [n|] eqn:Hn; [|discriminate].
  cbn [mbind option_bind].
  destruct (RenderGroup.structureDidChange n).
  - destruct (_buildInstructions X _ g) as [w3|] eqn:H3; [|discriminate].
    cbn [mbind option_bind].
    apply (_buildInstructions_spec X _ w3 g (RenderGroup.set_structureDidChange false n))
      in H3 as (r & b & c & s & _ & _ & ->);
      [|cbn [groups set_group set_groups]; apply lookup_insert_eq].
    cbn [groups set_group set_groups set_pipes logs].
    rewrite lookup_insert_eq. cbn [mbind option_bind].
    intros H; injection H as <-.
    split; [reflexivity|]. split; [|reflexivity].
    intros g'. cbn [groups set_group set_groups set_pipes logs log].
    destruct (decide (g = g')) as [<-|Hne].
    + rewrite !lookup_insert_eq, Hn. reflexivity.
    + now rewrite !lookup_insert_ne.
  - destruct (_updateRenderables w g) as [w3|] eqn:H3; [|discriminate].
    cbn [mbind option_bind].
    apply (_updateRenderables_spec w w3 g n Hn) in H3 as (us & _ & ->).
    cbn [groups set_group set_groups logs].
    rewrite lookup_insert_eq. cbn [mbind option_bind].
    intros H; injection H as <-.
    split; [reflexivity|]. split; [|reflexivity].
    intros g'. cbn [groups set_group set_groups logs log].
    destruct (decide (g = g')) as [<-|Hne].
    + rewrite !lookup_insert_eq, Hn. reflexivity.
    + now rewrite !lookup_insert_ne.
Qed.

Lemma update_group_framed (fuel : nat) (w w' : world) (g : nat) :
  update_group X fuel w g = Some w' -> framed w w'.
Proof.
  unfold update_group.
  destruct (revalidate X w g) as [w1|] eqn:H1; [|discriminate].
  cbn [mbind option_bind].
  destruct (Be X fuel w1 g false) as [w2|] eqn:H2; [|discriminate].
  cbn [mbind option_bind]. intros H3.
  eapply framed_trans; [eapply revalidate_framed; exact H1|].
  eapply framed_trans; [eapply Be_framed; exact H2|].
  eapply rebuild_or_refresh_framed; exact H3.
Qed.

Lemma _updateRenderGroups_framed (fuel : nat) (w w' : world) (g : nat) :
  _updateRenderGroups X fuel w g = Some w' -> framed w w'.
Proof.
  revert w w' g. induction fuel as [|fuel IH]; intros w w' g; [discriminate|].
  cbn [_updateRenderGroups].
  destruct (update_group X fuel w g) as [w1|] eqn:H1; [|discriminate].
  cbn [mbind option_bind].
  destruct (groups w1 !! g) as [e|]; [|discriminate].
  cbn [mbind option_bind].
  apply update_group_framed in H1.
  destruct (_ && _).
  - intros H; injection H as <-. exact H1.
  - intros H. eapply framed_trans; [exact H1|].
    apply (foldl_framed (fun w c => _updateRenderGroups X fuel w c)) in H; [exact H|].
    intros b wa wb. apply IH.
Qed.

Lemma framed_log (w : world) (e : event) : framed w (log e w).
Proof. now apply framed_same. Qed.

Lemma _updateCachedRenderGroups_framed (fuel : nat) (w w' : world) (g : nat)
    (t : option nat) :
  _updateCachedRenderGroups X fuel w g t = Some w' -> framed w w'.
Proof.
  revert w w' g t. induction fuel as [|fuel IH]; intros w w' g t; [discriminate|].
  cbn [_updateCachedRenderGroups].
  destruct (groups w !! g) as [e|] eqn:He; [|discriminate].
  cbn [mbind option_bind]. cbv zeta.
  set (e1 := RenderGroup.set_parentCacheAsTextureRenderGroup t e).
  set (w1 := set_group g e1 w).
  assert (F1 : framed w w1) by (eapply framed_set_group; [exact He|reflexivity]).
  destruct (RenderGroup.isCachedAsTexture e1 && negb (RenderGroup.textureNeedsUpdate e1)).
  { intros H; injection H as <-. exact F1. }
  destruct (foldl _ (Some w1) _) as [w2|] eqn:Hf; [|discriminate].
  cbn [mbind option_bind].
  apply (foldl_framed (fun w c => _updateCachedRenderGroups X fuel w c _)) in Hf;
    [|intros b wa wb; apply IH].
  assert (F2 : framed w w2) by (eapply framed_trans; eassumption).
  change (groups (log (invalidateMatrices g) w2)) with (groups w2).
  destruct (groups w2 !! g) as [e2|] eqn:He2; [|discriminate].
  cbn [mbind option_bind].
  assert (F3 : framed w (log (invalidateMatrices g) w2))
    by (eapply framed_trans; [exact F2|apply framed_log]).
  destruct (RenderGroup.isCachedAsTexture e2).
  - destruct (RenderGroup.textureNeedsUpdate e2); [|intros H; injection H as <-; exact F3].
    set (wt := match RenderGroup.texture e2 with
               | Some tx => log (returnTexture tx) (log (invalidateMatrices g) w2)
               | None => log (invalidateMatrices g) w2
               end).
    assert (Ft : framed w wt).
    { eapply framed_trans; [exact F3|]. unfold wt.
      destruct (RenderGroup.texture e2); [apply framed_log|apply framed_refl]. }
    assert (Hgt : groups wt = groups w2) by (unfold wt; now destruct (RenderGroup.texture e2)).
    set (w3 := set_group g (RenderGroup.set_texture (Some (getOptimalTexture X g)) e2) wt).
    assert (F4 : framed w w3).
    { eapply framed_trans; [exact Ft|].
      eapply framed_set_group; [rewrite Hgt; exact He2|reflexivity]. }
    change (RenderGroup.renderGroupParent
              (RenderGroup.set_texture (Some (getOptimalTexture X g)) e2))
      with (RenderGroup.renderGroupParent e2).
    destruct (RenderGroup.renderGroupParent e2) as [p|];
      [|intros H; injection H as <-; exact F4].
    destruct (bool_decide _); [intros H; injection H as <-; exact F4|].
    destruct (groups w3 !! p) as [pg|] eqn:Hp; [|discriminate].
    cbn [mbind option_bind]. intros H; injection H as <-.
    eapply framed_trans; [exact F4|]. eapply framed_set_group; [exact Hp|reflexivity].
  - destruct (RenderGroup.texture e2) as [tx|]; intros H; injection H as <-; [|exact F3].
    eapply framed_trans; [exact F3|].
    eapply framed_trans; [apply (framed_log _ (returnTexture tx))|].
    eapply framed_set_group; [exact He2|reflexivity].
Qed.

(** What [render] saves of the container [e]: its parent, its render
    group, and the parent and the local transform of that group. *)
Definition saved (e : nat) (w : world)
    : option (option nat * nat * option nat * Matrix.t) :=
  match nodes w !! e with
  | Some nd =>
      match Container.renderGroup nd with
      | Some g =>
          match groups w !! g with
          | Some grp =>
              Some (Container.parent nd, g, RenderGroup.renderGroupParent grp,
                    RenderGroup.localTransform grp)
          | None => None
          end
      | None => None
      end
  | None => None
  end.

(** The render of a container puts back what it saved, with or without
    a transform. *)
Lemma render_restores (fuel : nat) (w w' : world) (e : nat) (t : option Matrix.t) :
  render X fuel w e t = Some w' -> saved e w' = saved e w /\ is_Some (saved e w).
Proof.
  unfold render.
  destruct (nodes w !! e) as [nd|] eqn:Hnd; [|discriminate]. cbn [mbind option_bind].
  destruct (Container.renderGroup nd) as [g|] eqn:Hrg; [|discriminate].
  cbn [mbind option_bind].
  destruct (groups w !! g) as [grp|] eqn:Hgrp; [|discriminate].
  cbn [mbind option_bind]. cbv zeta.
  set (grp0 := RenderGroup.set_renderGroupParent None grp).
  set (w0 := set_group g grp0 (set_node e (Container.set_parent None nd) w)).
  set (w1 := match t with
             | Some t0 =>
                 set_group g (RenderGroup.set_localTransform t0 grp0)
                   (set_It (RenderGroup.localTransform grp0) w0)
             | None => w0
             end).
  assert (Hn1 : shape <$> nodes w1 !! e
                = Some (shape (Container.set_parent None nd))).
  { unfold w1. destruct t; cbn [nodes set_group set_groups set_It set_node set_nodes w0];
      now rewrite lookup_insert_eq. }
  assert (Hsaved : saved e w = Some (Container.parent nd, g,
                                     RenderGroup.renderGroupParent grp,
                                     RenderGroup.localTransform grp)).
  { unfold saved. now rewrite Hnd, Hrg, Hgrp. }
  destruct (_updateCachedRenderGroups X fuel w1 g None) as [w2|] eqn:H2; [|discriminate].
  cbn [mbind option_bind].
  destruct (_updateRenderGroups X fuel w2 g) as [w3|] eqn:H3; [|discriminate].
  cbn [mbind option_bind].
  assert (F : framed w1 w3).
  { eapply framed_trans; [eapply _updateCachedRenderGroups_framed; exact H2|].
    eapply _updateRenderGroups_framed; exact H3. }
  destruct F as (Fs & Fl & Fi).
  set (w4 := if uniformBatch X
             then log uniformBatchRenderEnd
                    (log (executeInstructions g) (log (globalUniformsStart g) w3))
             else log (executeInstructions g) (log (globalUniformsStart g) w3)).
  assert (Hn4 : nodes w4 = nodes w3) by (unfold w4; now destruct (uniformBatch X)).
  assert (Hg4 : groups w4 = groups w3) by (unfold w4; now destruct (uniformBatch X)).
  assert (Hi4 : It w4 = It w3) by (unfold w4; now destruct (uniformBatch X)).
  rewrite Hn4.
  specialize (Fs e). rewrite Hn1 in Fs.
  destruct (nodes w3 !! e) as [nd3|] eqn:Hnd3; [|discriminate].
  cbn [mbind option_bind]. cbn [fmap option_fmap option_map] in Fs. apply (inj Some) in Fs.
  apply shape_eq in Fs as (_ & _ & Hrg3 & _).
  change (Container.renderGroup (Container.set_parent None nd))
    with (Container.renderGroup nd) in Hrg3.
  rewrite Hrg3, Hrg. cbn [mbind option_bind]. rewrite Hg4.
  specialize (Fl g).
  destruct (groups w3 !! g) as [grp3|] eqn:Hgrp3; [|discriminate].
  cbn [mbind option_bind]. intros H; injection H as <-.
  split; [|rewrite Hsaved; eauto].
  rewrite Hsaved. unfold saved.
  cbn [nodes groups set_group set_groups set_node set_nodes].
  rewrite !lookup_insert_eq.
  change (Container.renderGroup (Container.set_parent (Container.parent nd) nd3))
    with (Container.renderGroup nd3).
  rewrite Hrg3, Hrg, !lookup_insert_eq.
  cbn [Container.parent Container.set_parent RenderGroup.renderGroupParent
       RenderGroup.set_renderGroupParent].
  f_equal. f_equal.
  rewrite Hi4, Fi. unfold w1 in Fl |- *.
  destruct t as [t0|].
  - cbn [It set_group set_groups set_It]. reflexivity.
  - change (RenderGroup.localTransform grp3 = RenderGroup.localTransform grp).
    unfold w0 in Fl. cbn [groups set_group set_groups set_node set_nodes] in Fl.
    rewrite lookup_insert_eq in Fl. cbn [fmap option_fmap option_map] in Fl.
    apply (inj Some) in Fl. exact Fl.
Qed.

End RenderFacts.

(** ** Rendering a container returns *)

Section RenderReturns.
Import Number Scene.
Variable X : externals.

(** The queue of the renderables to update of the group [h] holds, below
    its index, renderables of the store. *)
Definition queue_ok (w : world) (h : nat) : Prop :=
  forall grp d,
    groups w !! h = Some grp ->
    (d < UpdateList.index (RenderGroup.childrenRenderablesToUpdate grp))%nat ->
    exists a nd,
      UpdateList.list (RenderGroup.childrenRenderablesToUpdate grp) !! d = Some (Some a)
      /\ nodes w !! a = Some nd /\ is_Some (Container.renderPipeId nd).

(** A store the render-group system can work on without a failing
    property read: the handles of the containers name containers, every
    render group has its root and its parent group and valid update
    lists, and the batchers of every instruction set include the default
    one. *)
Definition renderable_store (w : world) : Prop :=
  closed w
  /\ (forall h, is_Some (groups w !! h) -> ready w h /\ queue_ok w h)
  /\ BatcherPipe.well_formed (batch w).

(** The batcher of every sprite that the traversal can hand to the
    batcher pipe is the default one or has a registered class. *)
Definition sprites_batchable (avail : gmap string nat) : Prop :=
  forall nd root n,
    addSprite n ∈ collect X nd root ->
    InstructionSet.batcherName (_getGpuSprite X n) = "default"
    \/ is_Some (avail !! InstructionSet.batcherName (_getGpuSprite X n)).

(** What a step keeps of a container: its children, its render group,
    the group it belongs to and its pipe; its parent is the one it had
    or another container of the store. *)
Definition akin (w : world) (nd nd' : Container.t) : Prop :=
  Container.children nd' = Container.children nd
  /\ Container.renderGroup nd' = Container.renderGroup nd
  /\ Container.parentRenderGroup nd' = Container.parentRenderGroup nd
  /\ Container.renderPipeId nd' = Container.renderPipeId nd
  /\ (Container.parent nd' = Container.parent nd
      \/ forall p, Container.parent nd' = Some p -> is_Some (nodes w !! p)).

(** What a step keeps of a render group: its root and its child groups;
    its parent group is the one it had or another group of the store;
    a bucket of containers to update is one it had or is empty, and so
    is the queue of the renderables to update. *)
Definition gkin (w : world) (n n' : RenderGroup.t) : Prop :=
  RenderGroup.root n' = RenderGroup.root n
  /\ RenderGroup.renderGroupChildren n' = RenderGroup.renderGroupChildren n
  /\ (RenderGroup.renderGroupParent n' = RenderGroup.renderGroupParent n
      \/ forall rp, RenderGroup.renderGroupParent n' = Some rp -> is_Some (groups w !! rp))
  /\ (forall b, b ∈ RenderGroup.childrenToUpdate n' ->
        UpdateList.index b.2 = 0%nat \/ b ∈ RenderGroup.childrenToUpdate n)
  /\ (RenderGroup.childrenRenderablesToUpdate n' = RenderGroup.childrenRenderablesToUpdate n
      \/ UpdateList.index (RenderGroup.childrenRenderablesToUpdate n') = 0%nat).

(** What a step of a frame keeps of the store: the containers and the
    render groups are the same ones, each akin to what it was; the
    batcher store keeps its shape and the registered batcher classes;
    the step only adds to the calls. *)
Definition steady (w w' : world) : Prop :=
  (forall n, is_Some (nodes w' !! n) <-> is_Some (nodes w !! n))
  /\ (forall n nd nd', nodes w !! n = Some nd -> nodes w' !! n = Some nd' -> akin w nd nd')
  /\ (forall h, is_Some (groups w' !! h) <-> is_Some (groups w !! h))
  /\ (forall h n n', groups w !! h = Some n -> groups w' !! h = Some n' -> gkin w n n')
  /\ (BatcherPipe.well_formed (batch w) -> BatcherPipe.well_formed (batch w'))
  /\ BatcherPipe._availableBatchers (batch w') = BatcherPipe._availableBatchers (batch w)
  /\ exists evs, events w' = events w ++ evs.

Lemma akin_refl (w : world) (nd : Container.t) : akin w nd nd.
Proof. repeat split. now left. Qed.

Lemma gkin_refl (w : world) (n : RenderGroup.t) : gkin w n n.
Proof. split; [reflexivity|]. split; [reflexivity|]. split; [now left|]. split; auto. Qed.

Lemma steady_refl (w : world) : steady w w.
Proof.
  split; [reflexivity|]. split.
  { intros n nd nd' H1 H2. rewrite H1 in H2. injection H2 as <-. apply akin_refl. }
  split; [reflexivity|]. split.
  { intros h n n' H1 H2. rewrite H1 in H2. injection H2 as <-. apply gkin_refl. }
  split; [auto|]. split; [reflexivity|]. exists []. now rewrite app_nil_r.
Qed.

Lemma steady_trans (w1 w2 w3 : world) : steady w1 w2 -> steady w2 w3 -> steady w1 w3.
Proof.
  intros (A1 & B1 & C1 & D1 & E1 & F1 & e1 & H1)
         (A2 & B2 & C2 & D2 & E2 & F2 & e2 & H2).
  split; [intros n; now rewrite A2, A1|]. split.
  { intros n nd nd'' Hn Hn''.
    destruct (proj2 (A1 n) (ex_intro _ nd Hn)) as [nd' Hn'].
    destruct (B1 n nd nd' Hn Hn') as (a1 & a2 & a3 & a4 & a5).
    destruct (B2 n nd' nd'' Hn' Hn'') as (b1 & b2 & b3 & b4 & b5).
    split; [congruence|]. split; [congruence|]. split; [congruence|].
    split; [congruence|].
    destruct b5 as [b5|b5].
    - destruct a5 as [a5|a5]; [left; congruence|].
      right. intros p Hp. apply a5. congruence.
    - right. intros p Hp. apply A1, b5, Hp. }
  split; [intros h; now rewrite C2, C1|]. split.
  { intros h n n'' Hn Hn''.
    destruct (proj2 (C1 h) (ex_intro _ n Hn)) as [n' Hn'].
    destruct (D1 h n n' Hn Hn') as (a1 & a2 & a3 & a4 & a5).
    destruct (D2 h n' n'' Hn' Hn'') as (b1 & b2 & b3 & b4 & b5).
    split; [congruence|]. split; [congruence|]. split.
    { destruct b3 as [b3|b3].
      - destruct a3 as [a3|a3]; [left; congruence|].
        right. intros p Hp. apply a3. congruence.
      - right. intros p Hp. apply C1, b3, Hp. }
    split.
    { intros b Hb. destruct (b4 b Hb) as [?|Hb']; [now left|]. now apply a4. }
    destruct b5 as [b5|b5]; [|now right].
    destruct a5 as [a5|a5]; [left; congruence|]. right. now rewrite b5. }
  split; [auto|]. split; [congruence|].
  exists (e1 ++ e2). rewrite H2, H1. now rewrite app_assoc.
Qed.

Lemma steady_same_children (w w' : world) : steady w w' -> same_children w w'.
Proof.
  intros (_ & _ & C & D & _) h grp Hh.
  destruct (proj2 (C h) (ex_intro _ grp Hh)) as [grp' Hh'].
  exists grp'. split; [exact Hh'|]. now destruct (D h grp grp' Hh Hh') as (_ & ? & _).
Qed.

Lemma steady_closed (w w' : world) : steady w w' -> closed w -> closed w'.
Proof.
  intros (A & B & C & _) Hc n nd' Hn'.
  destruct (proj1 (A n) (ex_intro _ nd' Hn')) as [nd Hn].
  destruct (B n nd nd' Hn Hn') as (E1 & E2 & E3 & E4 & E5).
  destruct (Hc n nd Hn) as (H1 & H2 & H3).
  split; [|split].
  - intros c Hcin. rewrite E1 in Hcin. apply A. auto.
  - intros p Hp. apply A. destruct E5 as [E5|E5]; [|auto]. apply H2. congruence.
  - intros Hpipe. rewrite E4 in Hpipe. destruct (H3 Hpipe) as (l & Hl & Hgl).
    exists l. split; [congruence|]. now apply C.
Qed.

Lemma steady_ready (w w' : world) (h : nat) : steady w w' -> ready w h -> ready w' h.
Proof.
  intros (A & B & C & D & _) (n & e & Hn & He & Hrp & Hbk).
  destruct (proj2 (C h) (ex_intro _ n Hn)) as [n' Hn'].
  destruct (D h n n' Hn Hn') as (K1 & K2 & K3 & K4 & K5).
  destruct (proj2 (A (RenderGroup.root n)) (ex_intro _ e He)) as [e' He'].
  exists n', e'. split; [exact Hn'|]. split; [now rewrite K1|]. split.
  - intros rp Hp. apply C. destruct K3 as [K3|K3]; [|auto]. apply Hrp. congruence.
  - intros k b d Hb Hd.
    destruct (K4 b) as [K|K]; [eapply list_elem_of_lookup_2; exact Hb|lia|].
    apply list_elem_of_lookup_1 in K as [k0 Hk0].
    destruct (Hbk k0 b d Hk0 Hd) as (a & Ha & Hna). exists a. split; [exact Ha|].
    now apply A.
Qed.

Lemma steady_queue (w w' : world) (h : nat) : steady w w' -> queue_ok w h -> queue_ok w' h.
Proof.
  intros (A & B & C & D & _) Hq n' d Hn' Hd.
  destruct (proj1 (C h) (ex_intro _ n' Hn')) as [n Hn].
  destruct (D h n n' Hn Hn') as (_ & _ & _ & _ & K5).
  destruct K5 as [K5|K5]; [|lia]. rewrite K5 in Hd |- *.
  destruct (Hq n d Hn Hd) as (a & nd & Ha & Hnd & Hp).
  destruct (proj2 (A a) (ex_intro _ nd Hnd)) as [nd' Hnd'].
  exists a, nd'. split; [exact Ha|]. split; [exact Hnd'|].
  destruct (B a nd nd' Hnd Hnd') as (_ & _ & _ & E4 & _). now rewrite E4.
Qed.

Lemma steady_store (w w' : world) :
  steady w w' -> renderable_store w -> renderable_store w'.
Proof.
  intros Hs (Hc & Hg & Hb). split; [eapply steady_closed; eassumption|].
  split.
  - intros h Hh. pose proof Hs as (_ & _ & C & _). apply C in Hh.
    destruct (Hg h Hh). split; [eapply steady_ready|eapply steady_queue]; eassumption.
  - destruct Hs as (_ & _ & _ & _ & F & _). auto.
Qed.

Lemma steady_nested (d : nat) (w w' : world) (g : nat) :
  steady w w' -> nested_within d w g -> nested_within d w' g.
Proof. intros Hs. apply nested_within_same_children, steady_same_children, Hs. Qed.

Lemma steady_size (w w' : world) : steady w w' -> size (nodes w') = size (nodes w).
Proof.
  intros (A & _). rewrite <- !size_dom. f_equal. apply set_eq. intros n.
  rewrite !elem_of_dom. apply A.
Qed.

Lemma steady_batchable (w w' : world) :
  steady w w' ->
  sprites_batchable (BatcherPipe._availableBatchers (batch w)) ->
  sprites_batchable (BatcherPipe._availableBatchers (batch w')).
Proof. intros (_ & _ & _ & _ & _ & F & _). now rewrite F. Qed.

(** Further calls leave the store as it is. *)
Lemma steady_logs (evs : list event) (w : world) : steady w (logs evs w).
Proof.
  split; [reflexivity|]. split.
  { intros n nd nd' H1 H2. change (nodes (logs evs w)) with (nodes w) in H2.
    rewrite H1 in H2. injection H2 as <-. apply akin_refl. }
  split; [reflexivity|]. split.
  { intros h n n' H1 H2. change (groups (logs evs w)) with (groups w) in H2.
    rewrite H1 in H2. injection H2 as <-. apply gkin_refl. }
  split; [auto|]. split; [reflexivity|]. exists evs. reflexivity.
Qed.

(** A step that changes the containers and the render group [g] only,
    each into one akin to it, is steady. *)
Lemma steady_set_group (w w' : world) (g : nat) (n n' : RenderGroup.t) :
  groups w !! g = Some n ->
  gkin w n n' ->
  (forall m, is_Some (nodes w' !! m) <-> is_Some (nodes w !! m)) ->
  (forall m nd nd', nodes w !! m = Some nd -> nodes w' !! m = Some nd' -> akin w nd nd') ->
  groups w' = <[g := n']> (groups w) ->
  (BatcherPipe.well_formed (batch w) -> BatcherPipe.well_formed (batch w')) ->
  BatcherPipe._availableBatchers (batch w') = BatcherPipe._availableBatchers (batch w) ->
  (exists evs, events w' = events w ++ evs) ->
  steady w w'.
Proof.
  intros Hn Hk HA HB Hg Hb Hav Hev.
  split; [exact HA|]. split; [exact HB|]. split.
  { intros h. rewrite Hg. destruct (decide (g = h)) as [<-|Hne].
    - rewrite lookup_insert_eq, Hn. split; eauto.
    - now rewrite lookup_insert_ne. }
  split.
  { intros h m m' Hm. rewrite Hg. destruct (decide (g = h)) as [<-|Hne].
    - rewrite lookup_insert_eq. intros H; injection H as <-.
      rewrite Hn in Hm. injection Hm as <-. exact Hk.
    - rewrite lookup_insert_ne by assumption. intros H. rewrite Hm in H.
      injection H as <-. apply gkin_refl. }
  split; [exact Hb|]. split; [exact Hav|exact Hev].
Qed.

(** The same for a world that differs in the group [g] alone. *)
Lemma steady_group_only (w : world) (g : nat) (n n' : RenderGroup.t) :
  groups w !! g = Some n -> gkin w n n' -> steady w (set_group g n' w).
Proof.
  intros Hn Hk. apply (steady_set_group w _ g n n' Hn Hk); try reflexivity; auto.
  - intros m nd nd' H1 H2. change (nodes (set_group g n' w)) with (nodes w) in H2.
    rewrite H1 in H2. injection H2 as <-. apply akin_refl.
  - exists []. cbn. now rewrite app_nil_r.
Qed.

(** A container that gets another parent of the store. *)
Lemma steady_set_parent (w : world) (e : nat) (nd : Container.t) (p : option nat) :
  nodes w !! e = Some nd ->
  (forall q, p = Some q -> is_Some (nodes w !! q)) ->
  steady w (set_node e (Container.set_parent p nd) w).
Proof.
  intros Hnd Hp.
  split.
  { intros n. cbn. destruct (decide (e = n)) as [<-|Hne].
    - rewrite lookup_insert_eq, Hnd. split; eauto.
    - now rewrite lookup_insert_ne. }
  split.
  { intros n m m' Hm. cbn. destruct (decide (e = n)) as [<-|Hne].
    - rewrite lookup_insert_eq. intros H; injection H as <-.
      rewrite Hnd in Hm. injection Hm as <-. repeat split. right. exact Hp.
    - rewrite lookup_insert_ne by assumption. intros H. rewrite Hm in H.
      injection H as <-. apply akin_refl. }
  split; [reflexivity|]. split.
  { intros h n n' H1 H2. change (groups (set_node e _ w)) with (groups w) in H2.
    rewrite H1 in H2. injection H2 as <-. apply gkin_refl. }
  split; [auto|]. split; [reflexivity|]. exists []. cbn. now rewrite app_nil_r.
Qed.

(** *** The validation of the queue returns *)

Lemma st_loop_returns (t : list (option nat)) (ix : list nat) (w : world) :
  (forall i, i ∈ ix ->
     exists a nd, t !! i = Some (Some a) /\ nodes w !! a = Some nd
                  /\ is_Some (Container.renderPipeId nd)) ->
  exists w1 s, st_loop X w t ix = Some (w1, s).
Proof.
  revert w. induction ix as [|i ix IH]; intros w H; cbn [st_loop]; [eauto|].
  destruct (H i) as (a & nd & Ha & Hnd & [id Hid]); [now left|].
  rewrite Ha. cbn [mjoin option_join mbind option_bind].
  unfold validate. rewrite Hnd. cbn [mbind option_bind]. rewrite Hid.
  cbn [mbind option_bind].
  match goal with |- context [match ?c with true => _ | false => _ end] =>
    destruct c end; [eauto|].
  apply IH. intros j Hj. apply H. now right.
Qed.

(** *** A rebuild returns *)

(** The batcher pipe while the set [u] is built: the batchers of the
    set include the active one and the default one, each under its own
    name; the batchers of the other sets are those of [store]. *)
Definition working (avail : gmap string nat)
    (store : gmap nat (gmap string Batcher.batcher)) (u : nat)
    (b : BatcherPipe.pipe) : Prop :=
  BatcherPipe._availableBatchers b = avail
  /\ BatcherPipe._activeBatches b = Some u
  /\ (forall u', u' <> u -> BatcherPipe._batchersByInstructionSet b !! u' = store !! u')
  /\ exists m k,
       BatcherPipe._batchersByInstructionSet b !! u = Some m
       /\ BatcherPipe._activeBatch b = Some k
       /\ is_Some (m !! k) /\ is_Some (m !! "default")
       /\ forall k' x, m !! k' = Some x -> Batcher.name x = k'.

Lemma buildStart_working (p : BatcherPipe.pipe) (s : InstructionSet.t) :
  BatcherPipe.well_formed p ->
  working (BatcherPipe._availableBatchers p) (BatcherPipe._batchersByInstructionSet p)
    (InstructionSet.uid s) (BatcherPipe.buildStart p s).
Proof.
  intros Hwf. unfold BatcherPipe.buildStart.
  set (t0 := match BatcherPipe._batchersByInstructionSet p !! InstructionSet.uid s with
             | Some t0 => t0
             | None => {[ "default" :=
                            Batcher.new "default" (BatcherPipe.maxBatchableTextures p) ]}
             end).
  assert (Ht0 : is_Some (t0 !! "default")
                /\ forall k b, t0 !! k = Some b -> Batcher.name b = k).
  { subst t0.
    destruct (BatcherPipe._batchersByInstructionSet p !! InstructionSet.uid s) as [m|] eqn:Hm.
    - exact (Hwf _ _ Hm).
    - split; [rewrite lookup_singleton_eq; eauto|].
      intros k b Hl. apply lookup_singleton_Some in Hl as [<- <-]. reflexivity. }
  destruct Ht0 as ([d Hd] & Hnames).
  split; [reflexivity|]. split; [reflexivity|]. split.
  { intros u' Hne. simpl. now rewrite lookup_insert_ne. }
  exists (Batcher.begin <$> t0), "default". simpl. rewrite lookup_insert_eq.
  split; [reflexivity|]. split; [reflexivity|].
  assert (Hsome : is_Some ((Batcher.begin <$> t0) !! "default"))
    by (rewrite lookup_fmap, Hd; simpl; eauto).
  split; [exact Hsome|]. split; [exact Hsome|].
  intros k x Hl. rewrite lookup_fmap in Hl.
  destruct (t0 !! k) as [b0|] eqn:Hb0; [|discriminate].
  simpl in Hl. injection Hl as <-. simpl. now apply Hnames.
Qed.

Lemma working_well_formed (p b : BatcherPipe.pipe) (u : nat) :
  BatcherPipe.well_formed p ->
  working (BatcherPipe._availableBatchers p) (BatcherPipe._batchersByInstructionSet p) u b ->
  BatcherPipe.well_formed b
  /\ BatcherPipe._availableBatchers b = BatcherPipe._availableBatchers p.
Proof.
  intros Hwf (Hav & _ & Hother & m & k & Hm & _ & _ & Hd & Hnames).
  split; [|exact Hav]. intros u' m' Hm'.
  destruct (decide (u' = u)) as [->|Hne].
  - rewrite Hm in Hm'. injection Hm' as <-. split; assumption.
  - rewrite (Hother _ Hne) in Hm'. exact (Hwf _ _ Hm').
Qed.

(** Writing a batcher under its name, and making it the active one. *)
Lemma store_working (avail : gmap string nat)
    (store : gmap nat (gmap string Batcher.batcher)) (u : nat)
    (b : BatcherPipe.pipe) (k : string) (x : Batcher.batcher) :
  working avail store u b ->
  Batcher.name x = k ->
  working avail store u
    (BatcherPipe.store_batcher
       {| BatcherPipe._availableBatchers := BatcherPipe._availableBatchers b;
          BatcherPipe.maxBatchableTextures := BatcherPipe.maxBatchableTextures b;
          BatcherPipe._batchersByInstructionSet := BatcherPipe._batchersByInstructionSet b;
          BatcherPipe._activeBatches := BatcherPipe._activeBatches b;
          BatcherPipe._activeBatch := Some k |} k x).
Proof.
  intros (Hav & Hu & Hother & m & k0 & Hm & Hk0 & Hin & Hd & Hnames) Hx.
  unfold BatcherPipe.store_batcher, BatcherPipe.activeBatches. cbn.
  rewrite Hu, Hm. unfold working, BatcherPipe.set_store. cbn.
  split; [exact Hav|]. split; [reflexivity|]. split.
  { intros u' Hne. rewrite lookup_insert_ne by congruence. now apply Hother. }
  exists (<[k := x]> m), k. rewrite !lookup_insert_eq.
  split; [reflexivity|]. split; [reflexivity|]. split; [eauto|]. split.
  { destruct (decide (k = "default")) as [->|Hne];
      [rewrite lookup_insert_eq; eauto|now rewrite lookup_insert_ne]. }
  intros k' y. destruct (decide (k = k')) as [<-|Hne].
  - rewrite lookup_insert_eq. intros H; injection H as <-. exact Hx.
  - rewrite lookup_insert_ne by assumption. apply Hnames.
Qed.

Lemma with_active_same (b : BatcherPipe.pipe) (k : string) :
  BatcherPipe._activeBatch b = Some k ->
  {| BatcherPipe._availableBatchers := BatcherPipe._availableBatchers b;
     BatcherPipe.maxBatchableTextures := BatcherPipe.maxBatchableTextures b;
     BatcherPipe._batchersByInstructionSet := BatcherPipe._batchersByInstructionSet b;
     BatcherPipe._activeBatches := BatcherPipe._activeBatches b;
     BatcherPipe._activeBatch := Some k |} = b.
Proof. destruct b; simpl; intros ->; reflexivity. Qed.

Lemma break_working (avail : gmap string nat)
    (store : gmap nat (gmap string Batcher.batcher)) (u : nat)
    (b : BatcherPipe.pipe) (s : InstructionSet.t) :
  working avail store u b ->
  exists b' s', BatcherPipe.break b s = Some (b', s') /\ working avail store u b'
                /\ BatcherPipe._activeBatch b' = BatcherPipe._activeBatch b.
Proof.
  intros Hw. pose proof Hw as (Hav & Hu & Hother & m & k & Hm & Hk & [x Hx] & Hd & Hnames).
  unfold BatcherPipe.break, BatcherPipe.activeBatch, BatcherPipe.activeBatches.
  rewrite Hu, Hm, Hk, Hx. unfold Batcher.break.
  eexists _, _. split; [reflexivity|].
  split.
  - rewrite <- (with_active_same b k Hk) at 1. apply store_working; [exact Hw|].
    simpl. now apply Hnames.
  - unfold BatcherPipe.store_batcher, BatcherPipe.activeBatches. rewrite Hu, Hm.
    cbn. congruence.
Qed.

Lemma addToBatch_working (avail : gmap string nat)
    (store : gmap nat (gmap string Batcher.batcher)) (u : nat)
    (b : BatcherPipe.pipe) (e : InstructionSet.batchable) (s : InstructionSet.t) :
  working avail store u b ->
  InstructionSet.batcherName e = "default" \/ is_Some (avail !! InstructionSet.batcherName e) ->
  exists b' s', BatcherPipe.addToBatch b e s = Some (b', s') /\ working avail store u b'.
Proof.
  intros Hw Hknown.
  pose proof Hw as (Hav & Hu & Hother & m & k & Hm & Hk & [x Hx] & Hd & Hnames).
  unfold BatcherPipe.addToBatch.
  assert (Hact : BatcherPipe.activeBatch b = Some x).
  { unfold BatcherPipe.activeBatch, BatcherPipe.activeBatches. now rewrite Hu, Hm, Hk. }
  rewrite Hact.
  destruct (negb (String.eqb (Batcher.name x) (InstructionSet.batcherName e))) eqn:Hneq.
  - destruct (break_working avail store u b s Hw) as (b1 & s1 & Hbr & Hw1 & Hk1).
    rewrite Hbr.
    pose proof Hw1 as (Hav1 & Hu1 & Hother1 & m1 & k1 & Hm1 & Hk1' & Hin1 & Hd1 & Hnames1).
    assert (Hacts1 : BatcherPipe.activeBatches b1 = Some m1)
      by (unfold BatcherPipe.activeBatches; now rewrite Hu1, Hm1).
    rewrite Hacts1.
    destruct (m1 !! InstructionSet.batcherName e) as [r|] eqn:Hr.
    + eexists _, _. split; [reflexivity|].
      assert (Hnr : Batcher.name (Batcher.add r e) = InstructionSet.batcherName e)
        by (simpl; now apply Hnames1).
      exact (store_working avail store u b1 (InstructionSet.batcherName e)
               (Batcher.add r e) Hw1 Hnr).
    + destruct Hknown as [Hdef|[n Hn]].
      { rewrite Hdef in Hr. rewrite Hr in Hd1. destruct Hd1; discriminate. }
      assert (Hget : BatcherPipe.getBatcher b1 (InstructionSet.batcherName e)
                     = Some (Batcher.new (InstructionSet.batcherName e) n))
        by (unfold BatcherPipe.getBatcher; now rewrite Hav1, Hn).
      rewrite Hget. eexists _, _. split; [reflexivity|].
      assert (Hw2 : working avail store u
                (BatcherPipe.store_batcher b1 (InstructionSet.batcherName e)
                   (Batcher.begin (Batcher.new (InstructionSet.batcherName e) n)))).
      { rewrite <- (with_active_same b1 k1 Hk1') at 1.
        pose proof (store_working avail store u b1 k1) as Hs.
        destruct Hw1 as (A1 & A2 & A3 & _).
        unfold BatcherPipe.store_batcher, BatcherPipe.activeBatches. cbn.
        rewrite Hu1, Hm1. unfold working, BatcherPipe.set_store. cbn.
        split; [exact A1|]. split; [reflexivity|]. split.
        { intros u' Hne. rewrite lookup_insert_ne by congruence. now apply A3. }
        exists (<[InstructionSet.batcherName e :=
                    Batcher.begin (Batcher.new (InstructionSet.batcherName e) n)]> m1), k1.
        rewrite lookup_insert_eq. split; [reflexivity|]. split; [reflexivity|].
        assert (Hins : forall j, is_Some (m1 !! j) ->
                  is_Some (<[InstructionSet.batcherName e :=
                    Batcher.begin (Batcher.new (InstructionSet.batcherName e) n)]> m1 !! j)).
        { intros j Hj. destruct (decide (InstructionSet.batcherName e = j)) as [<-|Hne];
            [rewrite lookup_insert_eq; eauto|now rewrite lookup_insert_ne]. }
        split; [auto|]. split; [auto|].
        intros k' y. destruct (decide (InstructionSet.batcherName e = k')) as [<-|Hne].
        - rewrite lookup_insert_eq. intros H; injection H as <-. reflexivity.
        - rewrite lookup_insert_ne by assumption. apply Hnames1. }
      exact (store_working avail store u _ (InstructionSet.batcherName e)
               (Batcher.add (Batcher.begin (Batcher.new (InstructionSet.batcherName e) n)) e)
               Hw2 eq_refl).
  - rewrite Hk. eexists _, _. split; [reflexivity|].
    rewrite <- (with_active_same b k Hk) at 1. apply store_working; [exact Hw|].
    simpl. now apply Hnames.
Qed.

Lemma pipes_step_None (ops : list build_op) : foldl (pipes_step X) None ops = None.
Proof. induction ops; cbn [foldl]; auto. Qed.

Lemma pipes_return (avail : gmap string nat)
    (store : gmap nat (gmap string Batcher.batcher)) (u : nat)
    (ops : list build_op) (b : BatcherPipe.pipe) (c : ColorMaskPipe.pipe)
    (s : InstructionSet.t) :
  working avail store u b ->
  (forall n, addSprite n ∈ ops ->
     InstructionSet.batcherName (_getGpuSprite X n) = "default"
     \/ is_Some (avail !! InstructionSet.batcherName (_getGpuSprite X n))) ->
  exists b' c' s',
    foldl (pipes_step X) (Some (b, c, s)) ops = Some (b', c', s')
    /\ working avail store u b'.
Proof.
  revert b c s. induction ops as [|o ops IH]; intros b c s Hw Hknown; cbn [foldl].
  { eauto. }
  assert (Hrest : forall n, addSprite n ∈ ops ->
     InstructionSet.batcherName (_getGpuSprite X n) = "default"
     \/ is_Some (avail !! InstructionSet.batcherName (_getGpuSprite X n)))
    by (intros n Hn; apply Hknown; now right).
  unfold pipes_step at 2. destruct o as [n|n|mask|].
  - destruct (addToBatch_working avail store u b (_getGpuSprite X n) s Hw) as (b1 & s1 & -> & Hw1).
    { apply Hknown. now left. }
    now apply IH.
  - destruct (break_working avail store u b s Hw) as (b1 & s1 & -> & Hw1 & _).
    now apply IH.
  - unfold ColorMaskPipe.push.
    destruct (break_working avail store u b s Hw) as (b1 & s1 & -> & Hw1 & _).
    cbv zeta. destruct (ColorMaskPipe.differs _ _); now apply IH.
  - unfold ColorMaskPipe.pop.
    destruct (break_working avail store u b s Hw) as (b1 & s1 & -> & Hw1 & _).
    cbv zeta. destruct (ColorMaskPipe.differs _ _); now apply IH.
Qed.

Lemma rebuilt_returns (nd : gmap nat Container.t) (b : BatcherPipe.pipe)
    (c : ColorMaskPipe.pipe) (i : InstructionSet.t) (root : nat) :
  BatcherPipe.well_formed b ->
  sprites_batchable (BatcherPipe._availableBatchers b) ->
  exists b' c' s',
    rebuilt X nd b c i root = Some (b', c', s')
    /\ BatcherPipe.well_formed b'
    /\ BatcherPipe._availableBatchers b' = BatcherPipe._availableBatchers b.
Proof.
  intros Hwf Hknown. unfold rebuilt.
  pose proof (buildStart_working b (InstructionSet.reset i) Hwf) as Hw.
  destruct (pipes_return _ _ _ (collect X nd root) _ (ColorMaskPipe.buildStart c)
              (InstructionSet.reset i) Hw) as (b1 & c1 & s1 & Hf & Hw1).
  { intros n Hn. exact (Hknown nd root n Hn). }
  cbv zeta. rewrite Hf.
  destruct (break_working _ _ _ b1 s1 Hw1) as (b2 & s2 & Hbr & Hw2 & _).
  unfold BatcherPipe.buildEnd. rewrite Hbr.
  exists b2, c1, s2. split; [reflexivity|].
  exact (working_well_formed b b2 _ Hwf Hw2).
Qed.

Lemma _buildInstructions_returns (w : world) (g : nat) (n : RenderGroup.t) (r : Container.t) :
  groups w !! g = Some n ->
  nodes w !! RenderGroup.root n = Some r ->
  BatcherPipe.well_formed (batch w) ->
  sprites_batchable (BatcherPipe._availableBatchers (batch w)) ->
  exists b c s,
    _buildInstructions X w g
    = Some (set_group g (RenderGroup.set_instructionSet s n)
              (set_pipes b c (logs (build_events r n) w)))
    /\ BatcherPipe.well_formed b
    /\ BatcherPipe._availableBatchers b = BatcherPipe._availableBatchers (batch w).
Proof.
  intros Hn Hr Hwf Hknown.
  destruct (rebuilt_returns (nodes w) (batch w) (colorMask w)
              (RenderGroup.instructionSet n) (RenderGroup.root n) Hwf Hknown)
    as (b & c & s & Hre & Hwf' & Hav).
  destruct (_buildInstructions X w g) as [w1|] eqn:Hb.
  - destruct (_buildInstructions_spec X w w1 g n Hn Hb) as (r' & b' & c' & s' & Hr' & Hre' & ->).
    rewrite Hre in Hre'. injection Hre' as <- <- <-.
    rewrite Hr in Hr'. injection Hr' as <-.
    exists b, c, s. split; [reflexivity|]. split; assumption.
  - exfalso. revert Hb. unfold _buildInstructions. rewrite Hn.
    unfold mbind, option_bind; cbn beta iota. rewrite Hr.
    cbv zeta. rewrite run_build_ops_pure. unfold rebuilt in Hre.
    destruct (Container.sortableChildren r);
      (match goal with
       | |- context [foldl (pipes_step X) ?a ?l] =>
           change (foldl (pipes_step X) a l)
             with (foldl (pipes_step X)
                     (Some (BatcherPipe.buildStart (batch w)
                              (InstructionSet.reset (RenderGroup.instructionSet n)),
                            ColorMaskPipe.buildStart (colorMask w),
                            InstructionSet.reset (RenderGroup.instructionSet n)))
                     (collect X (nodes w) (RenderGroup.root n)))
       end;
       cbv zeta in Hre;
       destruct (foldl (pipes_step X) _ _) as [[[b0 c0] s0]|]; [|discriminate];
       cbn beta iota;
       change (batch (set_pipes b0 c0 _)) with b0;
       destruct (BatcherPipe.buildEnd b0 s0) as [[b1 s1]|]; [|discriminate];
       cbn beta iota;
       match goal with
       | |- context [groups ?x !! g] => change (groups x) with (groups w)
       end;
       rewrite Hn; discriminate).
Qed.

(** *** The update of one render group returns *)

Lemma closed_same (w w' : world) :
  nodes w' = nodes w ->
  (forall l, is_Some (groups w !! l) -> is_Some (groups w' !! l)) ->
  closed w -> closed w'.
Proof.
  intros Hn Hg Hc n nd Hnd. rewrite Hn in Hnd. destruct (Hc n nd Hnd) as (H1 & H2 & H3).
  rewrite Hn. split; [exact H1|]. split; [exact H2|].
  intros Hp. destruct (H3 Hp) as (l & Hl & Hgl). exists l. split; [exact Hl|auto].
Qed.

Lemma insert_keeps {A} (m : gmap nat A) (g l : nat) (x : A) :
  is_Some (m !! l) -> is_Some (<[g := x]> m !! l).
Proof.
  intros H. destruct (decide (g = l)) as [<-|Hne];
    [rewrite lookup_insert_eq; eauto|now rewrite lookup_insert_ne].
Qed.

Lemma Ut_group_links (n : RenderGroup.t) (e : Container.t) (r : option RenderGroup.t) :
  RenderGroup.renderGroupChildren (Ut_group X n e r) = RenderGroup.renderGroupChildren n.
Proof. destruct r; reflexivity. Qed.

(** The first half returns when the queue of the group is valid; it
    leaves the links and the buckets of the group alone, and the queue
    too unless the group is to be rebuilt. *)
Lemma revalidate_returns (w : world) (g : nat) (n : RenderGroup.t) :
  groups w !! g = Some n ->
  queue_ok w g ->
  exists evs n1,
    revalidate X w g = Some (set_group g n1 (logs evs w))
    /\ RenderGroup.root n1 = RenderGroup.root n
    /\ RenderGroup.renderGroupParent n1 = RenderGroup.renderGroupParent n
    /\ RenderGroup.renderGroupChildren n1 = RenderGroup.renderGroupChildren n
    /\ RenderGroup.childrenToUpdate n1 = RenderGroup.childrenToUpdate n
    /\ (RenderGroup.structureDidChange n1 = false ->
        RenderGroup.childrenRenderablesToUpdate n1
        = RenderGroup.childrenRenderablesToUpdate n).
Proof.
  intros Hn Hq. unfold revalidate. cbv zeta.
  change (groups (log (runOnRender g) w)) with (groups w). rewrite Hn.
  cbn [mbind option_bind].
  destruct (RenderGroup.structureDidChange n) eqn:Hs.
  - eexists [runOnRender g], _. split; [reflexivity|]. cbn.
    repeat split. intros H. congruence.
  - unfold st. change (groups (log (runOnRender g) w)) with (groups w). rewrite Hn.
    cbn [mbind option_bind].
    destruct (st_loop_returns
                (UpdateList.list (RenderGroup.childrenRenderablesToUpdate n))
                (seq 0 (UpdateList.index (RenderGroup.childrenRenderablesToUpdate n)))
                (log (runOnRender g) w)) as (w1 & s & Hl).
    { intros i Hi. apply elem_of_seq in Hi. apply (Hq n i Hn). lia. }
    rewrite Hl. cbn [mbind option_bind].
    apply st_loop_spec in Hl as (_ & vs & -> & _).
    change (groups (logs vs (log (runOnRender g) w))) with (groups w). rewrite Hn.
    cbn [mbind option_bind fmap option_fmap option_map fst].
    exists (runOnRender g :: vs), (RenderGroup.set_structureDidChange s n).
    split.
    { f_equal. apply world_eq; try reflexivity. cbn. now rewrite <- app_assoc. }
    repeat split.
Qed.

Lemma refresh_entry_None (g : nat) (t : list (option nat)) (ix : list nat) :
  foldl (refresh_entry g t) None ix = None.
Proof. induction ix; cbn [foldl]; auto. Qed.

Lemma refresh_entries_return (g : nat) (t : list (option nat)) (ix : list nat) (w : world) :
  (forall i, i ∈ ix -> exists a, t !! i = Some (Some a) /\ is_Some (nodes w !! a)) ->
  exists w1, foldl (refresh_entry g t) (Some w) ix = Some w1.
Proof.
  revert w. induction ix as [|i ix IH]; intros w H; cbn [foldl]; [eauto|].
  destruct (H i) as (a & Ha & [nd Hnd]); [now left|].
  unfold refresh_entry at 2. cbn [mbind option_bind]. rewrite Ha.
  cbn [mjoin option_join mbind option_bind]. rewrite Hnd. cbn [mbind option_bind].
  apply IH. intros j Hj. destruct (H j) as (b & Hb & Hnb); [now right|].
  exists b. split; [exact Hb|]. now destruct (Container.didViewUpdate nd).
Qed.

Lemma _updateRenderables_returns (w : world) (g : nat) (n : RenderGroup.t) :
  groups w !! g = Some n ->
  queue_ok w g ->
  exists w1, _updateRenderables w g = Some w1.
Proof.
  intros Hn Hq. unfold _updateRenderables. rewrite Hn. cbn [mbind option_bind].
  destruct (refresh_entries_return g
              (UpdateList.list (RenderGroup.childrenRenderablesToUpdate n))
              (seq 0 (UpdateList.index (RenderGroup.childrenRenderablesToUpdate n))) w)
    as (w1 & Hf).
  { intros i Hi. apply elem_of_seq in Hi.
    destruct (Hq n i Hn) as (a & nd & Ha & Hnd & _); [lia|]. eauto. }
  rewrite Hf. cbn [mbind option_bind].
  apply refresh_entries_spec in Hf as (us & -> & _).
  change (groups (logs (map (updateRenderable g) us) w)) with (groups w). rewrite Hn.
  cbn [mbind option_bind]. eauto.
Qed.

(** The second half returns; afterwards the queue of the group is
    empty. *)
Lemma rebuild_or_refresh_returns (w : world) (g : nat) (n : RenderGroup.t) :
  groups w !! g = Some n ->
  is_Some (nodes w !! RenderGroup.root n) ->
  (RenderGroup.structureDidChange n = false -> queue_ok w g) ->
  BatcherPipe.well_formed (batch w) ->
  sprites_batchable (BatcherPipe._availableBatchers (batch w)) ->
  exists w' n',
    rebuild_or_refresh X w g = Some w'
    /\ nodes w' = nodes w
    /\ groups w' = <[g := n']> (groups w)
    /\ RenderGroup.root n' = RenderGroup.root n
    /\ RenderGroup.renderGroupParent n' = RenderGroup.renderGroupParent n
    /\ RenderGroup.renderGroupChildren n' = RenderGroup.renderGroupChildren n
    /\ RenderGroup.childrenToUpdate n' = RenderGroup.childrenToUpdate n
    /\ UpdateList.index (RenderGroup.childrenRenderablesToUpdate n') = 0%nat
    /\ BatcherPipe.well_formed (batch w')
    /\ BatcherPipe._availableBatchers (batch w') = BatcherPipe._availableBatchers (batch w)
    /\ exists evs, events w' = events w ++ evs.
Proof.
  intros Hn [r Hr] Hq Hwf Hknown. unfold rebuild_or_refresh. rewrite Hn.
  cbn [mbind option_bind].
  destruct (RenderGroup.structureDidChange n) eqn:Hs.
  - set (n0 := RenderGroup.set_structureDidChange false n).
    destruct (_buildInstructions_returns (set_group g n0 w) g n0 r) as (b & c & s & Hb & Hwf' & Hav).
    { cbn. now rewrite lookup_insert_eq. }
    { exact Hr. }
    { exact Hwf. }
    { exact Hknown. }
    rewrite Hb. cbn [mbind option_bind].
    cbn [groups set_group set_groups]. rewrite lookup_insert_eq.
    cbn [mbind option_bind].
    eexists _, _. split; [reflexivity|]. split; [reflexivity|]. split.
    { cbn. now rewrite !insert_insert_eq. }
    do 5 (split; [reflexivity|]).
    split; [exact Hwf'|]. split; [exact Hav|].
    eexists. cbn. rewrite <- app_assoc. reflexivity.
  - destruct (_updateRenderables_returns w g n Hn (Hq eq_refl)) as (w1 & Hu).
    rewrite Hu. cbn [mbind option_bind].
    apply (_updateRenderables_spec w w1 g n Hn) in Hu as (us & _ & ->).
    cbn [groups set_group set_groups]. rewrite lookup_insert_eq.
    cbn [mbind option_bind].
    eexists _, _. split; [reflexivity|]. split; [reflexivity|]. split.
    { cbn. now rewrite !insert_insert_eq. }
    do 5 (split; [reflexivity|]).
    split; [exact Hwf|]. split; [reflexivity|].
    eexists. cbn. rewrite <- app_assoc. reflexivity.
Qed.

Lemma emptied_index (l : list (Z * UpdateList.t)) (b : Z * UpdateList.t) :
  b ∈ map emptied l -> UpdateList.index b.2 = 0%nat.
Proof. intros H. apply list_elem_of_fmap in H as (x & -> & _). reflexivity. Qed.

(** The update of a group returns on a store the system can work on,
    once the bound exceeds the number of containers, and is steady. *)
Lemma update_group_returns (fuel : nat) (w : world) (g : nat) :
  renderable_store w ->
  sprites_batchable (BatcherPipe._availableBatchers (batch w)) ->
  is_Some (groups w !! g) ->
  (size (nodes w) < fuel)%nat ->
  exists w', update_group X (S fuel) w g = Some w' /\ steady w w'.
Proof.
  intros (Hc & Hgs & Hwf) Hknown [n Hn] Hfuel.
  destruct (Hgs g (ex_intro _ n Hn)) as [Hready Hq].
  unfold update_group.
  destruct (revalidate_returns w g n Hn Hq)
    as (evs & n1 & Hrev & R1 & R2 & R3 & R4 & R5).
  rewrite Hrev. cbn [mbind option_bind].
  set (w1 := set_group g n1 (logs evs w)).
  assert (Hn1 : groups w1 !! g = Some n1) by (cbn; now rewrite lookup_insert_eq).
  assert (Hc1 : closed w1).
  { apply (closed_same w w1); [reflexivity| |exact Hc].
    intros l Hl. cbn. now apply insert_keeps. }
  assert (Hready1 : ready w1 g).
  { destruct Hready as (n0 & e & Hn0 & He & Hrp & Hbk).
    rewrite Hn in Hn0. injection Hn0 as <-.
    exists n1, e. split; [exact Hn1|]. split; [now rewrite R1|]. split.
    - intros rp Hp. rewrite R2 in Hp. cbn. apply insert_keeps, Hrp, Hp.
    - intros k b d Hb Hd. rewrite R4 in Hb. exact (Hbk k b d Hb Hd). }
  destruct (Be_returns X fuel w1 g Hc1 Hready1 Hfuel) as (w2 & HBe).
  rewrite HBe. cbn [mbind option_bind].
  apply Be_spec in HBe
    as (n1' & e & r & Hn1' & He & _ & Hpass & Hg2 & Hb2 & _ & _).
  rewrite Hn1 in Hn1'. injection Hn1' as <-.
  set (n2 := RenderGroup.set_childrenToUpdate
               (map emptied (RenderGroup.childrenToUpdate n1))
               (RenderGroup.set_updateTick (RenderGroup.updateTick n1 + 1)
                  (Ut_group X n1 e r))) in Hg2.
  destruct (Ut_group_fields X n1 e r) as (_ & _ & U3 & U4 & U5 & U6 & _).
  pose proof (Ut_group_links n1 e r) as U7.
  destruct Hpass as (pevs & Hev2 & _ & _ & _ & Hshape & _).
  assert (Hnode2 : forall m, is_Some (nodes w2 !! m) <-> is_Some (nodes w !! m)).
  { intros m. specialize (Hshape m). change (nodes w1) with (nodes w) in Hshape.
    destruct (nodes w2 !! m), (nodes w !! m); try discriminate; split; eauto;
      intros [? ?]; discriminate. }
  assert (Hakin2 : forall m nd nd', nodes w !! m = Some nd -> nodes w2 !! m = Some nd' ->
                                    akin w nd nd').
  { intros m nd nd' H1 H2. specialize (Hshape m). change (nodes w1) with (nodes w) in Hshape.
    rewrite H1, H2 in Hshape. cbn [fmap option_fmap option_map] in Hshape.
    apply (inj Some) in Hshape. apply shape_eq in Hshape as (E1 & E2 & E3 & E4 & E5).
    split; [exact E2|]. split; [exact E3|]. split; [exact E4|]. split; [exact E5|].
    now left. }
  assert (Hn2 : groups w2 !! g = Some n2) by (rewrite Hg2; now rewrite lookup_insert_eq).
  destruct (rebuild_or_refresh_returns w2 g n2 Hn2)
    as (w3 & n3 & Hre & N3 & G3 & S1 & S2 & S3 & S4 & S5 & Hwf3 & Hav3 & evs3 & Hev3).
  { apply Hnode2. destruct Hready as (n0 & e0 & Hn0 & He0 & _).
    rewrite Hn in Hn0. injection Hn0 as <-.
    change (RenderGroup.root n2) with (RenderGroup.root (Ut_group X n1 e r)).
    rewrite U3, R1. eauto. }
  { intros Hs. change (RenderGroup.structureDidChange n2)
      with (RenderGroup.structureDidChange (Ut_group X n1 e r)) in Hs.
    rewrite U5 in Hs. specialize (R5 Hs).
    intros grp d Hgrp Hd. rewrite Hn2 in Hgrp. injection Hgrp as <-.
    change (RenderGroup.childrenRenderablesToUpdate n2)
      with (RenderGroup.childrenRenderablesToUpdate (Ut_group X n1 e r)) in Hd |- *.
    rewrite U6, R5 in Hd |- *.
    destruct (Hq n d Hn Hd) as (a & nd & Ha & Hnd & Hp).
    destruct (proj2 (Hnode2 a) (ex_intro _ nd Hnd)) as [nd' Hnd'].
    exists a, nd'. split; [exact Ha|]. split; [exact Hnd'|].
    destruct (Hakin2 a nd nd' Hnd Hnd') as (_ & _ & _ & E4 & _). now rewrite E4. }
  { now rewrite Hb2. }
  { now rewrite Hb2. }
  exists w3. split; [exact Hre|].
  apply (steady_set_group w w3 g n n3 Hn).
  - split; [rewrite S1; change (RenderGroup.root n2)
                          with (RenderGroup.root (Ut_group X n1 e r)); now rewrite U3|].
    split; [rewrite S3; change (RenderGroup.renderGroupChildren n2)
                          with (RenderGroup.renderGroupChildren (Ut_group X n1 e r));
            now rewrite U7|].
    split; [left; rewrite S2; change (RenderGroup.renderGroupParent n2)
                          with (RenderGroup.renderGroupParent (Ut_group X n1 e r));
            now rewrite U4|].
    split; [|now right].
    intros b Hb. left. rewrite S4 in Hb. apply (emptied_index _ _ Hb).
  - intros m. rewrite N3. apply Hnode2.
  - intros m nd nd' H1 H2. rewrite N3 in H2. exact (Hakin2 m nd nd' H1 H2).
  - rewrite G3, Hg2. cbn. now rewrite !insert_insert_eq.
  - intros _. exact Hwf3.
  - now rewrite Hav3, Hb2.
  - exists (evs ++ pevs ++ evs3). rewrite Hev3, Hev2. cbn. now rewrite <- !app_assoc.
Qed.

(** *** The recursions over the render groups return *)

(** A store of [N] containers the system can work on. *)
Definition fit (N : nat) (w : world) : Prop :=
  renderable_store w
  /\ sprites_batchable (BatcherPipe._availableBatchers (batch w))
  /\ size (nodes w) = N.

Lemma steady_fit (N : nat) (w w' : world) : steady w w' -> fit N w -> fit N w'.
Proof.
  intros Hs (H1 & H2 & H3). split; [eapply steady_store; eassumption|].
  split; [eapply steady_batchable; eassumption|]. now rewrite (steady_size w w' Hs).
Qed.

Lemma steady_same_store (w w' : world) :
  nodes w' = nodes w -> groups w' = groups w -> batch w' = batch w ->
  (exists evs, events w' = events w ++ evs) ->
  steady w w'.
Proof.
  intros Hn Hg Hb He. split; [now rewrite Hn|]. split.
  { intros n nd nd' H1 H2. rewrite Hn, H1 in H2. injection H2 as <-. apply akin_refl. }
  split; [now rewrite Hg|]. split.
  { intros h n n' H1 H2. rewrite Hg, H1 in H2. injection H2 as <-. apply gkin_refl. }
  split; [now rewrite Hb|]. split; [now rewrite Hb|exact He].
Qed.

Lemma steady_log (e : event) (w : world) : steady w (log e w).
Proof. apply steady_same_store; try reflexivity. now exists [e]. Qed.

Lemma gkin_links (w : world) (n n' : RenderGroup.t) :
  RenderGroup.root n' = RenderGroup.root n ->
  RenderGroup.renderGroupChildren n' = RenderGroup.renderGroupChildren n ->
  (RenderGroup.renderGroupParent n' = RenderGroup.renderGroupParent n
   \/ forall rp, RenderGroup.renderGroupParent n' = Some rp -> is_Some (groups w !! rp)) ->
  RenderGroup.childrenToUpdate n' = RenderGroup.childrenToUpdate n ->
  RenderGroup.childrenRenderablesToUpdate n' = RenderGroup.childrenRenderablesToUpdate n ->
  gkin w n n'.
Proof.
  intros H1 H2 H3 H4 H5. split; [exact H1|]. split; [exact H2|]. split; [exact H3|].
  split; [|now left]. intros b Hb. right. now rewrite <- H4.
Qed.

(** A group that changes in a field the links and the lists do not
    include. *)
Lemma steady_field (w : world) (g : nat) (n n' : RenderGroup.t) :
  groups w !! g = Some n ->
  RenderGroup.root n' = RenderGroup.root n ->
  RenderGroup.renderGroupChildren n' = RenderGroup.renderGroupChildren n ->
  RenderGroup.renderGroupParent n' = RenderGroup.renderGroupParent n ->
  RenderGroup.childrenToUpdate n' = RenderGroup.childrenToUpdate n ->
  RenderGroup.childrenRenderablesToUpdate n' = RenderGroup.childrenRenderablesToUpdate n ->
  steady w (set_group g n' w).
Proof.
  intros Hn H1 H2 H3 H4 H5. apply (steady_group_only w g n n' Hn).
  apply gkin_links; auto.
Qed.

Lemma foldl_steady (N : nat) (f : world -> nat -> option world)
    (P : world -> nat -> Prop) (l : list nat) (w : world) :
  (forall w w' c, steady w w' -> P w c -> P w' c) ->
  (forall w c, fit N w -> P w c -> exists w', f w c = Some w' /\ steady w w') ->
  fit N w -> Forall (P w) l ->
  exists w', foldl (fun ow c => w ← ow; f w c) (Some w) l = Some w' /\ steady w w'.
Proof.
  intros HP Hf. revert w. induction l as [|c l IH]; intros w Hw Hall; cbn [foldl].
  { exists w. split; [reflexivity|apply steady_refl]. }
  apply Forall_cons in Hall as [Hc Hl].
  destruct (Hf w c Hw Hc) as (w1 & H1 & Hs1).
  cbn [mbind option_bind]. rewrite H1.
  destruct (IH w1) as (w2 & H2 & Hs2).
  { eapply steady_fit; eassumption. }
  { eapply Forall_impl; [exact Hl|]. intros x. now apply HP. }
  exists w2. split; [exact H2|]. eapply steady_trans; eassumption.
Qed.

(** [_updateRenderGroups] returns for a group nested at most [d] deep
    once the bound is [d] more than what the update of one group
    needs. *)
Lemma _updateRenderGroups_returns (N d : nat) : forall (fuel : nat) (w : world) (g : nat),
  fit N w -> nested_within d w g -> (d + N + 2 <= fuel)%nat ->
  exists w', _updateRenderGroups X fuel w g = Some w' /\ steady w w'.
Proof.
  induction d as [|d IH]; intros fuel w g Hw Hnest Hfuel; [destruct Hnest|].
  destruct fuel as [|f]; [lia|]. destruct f as [|f']; [lia|].
  cbn [nested_within] in Hnest. destruct Hnest as (grp & Hg & Hall).
  cbn [_updateRenderGroups].
  pose proof Hw as (Hst & Hkn & Hsz).
  destruct (update_group_returns f' w g Hst Hkn (ex_intro _ grp Hg)) as (w1 & Hu & Hs1);
    [lia|].
  rewrite Hu. cbn [mbind option_bind].
  destruct (steady_same_children w w1 Hs1 g grp Hg) as (grp1 & Hg1 & Hc1).
  rewrite Hg1. cbn [mbind option_bind].
  destruct (RenderGroup.isCachedAsTexture grp1 && negb (RenderGroup.textureNeedsUpdate grp1)).
  { exists w1. split; [reflexivity|exact Hs1]. }
  destruct (foldl_steady N (_updateRenderGroups X (S f')) (nested_within d)
              (RenderGroup.renderGroupChildren grp1) w1) as (w2 & H2 & Hs2).
  - intros wa wb c Hs. now apply steady_nested.
  - intros wa c Hwa Hc. apply IH; [exact Hwa|exact Hc|lia].
  - eapply steady_fit; eassumption.
  - rewrite Hc1. eapply Forall_impl; [exact Hall|]. intros c. now apply steady_nested.
  - exists w2. split; [exact H2|]. eapply steady_trans; eassumption.
Qed.

(** [_updateCachedRenderGroups] returns for a group nested at most [d]
    deep once the bound is [d]. *)
Lemma _updateCachedRenderGroups_returns (N d : nat) :
  forall (fuel : nat) (w : world) (g : nat) (t : option nat),
  fit N w -> nested_within d w g -> (d <= fuel)%nat ->
  exists w', _updateCachedRenderGroups X fuel w g t = Some w' /\ steady w w'.
Proof.
  induction d as [|d IH]; intros fuel w g t Hw Hnest Hfuel; [destruct Hnest|].
  destruct fuel as [|f]; [lia|].
  cbn [nested_within] in Hnest. destruct Hnest as (grp & Hg & Hall).
  cbn [_updateCachedRenderGroups]. rewrite Hg. cbn [mbind option_bind]. cbv zeta.
  set (e0 := RenderGroup.set_parentCacheAsTextureRenderGroup t grp).
  assert (Hs0 : steady w (set_group g e0 w)) by (now apply (steady_field w g grp e0 Hg)).
  destruct (RenderGroup.isCachedAsTexture e0 && negb (RenderGroup.textureNeedsUpdate e0)).
  { eexists. split; [reflexivity|exact Hs0]. }
  destruct (foldl_steady N
              (fun w c => _updateCachedRenderGroups X f w c
                            (if RenderGroup.isCachedAsTexture e0 then Some g else t))
              (nested_within d)
              (rev (RenderGroup.renderGroupChildren e0)) (set_group g e0 w))
    as (w1 & H1 & Hs1).
  { intros wa wb c Hs. now apply steady_nested. }
  { intros wa c Hwa Hc. apply IH; [exact Hwa|exact Hc|lia]. }
  { eapply steady_fit; eassumption. }
  { apply Forall_rev. eapply Forall_impl; [exact Hall|]. intros c. now apply steady_nested. }
  rewrite H1. cbn [mbind option_bind].
  assert (Hs01 : steady w w1) by (eapply steady_trans; eassumption).
  assert (Hw1 : fit N w1) by (eapply steady_fit; eassumption).
  destruct (steady_same_children w w1 Hs01 g grp Hg) as (e1 & He1 & _).
  change (groups (log (invalidateMatrices g) w1)) with (groups w1). rewrite He1.
  cbn [mbind option_bind].
  assert (Hsl : steady w (log (invalidateMatrices g) w1))
    by (eapply steady_trans; [exact Hs01|apply steady_log]).
  destruct (RenderGroup.isCachedAsTexture e1).
  - destruct (RenderGroup.textureNeedsUpdate e1); [|eexists; split; [reflexivity|exact Hsl]].
    set (w2 := match RenderGroup.texture e1 with
               | Some tx => log (returnTexture tx) (log (invalidateMatrices g) w1)
               | None => log (invalidateMatrices g) w1
               end).
    assert (Hs2 : steady w w2 /\ groups w2 = groups w1).
    { subst w2. destruct (RenderGroup.texture e1); split; try reflexivity; [|exact Hsl].
      eapply steady_trans; [exact Hsl|apply steady_log]. }
    destruct Hs2 as [Hs2 Hg2].
    set (e3 := RenderGroup.set_texture (Some (getOptimalTexture X g)) e1).
    assert (He2 : groups w2 !! g = Some e1) by (now rewrite Hg2).
    assert (Hs3 : steady w (set_group g e3 w2)).
    { eapply steady_trans; [exact Hs2|]. now apply (steady_field w2 g e1 e3 He2). }
    destruct (RenderGroup.renderGroupParent e1) as [p|] eqn:Hp;
      [|eexists; split; [reflexivity|exact Hs3]].
    destruct (bool_decide _); [eexists; split; [reflexivity|exact Hs3]|].
    assert (Hpg : is_Some (groups (set_group g e3 w2) !! p)).
    { cbn. apply insert_keeps. rewrite Hg2.
      destruct Hw1 as ((_ & Hgs & _) & _).
      destruct (Hgs g (ex_intro _ e1 He1)) as [(n & r & Hn & _ & Hrp & _) _].
      rewrite He1 in Hn. injection Hn as <-. now apply Hrp. }
    destruct Hpg as [pg Hpg]. rewrite Hpg. cbn [mbind option_bind].
    eexists. split; [reflexivity|].
    eapply steady_trans; [exact Hs3|].
    now apply (steady_field _ p pg (RenderGroup.set_structureDidChange true pg) Hpg).
  - destruct (RenderGroup.texture e1) as [tx|];
      [|eexists; split; [reflexivity|exact Hsl]].
    eexists. split; [reflexivity|].
    eapply steady_trans; [exact Hsl|]. eapply steady_trans; [apply steady_log|].
    apply (steady_field _ g e1 (RenderGroup.set_texture None e1)); try reflexivity.
    exact He1.
Qed.

(** *** The render of a container returns *)

(** On a store the system can work on, the render of a container that
    is the root of a render group nested at most [d] deep returns once
    the bound is [d] more than the number of containers plus two; it is
    steady, and it ends with the start of the global uniforms and the
    execution of the instructions of the group. *)
Lemma render_returns (N d fuel : nat) (w : world) (e : nat) (t : option Matrix.t)
    (nd : Container.t) (g : nat) :
  fit N w ->
  nodes w !! e = Some nd ->
  Container.renderGroup nd = Some g ->
  nested_within d w g ->
  (d + N + 2 <= fuel)%nat ->
  exists w' evs,
    render X fuel w e t = Some w'
    /\ steady w w'
    /\ events w' = events w ++ evs
                   ++ globalUniformsStart g :: executeInstructions g
                      :: (if uniformBatch X then [uniformBatchRenderEnd] else []).
Proof.
  intros Hw Hnd Hrg Hnest Hfuel.
  assert (Hgrp : is_Some (groups w !! g)).
  { destruct d; [destruct Hnest|]. destruct Hnest as (grp & Hg & _). eauto. }
  destruct Hgrp as [grp Hgrp].
  unfold render. rewrite Hnd. cbn [mbind option_bind]. rewrite Hrg.
  cbn [mbind option_bind]. rewrite Hgrp. cbn [mbind option_bind]. cbv zeta.
  set (wA := set_node e (Container.set_parent None nd) w).
  assert (HsA : steady w wA) by (apply steady_set_parent; [exact Hnd|discriminate]).
  set (grpB := RenderGroup.set_renderGroupParent None grp).
  set (wB := set_group g grpB wA).
  assert (HgB : gkin wA grp grpB).
  { apply gkin_links; try reflexivity. right. discriminate. }
  assert (HsB : steady wA wB) by (now apply (steady_group_only wA g grp grpB)).
  set (wC := match t with
             | Some t0 =>
                 set_group g (RenderGroup.set_localTransform t0 grpB)
                   (set_It (RenderGroup.localTransform grpB) wB)
             | None => wB
             end).
  assert (HsC : steady wB wC).
  { subst wC. destruct t as [t0|]; [|apply steady_refl].
    eapply steady_trans.
    - apply (steady_same_store wB (set_It (RenderGroup.localTransform grpB) wB));
        try reflexivity. exists []. cbn. now rewrite app_nil_r.
    - apply (steady_field _ g grpB); try reflexivity. cbn. now rewrite lookup_insert_eq. }
  assert (Hs0C : steady w wC).
  { eapply steady_trans; [exact HsA|]. eapply steady_trans; [exact HsB|exact HsC]. }
  assert (HevC : events wC = events w) by (subst wC; destruct t; reflexivity).
  destruct (_updateCachedRenderGroups_returns N d fuel wC g None) as (wD & HD & HsD).
  { eapply steady_fit; eassumption. }
  { eapply steady_nested; eassumption. }
  { lia. }
  rewrite HD. cbn [mbind option_bind].
  assert (Hs0D : steady w wD) by (eapply steady_trans; eassumption).
  destruct (_updateRenderGroups_returns N d fuel wD g) as (wE & HE & HsE).
  { eapply steady_fit; eassumption. }
  { eapply steady_nested; eassumption. }
  { exact Hfuel. }
  rewrite HE. cbn [mbind option_bind].
  assert (HsCE : steady wC wE) by (eapply steady_trans; eassumption).
  assert (Hs0E : steady w wE) by (eapply steady_trans; eassumption).
  set (wF := if uniformBatch X
             then log uniformBatchRenderEnd
                    (log (executeInstructions g) (log (globalUniformsStart g) wE))
             else log (executeInstructions g) (log (globalUniformsStart g) wE)).
  assert (HF : nodes wF = nodes wE /\ groups wF = groups wE /\ batch wF = batch wE
               /\ It wF = It wE
               /\ events wF = events wE
                    ++ globalUniformsStart g :: executeInstructions g
                       :: (if uniformBatch X then [uniformBatchRenderEnd] else [])).
  { subst wF. destruct (uniformBatch X); repeat split; cbn; now rewrite <- ?app_assoc. }
  destruct HF as (HFn & HFg & HFb & HFi & HFe).
  assert (HsF : steady wE wF).
  { apply steady_same_store; try assumption. eexists. exact HFe. }
  assert (Hs0F : steady w wF) by (eapply steady_trans; eassumption).
  pose proof Hs0F as (A & B & C & D & _).
  destruct (proj2 (A e) (ex_intro _ nd Hnd)) as [ndF HndF].
  rewrite HndF. cbn [mbind option_bind].
  destruct (B e nd ndF Hnd HndF) as (_ & Brg & _).
  rewrite Brg, Hrg. cbn [mbind option_bind].
  destruct (proj2 (C g) (ex_intro _ grp Hgrp)) as [grpF HgrpF].
  rewrite HgrpF. cbn [mbind option_bind].
  set (wG := set_node e (Container.set_parent (Container.parent nd) ndF) wF).
  assert (HsG : steady wF wG).
  { apply steady_set_parent; [exact HndF|].
    intros q Hq. apply A. destruct Hw as ((Hc & _) & _).
    destruct (Hc e nd Hnd) as (_ & Hpar & _). now apply Hpar. }
  set (grpG := RenderGroup.set_renderGroupParent (RenderGroup.renderGroupParent grp)
                 match t with
                 | Some _ => RenderGroup.set_localTransform (It wF) grpF
                 | None => grpF
                 end).
  assert (HsH : steady wG (set_group g grpG wG)).
  { apply (steady_group_only wG g grpF); [exact HgrpF|].
    apply gkin_links; try (subst grpG; destruct t; reflexivity).
    right. intros rp Hrp. change (groups wG) with (groups wF). apply C.
    destruct Hw as ((_ & Hgs & _) & _).
    destruct (Hgs g (ex_intro _ grp Hgrp)) as [(n & r & Hn & _ & Hpar & _) _].
    rewrite Hgrp in Hn. injection Hn as <-. apply Hpar.
    subst grpG. destruct t; exact Hrp. }
  destruct (proj2 (proj2 (proj2 (proj2 (proj2 (proj2 Hs0E)))))) as [evs Hevs].
  exists (set_group g grpG wG), evs. split; [reflexivity|]. split.
  - eapply steady_trans; [exact Hs0F|]. eapply steady_trans; eassumption.
  - change (events (set_group g grpG wG)) with (events wF). rewrite HFe, Hevs.
    now rewrite <- app_assoc.
Qed.

End RenderReturns.

(** ** Generating a texture from a container *)

Section TextureFacts.
Import Number Scene.
Variable X : externals.
Variable fuel : nat.
Variable R : Renderer.renderer.
Variable rg : Runner.obj.
Variable hooks : Runner.obj -> string -> TextureGenerator.RenderOptions ->
                 world -> option world.
Variable visible : Container.t -> bool.
Variable enableRenderGroup : nat -> world -> world.

(** The frame of the options [c] starts from the store [w0], which
    holds [N] containers; the container of [c] is the root of the group
    [g], nested at most [d] deep. *)
Variable N d : nat.
Variable c : TextureGenerator.RenderOptions.
Variable g : nat.
Variable w0 : world.

(** The methods of the other systems return, are steady and leave the
    saved fields of the container alone. *)
Definition hooks_keep (s : nat) : Prop :=
  forall o m c1 w1, fit X N w1 ->
    exists w2, hooks o m c1 w1 = Some w2 /\ steady w1 w2 /\ saved s w2 = saved s w1.

Hypothesis Hhooks : hooks_keep (TextureGenerator.container c).
Hypothesis Hfit : fit X N w0.
Hypothesis Hroot :
  Container.renderGroup <$> nodes w0 !! TextureGenerator.container c = Some (Some g).
Hypothesis Hnest : nested_within d w0 g.
Hypothesis Hfuel : (d + N + 2 <= fuel)%nat.

(** The state of a frame that has not thrown: the store is steady since
    the frame began, the saved fields of the container are what they
    were, and the instructions of the group were executed if [P]. *)
Definition frame_inv (P : Prop) (ow : option world) : Prop :=
  exists w1 evs,
    ow = Some w1 /\ steady w0 w1
    /\ saved (TextureGenerator.container c) w1 = saved (TextureGenerator.container c) w0
    /\ events w1 = events w0 ++ evs
    /\ (P -> executeInstructions g ∈ evs).

Lemma frame_inv_weaken (P Q : Prop) (ow : option world) :
  (Q -> P) -> frame_inv P ow -> frame_inv Q ow.
Proof.
  intros HQ (w1 & evs & H1 & H2 & H3 & H4 & H5). exists w1, evs.
  split; [exact H1|]. split; [exact H2|]. split; [exact H3|]. split; [exact H4|]. auto.
Qed.

Lemma frame_inv_start : frame_inv False (Some w0).
Proof.
  exists w0, []. split; [reflexivity|]. split; [apply steady_refl|].
  split; [reflexivity|]. split; [now rewrite app_nil_r|]. intros [].
Qed.

Lemma call_inv (P : Prop) (o : Runner.obj) (m : string) (ow : option world) :
  frame_inv P ow ->
  frame_inv (P \/ (o = rg /\ m = "render"))
    (TextureGenerator.call X fuel rg hooks o m c ow).
Proof.
  intros (w1 & evs & -> & Hs & Hsv & Hev & Hex).
  unfold TextureGenerator.call. cbn [mbind option_bind].
  assert (Hw1 : fit X N w1) by (eapply steady_fit; eassumption).
  destruct (Nat.eqb o rg && String.eqb m "render") eqn:Hrender.
  - destruct (nodes w0 !! TextureGenerator.container c) as [nd0|] eqn:Hnd0;
      [|discriminate].
    cbn in Hroot. injection Hroot as Hrg.
    pose proof Hs as (A & B & _).
    destruct (proj2 (A (TextureGenerator.container c)) (ex_intro _ nd0 Hnd0)) as [nd1 Hnd1].
    destruct (B _ nd0 nd1 Hnd0 Hnd1) as (_ & Brg & _).
    destruct (render_returns X N d fuel w1 (TextureGenerator.container c)
                (TextureGenerator.transform c) nd1 g Hw1 Hnd1)
      as (w2 & evs2 & Hr & Hs2 & Hev2).
    { congruence. }
    { eapply steady_nested; eassumption. }
    { exact Hfuel. }
    rewrite Hr. eexists w2, _. split; [reflexivity|].
    split; [eapply steady_trans; eassumption|]. split.
    { apply render_restores in Hr as [Hr _]. congruence. }
    split.
    { rewrite Hev2, Hev, <- app_assoc. reflexivity. }
    intros _. rewrite !elem_of_app. right. right. right. left.
  - destruct (Hhooks o m c w1 Hw1) as (w2 & Hh & Hs2 & Hsv2).
    rewrite Hh. pose proof Hs2 as (_ & _ & _ & _ & _ & _ & evs2 & Hev2).
    exists w2, (evs ++ evs2). split; [reflexivity|]. split.
    { eapply steady_trans; eassumption. }
    split; [congruence|]. split; [rewrite Hev2, Hev; now rewrite app_assoc|].
    intros [HP|[-> ->]].
    + apply elem_of_app. left. auto.
    + rewrite Nat.eqb_refl in Hrender. discriminate.
Qed.

Lemma emit_inv (P : Prop) (m : string) (h : list Runner.obj) (ow : option world) :
  frame_inv P ow ->
  frame_inv (P \/ (rg ∈ h /\ m = "render"))
    (fold_left (fun w x => TextureGenerator.call X fuel rg hooks x m c w) h ow).
Proof.
  revert P ow. induction h as [|o h IH]; intros P ow H; cbn [fold_left].
  - eapply frame_inv_weaken; [|exact H]. intros [HP|[Hin _]]; [exact HP|].
    apply elem_of_nil in Hin. destruct Hin.
  - eapply frame_inv_weaken; [|apply IH, (call_inv P o m), H].
    intros [HP|[Hin Hm]]; [left; now left|].
    apply elem_of_cons in Hin as [->|Hin]; [left; right; now split|right; now split].
Qed.

Lemma emit_runner_ok (k : string) (r : Runner.runner) (ow : option world) :
  Renderer.runners R !! k = Some r ->
  Renderer.emit_runner (option world) TextureGenerator.RenderOptions
    (TextureGenerator.call X fuel rg hooks) R k c ow
  = Renderer.Ok
      (fold_left (fun w x => TextureGenerator.call X fuel rg hooks x (Runner._name r) c w)
         (Runner.items r) ow).
Proof.
  intros Hr. unfold Renderer.emit_runner. rewrite Hr. unfold Runner.emit.
  now rewrite emit_loop_spec.
Qed.

(** With its five runners, the frame of a visible container returns. *)
Lemma frame_returns (wpre : world) :
  Forall (fun k => is_Some (Renderer.runners R !! k))
    ["prerender"; "renderStart"; "render"; "renderEnd"; "postrender"] ->
  TextureGenerator.is_visible visible c (Some wpre) = true ->
  w0 = enableRenderGroup (TextureGenerator.container c) wpre ->
  exists ow,
    Renderer.render (option world) TextureGenerator.RenderOptions
      (TextureGenerator.call X fuel rg hooks) (TextureGenerator.is_visible visible)
      (fun s ow => enableRenderGroup (TextureGenerator.container s) <$> ow) R c (Some wpre)
    = Renderer.Ok ow
    /\ frame_inv (exists r, Renderer.runners R !! "render" = Some r
                            /\ Runner._name r = "render" /\ rg ∈ Runner.items r) ow.
Proof.
  intros Hrun Hvis Hw0.
  apply Forall_cons in Hrun as [[r1 H1] Hrun]. apply Forall_cons in Hrun as [[r2 H2] Hrun].
  apply Forall_cons in Hrun as [[r3 H3] Hrun]. apply Forall_cons in Hrun as [[r4 H4] Hrun].
  apply Forall_cons in Hrun as [[r5 H5] _].
  unfold Renderer.render. rewrite Hvis. cbv zeta.
  rewrite (emit_runner_ok "prerender" r1 _ H1). cbn [Renderer.bind].
  rewrite (emit_runner_ok "renderStart" r2 _ H2). cbn [Renderer.bind].
  rewrite (emit_runner_ok "render" r3 _ H3). cbn [Renderer.bind].
  rewrite (emit_runner_ok "renderEnd" r4 _ H4). cbn [Renderer.bind].
  rewrite (emit_runner_ok "postrender" r5 _ H5).
  eexists. split; [reflexivity|].
  cbn [fmap option_fmap option_map]. rewrite <- Hw0.
  eapply frame_inv_weaken;
    [|apply emit_inv, emit_inv, emit_inv, emit_inv, emit_inv, frame_inv_start].
  intros (r & Hr & Hname & Hin). rewrite H3 in Hr. injection Hr as <-.
  left. left. right. now split.
Qed.

End TextureFacts.

Lemma saved_parent (e : nat) (w w' : Scene.world) :
  saved e w' = saved e w -> is_Some (saved e w) ->
  Container.parent <$> Scene.nodes w' !! e = Container.parent <$> Scene.nodes w !! e.
Proof.
  unfold saved. intros H [v Hv]. rewrite Hv in H.
  destruct (Scene.nodes w !! e) as [nd|]; [|discriminate].
  destruct (Scene.nodes w' !! e) as [nd'|]; [|discriminate].
  destruct (Container.renderGroup nd) as [g|]; [|discriminate].
  destruct (Container.renderGroup nd') as [g'|]; [|discriminate].
  destruct (Scene.groups w !! g); [|discriminate].
  destruct (Scene.groups w' !! g'); [|discriminate].
  injection Hv as <-. injection H as H _ _ _. cbn. now rewrite H.
Qed.


(** The sample scene with the nested render group is a store the
    render-group system can work on. *)
Ltac known_key H :=
  repeat (apply lookup_insert_Some in H as [[<- <-]|[_ H]]);
  [..|apply lookup_singleton_Some in H as [<- <-]].

Ltac in_store := eexists; reflexivity.

Lemma nested_scene_store :
  fit Sample.X 3 (Scene.log (Scene.createTexture 900) Sample.nested_scene).
Proof.
  split; [split; [|split]|split].
  - intros n nd H.
    change (Scene.nodes (Scene.log (Scene.createTexture 900) Sample.nested_scene))
      with ({[ 0%nat := Sample.stage; 1%nat := Sample.card; 2%nat := Sample.label ]}
            : gmap nat Container.t) in H.
    known_key H.
    + split; [|split].
      * intros c Hc. apply list_elem_of_singleton in Hc as ->. in_store.
      * intros p Hp. discriminate.
      * intros [id Hid]. discriminate.
    + split; [|split].
      * intros c Hc. apply list_elem_of_singleton in Hc as ->. in_store.
      * intros p Hp. injection Hp as <-. in_store.
      * intros _. exists 100%nat. split; [reflexivity|in_store].
    + split; [|split].
      * intros c Hc. apply elem_of_nil in Hc. destruct Hc.
      * intros p Hp. injection Hp as <-. in_store.
      * intros _. exists 200%nat. split; [reflexivity|in_store].
  - intros h [grp H]. unfold Sample.nested_scene in H. cbn [Scene.groups Scene.log] in H.
    known_key H.
    + split.
      * eexists _, _. split; [reflexivity|]. split; [reflexivity|]. split.
        { intros rp Hrp. discriminate. }
        intros k b d Hb Hd. cbn in Hb.
        destruct k as [|k]; [|destruct k; discriminate].
        injection Hb as <-. cbn in Hd. assert (d = 0%nat) as -> by lia.
        eexists. split; [reflexivity|in_store].
      * intros grp d Hg Hd. vm_compute in Hg. injection Hg as <-. cbn in Hd. lia.
    + split.
      * eexists _, _. split; [reflexivity|]. split; [reflexivity|]. split.
        { intros rp Hrp. injection Hrp as <-. in_store. }
        intros k b d Hb Hd. cbn in Hb.
        destruct k as [|k]; [|destruct k; discriminate].
        injection Hb as <-. cbn in Hd. assert (d = 0%nat) as -> by lia.
        eexists. split; [reflexivity|in_store].
      * intros grp d Hg Hd. vm_compute in Hg. injection Hg as <-. cbn in Hd. lia.
  - intros u m Hm. vm_compute in Hm. discriminate.
  - intros nd root n _. left. reflexivity.
  - vm_compute. reflexivity.
Qed.



(** ** The renderable collector *)

Section GCFacts.
Import Number Scene RenderableGC.

(** The pipes that have a method [destroyRenderable]. *)
Variable destroys : string -> bool.

(** The sweep as a recursion over the list: the renderables that stay,
    in order, and the world after every visit. *)
Fixpoint sweep (c : t) (w : world) (l : list (option nat)) : option (list nat * world) :=
  match l with
  | [] => Some ([], w)
  | None :: l => sweep c w l
  | Some a :: l =>
      match visit destroys c w a with
      | Some (w, keep) =>
          match sweep c w l with
          | Some (ks, w) => Some (if keep : bool then a :: ks else ks, w)
          | None => None
          end
      | None => None
      end
  end.

Lemma sweep_entry_None (c : t) (l : list nat) : foldl (sweep_entry destroys c) None l = None.
Proof. induction l; cbn [foldl]; auto. Qed.

(** The loop of [run] writes the renderables that stay to the front of
    the array, in order. *)
Lemma sweep_loop (c : t) (rest : list (option nat)) :
  forall (t : list (option nat)) (s : nat) (w : world) (i : nat) (kept : list nat),
    length t = (i + length rest)%nat ->
    drop i t = rest ->
    (s + length kept = i)%nat ->
    take (length kept) t = map Some kept ->
    match foldl (sweep_entry destroys c) (Some (t, s, w)) (seq i (length rest)), sweep c w rest with
    | Some (t', s', w'), Some (ks, w'') =>
        w' = w'' /\ take (length t' - s') t' = map Some (kept ++ ks)
    | None, None => True
    | _, _ => False
    end.
Proof.
  induction rest as [|x rest IH]; intros t s w i kept Hlen Hdrop Hs Hkept.
  - cbn [length seq foldl sweep]. split; [reflexivity|].
    rewrite app_nil_r. cbn [length] in Hlen.
    replace (length t - s)%nat with (length kept) by lia. exact Hkept.
  - cbn [length seq foldl].
    assert (Hi : t !! i = Some x).
    { rewrite <- (Nat.add_0_r i), <- lookup_drop, Hdrop. reflexivity. }
    assert (Hdrop' : drop (S i) t = rest).
    { rewrite <- (Nat.add_1_r i), <- drop_drop, Hdrop. reflexivity. }
    cbn [length] in Hlen.
    unfold sweep_entry at 2. cbn [mbind option_bind]. rewrite Hi. cbn [mbind option_bind].
    destruct x as [a|].
    + cbn [sweep]. destruct (visit destroys c w a) as [[w1 keep]|]; cbn [mbind option_bind].
      * destruct keep.
        -- assert (Hk : (i - s = length kept)%nat) by lia.
           assert (Hlt : (length kept < length t)%nat) by lia.
           rewrite Hk.
           assert (P1 : length (<[length kept := Some a]> t) = (S i + length rest)%nat)
             by (rewrite length_insert; lia).
           assert (P2 : drop (S i) (<[length kept := Some a]> t) = rest)
             by (rewrite drop_insert_lt by lia; exact Hdrop').
           assert (P3 : (s + length (kept ++ [a]) = S i)%nat)
             by (rewrite length_app; cbn [length]; lia).
           assert (P4 : take (length (kept ++ [a])) (<[length kept := Some a]> t)
                        = map Some (kept ++ [a])).
           { rewrite length_app, Nat.add_1_r. cbn [length].
             rewrite (take_S_r _ _ (Some a)) by (now apply list_lookup_insert_eq).
             rewrite take_insert_ge by lia. rewrite Hkept, map_app. reflexivity. }
           specialize (IH _ s w1 (S i) (kept ++ [a]) P1 P2 P3 P4).
           destruct (foldl _ _ _) as [[[t' s'] w']|], (sweep c w1 rest) as [[ks w'']|];
             try exact IH.
           rewrite <- app_assoc in IH. exact IH.
        -- specialize (IH t (S s) w1 (S i) kept).
           destruct (foldl _ _ _) as [[[t' s'] w']|], (sweep c w1 rest) as [[ks w'']|];
             (apply IH; [lia|exact Hdrop'|lia|exact Hkept]).
      * rewrite sweep_entry_None. exact I.
    + cbn [sweep]. apply IH; [lia|exact Hdrop'|lia|exact Hkept].
Qed.

Lemma run_sweep (c : t) (w : world) :
  run destroys c w = match sweep c w (_managedRenderables c) with
            | Some (ks, w') => Some (set_managedRenderables (map Some ks) c, w')
            | None => None
            end.
Proof.
  unfold run.
  pose proof (sweep_loop c (_managedRenderables c) (_managedRenderables c) 0 w 0 []
                eq_refl eq_refl eq_refl eq_refl) as H.
  destruct (foldl _ _ _) as [[[t' s'] w']|], (sweep c w _) as [[ks w'']|];
    try contradiction; [|reflexivity].
  destruct H as [-> H]. cbn [mbind option_bind]. now rewrite H.
Qed.

(** The tracked renderables: the slots of the list that are not empty. *)
Definition tracked (c : t) : list nat := omap id (_managedRenderables c).

(** The two ticks the sweep compares. *)
Definition ticks (grp : RenderGroup.t) : Z * Z :=
  (RenderGroup.gcTick grp, InstructionSet.gcTick (RenderGroup.instructionSet grp)).

(** Whether the render group of the renderable [a] carries the tick of
    its instruction set. *)
Definition current (w : world) (a : nat) : bool :=
  match nodes w !! a with
  | Some nd =>
      match group_of nd with
      | Some g =>
          match ticks <$> groups w !! g with
          | Some (x, y) => x =? y
          | None => false
          end
      | None => false
      end
  | None => false
  end.

(** The stamp of [a] once the sweep has looked at the ticks. *)
Definition stamp (c : t) (w : world) (a : nat) : number :=
  match nodes w !! a with
  | Some nd => if current w a then _now c else Container._lastUsed nd
  | None => S754_nan
  end.

(** Whether that stamp is older than the limit. *)
Definition expired (c : t) (w : world) (a : nat) : bool :=
  gtb (sub (_now c) (stamp c w a)) (maxUnusedTime c).

Definition is_destroyed (w : world) (a : nat) : bool :=
  match nodes w !! a with
  | Some nd => Container.destroyed nd
  | None => false
  end.

(** The calls the sweep makes for [a]. *)
Definition sweep_calls (c : t) (w : world) (a : nat) : list event :=
  if expired c w a
  then (if is_destroyed w a then [] else [destroyRenderable a]) ++ [off_destroyed a]
  else [].

(** The stamp the sweep leaves on [a]. *)
Definition stamp_after (c : t) (w : world) (a : nat) : number :=
  if expired c w a then ofZ (-1) else stamp c w a.

Lemma visit_spec (c : t) (w w1 : world) (a : nat) (keep : bool) :
  visit destroys c w a = Some (w1, keep) ->
  keep = negb (expired c w a)
  /\ events w1 = events w ++ sweep_calls c w a
  /\ (forall b, b <> a -> nodes w1 !! b = nodes w !! b)
  /\ (exists nd, nodes w !! a = Some nd
                 /\ nodes w1 !! a = Some (Container.set_lastUsed (stamp_after c w a) nd))
  /\ (forall g, ticks <$> groups w1 !! g = ticks <$> groups w !! g).
Proof.
  unfold visit, expired, stamp_after, sweep_calls, expired, stamp, current, is_destroyed.
  destruct (nodes w !! a) as [nd|] eqn:Hnd; [|discriminate]. cbn [mbind option_bind].
  assert (Hsame : forall lg : option RenderGroup.t,
             match group_of nd with
             | Some g => Some <$> groups w !! g
             | None => Some None
             end = Some lg ->
             match group_of nd with
             | Some g =>
                 match ticks <$> groups w !! g with
                 | Some (x, y) => x =? y
                 | None => false
                 end
             | None => false
             end = same_tick lg).
  { intros lg. destruct (group_of nd) as [g|].
    - destruct (groups w !! g) as [grp|]; [|discriminate].
      intros H; injection H as <-. reflexivity.
    - intros H; injection H as <-. reflexivity. }
  destruct (match group_of nd with
            | Some g => Some <$> groups w !! g
            | None => Some None
            end) as [lg|] eqn:Hlg; [|discriminate].
  cbn [mbind option_bind]. rewrite (Hsame lg eq_refl). cbv zeta.
  set (nd1 := if same_tick lg then Container.set_lastUsed (_now c) nd else nd).
  assert (Hl1 : Container._lastUsed nd1
                = if same_tick lg then _now c else Container._lastUsed nd)
    by (unfold nd1; now destruct (same_tick lg)).
  assert (Hd1 : Container.destroyed nd1 = Container.destroyed nd)
    by (unfold nd1; now destruct (same_tick lg)).
  assert (Hp1 : forall x, Container.set_lastUsed x nd1 = Container.set_lastUsed x nd)
    by (intros x; unfold nd1; now destruct (same_tick lg)).
  rewrite Hl1.
  destruct (gtb (sub (_now c) (if same_tick lg then _now c else Container._lastUsed nd))
              (maxUnusedTime c)) eqn:Hexp.
  - rewrite Hd1. destruct (Container.destroyed nd) eqn:Hdes.
    + cbn [mbind option_bind]. intros H; injection H as <- <-.
      split; [reflexivity|]. split; [reflexivity|]. split; [|split].
      * intros b Hb. cbn [nodes log set_node set_nodes].
        now rewrite !lookup_insert_ne by congruence.
      * exists nd. split; [reflexivity|]. cbn [nodes log set_node set_nodes].
        now rewrite lookup_insert_eq, Hp1.
      * reflexivity.
    + change (Container.renderPipeId nd1) with
        (Container.renderPipeId (if same_tick lg then Container.set_lastUsed (_now c) nd
                                 else nd)).
      assert (Hpipe : Container.renderPipeId
                        (if same_tick lg then Container.set_lastUsed (_now c) nd else nd)
                      = Container.renderPipeId nd) by (now destruct (same_tick lg)).
      rewrite Hpipe. destruct (Container.renderPipeId nd) as [id|]; [|discriminate].
      cbn [mbind option_bind]. destruct (destroys id); [|discriminate].
      cbn [mbind option_bind]. intros H; injection H as <- <-.
      split; [reflexivity|]. split; [|split; [|split]].
      * cbn [events log set_node set_nodes].
        destruct (group_of nd), lg; cbn [events set_group set_groups set_node set_nodes];
          now rewrite <- app_assoc.
      * intros b Hb. cbn [nodes log set_node set_nodes].
        rewrite lookup_insert_ne by congruence.
        destruct (group_of nd), lg; cbn [nodes set_group set_groups set_node set_nodes];
          now rewrite lookup_insert_ne by congruence.
      * exists nd. split; [reflexivity|]. cbn [nodes log set_node set_nodes].
        now rewrite lookup_insert_eq, Hp1.
      * intros g. cbn [groups log set_node set_nodes].
        destruct (group_of nd) as [g0|] eqn:Hg0, lg as [grp|];
          cbn [groups set_group set_groups set_node set_nodes]; try reflexivity.
        destruct (groups w !! g0) as [grp0|] eqn:Hgrp0; [|discriminate].
        injection Hlg as <-.
        destruct (decide (g0 = g)) as [<-|Hne];
          [rewrite lookup_insert_eq, Hgrp0; reflexivity|now rewrite lookup_insert_ne].
  - intros H; injection H as <- <-.
    split; [reflexivity|]. split; [now rewrite app_nil_r|]. split; [|split].
    + intros b Hb. cbn [nodes set_node set_nodes]. now rewrite lookup_insert_ne by congruence.
    + exists nd. split; [reflexivity|]. cbn [nodes set_node set_nodes].
      rewrite lookup_insert_eq. f_equal. unfold nd1.
      destruct (same_tick lg); [reflexivity|now destruct nd].
    + reflexivity.
Qed.

(** What the sweep reads of a renderable depends on its container and
    on the ticks of the groups only. *)
Lemma sweep_reads (c : t) (w w1 : world) (b : nat) :
  nodes w1 !! b = nodes w !! b ->
  (forall g, ticks <$> groups w1 !! g = ticks <$> groups w !! g) ->
  expired c w1 b = expired c w b
  /\ sweep_calls c w1 b = sweep_calls c w b
  /\ stamp_after c w1 b = stamp_after c w b.
Proof.
  intros Hn Hg.
  assert (Hc : current w1 b = current w b).
  { unfold current. rewrite Hn. destruct (nodes w !! b) as [nd|]; [|reflexivity].
    destruct (group_of nd) as [g|]; [|reflexivity]. now rewrite Hg. }
  assert (Hs : stamp c w1 b = stamp c w b) by (unfold stamp; now rewrite Hn, Hc).
  assert (He : expired c w1 b = expired c w b) by (unfold expired; now rewrite Hs).
  split; [exact He|]. unfold sweep_calls, stamp_after, is_destroyed.
  now rewrite He, Hs, Hn.
Qed.

Lemma flat_map_same {A B} (f g : A -> list B) (l : list A) :
  (forall a, a ∈ l -> f a = g a) -> flat_map f l = flat_map g l.
Proof.
  induction l as [|x l IH]; intros H; [reflexivity|]. cbn [flat_map].
  rewrite (H x) by (now left). rewrite IH; [reflexivity|].
  intros a Ha. apply H. now right.
Qed.

Lemma filter_same {A} (f g : A -> bool) (l : list A) :
  (forall a, a ∈ l -> f a = g a) -> List.filter f l = List.filter g l.
Proof.
  intros H. apply filter_ext_in. intros a Ha. apply H. now apply list_elem_of_In.
Qed.

(** The sweep, renderable by renderable, in terms of the world it
    starts from. *)
Lemma sweep_spec (c : t) (l : list (option nat)) :
  forall (w w' : world) (ks : list nat),
    NoDup (omap id l) ->
    sweep c w l = Some (ks, w') ->
    ks = List.filter (fun a => negb (expired c w a)) (omap id l)
    /\ events w' = events w ++ flat_map (sweep_calls c w) (omap id l)
    /\ (forall a, a ∈ omap id l ->
          exists nd, nodes w !! a = Some nd
                     /\ nodes w' !! a
                        = Some (Container.set_lastUsed (stamp_after c w a) nd))
    /\ (forall b, b ∉ omap id l -> nodes w' !! b = nodes w !! b)
    /\ (forall g, ticks <$> groups w' !! g = ticks <$> groups w !! g).
Proof.
  induction l as [|[a|] l IH]; intros w w' ks Hnd H; cbn [sweep] in H.
  - injection H as <- <-. cbn. rewrite app_nil_r.
    split; [reflexivity|]. split; [reflexivity|]. split; [|split; reflexivity].
    intros a Ha. inversion Ha.
  - change (omap id (Some a :: l)) with (a :: omap id l) in *.
    apply NoDup_cons in Hnd as [Hnotin Hnd].
    destruct (visit destroys c w a) as [[w1 keep]|] eqn:Hv; [|discriminate].
    destruct (sweep c w1 l) as [[ks1 w2]|] eqn:Hs; [|discriminate].
    injection H as <- <-.
    apply visit_spec in Hv as (-> & Hev & Hother & (nd & Hnda & Hnda1) & Htk).
    apply IH in Hs as (-> & Hev2 & Hin2 & Hout2 & Htk2); [|exact Hnd].
    assert (Hreads : forall b, b ∈ omap id l ->
               expired c w1 b = expired c w b
               /\ sweep_calls c w1 b = sweep_calls c w b
               /\ stamp_after c w1 b = stamp_after c w b).
    { intros b Hb. apply sweep_reads; [|exact Htk].
      apply Hother. intros ->. contradiction. }
    assert (Hfilter : List.filter (fun b => negb (expired c w1 b)) (omap id l)
                      = List.filter (fun b => negb (expired c w b)) (omap id l)).
    { apply filter_same. intros b Hb. now rewrite (proj1 (Hreads b Hb)). }
    split; [|split; [|split; [|split]]].
    + cbn [List.filter]. rewrite Hfilter. now destruct (expired c w a).
    + rewrite Hev2, Hev. cbn [flat_map]. rewrite <- app_assoc. f_equal. f_equal.
      apply flat_map_same. intros b Hb. apply (Hreads b Hb).
    + intros b Hb. apply elem_of_cons in Hb as [->|Hb].
      * exists nd. split; [exact Hnda|]. now rewrite (Hout2 a Hnotin).
      * destruct (Hin2 b Hb) as (ndb & Hb1 & Hb2). exists ndb.
        rewrite Hother in Hb1 by (intros ->; contradiction).
        split; [exact Hb1|]. rewrite Hb2. now rewrite (proj2 (proj2 (Hreads b Hb))).
    + intros b Hb. rewrite not_elem_of_cons in Hb. destruct Hb as [Hba Hb].
      now rewrite (Hout2 b Hb), Hother.
    + intros g. now rewrite Htk2, Htk.
  - change (omap id (None :: l)) with (omap id l) in *. now apply IH.
Qed.

(** A number that is neither NaN nor infinite, as the clock gives it. *)
Definition finite (x : number) : bool :=
  match x with
  | S754_zero _ | S754_finite _ _ _ => true
  | _ => false
  end.

Lemma sub_self (x : number) : finite x = true -> sub x x = S754_zero false.
Proof.
  destruct x as [s|s| |s m e]; try discriminate; intros _.
  - now destruct s.
  - unfold sub, SFsub. cbv zeta. rewrite Z.sub_diag. reflexivity.
Qed.

(** A renderable whose group carries the tick of its instruction set is
    not expired, whatever its stamp was, when the limit is not
    negative. *)
Lemma current_not_expired (c : t) (w : world) (a : nat) :
  current w a = true -> finite (_now c) = true ->
  SFleb zero (maxUnusedTime c) = true ->
  expired c w a = false.
Proof.
  intros Hc Hf Hm. unfold expired, stamp. rewrite Hc.
  destruct (nodes w !! a) as [nd|] eqn:Hnd;
    [|unfold current in Hc; rewrite Hnd in Hc; discriminate].
  rewrite (sub_self _ Hf). unfold gtb, SFltb. rewrite zero_value in Hm.
  rewrite (SFcompare_antisym (S754_zero false) (maxUnusedTime c)).
  unfold SFleb in Hm. destruct (SFcompare (S754_zero false) (maxUnusedTime c)) as [[]|];
    try discriminate; reflexivity.
Qed.

Lemma tick_pass (fuel : nat) (t : Z) :
  forall (w w' : world) (g' : nat),
    _updateInstructionGCTick fuel w g' t = Some w' ->
    nodes w' = nodes w /\ events w' = events w
    /\ forall g grp, groups w !! g = Some grp ->
         exists grp', groups w' !! g = Some grp'
                      /\ RenderGroup.gcTick grp' = RenderGroup.gcTick grp
                      /\ (g = g' \/ InstructionSet.gcTick (RenderGroup.instructionSet grp) = t ->
                          InstructionSet.gcTick (RenderGroup.instructionSet grp') = t).
Proof.
  induction fuel as [|fuel IH]; intros w w' g'; [discriminate|].
  cbn [_updateInstructionGCTick].
  destruct (groups w !! g') as [e|] eqn:He; [|discriminate]. cbn [mbind option_bind].
  set (w0 := set_group g' _ w).
  assert (H0 : forall g grp, groups w !! g = Some grp ->
             exists grp', groups w0 !! g = Some grp'
                          /\ RenderGroup.gcTick grp' = RenderGroup.gcTick grp
                          /\ (g = g' \/ InstructionSet.gcTick (RenderGroup.instructionSet grp) = t ->
                              InstructionSet.gcTick (RenderGroup.instructionSet grp') = t)).
  { intros g grp Hg. unfold w0. cbn [groups set_group set_groups].
    destruct (decide (g' = g)) as [<-|Hne].
    - rewrite lookup_insert_eq. eexists. split; [reflexivity|].
      rewrite He in Hg. injection Hg as <-. split; reflexivity.
    - rewrite lookup_insert_ne by assumption. exists grp.
      split; [exact Hg|]. split; [reflexivity|]. intros [->|H]; [congruence|exact H]. }
  assert (Hfold : forall l wa wb,
             foldl (fun ow r => w ← ow; _updateInstructionGCTick fuel w r t) (Some wa) l
             = Some wb ->
             nodes wb = nodes wa /\ events wb = events wa
             /\ forall g grp, groups wa !! g = Some grp ->
                  exists grp', groups wb !! g = Some grp'
                               /\ RenderGroup.gcTick grp' = RenderGroup.gcTick grp
                               /\ (InstructionSet.gcTick (RenderGroup.instructionSet grp) = t ->
                                   InstructionSet.gcTick (RenderGroup.instructionSet grp') = t)).
  { induction l as [|r l IHl]; intros wa wb H; cbn [foldl] in H.
    - injection H as <-. split; [reflexivity|]. split; [reflexivity|].
      intros g grp Hg. exists grp. auto.
    - cbn [mbind option_bind] in H.
      destruct (_updateInstructionGCTick fuel wa r t) as [wc|] eqn:Hc;
        [|rewrite foldl_bind_None in H; discriminate].
      apply IH in Hc as (Hn1 & He1 & Hg1). apply IHl in H as (Hn2 & He2 & Hg2).
      split; [congruence|]. split; [congruence|].
      intros g grp Hg. destruct (Hg1 g grp Hg) as (grp1 & Hgrp1 & Ht1 & Hi1).
      destruct (Hg2 g grp1 Hgrp1) as (grp2 & Hgrp2 & Ht2 & Hi2).
      exists grp2. split; [exact Hgrp2|]. split; [congruence|].
      intros H. apply Hi2, Hi1. now right. }
  intros H. apply Hfold in H as (Hn & He' & Hg).
  split; [exact Hn|]. split; [exact He'|].
  intros g grp Hgrp. destruct (H0 g grp Hgrp) as (grp0 & Hgrp0 & Ht0 & Hi0).
  destruct (Hg g grp0 Hgrp0) as (grp1 & Hgrp1 & Ht1 & Hi1).
  exists grp1. split; [exact Hgrp1|]. split; [congruence|]. intros H. apply Hi1, Hi0, H.
Qed.

(** After [prerender] on the container [e], the renderables of the
    render group of [e] are current. *)
Lemma prerender_spec (fuel : nat) (c c1 : t) (w w1 : world) (e : nat) (now : number) :
  prerender fuel c w e now = Some (c1, w1) ->
  _managedRenderables c1 = _managedRenderables c
  /\ maxUnusedTime c1 = maxUnusedTime c
  /\ _now c1 = now
  /\ nodes w1 = nodes w /\ events w1 = events w
  /\ forall a nd g,
       (Container.renderGroup <$> nodes w !! e) = Some (Some g) ->
       nodes w !! a = Some nd -> group_of nd = Some g -> current w1 a = true.
Proof.
  unfold prerender.
  destruct (nodes w !! e) as [nde|] eqn:Hnde; [|discriminate]. cbn [mbind option_bind].
  destruct (Container.renderGroup nde) as [g0|] eqn:Hg0; [|discriminate].
  cbn [mbind option_bind].
  destruct (groups w !! g0) as [grp|] eqn:Hgrp; [|discriminate].
  cbn [mbind option_bind]. cbv zeta.
  destruct (_updateInstructionGCTick fuel _ g0 (Ht c)) as [w2|] eqn:H2; [|discriminate].
  cbn [mbind option_bind]. intros H; injection H as <- <-.
  apply tick_pass in H2 as (Hn & He & Hg).
  split; [reflexivity|]. split; [reflexivity|]. split; [reflexivity|].
  split; [exact Hn|]. split; [exact He|].
  intros a nd g Hrg Hnd Hgo. cbn in Hrg. injection Hrg as Hrg. rewrite Hg0 in Hrg.
  injection Hrg as <-.
  destruct (Hg g0 (RenderGroup.set_gcTick (Ht c) grp)) as (grp' & Hgrp' & Ht' & Hi');
    [cbn [groups set_group set_groups]; apply lookup_insert_eq|].
  unfold current. rewrite Hn. cbn [nodes set_group set_groups]. rewrite Hnd, Hgo, Hgrp'.
  cbn. unfold ticks. rewrite Ht', Hi' by (now left). cbn. apply Z.eqb_refl.
Qed.

Lemma NoDup_bool_filter {A} (f : A -> bool) (l : list A) :
  NoDup l -> NoDup (List.filter f l).
Proof.
  induction 1 as [|x l Hx Hl IH]; cbn [List.filter]; [constructor|].
  destruct (f x); [|exact IH]. constructor; [|exact IH].
  rewrite list_elem_of_In, filter_In, <- list_elem_of_In. tauto.
Qed.

Lemma omap_id_Some (ks : list nat) : omap id (map Some ks) = ks.
Proof. induction ks as [|k ks IH]; [reflexivity|]. cbn. now rewrite IH. Qed.

Lemma destroy_call (c : t) (w : world) (a : nat) (l : list nat) :
  destroyRenderable a ∈ flat_map (sweep_calls c w) l ->
  a ∈ l /\ expired c w a = true /\ is_destroyed w a = false.
Proof.
  induction l as [|b l IH]; cbn [flat_map]; intros H; [inversion H|].
  apply elem_of_app in H as [H|H].
  - unfold sweep_calls in H. destruct (expired c w b) eqn:He; [|inversion H].
    destruct (is_destroyed w b) eqn:Hd.
    + apply list_elem_of_singleton in H. discriminate.
    + apply elem_of_cons in H as [H|H];
        [|apply list_elem_of_singleton in H; discriminate].
      injection H as ->. split; [now left|]. now split.
  - destruct (IH H) as (Hin & He). split; [now right|exact He].
Qed.

Lemma off_call (c : t) (w : world) (a : nat) (l : list nat) :
  off_destroyed a ∈ flat_map (sweep_calls c w) l <-> a ∈ l /\ expired c w a = true.
Proof.
  induction l as [|b l IH]; cbn [flat_map].
  - split; [intros H; inversion H|intros [H _]; inversion H].
  - rewrite elem_of_app, IH, elem_of_cons. unfold sweep_calls.
    destruct (expired c w b) eqn:He.
    + rewrite elem_of_app, list_elem_of_singleton.
      split.
      * intros [[H|H]|H]; [destruct (is_destroyed w b); [inversion H|]| |tauto].
        -- apply list_elem_of_singleton in H. discriminate.
        -- injection H as ->. split; [now left|exact He].
      * intros [[->|H] Hx]; [left; right; reflexivity|right; tauto].
    + split.
      * intros [H|H]; [inversion H|tauto].
      * intros [[->|H] Hx]; [congruence|right; tauto].
Qed.

(** The sweep leaves the links of every container and its being current
    as they were. *)
Lemma sweep_keeps (c : t) (l : list (option nat)) (w w' : world) (ks : list nat) :
  NoDup (omap id l) ->
  sweep c w l = Some (ks, w') ->
  forall b, group_of <$> nodes w' !! b = group_of <$> nodes w !! b
            /\ Container.renderGroup <$> nodes w' !! b
               = Container.renderGroup <$> nodes w !! b
            /\ current w' b = current w b.
Proof.
  intros Hnd H b. apply sweep_spec in H as (_ & _ & Hin & Hout & Htk); [|exact Hnd].
  assert (Hshape : group_of <$> nodes w' !! b = group_of <$> nodes w !! b
                   /\ Container.renderGroup <$> nodes w' !! b
                      = Container.renderGroup <$> nodes w !! b).
  { destruct (decide (b ∈ omap id l)) as [Hb|Hb].
    - destruct (Hin b Hb) as (nd & H1 & H2). rewrite H1, H2. split; reflexivity.
    - rewrite (Hout b Hb). split; reflexivity. }
  destruct Hshape as [Hgo Hrg]. split; [exact Hgo|]. split; [exact Hrg|].
  unfold current.
  destruct (nodes w' !! b) as [nd'|], (nodes w !! b) as [nd|]; try discriminate;
    [|reflexivity].
  cbn in Hgo. injection Hgo as ->. destruct (group_of nd); [|reflexivity].
  now rewrite Htk.
Qed.

(** Frames and sweeps in any order. *)
Inductive step := Frame (now : number) | Sweep.

Definition do_step (fuel : nat) (e : nat) (s : option (t * world)) (o : step)
    : option (t * world) :=
  match s with
  | Some (c, w) =>
      match o with
      | Frame now => prerender fuel c w e now
      | Sweep => run destroys c w
      end
  | None => None
  end.

Definition clock_ok (o : step) : Prop :=
  match o with
  | Frame now => finite now = true
  | Sweep => True
  end.

(** What holds of a renderable [a] of the render group [g] of the
    rendered container [e] between frames. *)
Definition settled (a g e : nat) (c : t) (w : world) : Prop :=
  a ∈ tracked c /\ NoDup (tracked c)
  /\ group_of <$> nodes w !! a = Some (Some g)
  /\ Container.renderGroup <$> nodes w !! e = Some (Some g)
  /\ current w a = true
  /\ finite (_now c) = true
  /\ SFleb zero (maxUnusedTime c) = true.

Lemma do_step_settled (fuel : nat) (a g e : nat) (c c' : t) (w w' : world) (o : step) :
  clock_ok o -> settled a g e c w ->
  do_step fuel e (Some (c, w)) o = Some (c', w') ->
  settled a g e c' w'
  /\ exists evs, events w' = events w ++ evs /\ destroyRenderable a ∉ evs.
Proof.
  intros Hok (Hin & Hnd & Hgo & Hrg & Hcur & Hfin & Hmax). destruct o as [now|]; cbn [do_step].
  - intros H. apply prerender_spec in H as (Hm & Hx & Hnow & Hn & He & Hc).
    split; [|exists []; rewrite app_nil_r; split; [exact He|intros H; inversion H]].
    unfold settled, tracked. rewrite Hm, Hx, Hnow, Hn.
    split; [exact Hin|]. split; [exact Hnd|]. split; [exact Hgo|]. split; [exact Hrg|].
    split; [|split; [exact Hok|exact Hmax]].
    destruct (nodes w !! a) as [nd|] eqn:Ha; [|discriminate].
    cbn in Hgo. injection Hgo as Hgo. now apply (Hc a nd g).
  - rewrite run_sweep. destruct (sweep c w _) as [[ks w1]|] eqn:Hs; [|discriminate].
    intros H; injection H as <- <-.
    pose proof (sweep_keeps c _ w w1 ks Hnd Hs) as Hk.
    apply sweep_spec in Hs as (-> & Hev & _); [|exact Hnd].
    pose proof (current_not_expired c w a Hcur Hfin Hmax) as Hexp.
    split.
    + unfold settled, tracked. cbn [_managedRenderables set_managedRenderables
                                     maxUnusedTime _now].
      rewrite omap_id_Some.
      split; [apply list_elem_of_In, filter_In; split;
              [now apply list_elem_of_In|now rewrite Hexp]|].
      split; [now apply NoDup_bool_filter|].
      destruct (Hk a) as (H1 & _ & H3). destruct (Hk e) as (_ & H2 & _).
      split; [now rewrite H1|]. split; [now rewrite H2|]. split; [now rewrite H3|].
      split; assumption.
    + eexists. split; [exact Hev|]. intros H. apply destroy_call in H as (_ & H & _).
      congruence.
Qed.

(** A renderable of the render group of the container that every frame
    renders stays tracked and is never handed to [destroyRenderable],
    however many frames and sweeps follow the first frame. *)
Lemma rendered_group_keeps_its_renderables (fuel : nat) (a g e : nat) (os : list step) :
  forall (c c' : t) (w w' : world),
    Forall clock_ok os -> settled a g e c w ->
    foldl (do_step fuel e) (Some (c, w)) os = Some (c', w') ->
    settled a g e c' w'
    /\ exists evs, events w' = events w ++ evs /\ destroyRenderable a ∉ evs.
Proof.
  induction os as [|o os IH]; intros c c' w w' Hok Hs H; cbn [foldl] in H.
  - injection H as <- <-. split; [exact Hs|]. exists []. rewrite app_nil_r.
    split; [reflexivity|intros H; inversion H].
  - apply Forall_cons in Hok as [Ho Hok].
    destruct (do_step fuel e (Some (c, w)) o) as [[c1 w1]|] eqn:H1.
    + destruct (do_step_settled fuel a g e c c1 w w1 o Ho Hs H1) as (Hs1 & e1 & He1 & Hn1).
      destruct (IH c1 c' w1 w' Hok Hs1 H) as (Hs2 & e2 & He2 & Hn2).
      split; [exact Hs2|]. exists (e1 ++ e2).
      split; [rewrite He2, He1; now rewrite app_assoc|].
      rewrite elem_of_app. tauto.
    + exfalso. clear -H. induction os; cbn [foldl] in H; [discriminate|auto].
Qed.

(** *** The sweep returns *)

(** A tracked renderable the sweep can visit without a failing property
    read or call: it has a container whose pipe has a method
    [destroyRenderable], and its render group, if it has one, exists. *)
Definition visitable (w : world) (a : nat) : Prop :=
  exists nd, nodes w !! a = Some nd
             /\ (exists id, Container.renderPipeId nd = Some id /\ destroys id = true)
             /\ forall g, group_of nd = Some g -> is_Some (groups w !! g).

Lemma visit_returns (c : t) (w : world) (a : nat) :
  visitable w a -> exists w1 keep, visit destroys c w a = Some (w1, keep).
Proof.
  intros (nd & Hnd & (id & Hid & Hdes) & Hg). unfold visit. rewrite Hnd.
  cbn [mbind option_bind].
  destruct (group_of nd) as [g|] eqn:Hgo.
  - destruct (Hg g eq_refl) as [grp Hgrp]. rewrite Hgrp. cbn [fmap option_fmap option_map
                                                               mbind option_bind].
    cbv zeta. destruct (gtb _ _); [|eauto].
    destruct (Container.destroyed _); cbn [mbind option_bind]; [eauto|].
    destruct (same_tick (Some grp)); cbn [Container.renderPipeId Container.set_lastUsed];
      rewrite Hid; cbn [mbind option_bind]; rewrite Hdes; cbn [mbind option_bind]; eauto.
  - cbn [mbind option_bind]. cbv zeta. destruct (gtb _ _); [|eauto].
    destruct (Container.destroyed _); cbn [mbind option_bind]; [eauto|].
    cbn [same_tick]. rewrite Hid. cbn [mbind option_bind]. rewrite Hdes.
    cbn [mbind option_bind]. eauto.
Qed.

Lemma visit_visitable (c : t) (w w1 : world) (a b : nat) (keep : bool) :
  visit destroys c w a = Some (w1, keep) -> visitable w b -> visitable w1 b.
Proof.
  intros H (nd & Hnd & Hid & Hg).
  apply visit_spec in H as (_ & _ & Hother & (nda & Ha & Ha1) & Htk).
  assert (Hgroups : forall g, is_Some (groups w !! g) -> is_Some (groups w1 !! g)).
  { intros g [grp Hgrp]. specialize (Htk g). rewrite Hgrp in Htk.
    destruct (groups w1 !! g); [eauto|discriminate]. }
  destruct (decide (b = a)) as [->|Hne].
  - rewrite Ha in Hnd. injection Hnd as <-.
    eexists. split; [exact Ha1|]. split; [exact Hid|].
    intros g Hgo. apply Hgroups, Hg, Hgo.
  - exists nd. rewrite Hother by assumption. split; [exact Hnd|]. split; [exact Hid|].
    intros g Hgo. apply Hgroups, Hg, Hgo.
Qed.

Lemma sweep_returns (c : t) (l : list (option nat)) :
  forall w, (forall a, a ∈ omap id l -> visitable w a) ->
            exists ks w', sweep c w l = Some (ks, w').
Proof.
  induction l as [|[a|] l IH]; intros w Hv; cbn [sweep]; [eauto| |].
  - change (omap id (Some a :: l)) with (a :: omap id l) in Hv.
    destruct (visit_returns c w a) as (w1 & keep & H1); [apply Hv; now left|].
    rewrite H1.
    destruct (IH w1) as (ks & w2 & H2).
    + intros b Hb. eapply visit_visitable; [exact H1|]. apply Hv. now right.
    + rewrite H2. eauto.
  - apply IH. exact Hv.
Qed.

(** On a store in which every tracked renderable can be visited, the
    sweep returns. *)
Lemma run_returns (c : t) (w : world) :
  (forall a, a ∈ tracked c -> visitable w a) -> exists c' w', run destroys c w = Some (c', w').
Proof.
  intros Hv. rewrite run_sweep.
  destruct (sweep_returns c _ w Hv) as (ks & w' & ->). eauto.
Qed.

Lemma destroy_call_iff (c : t) (w : world) (a : nat) (l : list nat) :
  destroyRenderable a ∈ flat_map (sweep_calls c w) l
  <-> a ∈ l /\ expired c w a = true /\ is_destroyed w a = false.
Proof.
  split; [apply destroy_call|]. intros (Hin & He & Hd).
  induction l as [|b l IH]; [inversion Hin|]. cbn [flat_map]. rewrite elem_of_app.
  apply elem_of_cons in Hin as [<-|Hin]; [left|right; auto].
  unfold sweep_calls. rewrite He, Hd. now left.
Qed.

End GCFacts.

(** What a sweep of the renderable collector does when it returns.  It
    looks at every tracked renderable once.  The stamp of a renderable
    is first renewed when the gcTick of its render group equals the
    gcTick of the group's instruction set.  The renderable is then
    dropped exactly when the time of the last frame minus its stamp
    exceeds the maximum unused time (60000 ms by default): it is handed
    to [destroyRenderable] unless it is destroyed already, its stamp
    becomes -1 and its [destroyed] handler is unsubscribed.  The list is
    compacted in place to the renderables that stay, in their order.  A
    renderable whose ticks agree is not dropped when the limit is not
    negative.  [prerender] makes the ticks agree for the render group
    of the rendered container, so a renderable of that group stays
    tracked and is never handed to [destroyRenderable], however many
    frames and sweeps follow. *)
Theorem sweep_destroys_exactly_the_expired (destroys : string -> bool)
    (c c' : RenderableGC.t) (w w' : Scene.world) :
  NoDup (tracked c) ->
  RenderableGC.run destroys c w = Some (c', w') ->
  RenderableGC._managedRenderables c'
    = map Some (List.filter (fun a => negb (expired c w a)) (tracked c))
  /\ RenderableGC.maxUnusedTime c' = RenderableGC.maxUnusedTime c
  /\ RenderableGC._now c' = RenderableGC._now c
  /\ Scene.events w' = Scene.events w ++ flat_map (sweep_calls c w) (tracked c)
  /\ (forall a, a ∈ tracked c ->
        (a ∈ tracked c' <-> expired c w a = false)
        /\ (Scene.off_destroyed a ∈ flat_map (sweep_calls c w) (tracked c)
            <-> expired c w a = true)
        /\ (Scene.destroyRenderable a ∈ flat_map (sweep_calls c w) (tracked c)
            <-> expired c w a = true /\ is_destroyed w a = false)
        /\ exists nd, Scene.nodes w !! a = Some nd
                      /\ Scene.nodes w' !! a
                         = Some (Container.set_lastUsed (stamp_after c w a) nd))
  /\ (forall a, current w a = true ->
        stamp c w a = RenderableGC._now c
        /\ (finite (RenderableGC._now c) = true ->
            SFleb Number.zero (RenderableGC.maxUnusedTime c) = true ->
            expired c w a = false))
  /\ RenderableGC.maxUnusedTime
       (RenderableGC.init c (RenderableGC.mkOptions RenderableGC.Absent
                               RenderableGC.Absent RenderableGC.Absent))
     = Number.ofZ 60000
  /\ (forall fuel a g e os c0 c1 w0 w1,
        Forall clock_ok os -> settled a g e c0 w0 ->
        foldl (do_step destroys fuel e) (Some (c0, w0)) os = Some (c1, w1) ->
        a ∈ tracked c1
        /\ exists evs, Scene.events w1 = Scene.events w0 ++ evs
                       /\ Scene.destroyRenderable a ∉ evs).
Proof.
  intros Hnd Hrun. rewrite run_sweep in Hrun.
  destruct (sweep destroys c w _) as [[ks wz]|] eqn:Hs; [|discriminate].
  injection Hrun as <- <-.
  apply sweep_spec in Hs as (-> & Hev & Hin & _); [|exact Hnd].
  split; [reflexivity|]. split; [reflexivity|]. split; [reflexivity|].
  split; [exact Hev|]. split; [|split; [|split]].
  - intros a Ha. split; [|split; [|split]].
    + unfold tracked at 1. cbn [RenderableGC._managedRenderables
                                 RenderableGC.set_managedRenderables].
      rewrite omap_id_Some, list_elem_of_In, filter_In, <- list_elem_of_In.
      destruct (expired c w a); cbn; intuition congruence.
    + rewrite off_call. tauto.
    + rewrite destroy_call_iff. tauto.
    + apply Hin, Ha.
  - intros a Hc. split.
    + unfold stamp. rewrite Hc. unfold current in Hc.
      destruct (Scene.nodes w !! a); [reflexivity|discriminate].
    + now apply current_not_expired.
  - reflexivity.
  - intros fuel a g e os c0 c1 w0 w1 Hok Hset H.
    destruct (rendered_group_keeps_its_renderables destroys fuel a g e os c0 c1 w0 w1
                Hok Hset H)
      as ((Ha & _) & Hevs).
    split; assumption.
Qed.

(** The sweep after the second frame of the sample scene, 70 seconds
    after the first: the renderable belongs to the render group of the
    stage, its stamp is renewed and it stays tracked. *)
Lemma sweep_destroys_exactly_the_expired_witness :
  NoDup (tracked (fst Sample.before_sweep))
  /\ RenderableGC.run Sample.pipes (fst Sample.before_sweep) (snd Sample.before_sweep)
     = Some Sample.after_sweep
  /\ RenderableGC._managedRenderables (fst Sample.after_sweep) = [Some 2%nat]
  /\ Scene.events (snd Sample.after_sweep) = Scene.events (snd Sample.before_sweep).
Proof.
  assert (H1 : NoDup (tracked (fst Sample.before_sweep)))
    by (vm_compute; apply NoDup_singleton).
  assert (H2 : RenderableGC.run Sample.pipes (fst Sample.before_sweep)
                 (snd Sample.before_sweep)
               = Some Sample.after_sweep) by (vm_compute; reflexivity).
  split; [exact H1|]. split; [exact H2|].
  destruct Sample.after_sweep as [c' w'] eqn:Hafter.
  destruct (sweep_destroys_exactly_the_expired Sample.pipes (fst Sample.before_sweep) c'
              (snd Sample.before_sweep) w' H1 H2) as (Hm & _ & _ & Hev & _).
  cbn [fst snd]. split.
  - rewrite Hm. vm_compute. reflexivity.
  - rewrite Hev. vm_compute. reflexivity.
Defined.

(** C7 at the input where the program departs from it.  In the nested
    scene the renderable 2, which the custom-render pipe draws, belongs
    to the render group 200 of the card; the card is rendered with the
    stage in both frames, at the times 0 and 70000.  [prerender] writes
    the tick of the frame to the instruction set of every group below
    the stage but to the [gcTick] of the stage group only: after the
    second frame the stage group has the ticks (1, 1) and the group of
    the card (0, 1).  The sweep compares the two, does not renew the
    stamp of the renderable, and hands it to [destroyRenderable]
    although its render group was rendered in this very frame. *)
Lemma renderable_of_a_nested_group_is_destroyed :
  RenderableGC._managedRenderables (fst Sample.nested_before_sweep) = [Some 2%nat]
  /\ RenderableGC.group_of <$> Scene.nodes (snd Sample.nested_before_sweep) !! 2%nat
     = Some (Some 200%nat)
  /\ ticks <$> Scene.groups (snd Sample.nested_before_sweep) !! 100%nat = Some (1, 1)
  /\ ticks <$> Scene.groups (snd Sample.nested_before_sweep) !! 200%nat = Some (0, 1)
  /\ exists (c' : RenderableGC.t) (w' : Scene.world),
       RenderableGC.run Sample.pipes (fst Sample.nested_before_sweep)
         (snd Sample.nested_before_sweep)
       = Some (c', w')
       /\ RenderableGC._managedRenderables c' = []
       /\ Scene.events w'
          = Scene.events (snd Sample.nested_before_sweep)
            ++ [Scene.destroyRenderable 2; Scene.off_destroyed 2].
Proof.
  split; [vm_compute; reflexivity|]. split; [vm_compute; reflexivity|].
  split; [vm_compute; reflexivity|]. split; [vm_compute; reflexivity|].
  eexists _, _. split; [vm_compute; reflexivity|]. split; vm_compute; reflexivity.
Qed.

(** The sprite pipe has no method [destroyRenderable]: the sweep that
    finds a tracked sprite expired throws. *)
Lemma expired_sprite_stops_the_sweep :
  RenderableGC.run Sample.pipes (fst Sample.nested_sprite_before_sweep)
    (snd Sample.nested_sprite_before_sweep) = None.
Proof. vm_compute. reflexivity. Qed.

(** ** Cleaning of managed hashes and arrays *)

Section CleanFacts.
Import Renderer Clean.

Lemma pt_loop (n : object) (acc : object) :
  fold_left (fun t kv => if truthy (snd kv) then t ++ [kv] else t) n acc
  = acc ++ List.filter (fun kv => truthy (snd kv)) n.
Proof.
  revert acc. induction n as [|kv n IH]; intros acc; cbn [fold_left List.filter].
  - now rewrite app_nil_r.
  - rewrite IH. destruct (truthy (snd kv)); [|reflexivity].
    now rewrite <- app_assoc.
Qed.

Lemma truthy_not_nullish (v : jsval) : truthy v = true -> nullish v = false.
Proof. now destruct v. Qed.

Lemma filter_truthy_clean (n : object) :
  existsb (fun kv => nullish (snd kv)) (List.filter (fun kv => truthy (snd kv)) n) = false.
Proof.
  induction n as [|kv n IH]; [reflexivity|]. cbn [List.filter].
  destruct (truthy (snd kv)) eqn:Ht; [|exact IH].
  cbn [existsb]. now rewrite (truthy_not_nullish _ Ht), IH.
Qed.

Lemma filter_filter_same {A} (f : A -> bool) (l : list A) :
  List.filter f (List.filter f l) = List.filter f l.
Proof.
  induction l as [|x l IH]; [reflexivity|]. cbn [List.filter].
  destruct (f x) eqn:Hx; [|exact IH]. cbn [List.filter]. now rewrite Hx, IH.
Qed.

Lemma pt_eq (n : object) :
  pt n = if existsb (fun kv => nullish (snd kv)) n
         then List.filter (fun kv => truthy (snd kv)) n
         else n.
Proof.
  unfold pt. destruct (existsb _ n); cbn [negb]; [|reflexivity].
  now rewrite pt_loop.
Qed.

(** [pt] hands back an object without [null] or [undefined] values, in
    which every truthy entry of the argument is kept in its place; an
    object that holds no such value is handed back as it is, falsy
    values included, and otherwise every falsy value is dropped with the
    empty ones.  Cleaning a cleaned object changes nothing. *)
Theorem pt_drops_the_empty_entries (n : object) :
  existsb (fun kv => nullish (snd kv)) (pt n) = false
  /\ List.filter (fun kv => truthy (snd kv)) (pt n)
     = List.filter (fun kv => truthy (snd kv)) n
  /\ (if existsb (fun kv => nullish (snd kv)) n
      then pt n = List.filter (fun kv => truthy (snd kv)) n
      else pt n = n)
  /\ pt (pt n) = pt n.
Proof.
  rewrite !pt_eq.
  destruct (existsb (fun kv => nullish (snd kv)) n) eqn:He.
  - rewrite filter_truthy_clean. split; [reflexivity|].
    split; [apply filter_filter_same|]. split; reflexivity.
  - rewrite He. split; [reflexivity|]. split; [reflexivity|]. split; reflexivity.
Qed.

(** The loop of [mt] after [k] turns: the entries that stay are at the
    front, in order, and the rest of the array is untouched. *)
Lemma mt_loop (n : list jsval) (k : nat) :
  (k <= length n)%nat ->
  let '(m, e) := foldl mt_step (n, 0%nat) (seq 0 k) in
  length m = length n
  /\ (e <= k)%nat
  /\ take (k - e) m = List.filter (fun v => negb (nullish v)) (take k n)
  /\ drop k m = drop k n.
Proof.
  induction k as [|k IH]; intros Hk.
  - cbn [seq foldl]. rewrite !take_0, !drop_0. now cbn.
  - rewrite seq_S, foldl_app. cbn [foldl Nat.add].
    specialize (IH ltac:(lia)).
    destruct (foldl mt_step (n, 0%nat) (seq 0 k)) as [m e].
    destruct IH as (Hlen & He & Htake & Hdrop).
    assert (Hk' : is_Some (n !! k)) by (apply lookup_lt_is_Some; lia).
    destruct Hk' as [v Hv].
    assert (Hm : m !! k = Some v).
    { rewrite <- (Nat.add_0_r k), <- lookup_drop, Hdrop, lookup_drop, Nat.add_0_r.
      exact Hv. }
    assert (Hdrop' : drop (S k) m = drop (S k) n).
    { rewrite <- (Nat.add_1_r k), <- !drop_drop, Hdrop. reflexivity. }
    rewrite (take_S_r n k v Hv), List.filter_app. cbn [List.filter].
    unfold mt_step. rewrite Hm. destruct (nullish v) eqn:Hnull; cbn [negb].
    + split; [exact Hlen|]. split; [lia|]. split; [|exact Hdrop'].
      rewrite app_nil_r. replace (S k - S e)%nat with (k - e)%nat by lia. exact Htake.
    + rewrite length_insert. split; [exact Hlen|]. split; [lia|]. split.
      * replace (S k - e)%nat with (S (k - e)) by lia.
        rewrite (take_S_r _ _ v) by (apply list_lookup_insert_eq; lia).
        rewrite take_insert_ge by lia. now rewrite Htake.
      * rewrite drop_insert_lt by lia. exact Hdrop'.
Qed.

Lemma mt_filter (n : list jsval) :
  mt n = List.filter (fun v => negb (nullish v)) n.
Proof.
  unfold mt. pose proof (mt_loop n (length n) (le_n _)) as H.
  destruct (foldl mt_step (n, 0%nat) (seq 0 (length n))) as [m e].
  destruct H as (Hlen & He & Htake & _).
  rewrite Hlen, Htake. now rewrite firstn_all.
Qed.

(** [mt] compacts an array in place: what it hands back are the entries
    that are neither [null] nor [undefined], in their order, other falsy
    values included; compacting twice is compacting once. *)
Theorem mt_keeps_the_entries_in_order (n : list jsval) :
  mt n = List.filter (fun v => negb (nullish v)) n
  /\ mt (mt n) = mt n.
Proof.
  split; [apply mt_filter|]. rewrite !mt_filter. apply filter_filter_same.
Qed.

End CleanFacts.

(** ** Runner: membership after registration calls *)

Section RunnerMembership.
Import Runner.

Variable defines : obj -> string -> bool.

Lemma indexOf_notin (l : list obj) (e : obj) : indexOf l e = -1 <-> e ∉ l.
Proof.
  induction l as [|x l IH]; cbn [indexOf].
  - split; [intros _; apply not_elem_of_nil|reflexivity].
  - rewrite not_elem_of_cons. destruct (Nat.eqb_spec x e) as [->|Hne].
    + split; [discriminate|intros [H _]; congruence].
    + destruct (Z.eqb_spec (indexOf l e) (-1)) as [Hm|Hm].
      * split; [intros _; split; [congruence|now apply IH]|reflexivity].
      * destruct (indexOf_range l e) as [?|Hr]; [contradiction|].
        split; [lia|]. intros [_ H]. apply IH in H. contradiction.
Qed.

Lemma contains_elem (r : runner) (e : obj) : contains r e = true <-> e ∈ items r.
Proof.
  unfold contains. pose proof (indexOf_notin (items r) e) as H.
  destruct (Z.eqb_spec (indexOf (items r) e) (-1)) as [Hm|Hm]; cbn [negb].
  - split; [discriminate|]. intros Hin. now apply H in Hm.
  - split; [|reflexivity]. intros _. destruct (decide (e ∈ items r)); [assumption|].
    now apply H in n.
Qed.

Lemma contains_decide (r : runner) (e : obj) : contains r e = bool_decide (e ∈ items r).
Proof.
  destruct (contains r e) eqn:H.
  - symmetry. now apply bool_decide_eq_true, contains_elem.
  - symmetry. apply bool_decide_eq_false. intros Hin. apply contains_elem in Hin. congruence.
Qed.

Lemma runner_eq (r r' : runner) : items r = items r' -> _name r = _name r' -> r = r'.
Proof. destruct r, r'; cbn. now intros -> ->. Qed.

Lemma remove_first_snoc (e : obj) (l : list obj) :
  e ∉ l -> remove_first e (l ++ [e]) = l.
Proof.
  induction l as [|x l IH]; cbn [app remove_first].
  - now rewrite Nat.eqb_refl.
  - rewrite not_elem_of_cons. intros [Hne Hl].
    destruct (Nat.eqb_spec x e); [congruence|]. now rewrite IH.
Qed.

(** [remove(e)] takes back [add(e)]: on a runner that does not hold the
    handler [e], adding and then removing it gives the runner as it was,
    whether or not [e] carries the method of the runner. *)
Theorem runner_remove_undoes_add (r : runner) (e : obj) :
  contains r e = false -> remove (add defines r e) e = r.
Proof.
  intros Hc.
  assert (Hnotin : e ∉ items r).
  { intros Hin. apply contains_elem in Hin. congruence. }
  apply runner_eq; [|now rewrite remove_name, add_name].
  rewrite remove_items, add_items. destruct (defines e (_name r)).
  - rewrite (remove_first_notin e _ Hnotin). now apply remove_first_snoc.
  - now apply remove_first_notin.
Qed.


(** Who is registered after [add(e)] and after [remove(e)], on a runner
    without repetitions: [add] registers [e] when it carries the method
    of the runner and touches no other handler; [remove] unregisters
    [e] and touches no other handler. *)
Theorem runner_membership_after_add_and_remove (r : runner) (e x : obj) :
  NoDup (items r) ->
  contains (add defines r e) x
  = (if Nat.eqb x e then defines e (_name r) || contains r e else contains r x)
  /\ contains (remove r e) x = (if Nat.eqb x e then false else contains r x).
Proof.
  intros Hnd. rewrite !contains_decide, add_items, remove_items.
  destruct (NoDup_remove_first defines e _ Hnd) as [_ Hnotin].
  destruct (Nat.eqb_spec x e) as [->|Hne]; split.
  - destruct (defines e (_name r)); cbn [orb].
    + apply bool_decide_eq_true. apply elem_of_app. right. now apply list_elem_of_singleton.
    + reflexivity.
  - now apply bool_decide_eq_false.
  - apply bool_decide_ext.
    destruct (defines e (_name r)); [|reflexivity].
    rewrite elem_of_app, list_elem_of_singleton, (elem_of_remove_first_ne defines e x _ Hne).
    tauto.
  - apply bool_decide_ext.
    now apply (elem_of_remove_first_ne defines).
Qed.


End RunnerMembership.

Lemma runner_remove_undoes_add_witness :
  Runner.contains (Runner.mkRunner [1; 2]%nat "render") 3%nat = false
  /\ Runner.remove (Runner.add (fun _ _ => true) (Runner.mkRunner [1; 2]%nat "render") 3%nat) 3%nat
     = Runner.mkRunner [1; 2]%nat "render".
Proof.
  split; [reflexivity|].
  apply (runner_remove_undoes_add (fun _ _ => true) (Runner.mkRunner [1; 2]%nat "render") 3%nat). reflexivity.
Defined.

Lemma runner_membership_witness :
  NoDup [1; 2]%nat
  /\ Runner.contains (Runner.add (fun _ _ => true) (Runner.mkRunner [1; 2]%nat "render") 1%nat) 2%nat = true
  /\ Runner.contains (Runner.remove (Runner.mkRunner [1; 2]%nat "render") 1%nat) 1%nat = false.
Proof.
  assert (H : NoDup [1; 2]%nat)
    by (apply NoDup_cons; split; [now apply not_elem_of_cons|apply NoDup_singleton]).
  split; [exact H|].
  destruct (runner_membership_after_add_and_remove (fun _ _ => true)
              (Runner.mkRunner [1; 2]%nat "render")
              1%nat 2%nat H) as [H1 _].
  destruct (runner_membership_after_add_and_remove (fun _ _ => true)
              (Runner.mkRunner [1; 2]%nat "render")
              1%nat 1%nat H) as [_ H2].
  split; [exact H1|exact H2].
Defined.

(** ** Clearing an update list (function [q]) *)

Section ClearFacts.
Import Scene.

(** The length of the run of filled slots a list starts with. *)
Fixpoint filled_run (l : list (option nat)) : nat :=
  match l with
  | Some _ :: l' => S (filled_run l')
  | _ => 0
  end.

Lemma q_from_run (l : list (option nat)) :
  q_from l = replicate (filled_run l) None ++ drop (filled_run l) l.
Proof.
  induction l as [|[a|] l IH]; [reflexivity| |reflexivity].
  cbn [q_from filled_run replicate drop app]. now rewrite IH.
Qed.

Lemma q_from_length (l : list (option nat)) : length (q_from l) = length l.
Proof. induction l as [|[a|] l IH]; cbn [q_from length]; congruence. Qed.

Lemma q_from_twice (l : list (option nat)) : q_from (q_from l) = q_from l.
Proof. destruct l as [|[a|] l]; reflexivity. Qed.

(** [q(n,e)] empties the run of filled slots that starts at slot [e] and
    nothing else: the slots below [e] and the slots from the first empty
    one on keep what they hold, the array keeps its length, and clearing
    again from the same slot changes nothing. *)
Theorem q_clears_one_run (n : list (option nat)) (e : nat) :
  q n e = take e n ++ replicate (filled_run (drop e n)) None
            ++ drop (e + filled_run (drop e n)) n
  /\ length (q n e) = length n
  /\ q (q n e) e = q n e.
Proof.
  unfold q at 1 2 4. split; [|split].
  - rewrite q_from_run, drop_drop. reflexivity.
  - rewrite length_app, q_from_length, <- length_app, take_drop. reflexivity.
  - destruct (Nat.le_gt_cases e (length n)) as [Hle|Hgt].
    + unfold q. rewrite take_app_length' by (rewrite length_take; lia).
      rewrite drop_app_length' by (rewrite length_take; lia).
      now rewrite q_from_twice.
    + unfold q. rewrite !(drop_ge n e) by lia. cbn [q_from].
      rewrite app_nil_r, (take_ge n e) by lia.
      rewrite (take_ge n e), (drop_ge n e) by lia. now rewrite app_nil_r.
Qed.

End ClearFacts.

(** ** Validation of the queued renderables (function [st]) *)

Section ValidationFacts.
Import Number Scene.
Variable X : externals.

(** The renderables that are validated when the queue holds [l]: all up
    to the first one that asks for a rebuild, that one included. *)
Fixpoint validated_until (w : world) (l : list nat) : list nat :=
  match l with
  | [] => []
  | a :: l' => a :: (if asks_rebuild X w (Some a) then [] else validated_until w l')
  end.

Lemma validated_until_log (e : event) (w : world) (l : list nat) :
  validated_until (log e w) l = validated_until w l.
Proof.
  induction l as [|a l IH]; [reflexivity|]. cbn [validated_until]. rewrite IH.
  reflexivity.
Qed.

Lemma st_loop_stops (t : list (option nat)) (ix : list nat) (w w1 : world) (s : bool) :
  st_loop X w t ix = Some (w1, s) ->
  w1 = logs (map validateRenderable
               (validated_until w (omap (fun i => mjoin (t !! i)) ix))) w
  /\ (s = true ->
      exists a, last (validated_until w (omap (fun i => mjoin (t !! i)) ix)) = Some a
                /\ validate X w a = Some true).
Proof.
  revert w. induction ix as [|i ix IH]; intros w H.
  - inversion H; subst. split; [now rewrite logs_nil|discriminate].
  - cbn [st_loop] in H. unfold mbind, option_bind in H. cbn beta iota in H.
    cbn [omap list_omap].
    destruct (mjoin (t !! i)) as [a|] eqn:Ha; [|discriminate].
    cbn [validated_until asks_rebuild].
    destruct (validate X w a) as [[|]|] eqn:Hv; [| |discriminate].
    + inversion H; subst. split; [reflexivity|]. intros _. exists a. now split.
    + apply IH in H as (Hw & Hs). rewrite validated_until_log in Hw, Hs. split.
      * rewrite Hw. cbn [map]. rewrite (log_logs (validateRenderable a)), logs_logs.
        reflexivity.
      * intros Htrue. destruct (Hs Htrue) as (b & Hlast & Hb). exists b.
        split; [|exact Hb].
        destruct (validated_until w _) as [|c l] eqn:Hl; [discriminate|].
        now rewrite last_cons, Hlast.
Qed.

(** [st] validates the queued renderables in the order of the queue and
    stops at the first one that asks for a rebuild: the renderables
    queued behind it are not validated in that pass, and nothing but the
    flag of the group is written. *)
Theorem validation_stops_at_the_first_failure (w w1 : world) (g : nat)
    (n : RenderGroup.t) (s : bool) :
  groups w !! g = Some n ->
  st X w g = Some (w1, s) ->
  let queue := queued (UpdateList.list (RenderGroup.childrenRenderablesToUpdate n))
                 (UpdateList.index (RenderGroup.childrenRenderablesToUpdate n)) in
  events w1 = events w ++ map validateRenderable (validated_until w queue)
  /\ nodes w1 = nodes w
  /\ groups w1 = <[g := RenderGroup.set_structureDidChange s n]> (groups w)
  /\ (s = true ->
      exists a, last (validated_until w queue) = Some a /\ validate X w a = Some true).
Proof.
  intros Hn. unfold st. rewrite Hn. unfold mbind, option_bind; cbn beta iota.
  destruct (st_loop X w _ _) as [[w0 s0]|] eqn:Hl; [|discriminate].
  apply st_loop_stops in Hl as (-> & Hs).
  change (groups (logs ?v w)) with (groups w). rewrite Hn.
  intros H; injection H as <- <-. cbv zeta.
  split; [reflexivity|]. split; [reflexivity|]. split; [reflexivity|exact Hs].
Qed.

End ValidationFacts.

Lemma validation_stops_witness :
  Scene.groups Sample.scene_texture_changed !! 100%nat
  = Some Sample.stage_group_texture_changed
  /\ exists w1,
       Scene.st Sample.X_new_texture Sample.scene_texture_changed 100%nat = Some (w1, true)
       /\ Scene.events w1
          = Scene.events Sample.scene_texture_changed ++ [Scene.validateRenderable 2%nat].
Proof.
  assert (H1 : Scene.groups Sample.scene_texture_changed !! 100%nat
               = Some Sample.stage_group_texture_changed) by (vm_compute; reflexivity).
  split; [exact H1|].
  destruct (Scene.st Sample.X_new_texture Sample.scene_texture_changed 100%nat)
    as [[w1 s]|] eqn:H2; [|vm_compute in H2; discriminate].
  assert (Hs : s = true) by (vm_compute in H2; congruence).
  subst s. exists w1. split; [reflexivity|].
  destruct (validation_stops_at_the_first_failure Sample.X_new_texture _ _ _ _ _ H1 H2)
    as (Hev & _).
  rewrite Hev. vm_compute. reflexivity.
Defined.

(** ** The renderable collector: what it tracks *)

Section CollectorProtocol.
Import Number Scene RenderableGC.

(** The pipes that have a method [destroyRenderable]. *)
Variable destroys : string -> bool.

(** The calls that reach a collector: [prerender] from the renderer,
    [addRenderable] from the pipes, [_removeRenderable] from the
    [destroyed] event of a renderable, and [run] from the scheduler.
    A sequence of calls has a result as long as none of them throws. *)
Inductive gc_call :=
| Prerender (e : nat) (now : number)
| AddRenderable (e : nat)
| RemoveRenderable (e : nat)
| Run.

Definition do_call (fuel : nat) (s : option (t * world)) (o : gc_call)
    : option (t * world) :=
  match s with
  | Some (c, w) =>
      match o with
      | Prerender e now => prerender fuel c w e now
      | AddRenderable e => addRenderable c w e
      | RemoveRenderable e => Some (_removeRenderable c w e)
      | Run => run destroys c w
      end
  | None => None
  end.

(** The clock never reads -1, the value that marks a renderable as not
    tracked. *)
Definition clock_not_mark (o : gc_call) : Prop :=
  match o with
  | Prerender _ now => eqb now (ofZ (-1)) = false
  | _ => True
  end.

(** The protocol of the [_lastUsed] mark: no renderable is listed twice,
    and a listed renderable does not carry the mark -1. *)
Definition marked_once (c : t) (w : world) : Prop :=
  NoDup (tracked c)
  /\ eqb (_now c) (ofZ (-1)) = false
  /\ forall a, a ∈ tracked c ->
       exists nd, nodes w !! a = Some nd
                  /\ eqb (Container._lastUsed nd) (ofZ (-1)) = false.

Lemma addRenderable_marked (c c' : t) (w w' : world) (e : nat) :
  marked_once c w -> addRenderable c w e = Some (c', w') -> marked_once c' w'.
Proof.
  intros (Hnd & Hnow & Hm). unfold addRenderable.
  destruct (enabled c); [|intros H; injection H as <- <-; now split].
  destruct (nodes w !! e) as [nd|] eqn:Hnde; [|discriminate]. cbn [mbind option_bind].
  destruct (eqb (Container._lastUsed nd) (ofZ (-1))) eqn:Hmark;
    intros H; injection H as <- <-.
  - assert (Hnotin : e ∉ tracked c).
    { intros Hin. destruct (Hm e Hin) as (nd' & H1 & H2). congruence. }
    unfold marked_once, tracked. cbn [_managedRenderables set_managedRenderables _now].
    rewrite omap_app. cbn [omap list_omap id app]. split; [|split; [exact Hnow|]].
    + apply NoDup_app. split; [exact Hnd|]. split; [|apply NoDup_singleton].
      intros x Hx Hx'. apply list_elem_of_singleton in Hx'. now subst.
    + intros a Ha. cbn [nodes set_node set_nodes log].
      destruct (decide (a = e)) as [->|Hne].
      * rewrite lookup_insert_eq. eexists. split; [reflexivity|exact Hnow].
      * rewrite lookup_insert_ne by congruence. apply Hm.
        apply elem_of_app in Ha as [Ha|Ha]; [exact Ha|].
        apply list_elem_of_singleton in Ha. contradiction.
  - split; [exact Hnd|]. split; [exact Hnow|].
    intros a Ha. cbn [nodes set_node set_nodes].
    destruct (decide (a = e)) as [->|Hne].
    + rewrite lookup_insert_eq. eexists. split; [reflexivity|exact Hnow].
    + rewrite lookup_insert_ne by congruence. now apply Hm.
Qed.

(** Emptying the slot of [e] takes [e], and nothing else, out of the
    tracked renderables. *)
Lemma index_of_split (e : nat) (l : list (option nat)) (i : nat) :
  index_of e l = Some i ->
  exists l1 l2, omap id l = l1 ++ e :: l2 /\ omap id (<[i := None]> l) = l1 ++ l2.
Proof.
  revert i. induction l as [|x l IH]; intros i; cbn [index_of]; [discriminate|].
  destruct (bool_decide (x = Some e)) eqn:Hx.
  - apply bool_decide_eq_true in Hx as ->. intros H; injection H as <-.
    exists [], (omap id l). split; reflexivity.
  - destruct (index_of e l) as [j|]; [|discriminate]. cbn. intros H; injection H as <-.
    destruct (IH j eq_refl) as (l1 & l2 & H1 & H2).
    destruct x as [a|].
    + change (omap id (Some a :: l)) with (a :: omap id l).
      change (omap id (<[S j := None]> (Some a :: l)))
        with (a :: omap id (<[j := None]> l)).
      exists (a :: l1), l2. split; [now rewrite H1|now rewrite H2].
    + change (omap id (None :: l)) with (omap id l).
      change (omap id (<[S j := None]> (None :: l))) with (omap id (<[j := None]> l)).
      exists l1, l2. split; [exact H1|exact H2].
Qed.

Lemma index_of_None (e : nat) (l : list (option nat)) :
  index_of e l = None -> e ∉ omap id l.
Proof.
  induction l as [|x l IH]; cbn [index_of]; [intros _; apply not_elem_of_nil|].
  destruct (bool_decide (x = Some e)) eqn:Hx; [discriminate|].
  apply bool_decide_eq_false in Hx.
  destruct (index_of e l); [discriminate|]. intros _.
  destruct x as [a|].
  - change (omap id (Some a :: l)) with (a :: omap id l).
    rewrite not_elem_of_cons. split; [congruence|now apply IH].
  - change (omap id (None :: l)) with (omap id l). now apply IH.
Qed.

Lemma _removeRenderable_tracked (c c' : t) (w w' : world) (e : nat) :
  NoDup (tracked c) ->
  _removeRenderable c w e = (c', w') ->
  NoDup (tracked c') /\ (e ∉ tracked c')
  /\ (forall a, a ∈ tracked c' -> a ∈ tracked c)
  /\ (forall a, a ∈ tracked c -> a <> e -> a ∈ tracked c')
  /\ _now c' = _now c /\ maxUnusedTime c' = maxUnusedTime c
  /\ nodes w' = nodes w /\ groups w' = groups w
  /\ events w' = events w ++ (if bool_decide (e ∈ tracked c) then [off_destroyed e] else []).
Proof.
  intros Hnd. unfold _removeRenderable.
  destruct (index_of e (_managedRenderables c)) as [i|] eqn:Hi;
    intros H; injection H as <- <-.
  - destruct (index_of_split _ _ _ Hi) as (l1 & l2 & H1 & H2).
    unfold tracked in *. cbn [_managedRenderables set_managedRenderables _now maxUnusedTime].
    rewrite H2. rewrite H1 in Hnd |- *.
    apply NoDup_app in Hnd as (Hl1 & Hdis & Hl2).
    apply NoDup_cons in Hl2 as (He2 & Hl2).
    split; [apply NoDup_app; split; [exact Hl1|split; [|exact Hl2]];
            intros x Hx Hx'; apply (Hdis x Hx); now right|].
    split; [rewrite elem_of_app; intros [H|H]; [apply (Hdis e H); now left|contradiction]|].
    split; [intros a; rewrite !elem_of_app, elem_of_cons; tauto|].
    split; [intros a; rewrite !elem_of_app, elem_of_cons; intros [?|[?|?]] ?;
            [now left|contradiction|now right]|].
    split; [reflexivity|]. split; [reflexivity|]. split; [reflexivity|].
    split; [reflexivity|].
    rewrite bool_decide_eq_true_2; [reflexivity|].
    apply elem_of_app. right. now left.
  - pose proof (index_of_None _ _ Hi) as Hnotin.
    split; [exact Hnd|]. split; [exact Hnotin|]. split; [auto|]. split; [auto|].
    split; [reflexivity|]. split; [reflexivity|]. split; [reflexivity|].
    split; [reflexivity|].
    rewrite bool_decide_eq_false_2 by exact Hnotin. now rewrite app_nil_r.
Qed.

Lemma run_marked (c c' : t) (w w' : world) :
  marked_once c w -> run destroys c w = Some (c', w') -> marked_once c' w'.
Proof.
  intros (Hnd & Hnow & Hm). rewrite run_sweep.
  destruct (sweep destroys c w _) as [[ks w1]|] eqn:Hs; [|discriminate].
  intros H; injection H as <- <-.
  apply sweep_spec in Hs as (-> & _ & Hin & _); [|exact Hnd].
  unfold marked_once, tracked.
  cbn [_managedRenderables set_managedRenderables _now]. rewrite omap_id_Some.
  split; [now apply NoDup_bool_filter|]. split; [exact Hnow|].
  intros a Ha. apply list_elem_of_In, filter_In in Ha as [Ha Hexp].
  apply list_elem_of_In in Ha.
  destruct (Hin a Ha) as (nd & H1 & H2). destruct (Hm a Ha) as (nd' & H1' & Hmark).
  rewrite H1 in H1'. injection H1' as <-.
  eexists. split; [exact H2|].
  unfold stamp_after. apply negb_true_iff in Hexp. rewrite Hexp.
  unfold stamp. rewrite H1.
  replace (Container._lastUsed (Container.set_lastUsed _ nd))
    with (if current w a then _now c else Container._lastUsed nd)
    by (now destruct nd).
  now destruct (current w a).
Qed.

Lemma do_call_marked (fuel : nat) (c c' : t) (w w' : world) (o : gc_call) :
  clock_not_mark o -> marked_once c w ->
  do_call fuel (Some (c, w)) o = Some (c', w') -> marked_once c' w'.
Proof.
  intros Hok Hm. destruct o as [e now|e|e|]; cbn [do_call].
  - intros H. apply prerender_spec in H as (Hl & _ & Hnow & Hn & _).
    destruct Hm as (Hnd & _ & Hm). unfold marked_once, tracked in *.
    rewrite Hl, Hnow, Hn. split; [exact Hnd|]. split; [exact Hok|exact Hm].
  - now apply addRenderable_marked.
  - intros H. injection H as H. destruct Hm as (Hnd & Hnow & Hm).
    apply _removeRenderable_tracked in H as (H1 & _ & H3 & _ & H5 & _ & H7 & _);
      [|exact Hnd].
    split; [exact H1|]. split; [now rewrite H5|].
    intros a Ha. rewrite H7. now apply Hm, H3.
  - now apply run_marked.
Qed.

Lemma do_call_None (fuel : nat) (os : list gc_call) : foldl (do_call fuel) None os = None.
Proof. induction os; cbn [foldl do_call]; auto. Qed.

Lemma calls_marked (fuel : nat) (os : list gc_call) :
  forall (c c' : t) (w w' : world),
    Forall clock_not_mark os -> marked_once c w ->
    foldl (do_call fuel) (Some (c, w)) os = Some (c', w') -> marked_once c' w'.
Proof.
  induction os as [|o os IH]; intros c c' w w' Hok Hm H; cbn [foldl] in H.
  - now injection H as <- <-.
  - apply Forall_cons in Hok as [Ho Hok].
    destruct (do_call fuel (Some (c, w)) o) as [[c1 w1]|] eqn:H1;
      [|rewrite do_call_None in H; discriminate].
    eapply IH; [exact Hok| |exact H]. eapply do_call_marked; eassumption.
Qed.

End CollectorProtocol.

(** The collector lists every renderable at most once, as long as no
    call throws.  Starting from a collector that was just initialised,
    whatever frames, additions, removals and sweeps follow and return:
    [addRenderable] lists a renderable only when it carries the mark -1
    and then stamps it with the time of the frame, a sweep that returns
    puts the mark back only on what it drops, so no renderable is
    listed twice and none that is listed carries the mark.  A sweep
    that throws, because an expired renderable has no pipe with a
    method [destroyRenderable], ends the sequence: what it leaves
    behind is not covered. *)
Theorem collector_lists_a_renderable_once (destroys : string -> bool) (fuel : nat)
    (o : RenderableGC.options)
    (os : list gc_call) (c' : RenderableGC.t) (w w' : Scene.world) :
  Forall clock_not_mark os ->
  foldl (do_call destroys fuel) (Some (RenderableGC.init RenderableGC.new o, w)) os
  = Some (c', w') ->
  NoDup (tracked c')
  /\ forall a, a ∈ tracked c' ->
       exists nd, Scene.nodes w' !! a = Some nd
                  /\ Number.eqb (Container._lastUsed nd) (Number.ofZ (-1)) = false.
Proof.
  intros Hok H.
  assert (H0 : marked_once (RenderableGC.init RenderableGC.new o) w).
  { split; [apply NoDup_nil_2|]. split; [reflexivity|]. intros a Ha. inversion Ha. }
  destruct (calls_marked destroys fuel os _ _ _ _ Hok H0 H) as (H1 & _ & H3). now split.
Qed.

(** A frame at time 0 on the sample scene, the renderable added twice
    in that frame, a sweep, and the renderable added again: it is listed
    once. *)
Lemma collector_lists_a_renderable_once_witness :
  exists c' w',
    foldl (do_call Sample.pipes 10)
      (Some (RenderableGC.init RenderableGC.new
               (RenderableGC.mkOptions RenderableGC.Absent RenderableGC.Absent
                  RenderableGC.Absent), Sample.custom_scene))
      [Prerender 0 (Number.ofZ 0); AddRenderable 2; AddRenderable 2; Run; AddRenderable 2]
    = Some (c', w')
    /\ RenderableGC._managedRenderables c' = [Some 2%nat]
    /\ NoDup (tracked c').
Proof.
  destruct (foldl (do_call Sample.pipes 10) _ _) as [[c' w']|] eqn:H;
    [|vm_compute in H; discriminate].
  exists c', w'. split; [reflexivity|].
  split; [vm_compute in H; injection H as <- _; reflexivity|].
  refine (proj1 (collector_lists_a_renderable_once Sample.pipes 10 _ _ c'
                   Sample.custom_scene w' _ H)).
  repeat constructor.
Defined.

(** A renderable that was taken off the list on its [destroyed] event is
    left alone by the sweeps that follow: it is not listed, the sweep
    makes no call for it and does not write its container. *)
Theorem removed_renderable_is_left_alone (destroys : string -> bool)
    (c c1 c2 : RenderableGC.t) (w w1 w2 : Scene.world) (e : nat) :
  NoDup (tracked c) ->
  RenderableGC._removeRenderable c w e = (c1, w1) ->
  RenderableGC.run destroys c1 w1 = Some (c2, w2) ->
  (e ∉ tracked c1) /\ (e ∉ tracked c2)
  /\ Scene.nodes w2 !! e = Scene.nodes w !! e
  /\ exists evs, Scene.events w2 = Scene.events w1 ++ evs
                 /\ (Scene.destroyRenderable e ∉ evs)
                 /\ (Scene.off_destroyed e ∉ evs).
Proof.
  intros Hnd Hrm Hrun.
  apply _removeRenderable_tracked in Hrm as (Hnd1 & Hnotin & _ & _ & _ & _ & Hn & _);
    [|exact Hnd].
  rewrite run_sweep in Hrun.
  destruct (sweep destroys c1 w1 _) as [[ks wz]|] eqn:Hs; [|discriminate].
  injection Hrun as <- <-.
  apply sweep_spec in Hs as (-> & Hev & _ & Hout & _); [|exact Hnd1].
  split; [exact Hnotin|]. split.
  - unfold tracked at 1. cbn [RenderableGC._managedRenderables
                               RenderableGC.set_managedRenderables].
    rewrite omap_id_Some, list_elem_of_In, filter_In, <- list_elem_of_In.
    intros [H _]. contradiction.
  - split; [rewrite <- Hn; now apply Hout|].
    eexists. split; [exact Hev|]. split.
    + intros H. apply destroy_call in H as (H & _). contradiction.
    + intros H. apply off_call in H as (H & _). contradiction.
Qed.

Lemma removed_renderable_witness :
  NoDup (tracked (fst Sample.before_sweep))
  /\ exists c2 w2,
       RenderableGC.run Sample.pipes
         (fst (RenderableGC._removeRenderable (fst Sample.before_sweep)
                 (snd Sample.before_sweep) 2))
         (snd (RenderableGC._removeRenderable (fst Sample.before_sweep)
                 (snd Sample.before_sweep) 2)) = Some (c2, w2)
       /\ 2%nat ∉ tracked c2.
Proof.
  assert (H1 : NoDup (tracked (fst Sample.before_sweep)))
    by (vm_compute; apply NoDup_singleton).
  split; [exact H1|].
  destruct (RenderableGC._removeRenderable (fst Sample.before_sweep)
              (snd Sample.before_sweep) 2) as [c1 w1] eqn:Hrm.
  cbn [fst snd].
  destruct (RenderableGC.run Sample.pipes c1 w1) as [[c2 w2]|] eqn:Hrun;
    [|vm_compute in Hrm; injection Hrm as <- <-; vm_compute in Hrun; discriminate].
  exists c2, w2. split; [reflexivity|].
  exact (proj1 (proj2 (removed_renderable_is_left_alone _ _ _ _ _ _ _ _ H1 Hrm Hrun))).
Defined.

(** ** The renderable collector: the ticks of a frame *)

Section TickFacts.
Import Number Scene RenderableGC.

(** The render groups below a group: the group itself and what is
    reached from it through [renderGroupChildren]. *)
Inductive below (w : world) : nat -> nat -> Prop :=
| below_self (g : nat) : below w g g
| below_child (g : nat) (grp : RenderGroup.t) (c g' : nat) :
    groups w !! g = Some grp ->
    c ∈ RenderGroup.renderGroupChildren grp ->
    below w c g' ->
    below w g g'.

Definition set_tick (grp : RenderGroup.t) : Z :=
  InstructionSet.gcTick (RenderGroup.instructionSet grp).

(** What stamping the tick [t] keeps of every group: its children, its
    own tick, and a tick of its instruction set that is [t] already. *)
Definition stamped (t : Z) (w w' : world) : Prop :=
  nodes w' = nodes w /\ events w' = events w
  /\ forall h grp, groups w !! h = Some grp ->
       exists grp', groups w' !! h = Some grp'
                    /\ RenderGroup.renderGroupChildren grp'
                       = RenderGroup.renderGroupChildren grp
                    /\ RenderGroup.gcTick grp' = RenderGroup.gcTick grp
                    /\ (set_tick grp = t -> set_tick grp' = t).

Lemma stamped_refl (t : Z) (w : world) : stamped t w w.
Proof.
  split; [reflexivity|]. split; [reflexivity|]. intros h grp H. exists grp. auto.
Qed.

Lemma stamped_trans (t : Z) (w1 w2 w3 : world) :
  stamped t w1 w2 -> stamped t w2 w3 -> stamped t w1 w3.
Proof.
  intros (Hn1 & He1 & H1) (Hn2 & He2 & H2).
  split; [congruence|]. split; [congruence|].
  intros h grp Hg. destruct (H1 h grp Hg) as (grp1 & Hg1 & Hc1 & Ht1 & Hs1).
  destruct (H2 h grp1 Hg1) as (grp2 & Hg2 & Hc2 & Ht2 & Hs2).
  exists grp2. split; [exact Hg2|]. split; [congruence|]. split; [congruence|auto].
Qed.

Lemma same_children_below (w w' : world) (g g' : nat) :
  same_children w w' -> below w g g' -> below w' g g'.
Proof.
  intros H. induction 1 as [g|g grp c g' Hg Hc _ IH]; [constructor|].
  destruct (H g grp Hg) as (grp' & Hg' & Hc').
  apply (below_child w' g grp' c g'); [exact Hg'|now rewrite Hc'|exact IH].
Qed.

Lemma stamped_same_children (t : Z) (w w' : world) :
  stamped t w w' -> same_children w w'.
Proof.
  intros (_ & _ & H) h grp Hg. destruct (H h grp Hg) as (grp' & Hg' & Hc' & _). eauto.
Qed.

Lemma stamped_below (t : Z) (w w' : world) (g g' : nat) :
  stamped t w w' -> below w g g' -> below w' g g'.
Proof. intros H. apply same_children_below. eapply stamped_same_children, H. Qed.

Lemma tick_below (fuel : nat) (t : Z) :
  forall (w w' : world) (g : nat),
    _updateInstructionGCTick fuel w g t = Some w' ->
    stamped t w w'
    /\ forall g', below w g g' ->
         exists grp', groups w' !! g' = Some grp' /\ set_tick grp' = t.
Proof.
  induction fuel as [|fuel IH]; intros w w' g; [discriminate|].
  cbn [_updateInstructionGCTick].
  destruct (groups w !! g) as [e|] eqn:He; [|discriminate]. cbn [mbind option_bind].
  set (e0 := RenderGroup.set_instructionSet _ e). set (w0 := set_group g e0 w).
  assert (H0 : stamped t w w0).
  { split; [reflexivity|]. split; [reflexivity|]. intros h grp Hg.
    unfold w0. cbn [groups set_group set_groups].
    destruct (decide (g = h)) as [<-|Hne].
    - rewrite lookup_insert_eq. exists e0. rewrite He in Hg. injection Hg as <-.
      split; [reflexivity|]. split; [reflexivity|]. split; [reflexivity|].
      intros _. reflexivity.
    - rewrite lookup_insert_ne by assumption. exists grp. auto. }
  assert (Hg0 : groups w0 !! g = Some e0) by apply lookup_insert_eq.
  assert (Hfold : forall l wa wb,
             foldl (fun ow r => w ← ow; _updateInstructionGCTick fuel w r t) (Some wa) l
             = Some wb ->
             stamped t wa wb
             /\ forall c g', c ∈ l -> below wa c g' ->
                  exists grp', groups wb !! g' = Some grp' /\ set_tick grp' = t).
  { induction l as [|r l IHl]; intros wa wb H; cbn [foldl] in H.
    - injection H as <-. split; [apply stamped_refl|]. intros c g' Hc. inversion Hc.
    - cbn [mbind option_bind] in H.
      destruct (_updateInstructionGCTick fuel wa r t) as [wc|] eqn:Hc;
        [|rewrite foldl_bind_None in H; discriminate].
      apply IH in Hc as (Hs1 & Hb1). apply IHl in H as (Hs2 & Hb2).
      split; [eapply stamped_trans; eassumption|].
      intros c g' Hin Hbel. apply elem_of_cons in Hin as [->|Hin].
      + destruct (Hb1 g' Hbel) as (grp1 & Hg1 & Ht1).
        destruct Hs2 as (_ & _ & Hs2). destruct (Hs2 g' grp1 Hg1) as (grp2 & Hg2 & _ & _ & Ht2).
        exists grp2. split; [exact Hg2|auto].
      + apply (Hb2 c g' Hin). eapply stamped_below; eassumption. }
  intros H. apply Hfold in H as (Hs & Hb).
  split; [eapply stamped_trans; eassumption|].
  intros g' Hbel. inversion Hbel as [g1|g1 grp c g2 Hg Hc Hbel']; subst.
  - destruct Hs as (_ & _ & Hs). destruct (Hs g' e0 Hg0) as (grp' & Hg' & _ & _ & Ht').
    exists grp'. split; [exact Hg'|]. apply Ht'. reflexivity.
  - rewrite He in Hg. injection Hg as <-.
    apply (Hb c g' Hc). eapply stamped_below; eassumption.
Qed.

(** The stamping returns: on a store in which the groups below [g] are
    nested less than [fuel] deep, the recursion comes to an end. *)
Lemma tick_returns (fuel : nat) (t : Z) :
  forall (w : world) (g : nat),
    nested_within fuel w g -> exists w', _updateInstructionGCTick fuel w g t = Some w'.
Proof.
  induction fuel as [|fuel IH]; intros w g; [intros []|].
  cbn [nested_within _updateInstructionGCTick]. intros (e & He & Hall).
  rewrite He. cbn [mbind option_bind].
  set (e0 := RenderGroup.set_instructionSet _ e). set (w0 := set_group g e0 w).
  assert (H0 : same_children w w0).
  { intros h grp Hg. unfold w0. cbn [groups set_group set_groups].
    destruct (decide (g = h)) as [<-|Hne].
    - rewrite lookup_insert_eq. exists e0. rewrite He in Hg. injection Hg as <-.
      split; reflexivity.
    - rewrite lookup_insert_ne by assumption. exists grp. auto. }
  assert (Hfold : forall l wa,
             same_children w wa -> Forall (nested_within fuel w) l ->
             exists wb,
               foldl (fun ow r => w ← ow; _updateInstructionGCTick fuel w r t) (Some wa) l
               = Some wb).
  { induction l as [|r l IHl]; intros wa Hwa Hl; cbn [foldl]; [eauto|].
    apply Forall_cons in Hl as [Hr Hl]. cbn [mbind option_bind].
    destruct (IH wa r) as [wc Hc]; [eapply nested_within_same_children; eassumption|].
    rewrite Hc. apply IHl; [|exact Hl].
    eapply same_children_trans; [exact Hwa|].
    eapply stamped_same_children, tick_below, Hc. }
  apply Hfold; [exact H0|exact Hall].
Qed.

End TickFacts.

(** What [prerender] stamps.  On a store in which the render groups
    below the group of the rendered container are nested less than
    [fuel] deep, [prerender] returns.  The frame takes the next tick of
    the counter [Ht]; that tick is written to the [gcTick] of the render
    group of the rendered container and to the instruction set of that
    group and of every render group below it; the [gcTick] of every
    other render group, the containers and the list of the collector
    stay as they are. *)
Theorem prerender_stamps_the_groups_below
    (fuel : nat) (c : RenderableGC.t) (w : Scene.world) (e g : nat)
    (now : Number.number) :
  Container.renderGroup <$> Scene.nodes w !! e = Some (Some g) ->
  nested_within fuel w g ->
  exists (c1 : RenderableGC.t) (w1 : Scene.world),
    RenderableGC.prerender fuel c w e now = Some (c1, w1)
    /\ RenderableGC.Ht c1 = RenderableGC.Ht c + 1
    /\ RenderableGC._now c1 = now
    /\ RenderableGC._managedRenderables c1 = RenderableGC._managedRenderables c
    /\ Scene.nodes w1 = Scene.nodes w
    /\ (forall g', below w g g' ->
          exists grp', Scene.groups w1 !! g' = Some grp'
                       /\ set_tick grp' = RenderableGC.Ht c)
    /\ (RenderGroup.gcTick <$> Scene.groups w1 !! g) = Some (RenderableGC.Ht c)
    /\ (forall h grp, h <> g -> Scene.groups w !! h = Some grp ->
          RenderGroup.gcTick <$> Scene.groups w1 !! h = Some (RenderGroup.gcTick grp)).
Proof.
  intros Hrg Htree. unfold RenderableGC.prerender.
  destruct (Scene.nodes w !! e) as [nde|] eqn:Hnde; [|discriminate].
  cbn in Hrg. injection Hrg as Hrg. cbn [mbind option_bind]. rewrite Hrg.
  cbn [mbind option_bind].
  assert (Hgrp : exists grp0, Scene.groups w !! g = Some grp0).
  { destruct fuel as [|f]; [destruct Htree|]. destruct Htree as (grp0 & H & _). eauto. }
  destruct Hgrp as [grp0 Hgrp]. rewrite Hgrp.
  cbn [mbind option_bind]. cbv zeta.
  set (w0 := Scene.set_group g _ w).
  assert (H0 : same_children w w0).
  { intros h grp Hg.
    unfold w0. cbn [Scene.groups Scene.set_group Scene.set_groups].
    destruct (decide (g = h)) as [<-|Hne].
    - rewrite lookup_insert_eq. eexists. split; [reflexivity|].
      rewrite Hgrp in Hg. injection Hg as <-. now destruct grp0.
    - rewrite lookup_insert_ne by assumption. exists grp. auto. }
  destruct (tick_returns fuel (RenderableGC.Ht c) w0 g) as [w2 H2];
    [eapply nested_within_same_children; eassumption|].
  rewrite H2. cbn [mbind option_bind]. eexists _, w2. split; [reflexivity|].
  apply tick_below in H2 as ((Hn & _ & Hs) & Hb).
  split; [reflexivity|]. split; [reflexivity|]. split; [reflexivity|].
  split; [exact Hn|]. split; [|split].
  - intros g' Hbel. apply Hb. eapply same_children_below; eassumption.
  - destruct (Hs g (RenderGroup.set_gcTick (RenderableGC.Ht c) grp0))
      as (grp' & Hg' & _ & Ht' & _); [apply lookup_insert_eq|].
    rewrite Hg'. cbn. rewrite Ht'. now destruct grp0.
  - intros h grp Hne Hg.
    assert (Hg0 : Scene.groups w0 !! h = Some grp).
    { unfold w0. cbn [Scene.groups Scene.set_group Scene.set_groups].
      now rewrite lookup_insert_ne by congruence. }
    destruct (Hs h grp Hg0) as (grp' & Hg' & _ & Ht' & _). rewrite Hg'. cbn. now rewrite Ht'.
Qed.

(** A frame on the stage of the nested scene: the instruction set of the
    group of the card, which is below the stage group, gets the tick 0
    of the frame. *)
Lemma prerender_stamps_witness :
  Container.renderGroup <$> Scene.nodes Sample.nested_scene !! 0%nat = Some (Some 100%nat)
  /\ nested_within 2 Sample.nested_scene 100
  /\ below Sample.nested_scene 100 200
  /\ exists c1 w1,
       RenderableGC.prerender 2 RenderableGC.new Sample.nested_scene 0 (Number.ofZ 0)
       = Some (c1, w1)
       /\ RenderableGC.Ht c1 = 1
       /\ set_tick <$> Scene.groups w1 !! 200%nat = Some 0.
Proof.
  assert (H1 : Container.renderGroup <$> Scene.nodes Sample.nested_scene !! 0%nat
               = Some (Some 100%nat)) by (vm_compute; reflexivity).
  assert (Ht : nested_within 2 Sample.nested_scene 100).
  { eexists. split; [vm_compute; reflexivity|]. cbn [RenderGroup.renderGroupChildren].
    constructor; [|constructor]. eexists. split; [vm_compute; reflexivity|constructor]. }
  assert (Hb : below Sample.nested_scene 100 200).
  { eapply (below_child _ 100 _ 200 200);
      [vm_compute; reflexivity|cbn; now left|constructor]. }
  split; [exact H1|]. split; [exact Ht|]. split; [exact Hb|].
  destruct (prerender_stamps_the_groups_below 2 RenderableGC.new Sample.nested_scene
              0%nat 100%nat (Number.ofZ 0) H1 Ht)
    as (c1 & w1 & H2 & Htick & _ & _ & _ & Hbel & _).
  exists c1, w1. split; [exact H2|].
  split; [exact Htick|]. destruct (Hbel 200%nat Hb) as (grp' & Hg' & Hs').
  rewrite Hg'. cbn. now rewrite Hs'.
Defined.

(** ** Building stencil masks *)

Section StencilBuildFacts.
Import InstructionSet StencilMaskPipe StencilMaskBuild.

Variable Pipes : Type.
Variable batch_break : Pipes -> InstructionSet.t -> option (Pipes * InstructionSet.t).
Variable setBlendMode :
  nat -> string -> Pipes -> InstructionSet.t -> option (Pipes * InstructionSet.t).
Variable set_includeInBuild : nat -> bool -> Pipes -> Pipes.
Variable collectRenderables :
  nat -> Pipes * builder -> InstructionSet.t -> option (Pipes * builder * InstructionSet.t).
Variable renderTarget : Pipes -> nat.

(** The set [r'] is the set [r] with the instructions [l] added. *)
Definition grown (r r' : InstructionSet.t) (l : list instruction) : Prop :=
  instructions r' = instructions r ++ l.

Lemma grown_add (r : InstructionSet.t) (i : instruction) :
  grown r (InstructionSet.add r i) [i].
Proof. reflexivity. Qed.

Lemma grown_trans (r1 r2 r3 : InstructionSet.t) (l1 l2 : list instruction) :
  grown r1 r2 l1 -> grown r2 r3 l2 -> grown r1 r3 (l1 ++ l2).
Proof. unfold grown. intros H1 H2. now rewrite H2, H1, app_assoc. Qed.

(** The copy loop, when the [n] slots from [start] on are live. *)
Lemma replay_copies (n : nat) :
  forall (start : nat) (r : InstructionSet.t),
    (start + n <= instructionSize r)%nat ->
    exists r', replay n start r = Some ((start + n)%nat, r')
               /\ grown r r' (take n (drop start (instructions r))).
Proof.
  induction n as [|n IH]; intros start r Hle.
  - exists r. rewrite Nat.add_0_r, take_0. split; [reflexivity|].
    unfold grown. now rewrite app_nil_r.
  - cbn [replay]. unfold instructionSize in Hle.
    destruct (instructions r !! start) as [i|] eqn:Hi;
      [|apply lookup_ge_None in Hi; lia].
    cbn [mbind option_bind].
    destruct (IH (S start) (InstructionSet.add r i)) as (r' & Hr' & Hg).
    { unfold instructionSize. cbn [InstructionSet.add instructions].
      rewrite length_app. cbn [length]. lia. }
    exists r'. split; [rewrite Hr'; f_equal; f_equal; lia|].
    unfold grown in *. rewrite Hg. cbn [InstructionSet.add instructions].
    rewrite <- app_assoc. f_equal.
    rewrite (drop_S _ i start Hi). cbn [take]. cbn [app]. f_equal.
    rewrite drop_app_le by (apply lookup_lt_Some in Hi; lia).
    rewrite take_app_le; [reflexivity|].
    rewrite length_drop. lia.
Qed.

(** The other pipes only ever add to the set. *)
Definition adds_only (P : list instruction -> Prop) : Prop :=
  (forall p r p' r', batch_break p r = Some (p', r') -> exists l, grown r r' l /\ P l)
  /\ (forall m b p r p' r', setBlendMode m b p r = Some (p', r') ->
        exists l, grown r r' l /\ P l)
  /\ (forall m p q r p' q' r', collectRenderables m (p, q) r = Some (p', q', r') ->
        exists l, grown r r' l /\ P l).

(** What [push] leaves behind: the set grew by the instructions [A] the
    other pipes put in front, [pushMaskBegin], the instructions [M]
    that draw the mask and [pushMaskEnd], and the span of the effect
    covers [M]. *)
Lemma push_spec (P : list instruction -> Prop) (q q1 : builder) (p p1 : Pipes)
    (e mask : nat) (inverse : bool) (r r1 : InstructionSet.t) :
  adds_only P ->
  (forall p q r p' q' r', collectRenderables mask (p, q) r = Some (p', q', r') ->
     _maskHash q' !! e = _maskHash q !! e) ->
  push Pipes batch_break setBlendMode set_includeInBuild collectRenderables renderTarget
    q p e mask inverse r = Some (q1, p1, r1) ->
  exists A1 A2 M1 M2,
    P A1 /\ P A2 /\ P M1 /\ P M2
    /\ grown r r1 ((A1 ++ A2) ++ [StencilMask pushMaskBegin inverse]
                     ++ (M1 ++ M2) ++ [StencilMask pushMaskEnd inverse])
    /\ _maskHash q1 !! e
       = Some (mkSpan (length (instructions r ++ (A1 ++ A2)) + 1)
                 (Z.of_nat (length (M1 ++ M2)))).
Proof.
  intros (Hbreak & Hblend & Hcollect) Hkeep. unfold push.
  destruct (batch_break p r) as [[pa ra]|] eqn:Ha; [|discriminate].
  cbn [mbind option_bind].
  destruct (setBlendMode mask "none" pa ra) as [[pb rb]|] eqn:Hb; [|discriminate].
  cbn [mbind option_bind]. cbv zeta.
  set (rc := InstructionSet.add rb _).
  set (qa := match _maskHash q !! e with Some _ => q | None => _ end).
  assert (Hqa : is_Some (_maskHash qa !! e)).
  { unfold qa. destruct (_maskHash q !! e) eqn:Hq; [now rewrite Hq|].
    cbn [_maskHash set_maskHash]. rewrite lookup_insert_eq. eauto. }
  destruct Hqa as [u Hu]. rewrite Hu. cbn [mbind option_bind].
  set (qb := set_maskHash _ qa).
  destruct (collectRenderables mask (set_includeInBuild mask true pb, qb) rc)
    as [[[pc qc] rd]|] eqn:Hc; [|discriminate].
  cbn [mbind option_bind].
  destruct (batch_break (set_includeInBuild mask false pc) rd) as [[pd re]|] eqn:Hd;
    [|discriminate].
  cbn [mbind option_bind].
  pose proof (Hkeep _ _ _ _ _ _ Hc) as Hk.
  unfold qb in Hk. cbn [_maskHash set_maskHash] in Hk. rewrite lookup_insert_eq in Hk.
  rewrite Hk. cbn [mbind option_bind instructionsStart].
  intros H; injection H as <- <- <-.
  destruct (Hbreak _ _ _ _ Ha) as (A1 & HA1 & PA1).
  destruct (Hblend _ _ _ _ _ _ Hb) as (A2 & HA2 & PA2).
  destruct (Hcollect _ _ _ _ _ _ _ Hc) as (M1 & HM1 & PM1).
  destruct (Hbreak _ _ _ _ Hd) as (M2 & HM2 & PM2).
  exists A1, A2, M1, M2. split; [exact PA1|]. split; [exact PA2|].
  split; [exact PM1|]. split; [exact PM2|].
  assert (Hsize : instructions rc = (instructions r ++ (A1 ++ A2))
                                      ++ [StencilMask pushMaskBegin inverse]).
  { unfold rc. cbn [InstructionSet.add instructions]. unfold grown in *.
    rewrite HA2, HA1. now rewrite <- !app_assoc. }
  split.
  - unfold grown in *. cbn [InstructionSet.add instructions].
    rewrite HM2, HM1, Hsize. now rewrite <- !app_assoc.
  - assert (Ht : forall h x, _maskHash (touch_target h x) = _maskHash x).
    { intros h x. unfold touch_target. now destruct (_ !! h). }
    rewrite Ht. cbn [_maskHash set_maskHash]. rewrite lookup_insert_eq.
    f_equal. unfold instructionSize. cbn [InstructionSet.add instructions].
    unfold grown in *. rewrite HM2, HM1, Hsize.
    rewrite !length_app. cbn [length]. f_equal. lia.
Qed.

(** [pop] draws the mask again.  When the other pipes only add to the
    set, the instructions that [pop] puts between [popMaskBegin] and
    [popMaskEnd] are the very instructions [M] that [push] had put
    between [pushMaskBegin] and [pushMaskEnd], whatever was added to
    the set in between; and [pop] returns when the calls it makes on
    the other pipes do. *)
Theorem stencil_pop_replays_the_mask
    (q q1 q2 : builder) (p p1 p2 pa pb : Pipes) (e mask : nat) (inverse inverse' : bool)
    (r r1 r2 ra rb : InstructionSet.t) (C : list instruction) :
  adds_only (fun _ => True) ->
  (forall p q r p' q' r', collectRenderables mask (p, q) r = Some (p', q', r') ->
     _maskHash q' !! e = _maskHash q !! e) ->
  push Pipes batch_break setBlendMode set_includeInBuild collectRenderables renderTarget
    q p e mask inverse r = Some (q1, p1, r1) ->
  grown r1 r2 C ->
  _maskHash q2 !! e = _maskHash q1 !! e ->
  batch_break p2 r2 = Some (pa, ra) ->
  setBlendMode mask "none" pa ra = Some (pb, rb) ->
  exists A M A' q3 r3,
    grown r r1 (A ++ [StencilMask pushMaskBegin inverse] ++ M
                  ++ [StencilMask pushMaskEnd inverse])
    /\ pop Pipes batch_break setBlendMode q2 p2 e mask inverse' r2 = Some (q3, pb, r3)
    /\ grown r2 r3 (A' ++ [StencilMask popMaskBegin inverse'] ++ M
                      ++ [StencilMask popMaskEnd false]).
Proof.
  intros Hadds Hkeep Hpush HC Hq2 Ha Hb.
  destruct (push_spec _ _ _ _ _ _ _ _ _ _ Hadds Hkeep Hpush)
    as (A1 & A2 & M1 & M2 & _ & _ & _ & _ & Hg1 & Hspan).
  destruct Hadds as (Hbreak & Hblend & _).
  destruct (Hbreak _ _ _ _ Ha) as (B1 & HB1 & _).
  destruct (Hblend _ _ _ _ _ _ Hb) as (B2 & HB2 & _).
  set (A := A1 ++ A2) in *. set (M := M1 ++ M2) in *.
  set (rc := InstructionSet.add rb (StencilMask popMaskBegin inverse')).
  assert (Hrc : instructions rc
                = (instructions r ++ A ++ [StencilMask pushMaskBegin inverse]) ++ M
                  ++ [StencilMask pushMaskEnd inverse] ++ C ++ (B1 ++ B2)
                  ++ [StencilMask popMaskBegin inverse']).
  { unfold rc. cbn [InstructionSet.add instructions]. unfold grown in *.
    rewrite HB2, HB1, HC, Hg1. now rewrite <- !app_assoc. }
  assert (Hstart : (length (instructions r ++ A) + 1
                    = length (instructions r ++ A ++ [StencilMask pushMaskBegin inverse]))%nat).
  { rewrite !length_app. cbn [length]. lia. }
  destruct (replay_copies (length M) (length (instructions r ++ A) + 1) rc)
    as (rd & Hrd & Hgd).
  { unfold instructionSize. rewrite Hstart, Hrc, !length_app. lia. }
  exists A, M, (B1 ++ B2). eexists _, _. split; [exact Hg1|].
  unfold pop. rewrite Ha. cbn [mbind option_bind]. rewrite Hb. cbn [mbind option_bind].
  cbv zeta. rewrite Hq2, Hspan. cbn [mbind option_bind instructionsLength instructionsStart].
  rewrite Nat2Z.id. fold rc. rewrite Hrd. cbn [mbind option_bind].
  split; [reflexivity|].
  assert (Htake : take (length M) (drop (length (instructions r ++ A) + 1) (instructions rc))
                  = M).
  { rewrite Hstart, Hrc. now rewrite drop_app_length, take_app_length. }
  unfold grown in *. cbn [InstructionSet.add instructions]. rewrite Hgd, Htake.
  unfold rc. cbn [InstructionSet.add instructions]. rewrite HB2, HB1.
  now rewrite <- !app_assoc.
Qed.

(** A piece of a set that opens no mask it does not close and closes
    none it did not open can be skipped when the masks are counted. *)
Lemma balanced_skip (l rest : list instruction) (k d : nat) :
  balanced_from k l = true ->
  balanced_from (k + d) (l ++ rest) = balanced_from d rest.
Proof.
  revert k. induction l as [|i l IH]; intros k; cbn [balanced_from app].
  - intros H. apply Nat.eqb_eq in H. now subst.
  - destruct i as [| |[] inv|]; try apply IH.
    destruct k as [|k]; [discriminate|]. intros H. apply (IH k H).
Qed.

Lemma balanced_app (l rest : list instruction) :
  balanced l = true -> balanced rest = true -> balanced (l ++ rest) = true.
Proof.
  unfold balanced. intros Hl Hr.
  pose proof (balanced_skip l rest 0 0 Hl) as H. cbn [Nat.add] in H. now rewrite H.
Qed.

Lemma balanced_masked (inv1 inv2 inv3 inv4 : bool) (M C : list instruction) :
  balanced M = true -> balanced C = true ->
  balanced ([StencilMask pushMaskBegin inv1] ++ M ++ [StencilMask pushMaskEnd inv2]
              ++ C ++ [StencilMask popMaskBegin inv3] ++ M
              ++ [StencilMask popMaskEnd inv4]) = true.
Proof.
  unfold balanced. intros HM HC. cbn [app balanced_from].
  pose proof (fun rest d => balanced_skip M rest 0 d HM) as HM'.
  pose proof (fun rest d => balanced_skip C rest 0 d HC) as HC'.
  cbn [Nat.add] in HM', HC'.
  rewrite HM'. cbn [app balanced_from]. rewrite HC'. cbn [app balanced_from].
  rewrite HM'. reflexivity.
Qed.

(** A mask that is pushed and popped while a set is built leaves the
    stencil count of the target as it was when the set is executed.
    When what the other pipes add is balanced, so is what [push], the
    instructions [C] in between and [pop] add; executing it against a
    render target brings the reference count back to its start and
    never takes it below. *)
Theorem stencil_build_is_balanced
    (q q1 q2 q3 : builder) (p p1 p2 p3 : Pipes) (e mask : nat) (inverse inverse' : bool)
    (r r1 r2 r3 : InstructionSet.t) (C : list instruction) :
  adds_only (fun l => balanced l = true) ->
  (forall p q r p' q' r', collectRenderables mask (p, q) r = Some (p', q', r') ->
     _maskHash q' !! e = _maskHash q !! e) ->
  push Pipes batch_break setBlendMode set_includeInBuild collectRenderables renderTarget
    q p e mask inverse r = Some (q1, p1, r1) ->
  grown r1 r2 C -> balanced C = true ->
  _maskHash q2 !! e = _maskHash q1 !! e ->
  pop Pipes batch_break setBlendMode q2 p2 e mask inverse' r2 = Some (q3, p3, r3) ->
  exists L,
    grown r r3 L /\ balanced L = true
    /\ forall (s : nat) (x : StencilMaskPipe.pipe),
         count (run s x L) s = count x s
         /\ forall n, count x s <= count (run s x (take n L)) s.
Proof.
  intros Hadds Hkeep Hpush HC HbC Hq2 Hpop.
  destruct (push_spec _ _ _ _ _ _ _ _ _ _ Hadds Hkeep Hpush)
    as (A1 & A2 & M1 & M2 & PA1 & PA2 & PM1 & PM2 & Hg1 & Hspan).
  destruct Hadds as (Hbreak & Hblend & _).
  unfold pop in Hpop.
  destruct (batch_break p2 r2) as [[pa ra]|] eqn:Ha; [|discriminate].
  cbn [mbind option_bind] in Hpop.
  destruct (setBlendMode mask "none" pa ra) as [[pb rb]|] eqn:Hb; [|discriminate].
  cbn [mbind option_bind] in Hpop. cbv zeta in Hpop.
  rewrite Hq2, Hspan in Hpop.
  cbn [mbind option_bind instructionsLength instructionsStart] in Hpop.
  rewrite Nat2Z.id in Hpop.
  destruct (Hbreak _ _ _ _ Ha) as (B1 & HB1 & PB1).
  destruct (Hblend _ _ _ _ _ _ Hb) as (B2 & HB2 & PB2).
  set (A := A1 ++ A2) in *. set (M := M1 ++ M2) in *.
  set (rc := InstructionSet.add rb (StencilMask popMaskBegin inverse')) in *.
  assert (Hrc : instructions rc
                = (instructions r ++ A ++ [StencilMask pushMaskBegin inverse]) ++ M
                  ++ [StencilMask pushMaskEnd inverse] ++ C ++ (B1 ++ B2)
                  ++ [StencilMask popMaskBegin inverse']).
  { unfold rc. cbn [InstructionSet.add instructions]. unfold grown in *.
    rewrite HB2, HB1, HC, Hg1. now rewrite <- !app_assoc. }
  assert (Hstart : (length (instructions r ++ A) + 1
                    = length (instructions r ++ A ++ [StencilMask pushMaskBegin inverse]))%nat).
  { rewrite !length_app. cbn [length]. lia. }
  destruct (replay_copies (length M) (length (instructions r ++ A) + 1) rc)
    as (rd & Hrd & Hgd).
  { unfold instructionSize. rewrite Hstart, Hrc, !length_app. lia. }
  rewrite Hrd in Hpop. cbn [mbind option_bind] in Hpop. injection Hpop as <- <- <-.
  exists (A ++ [StencilMask pushMaskBegin inverse] ++ M
            ++ [StencilMask pushMaskEnd inverse] ++ (C ++ B1 ++ B2)
            ++ [StencilMask popMaskBegin inverse'] ++ M
            ++ [StencilMask popMaskEnd false]).
  assert (HL : balanced (A ++ [StencilMask pushMaskBegin inverse] ++ M
                           ++ [StencilMask pushMaskEnd inverse] ++ (C ++ B1 ++ B2)
                           ++ [StencilMask popMaskBegin inverse'] ++ M
                           ++ [StencilMask popMaskEnd false]) = true).
  { apply balanced_app; [now apply balanced_app|].
    apply balanced_masked; [now apply balanced_app|].
    apply balanced_app; [exact HbC|now apply balanced_app]. }
  split; [|split; [exact HL|]].
  - assert (Htake : take (length M)
                      (drop (length (instructions r ++ A) + 1) (instructions rc)) = M).
    { rewrite Hstart, Hrc. now rewrite drop_app_length, take_app_length. }
    unfold grown in *. cbn [InstructionSet.add instructions]. rewrite Hgd, Htake.
    rewrite Hrc. now rewrite <- !app_assoc.
  - intros s x. destruct (balanced_run s _ 0 x HL) as [H1 H2].
    change (Z.of_nat 0) with 0 in H1, H2. rewrite Z.sub_0_r in H1.
    split; [exact H1|]. intros n. specialize (H2 n). now rewrite Z.sub_0_r in H2.
Qed.

End StencilBuildFacts.

Lemma sample_adds_only (P : list InstructionSet.instruction -> Prop) :
  P [] -> (forall m, P [InstructionSet.Renderable "sprite" m]) ->
  adds_only unit StencilMaskBuild.sample_break StencilMaskBuild.sample_blend
    StencilMaskBuild.sample_collect P.
Proof.
  intros P0 P1. split; [|split].
  - intros p r p' r' H. injection H as <- <-. exists []. split; [|exact P0].
    unfold grown. now rewrite app_nil_r.
  - intros m b p r p' r' H. injection H as <- <-. exists []. split; [|exact P0].
    unfold grown. now rewrite app_nil_r.
  - intros m p q r p' q' r' H. injection H as <- <- <-.
    exists [InstructionSet.Renderable "sprite" m]. split; [reflexivity|apply P1].
Qed.

(** The effect 5 with the mask container 6 is pushed on an empty set,
    the sprite 9 is drawn inside the mask, and the effect is popped. *)
Lemma stencil_pop_replays_witness :
  exists q1 r1 q3 r3,
    StencilMaskBuild.sample_push StencilMaskBuild.sample_builder tt 5%nat 6%nat false
      (InstructionSet.mkSet 1 [] 0) = Some (q1, tt, r1)
    /\ StencilMaskBuild.sample_pop q1 tt 5%nat 6%nat false
         (InstructionSet.add r1 (InstructionSet.Renderable "sprite" 9)) = Some (q3, tt, r3)
    /\ InstructionSet.instructions r3
       = [InstructionSet.StencilMask InstructionSet.pushMaskBegin false;
          InstructionSet.Renderable "sprite" 6;
          InstructionSet.StencilMask InstructionSet.pushMaskEnd false;
          InstructionSet.Renderable "sprite" 9;
          InstructionSet.StencilMask InstructionSet.popMaskBegin false;
          InstructionSet.Renderable "sprite" 6;
          InstructionSet.StencilMask InstructionSet.popMaskEnd false].
Proof.
  destruct (StencilMaskBuild.sample_push StencilMaskBuild.sample_builder tt 5%nat 6%nat
              false (InstructionSet.mkSet 1 [] 0)) as [[[q1 []] r1]|] eqn:Hpush;
    [|vm_compute in Hpush; discriminate].
  destruct (stencil_pop_replays_the_mask unit StencilMaskBuild.sample_break
              StencilMaskBuild.sample_blend (fun _ _ p => p)
              StencilMaskBuild.sample_collect (fun _ => 1%nat)
              StencilMaskBuild.sample_builder q1 q1 tt tt tt tt tt 5%nat 6%nat false false
              (InstructionSet.mkSet 1 [] 0) r1
              (InstructionSet.add r1 (InstructionSet.Renderable "sprite" 9))
              (InstructionSet.add r1 (InstructionSet.Renderable "sprite" 9))
              (InstructionSet.add r1 (InstructionSet.Renderable "sprite" 9))
              [InstructionSet.Renderable "sprite" 9%nat])
    as (A & M & A' & q3 & r3 & Hg1 & Hpop & Hg3).
  - now apply sample_adds_only.
  - intros p q r p' q' r' H. now injection H as <- <- <-.
  - exact Hpush.
  - reflexivity.
  - reflexivity.
  - reflexivity.
  - reflexivity.
  - exists q1, r1, q3, r3. split; [reflexivity|]. split; [exact Hpop|].
    vm_compute in Hpush. injection Hpush as <- <-.
    vm_compute in Hpop. injection Hpop as <- <-. reflexivity.
Defined.

Lemma stencil_build_is_balanced_witness :
  exists q1 r1 q3 r3,
    StencilMaskBuild.sample_push StencilMaskBuild.sample_builder tt 5%nat 6%nat false
      (InstructionSet.mkSet 1 [] 0) = Some (q1, tt, r1)
    /\ StencilMaskBuild.sample_pop q1 tt 5%nat 6%nat false
         (InstructionSet.add r1 (InstructionSet.Renderable "sprite" 9)) = Some (q3, tt, r3)
    /\ StencilMaskPipe.balanced (InstructionSet.instructions r3) = true
    /\ StencilMaskPipe.count
         (StencilMaskPipe.run 1 (StencilMaskPipe.mkPipe ∅ []) (InstructionSet.instructions r3))
         1 = 0.
Proof.
  destruct (StencilMaskBuild.sample_push StencilMaskBuild.sample_builder tt 5%nat 6%nat
              false (InstructionSet.mkSet 1 [] 0)) as [[[q1 []] r1]|] eqn:Hpush;
    [|vm_compute in Hpush; discriminate].
  destruct (StencilMaskBuild.sample_pop q1 tt 5%nat 6%nat false
              (InstructionSet.add r1 (InstructionSet.Renderable "sprite" 9)))
    as [[[q3 []] r3]|] eqn:Hpop;
    [|vm_compute in Hpush; injection Hpush as <- <-; vm_compute in Hpop; discriminate].
  destruct (stencil_build_is_balanced unit StencilMaskBuild.sample_break
              StencilMaskBuild.sample_blend (fun _ _ p => p)
              StencilMaskBuild.sample_collect (fun _ => 1%nat)
              StencilMaskBuild.sample_builder q1 q1 q3 tt tt tt tt 5%nat 6%nat false false
              (InstructionSet.mkSet 1 [] 0) r1
              (InstructionSet.add r1 (InstructionSet.Renderable "sprite" 9)) r3
              [InstructionSet.Renderable "sprite" 9%nat])
    as (L & HL & Hbal & Hrun).
  - now apply sample_adds_only.
  - intros p q r p' q' r' H. now injection H as <- <- <-.
  - exact Hpush.
  - reflexivity.
  - reflexivity.
  - reflexivity.
  - exact Hpop.
  - exists q1, r1, q3, r3. split; [reflexivity|]. split; [exact Hpop|].
    unfold grown in HL. cbn [InstructionSet.instructions app] in HL. rewrite HL.
    split; [exact Hbal|]. exact (proj1 (Hrun 1%nat (StencilMaskPipe.mkPipe ∅ []))).
Defined.

(** ** The scheduler *)

Section SchedulerFacts.
Import Number Scheduler.

(** The calls on a scheduler: [repeat], [cancel], and [_update] from the
    ticker. *)
Inductive sched_call :=
| Repeat (e : nat) (d : number) (r : bool) (now1 now2 : number)
| Cancel (e : Z)
| Update (now : number).

Definition do_sched (s : t) (o : sched_call) : t :=
  match o with
  | Repeat e d r now1 now2 => fst (repeat s e d r now1 now2)
  | Cancel e => cancel s e
  | Update now => fst (_update s now)
  end.

(** The ids handed out so far are below the counter, and no two tasks
    share one. *)
Definition fresh_ids (s : t) : Prop :=
  NoDup (map id (_tasks s)) /\ 1 <= Lt s
  /\ Forall (fun r => 1 <= id r < Lt s) (_tasks s).

Lemma cancel_first_filter (l : list task) (e : Z) :
  NoDup (map id l) ->
  cancel_first l e = List.filter (fun r => negb (id r =? e)) l.
Proof.
  induction l as [|x l IH]; [reflexivity|]. cbn [map cancel_first List.filter].
  intros Hnd. apply NoDup_cons in Hnd as [Hx Hnd].
  destruct (Z.eqb_spec (id x) e) as [He|He]; cbn [negb].
  - subst e. symmetry. clear IH Hnd. induction l as [|y l IH]; [reflexivity|].
    cbn [map] in Hx. rewrite not_elem_of_cons in Hx. destruct Hx as [Hne Hx].
    cbn [List.filter]. destruct (Z.eqb_spec (id y) (id x)); [congruence|].
    cbn [negb]. f_equal. now apply IH.
  - f_equal. now apply IH.
Qed.

Lemma cancel_first_absent (l : list task) (e : Z) :
  e ∉ map id l -> cancel_first l e = l.
Proof.
  induction l as [|x l IH]; [reflexivity|]. cbn [map cancel_first].
  rewrite not_elem_of_cons. intros [Hne Hl].
  destruct (Z.eqb_spec (id x) e); [congruence|]. now rewrite IH.
Qed.

Lemma cancel_first_snoc (l : list task) (x : task) :
  id x ∉ map id l -> cancel_first (l ++ [x]) (id x) = l.
Proof.
  induction l as [|y l IH]; cbn [map app cancel_first].
  - now rewrite Z.eqb_refl.
  - rewrite not_elem_of_cons. intros [Hne Hl].
    destruct (Z.eqb_spec (id y) (id x)); [congruence|]. now rewrite IH.
Qed.

Lemma update_loop_ids (e : number) (l : list task) :
  map id (fst (update_loop e l)) = map id l.
Proof.
  induction l as [|r l IH]; [reflexivity|]. cbn [update_loop].
  destruct (update_loop e l) as [l' calls]. cbn [fst] in IH.
  destruct (due e r); cbn [fst map]; now rewrite IH.
Qed.

Lemma ids_below (s : t) (x : Z) :
  Forall (fun r => 1 <= id r < Lt s) (_tasks s) -> Lt s <= x -> x ∉ map id (_tasks s).
Proof.
  intros Hall Hx Hin. apply list_elem_of_fmap in Hin as (r & -> & Hr).
  rewrite Forall_forall in Hall. specialize (Hall r Hr). lia.
Qed.

Lemma do_sched_fresh (s : t) (o : sched_call) : fresh_ids s -> fresh_ids (do_sched s o).
Proof.
  intros (Hnd & HLt & Hall). destruct o as [e d r now1 now2|e|now]; cbn [do_sched].
  - unfold repeat, fresh_ids. cbn [fst _tasks Lt]. rewrite map_app. cbn [map id].
    split; [|split; [lia|]].
    + apply NoDup_app. split; [exact Hnd|]. split; [|apply NoDup_singleton].
      intros x Hx Hx'. apply list_elem_of_singleton in Hx'. subst x.
      now apply (ids_below s (Lt s) Hall).
    + apply Forall_app. split.
      * eapply Forall_impl; [exact Hall|]. cbn. intros. lia.
      * constructor; [cbn; lia|constructor].
  - unfold cancel, fresh_ids. cbn [_tasks Lt]. rewrite (cancel_first_filter _ _ Hnd).
    split; [|split; [exact HLt|]].
    + clear Hall. induction (_tasks s) as [|x l IH]; [constructor|].
      cbn [map] in Hnd. apply NoDup_cons in Hnd as [Hx Hnd]. cbn [List.filter].
      destruct (negb (id x =? e)); [|now apply IH].
      cbn [map]. apply NoDup_cons. split; [|now apply IH].
      intros Hin. apply Hx. apply list_elem_of_fmap in Hin as (y & Hy & Hin).
      apply list_elem_of_In, filter_In in Hin as [Hin _].
      apply list_elem_of_fmap. exists y. split; [exact Hy|now apply list_elem_of_In].
    + rewrite Forall_forall in Hall |- *. intros x Hx.
      apply list_elem_of_In, filter_In in Hx as [Hx _]. apply Hall.
      now apply list_elem_of_In.
  - unfold _update, fresh_ids. pose proof (update_loop_ids now (_tasks s)) as Hids.
    destruct (update_loop now (_tasks s)) as [l calls]. cbn [fst _tasks Lt] in *.
    rewrite Hids. split; [exact Hnd|]. split; [exact HLt|].
    assert (Hall' : Forall (fun z => 1 <= z < Lt s) (map id (_tasks s)))
      by (now apply Forall_fmap).
    rewrite <- Hids in Hall'. now apply Forall_fmap in Hall'.
Qed.

Lemma fresh_new : fresh_ids new.
Proof. split; [constructor|]. split; [cbn; lia|constructor]. Qed.

Lemma calls_fresh (os : list sched_call) (s : t) :
  fresh_ids s -> fresh_ids (fold_left do_sched os s).
Proof.
  revert s. induction os as [|o os IH]; intros s H; [exact H|].
  cbn [fold_left]. apply IH. now apply do_sched_fresh.
Qed.

(** Task ids are never used twice.  After any calls on a new scheduler,
    the tasks have pairwise different ids, every id is at least 1, and
    the id that the next [repeat] hands back is the id of no task of the
    list; that [repeat] puts its task at the end of the list. *)
Theorem scheduler_ids_are_fresh (os : list sched_call) (e : nat) (d : number) (r : bool)
    (now1 now2 : number) :
  let s := fold_left do_sched os new in
  NoDup (map id (_tasks s))
  /\ Forall (fun x => 1 <= id x) (_tasks s)
  /\ (snd (repeat s e d r now1 now2) ∉ map id (_tasks s))
  /\ 1 <= snd (repeat s e d r now1 now2)
  /\ exists x, _tasks (fst (repeat s e d r now1 now2)) = _tasks s ++ [x]
               /\ id x = snd (repeat s e d r now1 now2) /\ func x = e.
Proof.
  cbv zeta. destruct (calls_fresh os new fresh_new) as (Hnd & HLt & Hall).
  split; [exact Hnd|]. cbn [repeat snd fst _tasks].
  split; [eapply Forall_impl; [exact Hall|]; cbn; intros; lia|].
  split; [apply ids_below; [exact Hall|lia]|]. split; [exact HLt|].
  eexists. split; [reflexivity|]. split; reflexivity.
Qed.

(** [cancel] takes one task off the list.  On a scheduler as the calls
    above leave it, [cancel(e)] removes the task with the id [e] and
    keeps the others in their order, a [cancel] of an id that no task
    has changes nothing, and cancelling the id that [repeat] has just
    handed back gives the task list as it was before the [repeat]. *)
Theorem cancel_removes_the_task (os : list sched_call) (x : Z) (e : nat) (d : number)
    (r : bool) (now1 now2 : number) :
  let s := fold_left do_sched os new in
  _tasks (cancel s x) = List.filter (fun t => negb (id t =? x)) (_tasks s)
  /\ (x ∉ map id (_tasks s) -> cancel s x = s)
  /\ _tasks (cancel (fst (repeat s e d r now1 now2)) (snd (repeat s e d r now1 now2)))
     = _tasks s.
Proof.
  cbv zeta. set (s := fold_left do_sched os new).
  destruct (calls_fresh os new fresh_new) as (Hnd & HLt & Hall). fold s in Hnd, HLt, Hall.
  split; [now apply cancel_first_filter|]. split.
  - intros Hx. unfold cancel. rewrite (cancel_first_absent _ _ Hx). now destruct s.
  - unfold repeat. cbv zeta. cbn [fst snd]. unfold cancel. cbn [_tasks].
    apply (cancel_first_snoc (_tasks s) (mkTask e d now1 _ now2 (Lt s))).
    cbn [id]. apply ids_below; [exact Hall|lia].
Qed.

End SchedulerFacts.

(** ** Enabling the renderable collector *)

Section CollectorSwitchFacts.
Import Number Scheduler CollectorSwitch.

(** The switch of the collector works once.  Enabling a new collector
    schedules its three tasks at the end of the list, the sweep without
    an offset and the two cleaners one and two seconds on; disabling it
    cancels exactly these three, yet [enabled] still reads true, because
    the handle of the sweep is not cleared; so enabling it again
    schedules nothing. *)
Theorem collector_switch_works_once (os : list sched_call) (f : number)
    (now now' now'' : nat -> number) :
  let s := fold_left do_sched os Scheduler.new in
  let on := set_enabled CollectorSwitch.new s f true now in
  let off := set_enabled (fst on) (snd on) f false now' in
  enabled (fst on) = true
  /\ _tasks (snd on)
     = _tasks s
       ++ [mkTask run_callback f (now 0%nat) zero (now 1%nat) (Lt s);
           mkTask hash_callback f (now 2%nat)
             (SFadd prec emax (_offset s) (ofZ 1000)) (now 3%nat) (Lt s + 1);
           mkTask array_callback f (now 4%nat)
             (SFadd prec emax (SFadd prec emax (_offset s) (ofZ 1000)) (ofZ 1000))
             (now 5%nat) (Lt s + 1 + 1)]
  /\ _tasks (snd off) = _tasks s
  /\ enabled (fst off) = true
  /\ set_enabled (fst off) (snd off) f true now'' = off.
Proof.
  cbv zeta. set (s := fold_left do_sched os Scheduler.new).
  destruct (calls_fresh os Scheduler.new fresh_new) as (Hnd & HLt & Hall).
  fold s in Hnd, HLt, Hall.
  assert (Hon : set_enabled CollectorSwitch.new s f true now
                = (mkHandlers (Some (Lt s)) (Some (Lt s + 1)) (Some (Lt s + 1 + 1)),
                   mkScheduler
                     (_tasks s
                      ++ [mkTask run_callback f (now 0%nat) zero (now 1%nat) (Lt s);
                          mkTask hash_callback f (now 2%nat)
                            (SFadd prec emax (_offset s) (ofZ 1000)) (now 3%nat) (Lt s + 1);
                          mkTask array_callback f (now 4%nat)
                            (SFadd prec emax (SFadd prec emax (_offset s) (ofZ 1000))
                               (ofZ 1000))
                            (now 5%nat) (Lt s + 1 + 1)])
                     (SFadd prec emax (SFadd prec emax (_offset s) (ofZ 1000)) (ofZ 1000))
                     (Lt s + 1 + 1 + 1))).
  { unfold set_enabled, repeat. cbn [enabled CollectorSwitch.new _handler Bool.eqb
                                     _tasks _offset Lt].
    now rewrite <- !app_assoc. }
  rewrite Hon. cbn [fst snd].
  assert (Hen : enabled (mkHandlers (Some (Lt s)) (Some (Lt s + 1)) (Some (Lt s + 1 + 1)))
                = true).
  { cbn [enabled _handler]. destruct (Z.eqb_spec (Lt s) 0); [lia|reflexivity]. }
  split; [exact Hen|]. split; [reflexivity|].
  assert (Hoff : set_enabled (mkHandlers (Some (Lt s)) (Some (Lt s + 1)) (Some (Lt s + 1 + 1)))
                   (mkScheduler
                      (_tasks s
                       ++ [mkTask run_callback f (now 0%nat) zero (now 1%nat) (Lt s);
                           mkTask hash_callback f (now 2%nat)
                             (SFadd prec emax (_offset s) (ofZ 1000)) (now 3%nat) (Lt s + 1);
                           mkTask array_callback f (now 4%nat)
                             (SFadd prec emax (SFadd prec emax (_offset s) (ofZ 1000))
                                (ofZ 1000))
                             (now 5%nat) (Lt s + 1 + 1)])
                      (SFadd prec emax (SFadd prec emax (_offset s) (ofZ 1000)) (ofZ 1000))
                      (Lt s + 1 + 1 + 1)) f false now'
                 = (mkHandlers (Some (Lt s)) (Some (Lt s + 1)) (Some (Lt s + 1 + 1)),
                    mkScheduler (_tasks s)
                      (SFadd prec emax (SFadd prec emax (_offset s) (ofZ 1000)) (ofZ 1000))
                      (Lt s + 1 + 1 + 1))).
  { unfold set_enabled. rewrite Hen. cbn [Bool.eqb].
    cbn [cancel_handle _handler _hashHandler _arrayHandler]. unfold cancel.
    cbn [_tasks _offset Lt]. f_equal. f_equal.
    assert (Hrest : forall (l : list task) (tl : list task),
               Forall (fun r => 1 <= id r < Lt s) l ->
               forall z, Lt s <= z ->
               cancel_first (l ++ tl) z = l ++ cancel_first tl z).
    { intros l tl Hl z Hz. induction Hl as [|y l Hy Hl IH]; [reflexivity|].
      cbn [app cancel_first]. destruct (Z.eqb_spec (id y) z); [lia|]. now rewrite IH. }
    rewrite (Hrest _ _ Hall) by lia. cbn [cancel_first id]. rewrite Z.eqb_refl.
    rewrite (Hrest _ _ Hall) by lia. cbn [cancel_first id]. rewrite Z.eqb_refl.
    rewrite (Hrest _ _ Hall) by lia. cbn [cancel_first id]. rewrite Z.eqb_refl.
    now rewrite app_nil_r. }
  rewrite Hoff. cbn [fst snd]. split; [reflexivity|]. split; [exact Hen|].
  unfold set_enabled. rewrite Hen. reflexivity.
Qed.

End CollectorSwitchFacts.

(** ** The texture collector *)

Section TextureGCFacts.
Import TextureGC.

Lemma idle_untouched (s : t) (r : source) : idle s (set_touched (-1) r) = false.
Proof.
  unfold idle. cbn [_touched set_touched autoGarbageCollect resource].
  rewrite Z.ltb_irrefl. now rewrite andb_false_r.
Qed.

Lemma run_loop_spec (s : t) (l : list source) :
  run_loop s l
  = (map (fun r => if idle s r then set_touched (-1) r else r) l,
     map uid (List.filter (idle s) l)).
Proof.
  induction l as [|r l IH]; [reflexivity|]. cbn [run_loop map List.filter].
  rewrite IH. now destruct (idle s r).
Qed.

Lemma idle_counts (s s' : t) (r : source) :
  count s' = count s -> maxIdle s' = maxIdle s -> idle s' r = idle s r.
Proof. unfold idle. now intros -> ->. Qed.

Lemma resweep (f g : source -> bool) (l : list source) :
  (forall r, g r = f r) -> (forall r, f (set_touched (-1) r) = false) ->
  List.filter g (map (fun r => if f r then set_touched (-1) r else r) l) = []
  /\ map (fun r => if g r then set_touched (-1) r else r)
       (map (fun r => if f r then set_touched (-1) r else r) l)
     = map (fun r => if f r then set_touched (-1) r else r) l.
Proof.
  intros Hg Hf. induction l as [|r l [IH1 IH2]]; [now split|].
  cbn [map List.filter]. rewrite IH2. destruct (f r) eqn:Hr.
  - rewrite Hg, Hf. now split.
  - rewrite Hg, Hr. now split.
Qed.

Lemma run_eq (s : t) :
  run s = {| count := count s; checkCount := checkCount s;
             checkCountMax := checkCountMax s; maxIdle := maxIdle s; active := active s;
             managedTextures :=
               map (fun r => if idle s r then set_touched (-1) r else r) (managedTextures s);
             unloaded := unloaded s ++ map uid (List.filter (idle s) (managedTextures s)) |}.
Proof. unfold run. now rewrite run_loop_spec. Qed.

(** A sweep unloads the textures that were idle for more than [maxIdle]
    frames and no other: a texture is unloaded and marked with -1 when
    it is collectable, has a resource, is not marked yet and was last
    used more than [maxIdle] frames before the current count; all other
    textures stay as they are.  A second sweep right after the first
    unloads nothing. *)
Theorem texture_sweep_unloads_the_idle (s : t) :
  managedTextures (run s)
  = map (fun r => if idle s r then set_touched (-1) r else r) (managedTextures s)
  /\ unloaded (run s) = unloaded s ++ map uid (List.filter (idle s) (managedTextures s))
  /\ count (run s) = count s /\ checkCount (run s) = checkCount s
  /\ run (run s) = run s.
Proof.
  pose proof (run_eq s) as E.
  assert (E1 : managedTextures (run s)
               = map (fun r => if idle s r then set_touched (-1) r else r)
                   (managedTextures s)) by (now rewrite E).
  assert (E2 : unloaded (run s)
               = unloaded s ++ map uid (List.filter (idle s) (managedTextures s)))
    by (now rewrite E).
  assert (E3 : count (run s) = count s) by (now rewrite E).
  assert (E4 : checkCount (run s) = checkCount s) by (now rewrite E).
  assert (E5 : checkCountMax (run s) = checkCountMax s) by (now rewrite E).
  assert (E6 : maxIdle (run s) = maxIdle s) by (now rewrite E).
  assert (E7 : active (run s) = active s) by (now rewrite E).
  split; [exact E1|]. split; [exact E2|]. split; [exact E3|]. split; [exact E4|].
  rewrite (run_eq (run s)), E1, E2, E3, E4, E5, E6, E7.
  destruct (resweep (idle s) (idle (run s)) (managedTextures s)
              (fun r => idle_counts s (run s) r E3 E6) (idle_untouched s))
    as [Hnone1 Hnone2].
  rewrite Hnone1, Hnone2. cbn [map]. rewrite app_nil_r. symmetry. exact E.
Qed.

Lemma frames_S (n : nat) (s : t) : frames (S n) s = postrender (frames n s) true.
Proof. reflexivity. Qed.

Lemma frames_quiet (M : Z) (n : nat) (s : t) :
  checkCountMax s = Some M -> active s = true ->
  checkCount s + Z.of_nat n <= M ->
  frames n s = set_counts (count s + Z.of_nat n) (checkCount s + Z.of_nat n) s.
Proof.
  intros HM Ha. induction n as [|n IH]; intros Hle.
  - cbn [frames Nat.iter]. change (Z.of_nat 0) with 0. rewrite !Z.add_0_r. now destruct s.
  - rewrite frames_S, IH by lia. unfold postrender.
    cbn [set_counts count checkCount active checkCountMax]. rewrite Ha, HM.
    cbn [exceeds]. destruct (Z.ltb_spec M (checkCount s + Z.of_nat n + 1)); [lia|].
    unfold set_counts. cbn [count checkCount checkCountMax maxIdle active managedTextures
                            unloaded].
    f_equal; lia.
Qed.

(** The sweep runs every [checkCountMax + 1] frames that are rendered
    to the screen.  On an active collector whose check counter is at
    [k], the next [checkCountMax - k] screen frames only count; the
    frame after them sets the check counter back to 0 and sweeps, with
    the frame count it has reached; a frame that is not rendered to the
    screen changes nothing. *)
Theorem texture_sweep_every_checkCountMax_frames (M : Z) (s : t) :
  checkCountMax s = Some M -> active s = true ->
  0 <= checkCount s <= M ->
  (forall n, checkCount s + Z.of_nat n <= M ->
     frames n s = set_counts (count s + Z.of_nat n) (checkCount s + Z.of_nat n) s)
  /\ frames (Z.to_nat (M - checkCount s) + 1) s
     = run (set_counts (count s + (M - checkCount s) + 1) 0 s)
  /\ postrender s false = s.
Proof.
  intros HM Ha Hk. split; [intros n; now apply frames_quiet|]. split; [|reflexivity].
  rewrite Nat.add_1_r, frames_S, (frames_quiet M) by (try assumption; lia).
  unfold postrender. cbn [set_counts count checkCount active checkCountMax]. rewrite Ha, HM.
  cbn [exceeds]. rewrite Z2Nat.id by lia.
  destruct (Z.ltb_spec M (checkCount s + (M - checkCount s) + 1)); [|lia].
  f_equal; unfold set_counts;
    cbn [count checkCount checkCountMax maxIdle active managedTextures unloaded];
    f_equal; lia.
Qed.

End TextureGCFacts.

(** With the default options the sweep runs in the 601st screen frame.
    The sample collector starts in frame 3700; in frame 4301 the texture
    last used in frame 10 has been idle for more than 3600 frames and is
    unloaded, the texture last used in frame 3000 is kept. *)
Lemma texture_sweep_every_checkCountMax_frames_witness :
  TextureGC.checkCountMax TextureGC.sample = Some 600
  /\ TextureGC.active TextureGC.sample = true
  /\ TextureGC.unloaded (TextureGC.frames 600 TextureGC.sample) = []
  /\ TextureGC.unloaded (TextureGC.frames 601 TextureGC.sample) = [1%nat].
Proof.
  assert (H1 : TextureGC.checkCountMax TextureGC.sample = Some 600) by reflexivity.
  assert (H2 : TextureGC.active TextureGC.sample = true) by reflexivity.
  assert (H3 : 0 <= TextureGC.checkCount TextureGC.sample <= 600) by (cbn; lia).
  destruct (texture_sweep_every_checkCountMax_frames 600 TextureGC.sample H1 H2 H3)
    as (Hq & Hs & _).
  split; [exact H1|]. split; [exact H2|]. split.
  - rewrite (Hq 600%nat) by (cbn; lia). reflexivity.
  - change 601%nat with (Z.to_nat (600 - TextureGC.checkCount TextureGC.sample) + 1)%nat.
    rewrite Hs. vm_compute. reflexivity.
Defined.

(** ** Global uniforms *)

Section GlobalUniformsFacts.
Import Number GlobalUniforms.

Variable target_size : pair.
Variable target_projection : Matrix.t.
Variable uniformBatch : option (nat -> nat).
Variable webgl : bool.

Local Abbreviation bind := (bind target_size target_projection uniformBatch).
Local Abbreviation push := (push target_size target_projection uniformBatch).
Local Abbreviation start := (start target_size target_projection uniformBatch).
Local Abbreviation pop := (pop webgl).
Local Abbreviation run := (run target_size target_projection uniformBatch webgl).

(** The stack between two calls of a frame: it holds an entry in every
    slot below the index, at least one, and the current data is the
    entry on top. *)
Definition stacked (s : t) : Prop :=
  1 <= _stackIndex s
  /\ (forall k, 0 <= k < _stackIndex s -> is_Some (_globalUniformDataStack s !! k))
  /\ _currentGlobalUniformData s = _globalUniformDataStack s !! (_stackIndex s - 1).

(** What [bind] leaves of the stack, and that it returns when the slot
    below the index is filled. *)
Lemma bind_stack (s : t) (o : options) :
  _stackIndex s = 0 \/ is_Some (_globalUniformDataStack s !! (_stackIndex s - 1)) ->
  exists s1 u, bind s o = Some s1
    /\ _stackIndex s1 = _stackIndex s
    /\ _globalUniformDataStack s1 = _globalUniformDataStack s
    /\ _currentGlobalUniformData s1 = Some u.
Proof.
  intros Hl. unfold GlobalUniforms.bind.
  set (l := if _stackIndex s =? 0 then _ else _).
  assert (Hsome : is_Some l).
  { unfold l. destruct (Z.eqb_spec (_stackIndex s) 0) as [H0|H0]; [eauto|].
    destruct Hl; [contradiction|assumption]. }
  destruct Hsome as [ld Hld]. rewrite Hld. cbn [fmap option_fmap option_map].
  destruct (worldTransformMatrix o) as [wt|], (worldColor o) as [c|], (offset o) as [off|];
    cbn [mbind option_bind];
    try (destruct (c =? 0); cbn [mbind option_bind fmap option_fmap option_map]);
    destruct (take_or_make (_uniformsPool s) (fresh s)) as [[d pool] fr];
    (destruct uniformBatch as [g|];
     [|destruct (take_or_make (_bindGroupPool s) fr) as [[f bpool] fr']]);
    eexists _, _; (split; [reflexivity|]); cbn; auto.
Qed.

Lemma push_stacked (s : t) (o : options) :
  stacked s ->
  exists s1 u, push s o = Some s1
    /\ _stackIndex s1 = _stackIndex s + 1
    /\ _globalUniformDataStack s1 = <[_stackIndex s := u]> (_globalUniformDataStack s)
    /\ stacked s1.
Proof.
  intros (Hidx & Hfill & Hcur).
  destruct (bind_stack s o) as (s1 & u & Hb & Hi & Hst & Hc).
  { right. apply Hfill. lia. }
  unfold GlobalUniforms.push. rewrite Hb. cbn [mbind option_bind]. rewrite Hc.
  cbn [mbind option_bind]. eexists _, u. split; [reflexivity|].
  cbn [_stackIndex _globalUniformDataStack]. rewrite Hi, Hst.
  split; [reflexivity|]. split; [reflexivity|].
  unfold stacked. cbn [_stackIndex _globalUniformDataStack _currentGlobalUniformData].
  rewrite ?Hi, ?Hst. split; [lia|]. split.
  - intros k Hk. destruct (decide (k = _stackIndex s)) as [->|Hne].
    + rewrite lookup_insert_eq. eauto.
    + rewrite lookup_insert_ne by congruence. apply Hfill. lia.
  - replace (_stackIndex s + 1 - 1) with (_stackIndex s) by lia.
    now rewrite lookup_insert_eq.
Qed.

Lemma pop_stacked (s : t) :
  stacked s -> 2 <= _stackIndex s ->
  exists s1, pop s = Some s1
    /\ _stackIndex s1 = _stackIndex s - 1
    /\ _globalUniformDataStack s1 = _globalUniformDataStack s
    /\ stacked s1.
Proof.
  intros (Hidx & Hfill & Hcur) H2. unfold GlobalUniforms.pop. cbv zeta.
  destruct (Hfill (_stackIndex s - 1 - 1)) as [u Hu]; [lia|]. rewrite Hu.
  assert (Hcs : exists cs, (if webgl
                            then (fun d => [update_resource (d_bindGroup d)]) <$> Some u
                            else Some []) = Some cs)
    by (destruct webgl; eauto).
  destruct Hcs as [cs ->]. cbn [mbind option_bind]. eexists. split; [reflexivity|].
  cbn [_stackIndex _globalUniformDataStack _currentGlobalUniformData].
  split; [reflexivity|]. split; [reflexivity|]. unfold stacked.
  cbn [_stackIndex _globalUniformDataStack _currentGlobalUniformData].
  split; [lia|]. split.
  - intros k Hk. apply Hfill. lia.
  - now rewrite Hu.
Qed.

Lemma start_stacked (s : t) (o : options) :
  exists s1, start s o = Some s1 /\ stacked s1 /\ _stackIndex s1 = 1.
Proof.
  unfold GlobalUniforms.start.
  destruct (bind_stack (reset s) o) as (s1 & u & Hb & Hi & Hst & Hc); [now left|].
  unfold GlobalUniforms.push. rewrite Hb. cbn [mbind option_bind]. rewrite Hc.
  cbn [mbind option_bind]. eexists. split; [reflexivity|].
  unfold stacked. cbn [_stackIndex _globalUniformDataStack _currentGlobalUniformData].
  rewrite Hi. cbn [reset _stackIndex]. split; [|reflexivity].
  split; [lia|]. split.
  - intros k Hk. replace k with 0 by lia. rewrite lookup_insert_eq. eauto.
  - cbn. now rewrite lookup_insert_eq.
Qed.

Lemma step_None (os : list op) :
  foldl (step target_size target_projection uniformBatch webgl) None os = None.
Proof. induction os; cbn [foldl step]; auto. Qed.

Lemma nested_run (os : list op) :
  forall (d : nat) (s : t),
    stacked s -> 1 + Z.of_nat d <= _stackIndex s ->
    nested d os = true ->
    exists s', run s os = Some s'
      /\ stacked s'
      /\ _stackIndex s' = _stackIndex s - Z.of_nat d
      /\ forall k, k < _stackIndex s - Z.of_nat d ->
           _globalUniformDataStack s' !! k = _globalUniformDataStack s !! k.
Proof.
  induction os as [|o os IH]; intros d s Hs Hd Hn; cbn [nested] in Hn.
  - apply Nat.eqb_eq in Hn. subst d. exists s. change (Z.of_nat 0) with 0.
    rewrite Z.sub_0_r. split; [reflexivity|]. split; [exact Hs|]. split; reflexivity.
  - unfold GlobalUniforms.run. cbn [foldl step].
    destruct o as [o|o|o|]; try discriminate.
    + destruct (push_stacked s o Hs) as (s1 & u & Hp & Hi & Hst & Hs1). rewrite Hp.
      destruct (IH (S d) s1 Hs1 ltac:(lia) Hn) as (s' & Hr & Hs' & Hi' & Hk).
      exists s'. split; [exact Hr|]. split; [exact Hs'|]. split; [lia|].
      intros k Hlt. rewrite Hk by lia. rewrite Hst. apply lookup_insert_ne. lia.
    + destruct d as [|d]; [discriminate|].
      destruct (pop_stacked s Hs ltac:(lia)) as (s1 & Hp & Hi & Hst & Hs1). rewrite Hp.
      destruct (IH d s1 Hs1 ltac:(lia) Hn) as (s' & Hr & Hs' & Hi' & Hk).
      exists s'. split; [exact Hr|]. split; [exact Hs'|]. split; [lia|].
      intros k Hlt. rewrite Hk by lia. now rewrite Hst.
Qed.

(** Pushes and pops of global uniforms nest.  After [start], any
    sequence of [push] and [pop] in which every [pop] undoes a [push]
    of the sequence returns and leaves the stack index, the entries
    below it and the current uniform data as they were before the
    sequence; [start] itself always returns, with the index at 1. *)
Theorem global_uniforms_pop_restores (s0 : t) (o : options) (os : list op) :
  nested 0 os = true ->
  exists s s',
    start s0 o = Some s
    /\ _stackIndex s = 1
    /\ run s os = Some s'
    /\ _stackIndex s' = 1
    /\ _currentGlobalUniformData s' = _currentGlobalUniformData s
    /\ _globalUniformDataStack s' !! 0 = _globalUniformDataStack s !! 0
    /\ is_Some (_currentGlobalUniformData s).
Proof.
  intros Hn. destruct (start_stacked s0 o) as (s & Hstart & Hs & Hi).
  destruct (nested_run os 0 s Hs ltac:(rewrite Hi; cbn; lia) Hn)
    as (s' & Hr & Hs' & Hi' & Hk).
  change (Z.of_nat 0) with 0 in Hi', Hk. rewrite Z.sub_0_r in Hi', Hk.
  exists s, s'. split; [exact Hstart|]. split; [exact Hi|]. split; [exact Hr|].
  split; [lia|].
  destruct Hs as (_ & Hfill & Hcur). destruct Hs' as (_ & _ & Hcur').
  assert (H0 : _globalUniformDataStack s' !! 0 = _globalUniformDataStack s !! 0)
    by (apply Hk; lia).
  split; [|split; [exact H0|]].
  - rewrite Hcur, Hcur', Hi', Hi. exact H0.
  - rewrite Hcur, Hi. apply Hfill. lia.
Qed.

(** *** The pools *)

(** The uniform groups and bind groups that exist: each is in one pool
    or active, once, and its handle was handed out already. *)
Definition pooled (s : t) : Prop :=
  NoDup ((_uniformsPool s ++ _activeUniforms s)
           ++ (_bindGroupPool s ++ _activeBindGroups s))
  /\ Forall (fun x => (x < fresh s)%nat)
       ((_uniformsPool s ++ _activeUniforms s)
          ++ (_bindGroupPool s ++ _activeBindGroups s)).

Lemma last_snoc_split {A} (l : list A) (x : A) :
  last l = Some x -> l = removelast l ++ [x].
Proof.
  intros H. destruct (List.exists_last (l := l)) as (l' & y & ->).
  { intros ->. discriminate. }
  rewrite last_snoc in H. injection H as ->. now rewrite removelast_last.
Qed.

(** Taking an object from a pool, or making one: the objects that exist
    stay apart. *)
Lemma take_or_make_spec (pool rest : list nat) (fr : nat) (d : nat) (pool' : list nat)
    (fr' : nat) :
  take_or_make pool fr = (d, pool', fr') ->
  NoDup (pool ++ rest) -> Forall (fun x => (x < fr)%nat) (pool ++ rest) ->
  (fr <= fr')%nat
  /\ NoDup (d :: pool' ++ rest)
  /\ Forall (fun x => (x < fr')%nat) (d :: pool' ++ rest).
Proof.
  unfold take_or_make. destruct (last pool) as [x|] eqn:Hl.
  - intros H; injection H as <- <- <-. intros Hnd Hall.
    apply last_snoc_split in Hl. rewrite Hl in Hnd, Hall.
    split; [lia|]. split.
    + rewrite <- app_assoc in Hnd. cbn [app] in Hnd.
      apply NoDup_app in Hnd as (H1 & H2 & H3). apply NoDup_cons in H3 as (H3 & H4).
      apply NoDup_cons. split.
      * rewrite elem_of_app. intros [H|H]; [apply (H2 x H); now left|contradiction].
      * apply NoDup_app. split; [exact H1|]. split; [|exact H4].
        intros y Hy Hy'. apply (H2 y Hy). now right.
    + rewrite <- app_assoc in Hall. cbn [app] in Hall.
      apply Forall_app in Hall as (H1 & H2). apply Forall_cons in H2 as (H2 & H3).
      apply Forall_cons. split; [exact H2|]. apply Forall_app. now split.
  - intros H; injection H as <- <- <-. intros Hnd Hall. split; [lia|]. split.
    + apply NoDup_cons. split; [|exact Hnd].
      intros Hin. rewrite Forall_forall in Hall. specialize (Hall _ Hin). lia.
    + apply Forall_cons. split; [lia|].
      eapply Forall_impl; [exact Hall|]. cbn. intros. lia.
Qed.

Lemma NoDup_perm_of {A} (l1 l2 : list A) : l1 ≡ₚ l2 -> NoDup l1 -> NoDup l2.
Proof. intros H. now rewrite H. Qed.

Lemma Forall_perm_of {A} (P : A -> Prop) (l1 l2 : list A) :
  l1 ≡ₚ l2 -> Forall P l1 -> Forall P l2.
Proof. intros H. now rewrite H. Qed.

Lemma bind_pooled (s s1 : t) (o : options) :
  pooled s -> bind s o = Some s1 -> pooled s1.
Proof.
  intros (Hnd & Hall). unfold GlobalUniforms.bind.
  do 3 (match goal with
        | |- (?x ≫= _) = _ -> _ => destruct x; [|discriminate]; cbn [mbind option_bind]
        end).
  destruct (take_or_make (_uniformsPool s) (fresh s)) as [[d pool] fr] eqn:Ht.
  rewrite <- app_assoc in Hnd, Hall.
  destruct (take_or_make_spec _ _ _ _ _ _ Ht Hnd Hall) as (Hfr & Hnd1 & Hall1).
  destruct uniformBatch as [g|].
  - intros H; injection H as <-. unfold pooled.
    cbn [_uniformsPool _activeUniforms _bindGroupPool _activeBindGroups fresh]. split.
    + eapply NoDup_perm_of; [|exact Hnd1]. clear. solve_Permutation.
    + eapply Forall_perm_of; [|exact Hall1]. clear. solve_Permutation.
  - destruct (take_or_make (_bindGroupPool s) fr) as [[f bpool] fr'] eqn:Hf.
    assert (Hnd2 : NoDup (_bindGroupPool s
                            ++ (_activeBindGroups s ++ d :: pool ++ _activeUniforms s))).
    { eapply NoDup_perm_of; [|exact Hnd1]. clear. solve_Permutation. }
    assert (Hall2 : Forall (fun x => (x < fr)%nat)
                      (_bindGroupPool s
                         ++ (_activeBindGroups s ++ d :: pool ++ _activeUniforms s))).
    { eapply Forall_perm_of; [|exact Hall1]. clear. solve_Permutation. }
    destruct (take_or_make_spec _ _ _ _ _ _ Hf Hnd2 Hall2) as (Hfr' & Hnd3 & Hall3).
    intros H; injection H as <-. unfold pooled.
    cbn [_uniformsPool _activeUniforms _bindGroupPool _activeBindGroups fresh]. split.
    + eapply NoDup_perm_of; [|exact Hnd3]. clear. solve_Permutation.
    + eapply Forall_perm_of; [|exact Hall3]. clear. solve_Permutation.
Qed.

Lemma push_pooled (s s1 : t) (o : options) :
  pooled s -> push s o = Some s1 -> pooled s1.
Proof.
  intros Hp. unfold GlobalUniforms.push.
  destruct (bind s o) as [s2|] eqn:Hb; [|discriminate]. cbn [mbind option_bind].
  destruct (_currentGlobalUniformData s2); [|discriminate]. cbn [mbind option_bind].
  intros H; injection H as <-. exact (bind_pooled _ _ _ Hp Hb).
Qed.

Lemma reset_pooled (s : t) : pooled s -> pooled (reset s).
Proof.
  intros (Hnd & Hall). unfold pooled.
  cbn [reset _uniformsPool _activeUniforms _bindGroupPool _activeBindGroups fresh].
  now rewrite !app_nil_r.
Qed.

Lemma step_pooled (s s1 : t) (o : op) :
  pooled s ->
  step target_size target_projection uniformBatch webgl (Some s) o = Some s1 -> pooled s1.
Proof.
  intros Hp. destruct o as [o|o|o|]; cbn [step].
  - unfold GlobalUniforms.start. apply push_pooled. now apply reset_pooled.
  - now apply bind_pooled.
  - now apply push_pooled.
  - unfold GlobalUniforms.pop. cbv zeta.
    destruct (if webgl then _ else _); [|discriminate]. cbn [mbind option_bind].
    intros H; injection H as <-. exact Hp.
Qed.

Lemma run_pooled (os : list op) (s s1 : t) :
  pooled s -> run s os = Some s1 -> pooled s1.
Proof.
  unfold GlobalUniforms.run. revert s. induction os as [|o os IH]; intros s Hp H.
  - cbn in H. now injection H as <-.
  - cbn [foldl] in H.
    destruct (step target_size target_projection uniformBatch webgl (Some s) o)
      as [s2|] eqn:Hs; [|rewrite step_None in H; discriminate].
    eapply IH; [|exact H]. eapply step_pooled; eassumption.
Qed.

(** Every bind of a frame gets a uniform group of its own.  Whatever
    calls were made on a new system, no uniform group and no bind group
    is both pooled and active or listed twice, so two binds between two
    resets never write to the same uniform group; [reset] hands every
    active object back to its pool and forgets none. *)
Theorem uniform_groups_are_not_shared (os : list op) (s : t) :
  run new os = Some s ->
  NoDup (_uniformsPool s ++ _activeUniforms s)
  /\ NoDup (_bindGroupPool s ++ _activeBindGroups s)
  /\ _uniformsPool (reset s) = _uniformsPool s ++ _activeUniforms s
  /\ _activeUniforms (reset s) = []
  /\ _bindGroupPool (reset s) = _bindGroupPool s ++ _activeBindGroups s
  /\ _activeBindGroups (reset s) = [].
Proof.
  intros H.
  assert (H0 : pooled new) by (split; [apply NoDup_nil_2|constructor]).
  destruct (run_pooled os new s H0 H) as (Hnd & _).
  apply NoDup_app in Hnd as (H1 & _ & H2). repeat split; assumption.
Qed.

End GlobalUniformsFacts.

Lemma global_uniforms_pop_restores_witness :
  GlobalUniforms.nested 0 GlobalUniforms.sample_ops = true
  /\ exists s s',
       GlobalUniforms.start (Number.ofZ 800, Number.ofZ 600) Matrix.identity None
         GlobalUniforms.new GlobalUniforms.plain = Some s
       /\ GlobalUniforms.sample_run s GlobalUniforms.sample_ops = Some s'
       /\ GlobalUniforms._currentGlobalUniformData s'
          = GlobalUniforms._currentGlobalUniformData s.
Proof.
  split; [reflexivity|].
  destruct (global_uniforms_pop_restores (Number.ofZ 800, Number.ofZ 600) Matrix.identity
              None true GlobalUniforms.new GlobalUniforms.plain GlobalUniforms.sample_ops
              eq_refl) as (s & s' & H1 & _ & H3 & _ & H5 & _).
  exists s, s'. split; [exact H1|]. split; [exact H3|exact H5].
Defined.

(** Two frames: the second one takes its three uniform groups from the
    pool that the first one filled. *)
Lemma uniform_groups_are_not_shared_witness :
  exists s,
    GlobalUniforms.sample_run GlobalUniforms.new
      (GlobalUniforms.Start GlobalUniforms.plain :: GlobalUniforms.sample_ops
         ++ GlobalUniforms.Start GlobalUniforms.plain :: GlobalUniforms.sample_ops)
    = Some s
    /\ GlobalUniforms._activeUniforms s = [4; 2; 0]%nat
    /\ GlobalUniforms._uniformsPool s = []
    /\ NoDup (GlobalUniforms._uniformsPool s ++ GlobalUniforms._activeUniforms s).
Proof.
  destruct (GlobalUniforms.sample_run GlobalUniforms.new _) as [s|] eqn:H;
    [|vm_compute in H; discriminate].
  exists s. split; [reflexivity|].
  pose proof (uniform_groups_are_not_shared _ _ _ _ _ _ H) as (Hnd & _).
  vm_compute in H. injection H as <-.
  split; [reflexivity|]. split; [reflexivity|exact Hnd].
Defined.

(** ** The blend mode pipe *)

Section BlendModeFacts.
Import BlendModePipe.

Variable advanced : string -> bool.

(** Between two calls of a build that started with the calls [base]:
    the filter instructions added so far are in turn, a filter is
    pushed exactly when [_isAdvanced] says so, and there is an active
    mode. *)
Definition in_build (base : list call) (p : pipe) : Prop :=
  is_Some (_activeBlendMode p)
  /\ exists cs, calls p = base ++ cs
                /\ foldl read (Some (Idle false)) cs = Some (Idle (_isAdvanced p)).

Lemma begin_calls (p : pipe) (e : target) (t : string) :
  _activeBlendMode p = Some t -> advanced t = true ->
  exists s l c,
    calls (_beginAdvancedBlendMode advanced p e)
    = calls p ++ [batch_break; add_pushFilter s l c]
    /\ _isAdvanced (_beginAdvancedBlendMode advanced p e) = _isAdvanced p
    /\ _activeBlendMode (_beginAdvancedBlendMode advanced p e) = Some t.
Proof.
  intros Ha Hadv. unfold _beginAdvancedBlendMode. cbn [log _activeBlendMode].
  rewrite Ha, Hadv. unfold _ensureFilterEffect.
  cbn [_filterHash log _blendModeStack _isAdvanced _activeBlendMode _renderableList
       arrays fresh calls].
  destruct (_filterHash p !! t) as [s|], e as [n|g root];
    cbn [log _blendModeStack _isAdvanced _filterHash _activeBlendMode _renderableList
         arrays fresh calls];
    rewrite <- app_assoc; eexists _, _, _; (split; [reflexivity|]); split; auto.
Qed.

Lemma setBlendMode_building (base : list call) (p : pipe) (e : option target) (t : string) :
  in_build base p -> in_build base (setBlendMode advanced p e t).
Proof.
  intros (Hact & cs & Hcs & Hread). unfold setBlendMode.
  destruct (bool_decide (_activeBlendMode p = Some t)).
  - assert (Hsame : forall n, in_build base (list_push p n)).
    { intros n. unfold list_push. destruct (_renderableList p); [|now split; eauto].
      split; [exact Hact|]. exists cs. split; [exact Hcs|exact Hread]. }
    destruct (_isAdvanced p) eqn:Hadv, e as [[n|g root]|];
      try (split; [exact Hact|]; exists cs; rewrite Hadv; now split).
    apply Hsame.
  - set (p1 := if _isAdvanced p then _endAdvancedBlendMode p else p).
    assert (H1 : exists cs1, calls p1 = base ++ cs1
                             /\ foldl read (Some (Idle false)) cs1 = Some (Idle false)
                             /\ _isAdvanced p1 = false).
    { unfold p1. destruct (_isAdvanced p) eqn:Hadv.
      - exists (cs ++ [batch_break; add_popFilter]).
        unfold _endAdvancedBlendMode. cbn [log calls _isAdvanced].
        rewrite Hcs, <- app_assoc. split; [reflexivity|]. split; [|reflexivity].
        now rewrite foldl_app, Hread.
      - exists cs. now split. }
    destruct H1 as (cs1 & Hcs1 & Hread1 & Hadv1).
    destruct e as [e|].
    + cbn [set_isAdvanced _isAdvanced set_activeBlendMode].
      destruct (advanced t) eqn:Ht.
      * destruct (begin_calls (set_isAdvanced true (set_activeBlendMode (Some t) p1)) e t
                    eq_refl Ht) as (s & l & c & Hc & Hi & Ha).
        split; [rewrite Ha; eauto|].
        exists (cs1 ++ [batch_break; add_pushFilter s l c]).
        rewrite Hc, Hi. cbn [set_isAdvanced set_activeBlendMode calls _isAdvanced].
        rewrite Hcs1, <- app_assoc. split; [reflexivity|].
        now rewrite foldl_app, Hread1.
      * split; [cbn; eauto|]. exists cs1. cbn [set_isAdvanced set_activeBlendMode calls
                                                _isAdvanced]. now split.
    + split; [cbn; eauto|]. exists cs1.
      cbn [set_activeBlendMode calls _isAdvanced]. rewrite Hadv1. now split.
Qed.

Lemma step_building (base : list call) (p : pipe) (o : op) :
  in_build base p ->
  exists p', step advanced (Some p) o = Some p' /\ in_build base p'.
Proof.
  intros Hb. destruct o as [e t|e t|]; cbn [step].
  - eexists. split; [reflexivity|]. now apply setBlendMode_building.
  - eexists. split; [reflexivity|]. unfold pushBlendMode.
    apply setBlendMode_building. exact Hb.
  - unfold popBlendMode. cbn [set_blendModeStack _activeBlendMode].
    destruct Hb as ([a Ha] & Hcs). rewrite Ha. cbn [mbind option_bind].
    eexists. split; [reflexivity|]. apply setBlendMode_building.
    split; [cbn; rewrite Ha; eauto|exact Hcs].
Qed.

Lemma steps_building (base : list call) (os : list op) (p : pipe) :
  in_build base p ->
  exists p', foldl (step advanced) (Some p) os = Some p' /\ in_build base p'.
Proof.
  revert p. induction os as [|o os IH]; intros p Hb; [now exists p|].
  cbn [foldl]. destruct (step_building base p o Hb) as (p1 & -> & Hb1). now apply IH.
Qed.

(** The filters of a build are pushed and popped in turn.  Once a frame
    was started, so that there is an active blend mode, a build returns
    whatever blend modes are set, pushed and popped in it; the filter
    instructions it adds come in pairs, a [pushFilter] and then a
    [popFilter], never two filters open at once, each instruction right
    after a break of the batch; [buildEnd] leaves no filter open, and
    no warning is given. *)
Theorem blend_filters_are_pushed_and_popped_in_turn (p : pipe) (m : string)
    (os : list op) :
  _activeBlendMode p = Some m ->
  exists p' cs,
    build advanced p os = Some p'
    /\ calls p' = calls p ++ cs
    /\ bracketed cs = true
    /\ _isAdvanced p' = false.
Proof.
  intros Ha.
  assert (H0 : in_build (calls p) (buildStart p)).
  { split; [cbn; rewrite Ha; eauto|]. exists []. cbn. now rewrite app_nil_r. }
  destruct (steps_building _ os _ H0) as (p1 & Hrun & _ & cs & Hcs & Hread).
  unfold build. rewrite Hrun. cbn [fmap option_fmap option_map]. unfold buildEnd.
  destruct (_isAdvanced p1) eqn:Hadv.
  - exists (_endAdvancedBlendMode p1), (cs ++ [batch_break; add_popFilter]).
    split; [reflexivity|]. unfold _endAdvancedBlendMode. cbn [log calls _isAdvanced].
    rewrite Hcs, <- app_assoc. split; [reflexivity|]. split; [|reflexivity].
    unfold bracketed. now rewrite foldl_app, Hread.
  - exists p1, cs. split; [reflexivity|]. split; [exact Hcs|]. split; [|exact Hadv].
    unfold bracketed. now rewrite Hread.
Qed.

(** Between two renderables of one advanced blend mode [t], after the
    calls [C]: the mode is active, the filter effect [s] of the mode is
    pushed, and [h] is the array of the open instruction. *)
Definition filtering (t : string) (s h : nat) (l : list nat) (C : list call) (p : pipe)
    : Prop :=
  _activeBlendMode p = Some t /\ _isAdvanced p = true
  /\ _renderableList p = Some h /\ arrays p !! h = Some l
  /\ _filterHash p !! t = Some s /\ calls p = C.

Lemma same_mode_filtering (t : string) (s h : nat) (ns : list nat) (C : list call) :
  forall l p,
    filtering t s h l C p ->
    filtering t s h (l ++ ns) C
      (fold_left (fun p n => setBlendMode advanced p (Some (renderable n)) t) ns p).
Proof.
  induction ns as [|n ns IH]; intros l p Hf; [now rewrite app_nil_r|].
  cbn [fold_left]. replace (l ++ n :: ns) with ((l ++ [n]) ++ ns)
    by (now rewrite <- app_assoc).
  apply IH. destruct Hf as (Ha & Hadv & Hl & Harr & Hh & Hc).
  unfold setBlendMode. rewrite bool_decide_eq_true_2 by exact Ha. rewrite Hadv.
  unfold list_push. rewrite Hl, Harr. unfold filtering.
  cbn [_activeBlendMode _isAdvanced _renderableList arrays _filterHash calls].
  rewrite lookup_insert_eq. repeat split; assumption.
Qed.

Lemma begin_filtering (q : pipe) (n : nat) (t : string) :
  _activeBlendMode q = Some t -> _isAdvanced q = true -> advanced t = true ->
  exists s h,
    filtering t s h [n] (calls q ++ [batch_break; add_pushFilter s (Some h) None])
      (_beginAdvancedBlendMode advanced q (renderable n))
    /\ (forall s0, _filterHash q !! t = Some s0 -> s = s0).
Proof.
  intros Ha Hi Hadv. unfold _beginAdvancedBlendMode. cbn [log _activeBlendMode].
  rewrite Ha, Hadv. unfold _ensureFilterEffect.
  cbn [_filterHash log _blendModeStack _isAdvanced _activeBlendMode _renderableList
       arrays fresh calls].
  destruct (_filterHash q !! t) as [s|] eqn:Hs.
  - exists s, (fresh q). split; [|now intros s0 [= ->]].
    unfold filtering.
    cbn [log _blendModeStack _isAdvanced _filterHash _activeBlendMode _renderableList
         arrays fresh calls].
    rewrite lookup_insert_eq, <- app_assoc. repeat split; assumption.
  - exists (fresh q), (S (fresh q)). split; [|intros s0 [=]].
    unfold filtering.
    cbn [log _blendModeStack _isAdvanced _filterHash _activeBlendMode _renderableList
         arrays fresh calls].
    rewrite !lookup_insert_eq, <- app_assoc. repeat split; assumption.
Qed.

(** Renderables that follow each other with one advanced blend mode are
    drawn through one filter.  When the mode changes to a mode [t] with
    a filter, the filter that was open is popped and one [pushFilter]
    instruction is added; the renderables that come with the same mode
    after that add no instruction: they are pushed to the array of that
    instruction, in their order.  The filter effect is the one the pipe
    keeps for [t], made on first use. *)
Theorem one_filter_for_a_run_of_renderables (p : pipe) (t : string) (n : nat)
    (ns : list nat) :
  _activeBlendMode p <> Some t -> advanced t = true ->
  let p' := fold_left (fun p n => setBlendMode advanced p (Some (renderable n)) t) ns
              (setBlendMode advanced p (Some (renderable n)) t) in
  exists s h,
    calls p' = calls p ++ (if _isAdvanced p then [batch_break; add_popFilter] else [])
                 ++ [batch_break; add_pushFilter s (Some h) None]
    /\ arrays p' !! h = Some (n :: ns)
    /\ _filterHash p' !! t = Some s
    /\ (forall s0, _filterHash p !! t = Some s0 -> s = s0).
Proof.
  intros Hne Hadv. cbv zeta.
  set (p1 := if _isAdvanced p then _endAdvancedBlendMode p else p).
  assert (H1 : calls p1 = calls p ++ (if _isAdvanced p then [batch_break; add_popFilter]
                                      else [])
               /\ _filterHash p1 = _filterHash p).
  { unfold p1. destruct (_isAdvanced p); [now split|]. now rewrite app_nil_r. }
  destruct H1 as [Hc1 Hh1].
  set (q := set_isAdvanced true (set_activeBlendMode (Some t) p1)).
  assert (Hset : setBlendMode advanced p (Some (renderable n)) t
                 = _beginAdvancedBlendMode advanced q (renderable n)).
  { unfold setBlendMode. rewrite bool_decide_eq_false_2 by exact Hne. fold p1.
    cbn [set_isAdvanced _isAdvanced]. now rewrite Hadv. }
  rewrite Hset.
  destruct (begin_filtering q n t eq_refl eq_refl Hadv) as (s & h & Hf & Hs).
  destruct (same_mode_filtering t s h ns _ [n] _ Hf) as (_ & _ & _ & Harr & Hh & Hc).
  exists s, h. split; [|split; [exact Harr|split; [exact Hh|]]].
  - rewrite Hc. change (calls q) with (calls p1). now rewrite Hc1, <- app_assoc.
  - intros s0 Hs0. apply Hs. change (_filterHash q) with (_filterHash p1).
    now rewrite Hh1.
Qed.

End BlendModeFacts.

Lemma blend_filters_witness :
  BlendModePipe._activeBlendMode (BlendModePipe.prerender BlendModePipe.new)
  = Some "normal"
  /\ exists p',
       BlendModePipe.build BlendModePipe.sample_advanced
         (BlendModePipe.prerender BlendModePipe.new) BlendModePipe.sample_ops = Some p'
       /\ BlendModePipe.calls p'
          = [BlendModePipe.batch_break;
             BlendModePipe.add_pushFilter 0 (Some 1%nat) None;
             BlendModePipe.batch_break; BlendModePipe.add_popFilter]
       /\ BlendModePipe.arrays p' !! 1%nat = Some [1; 2]%nat.
Proof.
  split; [reflexivity|].
  destruct (blend_filters_are_pushed_and_popped_in_turn BlendModePipe.sample_advanced
              (BlendModePipe.prerender BlendModePipe.new) "normal"
              BlendModePipe.sample_ops eq_refl) as (p' & cs & Hb & _).
  exists p'. split; [exact Hb|]. vm_compute in Hb. injection Hb as <-.
  split; reflexivity.
Defined.

Lemma one_filter_witness :
  BlendModePipe._activeBlendMode (BlendModePipe.prerender BlendModePipe.new)
  <> Some "color-burn"
  /\ BlendModePipe.sample_advanced "color-burn" = true
  /\ exists s h,
       BlendModePipe.arrays
         (fold_left (fun p n => BlendModePipe.setBlendMode BlendModePipe.sample_advanced p
                                  (Some (BlendModePipe.renderable n)) "color-burn")
            [5; 6]%nat
            (BlendModePipe.setBlendMode BlendModePipe.sample_advanced
               (BlendModePipe.prerender BlendModePipe.new)
               (Some (BlendModePipe.renderable 4)) "color-burn")) !! h
       = Some [4; 5; 6]%nat
       /\ s = 0%nat.
Proof.
  assert (H1 : BlendModePipe._activeBlendMode (BlendModePipe.prerender BlendModePipe.new)
               <> Some "color-burn") by discriminate.
  split; [exact H1|]. split; [reflexivity|].
  destruct (one_filter_for_a_run_of_renderables BlendModePipe.sample_advanced
              (BlendModePipe.prerender BlendModePipe.new) "color-burn" 4%nat [5; 6]%nat
              H1 eq_refl) as (s & h & Hc & Harr & _).
  exists s, h. split; [exact Harr|]. vm_compute in Hc. now injection Hc as ->.
Defined.

(** ** Tearing the renderer down *)

Section RendererDestroyFacts.
Import Runner Renderer RendererDestroy.

(** The [destroy] runner of a renderer holds the handlers [l], all of
    them handed out already. *)
Definition destroy_items (R : renderer) (l : list obj) : Prop :=
  exists d, runners R !! "destroy" = Some d /\ _name d = "destroy" /\ items d = l
            /\ Forall (fun h => (h < fresh R)%nat) l /\ NoDup l.

Lemma add_fresh (defs : obj -> string -> bool) (d : runner) (s : obj) :
  Forall (fun h => (h < s)%nat) (items d) ->
  items (Runner.add defs d s) = items d ++ (if defs s (_name d) then [s] else []).
Proof.
  intros Hall. rewrite add_items. destruct (defs s (_name d)); [|now rewrite app_nil_r].
  rewrite remove_first_notin; [reflexivity|].
  intros Hin. rewrite Forall_forall in Hall. specialize (Hall _ Hin). lia.
Qed.

Lemma defines_new (inst : gmap obj (list string)) (s : obj) (ms : list string)
    (d : string) :
  defines (<[s := ms]> inst) s d = existsb (String.eqb d) ms.
Proof. unfold defines. now rewrite lookup_insert_eq. Qed.

Lemma NoDup_snoc_fresh (l : list obj) (n : nat) (b : bool) :
  Forall (fun h => (h < n)%nat) l -> NoDup l -> NoDup (l ++ (if b then [n] else [])).
Proof.
  intros Hall Hnd. destruct b; [|now rewrite app_nil_r].
  apply NoDup_app. split; [exact Hnd|]. split; [|apply NoDup_singleton].
  intros x Hx Hx'. apply list_elem_of_singleton in Hx'. subst x.
  rewrite Forall_forall in Hall. specialize (Hall _ Hx). lia.
Qed.

Lemma Forall_lt_S (l : list obj) (n : nat) :
  Forall (fun h => (h < n)%nat) l -> Forall (fun h => (h < S n)%nat) l.
Proof. intros H. eapply Forall_impl; [exact H|]. cbn. intros. lia. Qed.

Lemma addSystem_destroy_items (R R' : renderer) (t : class) (r : string) (l : list obj) :
  destroy_items R l -> _addSystem R t r = Ok R' ->
  destroy_items R' (l ++ (if has_destroy (mkExtension t r) then [fresh R] else []))
  /\ fresh R' = S (fresh R).
Proof.
  intros (d & Hd & Hname & Hitems & Hall & Hnd). unfold _addSystem.
  destruct (truthy (get_prop R r)); [discriminate|]. intros H; injection H as <-.
  split; [|reflexivity]. unfold destroy_items. cbn [runners fresh].
  rewrite lookup_fmap, Hd. cbn [fmap option_fmap option_map].
  eexists. split; [reflexivity|]. split; [now rewrite add_name|].
  assert (Hadd := add_fresh (defines (<[fresh R := methods t]> (instances R))) d (fresh R)).
  rewrite Hitems in Hadd. specialize (Hadd Hall). rewrite Hname, defines_new in Hadd.
  split; [exact Hadd|]. split; [|now apply NoDup_snoc_fresh].
  apply Forall_app. split; [now apply Forall_lt_S|].
  unfold has_destroy. cbn [value methods].
  destruct (existsb _ _); constructor; [lia|constructor].
Qed.

Lemma addPipe_destroy_items (R R' : renderer) (i : extension) (l : list obj) :
  destroy_items R l -> _addPipe R i = Ok R' ->
  destroy_items R' (l ++ (if has_destroy i then [fresh R] else []))
  /\ fresh R' = S (fresh R).
Proof.
  intros (d & Hd & Hname & Hitems & Hall & Hnd). unfold _addPipe. rewrite Hd.
  intros H; injection H as <-. split; [|reflexivity].
  unfold destroy_items. cbn [runners fresh]. rewrite lookup_insert_eq.
  eexists. split; [reflexivity|]. split; [now rewrite add_name|].
  assert (Hadd := add_fresh (defines (<[fresh R := methods (value i)]> (instances R)))
                    d (fresh R)).
  rewrite Hitems in Hadd. specialize (Hadd Hall). rewrite Hname, defines_new in Hadd.
  split; [exact Hadd|]. split; [|now apply NoDup_snoc_fresh].
  apply Forall_app. split; [now apply Forall_lt_S|].
  unfold has_destroy. destruct (existsb _ _); constructor; [lia|constructor].
Qed.

Lemma addSystems_destroy_items (t : list extension) :
  forall (R R' : renderer) (l : list obj),
    destroy_items R l -> _addSystems R t = Ok R' ->
    destroy_items R' (l ++ destroy_handlers (fresh R) t)
    /\ fresh R' = (fresh R + length t)%nat.
Proof.
  induction t as [|[c n] t IH]; intros R R' l Hl H; cbn [_addSystems] in H.
  - injection H as <-. cbn [destroy_handlers length]. rewrite app_nil_r, Nat.add_0_r.
    now split.
  - unfold bind in H. cbn [value name] in H.
    destruct (_addSystem R c n) as [R1|e] eqn:H1; [|discriminate].
    destruct (addSystem_destroy_items _ _ _ _ _ Hl H1) as (Hl1 & Hf1).
    destruct (IH _ _ _ Hl1 H) as (Hl2 & Hf2).
    cbn [destroy_handlers length]. rewrite Hf1 in Hl2, Hf2.
    rewrite <- app_assoc in Hl2. split; [exact Hl2|lia].
Qed.

Lemma addPipes_destroy_items (t : list extension) :
  forall (R R' : renderer) (l : list obj),
    destroy_items R l -> _addPipes R t = Ok R' ->
    destroy_items R' (l ++ destroy_handlers (fresh R) t)
    /\ fresh R' = (fresh R + length t)%nat.
Proof.
  induction t as [|i t IH]; intros R R' l Hl H; cbn [_addPipes] in H.
  - injection H as <-. cbn [destroy_handlers length]. rewrite app_nil_r, Nat.add_0_r.
    now split.
  - unfold bind in H.
    destruct (_addPipe R i) as [R1|e] eqn:H1; [|discriminate].
    destruct (addPipe_destroy_items _ _ _ _ Hl H1) as (Hl1 & Hf1).
    destruct (IH _ _ _ Hl1 H) as (Hl2 & Hf2).
    cbn [destroy_handlers length]. rewrite Hf1 in Hl2, Hf2.
    rewrite <- app_assoc in Hl2. split; [exact Hl2|lia].
Qed.

(** Every runner the constructor makes is new and carries its key. *)
Lemma addRunners_new (t : list string) (m : gmap string runner) :
  (forall k v, m !! k = Some v -> v = Runner.new k) ->
  forall k v,
    fold_left (fun m r => <[r := Runner.new r]> m) t m !! k = Some v -> v = Runner.new k.
Proof.
  revert m. induction t as [|r t IH]; intros m Hm k v; cbn [fold_left]; [apply Hm|].
  apply IH. intros k' v'. destruct (decide (r = k')) as [->|Hne].
  - rewrite lookup_insert_eq. now intros [= <-].
  - rewrite lookup_insert_ne by assumption. apply Hm.
Qed.

Lemma addRunners_in (t : list string) (m : gmap string runner) (k : string) :
  k ∈ t \/ is_Some (m !! k) ->
  is_Some (fold_left (fun m r => <[r := Runner.new r]> m) t m !! k).
Proof.
  revert m. induction t as [|r t IH]; intros m; cbn [fold_left].
  - intros [H|H]; [inversion H|exact H].
  - intros H. apply IH. destruct (decide (r = k)) as [->|Hne].
    + right. rewrite lookup_insert_eq. eauto.
    + rewrite lookup_insert_ne by assumption.
      destruct H as [H|H]; [|now right]. apply elem_of_cons in H as [H|H];
        [congruence|now left].
Qed.

Lemma constructor_destroy_items (inherited : gmap string jsval) (uid : Z)
    (type name : jsval) (rs : list string) (R : renderer) :
  constructor inherited uid type name rs true = Ok R ->
  destroy_items R [] /\ fresh R = 1%nat.
Proof.
  unfold constructor. intros H.
  apply (f_equal (fun r => match r with Ok a => a | Throw _ => R end)) in H.
  cbv beta iota in H. subst R. split; [|reflexivity].
  unfold destroy_items, _addRunners. cbn [runners fresh].
  destruct (addRunners_in (Pt ++ rs) ∅ "destroy") as [d Hd].
  { left. apply elem_of_app. left. unfold Pt. right. now left. }
  exists d. split; [exact Hd|].
  apply addRunners_new in Hd; [|intros k v Hk; now rewrite lookup_empty in Hk].
  subst d. split; [reflexivity|]. split; [reflexivity|].
  split; [constructor|apply NoDup_nil_2].
Qed.

Section Calls.
Variable World Options : Type.
Variable call : obj -> string -> Options -> World -> World.
Variable releases : Options -> bool.
Variable release : World -> World.

(** The renderer destroys what it holds in the reverse order of the
    registration.  On a renderer that was constructed and then given
    its systems and its pipes, [destroy] calls the [destroy] method of
    every system and pipe that has one exactly once: the pipes first,
    then the systems, each kind from the last one registered to the
    first; the global resources are released after these calls when
    the argument asks for it. *)
Theorem destroy_runs_in_reverse_registration_order
    (inherited : gmap string jsval) (uid : Z) (type name : jsval)
    (rs : list string) (systems pipes : list extension) (R0 R1 R2 : renderer)
    (t : Options) (w : World) :
  constructor inherited uid type name rs true = Ok R0 ->
  _addSystems R0 systems = Ok R1 ->
  _addPipes R1 pipes = Ok R2 ->
  let hs := rev (destroy_handlers (1 + length systems)%nat pipes)
              ++ rev (destroy_handlers 1%nat systems) in
  let w' := fold_left (fun w h => call h "destroy" t w) hs w in
  destroy World Options call releases release R2 t w
  = Ok (if releases t then release w' else w', map (fun h => (h, "destroy")) hs)
  /\ NoDup hs.
Proof.
  intros H0 H1 H2. cbv zeta.
  destruct (constructor_destroy_items _ _ _ _ _ _ H0) as (Hl0 & Hf0).
  destruct (addSystems_destroy_items _ _ _ _ Hl0 H1) as (Hl1 & Hf1).
  destruct (addPipes_destroy_items _ _ _ _ Hl1 H2)
    as ((d & Hd & Hname & Hitems & Hall & Hnd) & _).
  rewrite Hf0 in Hl1, Hf1. rewrite Hf1, Hf0 in Hitems, Hnd. cbn [app] in Hitems, Hnd.
  rewrite <- Hitems in Hnd.
  split.
  - unfold destroy. rewrite Hd. cbv zeta. unfold Runner.emit. cbn [items _name].
    rewrite emit_loop_spec, Hname, Hitems, rev_app_distr. reflexivity.
  - rewrite <- rev_app_distr, <- Hitems.
    eapply NoDup_perm_of; [apply Permutation_rev|exact Hnd].
Qed.

End Calls.

End RendererDestroyFacts.

Lemma destroy_order_witness :
  Renderer.constructor Renderer.sample_inherited 0 (Renderer.VNumber 1)
    (Renderer.VString "webgl") [] true = Renderer.Ok Renderer.sample_renderer
  /\ Renderer._addSystems Renderer.sample_renderer RendererDestroy.sample_systems
     = Renderer.Ok RendererDestroy.with_systems
  /\ Renderer._addPipes RendererDestroy.with_systems RendererDestroy.sample_pipes
     = Renderer.Ok RendererDestroy.with_pipes
  /\ RendererDestroy.destroy (list Runner.obj) bool RendererDestroy.sample_call
       (fun t => t) (fun w => w) RendererDestroy.with_pipes false []
     = Renderer.Ok ([3; 1]%nat, [(3%nat, "destroy"); (1%nat, "destroy")]).
Proof.
  assert (H0 : Renderer.constructor Renderer.sample_inherited 0 (Renderer.VNumber 1)
                 (Renderer.VString "webgl") [] true = Renderer.Ok Renderer.sample_renderer)
    by (vm_compute; reflexivity).
  assert (H1 : Renderer._addSystems Renderer.sample_renderer RendererDestroy.sample_systems
               = Renderer.Ok RendererDestroy.with_systems) by (vm_compute; reflexivity).
  assert (H2 : Renderer._addPipes RendererDestroy.with_systems RendererDestroy.sample_pipes
               = Renderer.Ok RendererDestroy.with_pipes) by (vm_compute; reflexivity).
  split; [exact H0|]. split; [exact H1|]. split; [exact H2|].
  exact (proj1 (destroy_runs_in_reverse_registration_order (list Runner.obj) bool
                  RendererDestroy.sample_call (fun t => t) (fun w => w)
                  _ _ _ _ [] RendererDestroy.sample_systems RendererDestroy.sample_pipes
                  _ _ _ false [] H0 H1 H2)).
Defined.

(** ** The transform propagator: which renderables it refreshes *)

Section RefreshFacts.
Import Number Scene.
Variable X : externals.

(** The flag [structureDidChange] of the group [l], if there is one. *)
Definition flag (w : world) (l : nat) : option bool :=
  RenderGroup.structureDidChange <$> groups w !! l.

(** A call the propagator may make in the world [w]: [updateRenderable]
    only on a group whose flag is clear. *)
Definition allowed (w : world) (e : event) : Prop :=
  match e with
  | updateRenderable l _ => flag w l = Some false
  | _ => True
  end.

(** A stretch of a pass: the flags stay, and every call is allowed. *)
Definition careful (w w' : world) : Prop :=
  (forall l, flag w' l = flag w l)
  /\ exists evs, events w' = events w ++ evs /\ Forall (allowed w) evs.

Lemma careful_refl (w : world) : careful w w.
Proof. split; [reflexivity|]. exists []. now rewrite app_nil_r. Qed.

Lemma careful_trans (w1 w2 w3 : world) : careful w1 w2 -> careful w2 w3 -> careful w1 w3.
Proof.
  intros (Hf1 & e1 & He1 & Ha1) (Hf2 & e2 & He2 & Ha2). split.
  - intros l. now rewrite Hf2, Hf1.
  - exists (e1 ++ e2). split; [now rewrite He2, He1, app_assoc|].
    apply Forall_app. split; [exact Ha1|].
    eapply Forall_impl; [exact Ha2|]. intros [] H; cbn in *; try exact I.
    now rewrite <- Hf1.
Qed.

Lemma careful_step (w w' : world) (evs : list event) :
  (forall l, flag w' l = flag w l) -> events w' = events w ++ evs ->
  Forall (allowed w) evs -> careful w w'.
Proof. intros Hf He Ha. split; [exact Hf|]. now exists evs. Qed.

Lemma foldl_careful {B} (f : world -> B -> option world) (l : list B) (w w' : world) :
  (forall b w1 w2, f w1 b = Some w2 -> careful w1 w2) ->
  foldl (fun o b => a ← o; f a b) (Some w) l = Some w' ->
  careful w w'.
Proof.
  revert w. induction l as [|b l IH]; intros w Hf H; cbn [foldl] in H.
  - injection H as <-. apply careful_refl.
  - cbn [mbind option_bind] in H. destruct (f w b) as [w1|] eqn:H1.
    + eapply careful_trans; [eapply Hf, H1|now apply IH].
    + rewrite foldl_bind_None in H. discriminate.
Qed.

Lemma refresh_careful (w w' : world) (n : nat) (nd : Container.t) :
  refresh w n nd = Some w' -> careful w w'.
Proof.
  unfold refresh. destruct (Container.renderPipeId nd);
    [|intros H; injection H as <-; apply careful_refl].
  destruct (Container.parentRenderGroup nd) as [l|]; [|discriminate].
  cbn [mbind option_bind].
  destruct (groups w !! l) as [lg|] eqn:Hl; [|discriminate]. cbn [mbind option_bind].
  destruct (RenderGroup.structureDidChange lg) eqn:Hflag; cbn [negb];
    intros H; injection H as <-; [apply careful_refl|].
  apply (careful_step _ _ [updateRenderable l n]); [reflexivity|reflexivity|].
  constructor; [|constructor]. cbn. unfold flag. rewrite Hl. cbn. now rewrite Hflag.
Qed.

Lemma rt_careful (fuel : nat) (w w' : world) (n : nat) (r t : Z) :
  rt X fuel w n r t = Some w' -> careful w w'.
Proof.
  revert w w' n t. induction fuel as [|fuel IH]; intros w w' n t; [discriminate|].
  rewrite (rt_S X). destruct (nodes w !! n) as [nd|] eqn:Hn; [|discriminate].
  destruct (r =? Container.updateTick nd).
  { intros H; injection H as <-. apply careful_refl. }
  cbv zeta.
  destruct (match Container.parent (touch X nd r) with
            | Some sid => Some <$> nodes (log (updateLocalTransform n) w) !! sid
            | None => Some None
            end) as [s|]; [|discriminate].
  set (nd2 := fst (relative X (touch X nd r) s t)).
  assert (Hmark : careful w (set_node n nd2 (log (updateLocalTransform n) w))).
  { apply (careful_step _ _ [updateLocalTransform n]); [reflexivity|reflexivity|].
    constructor; [exact I|constructor]. }
  destruct (Container.renderGroup nd2).
  { intros H; injection H as <-. exact Hmark. }
  destruct (foldl _ _ (Container.children nd2)) as [w1|] eqn:Hfold; [|discriminate].
  intros Href.
  eapply careful_trans; [exact Hmark|].
  eapply careful_trans; [|eapply refresh_careful, Href].
  eapply foldl_careful; [|exact Hfold]. intros c wa wb Hc. eapply IH, Hc.
Qed.

Lemma visit_entry_careful (fuel : nat) (g : nat) (i r : Z) (l : list (option nat))
    (w w' : world) (d : nat) :
  visit_entry X fuel g i r l (Some w) d = Some w' -> careful w w'.
Proof.
  unfold visit_entry, mbind, option_bind; cbn beta iota.
  destruct (mjoin (l !! d)) as [h|]; [|discriminate].
  destruct (nodes w !! h) as [nd|]; [|discriminate].
  destruct (_ && _); [apply rt_careful|].
  intros H; injection H as <-. apply careful_refl.
Qed.

Lemma foldl_visit_careful (fuel : nat) (g : nat) (i r : Z) (l : list (option nat))
    (ds : list nat) (w w' : world) :
  foldl (visit_entry X fuel g i r l) (Some w) ds = Some w' -> careful w w'.
Proof.
  revert w. induction ds as [|d ds IH]; intros w H; cbn [foldl] in H.
  - injection H as <-. apply careful_refl.
  - destruct (visit_entry X fuel g i r l (Some w) d) as [w1|] eqn:H1.
    + eapply careful_trans; [eapply visit_entry_careful, H1|now apply IH].
    + exfalso. clear -H. induction ds as [|d' ds IH]; [discriminate|].
      cbn [foldl] in H. now apply IH.
Qed.

Lemma careful_set_group (w : world) (g : nat) (grp grp' : RenderGroup.t) :
  groups w !! g = Some grp ->
  RenderGroup.structureDidChange grp' = RenderGroup.structureDidChange grp ->
  careful w (set_group g grp' w).
Proof.
  intros Hg Hf. apply (careful_step _ _ []); [|now rewrite app_nil_r|constructor].
  intros l. unfold flag. cbn [groups set_group set_groups].
  destruct (decide (g = l)) as [<-|Hne].
  - rewrite lookup_insert_eq, Hg. cbn. now rewrite Hf.
  - now rewrite lookup_insert_ne.
Qed.

Lemma update_bucket_careful (fuel : nat) (g : nat) (r : Z) (w w' : world) (k : nat) :
  update_bucket X fuel g r (Some w) k = Some w' -> careful w w'.
Proof.
  unfold update_bucket. cbn [mbind option_bind].
  destruct (groups w !! g) as [n|]; [|discriminate]. cbn [mbind option_bind].
  destruct (RenderGroup.childrenToUpdate n !! k) as [[i a]|]; [|discriminate].
  cbn [mbind option_bind].
  destruct (foldl _ _ (seq 0 (UpdateList.index a))) as [w1|] eqn:Hfold; [|discriminate].
  cbn [mbind option_bind].
  destruct (groups w1 !! g) as [n1|] eqn:Hn1; [|discriminate]. cbn [mbind option_bind].
  intros H; injection H as <-.
  eapply careful_trans; [eapply foldl_visit_careful, Hfold|].
  apply (careful_set_group _ _ n1); [exact Hn1|now destruct n1].
Qed.

Lemma foldl_bucket_careful (fuel : nat) (g : nat) (r : Z) (ks : list nat) (w w' : world) :
  foldl (update_bucket X fuel g r) (Some w) ks = Some w' -> careful w w'.
Proof.
  revert w. induction ks as [|k ks IH]; intros w H; cbn [foldl] in H.
  - injection H as <-. apply careful_refl.
  - destruct (update_bucket X fuel g r (Some w) k) as [w1|] eqn:H1.
    + eapply careful_trans; [eapply update_bucket_careful, H1|now apply IH].
    + exfalso. clear -H. induction ks as [|k' ks IH]; [discriminate|].
      cbn [foldl] in H. now apply IH.
Qed.

Lemma Be_careful (fuel : nat) (w w' : world) (g : nat) :
  Be X fuel w g false = Some w' -> careful w w'.
Proof.
  destruct fuel as [|fuel]; [discriminate|]. rewrite (Be_S X).
  destruct (Ut X w g) as [w1|] eqn:HUt; [|discriminate].
  apply (Ut_spec X) in HUt as (n & e & r & Hn & _ & _ & ->).
  cbn [groups set_group set_groups]. rewrite lookup_insert_eq.
  intros H.
  eapply careful_trans; [apply (careful_set_group w g n); [exact Hn|]|].
  { apply (Ut_group_fields X). }
  eapply careful_trans; [|eapply foldl_bucket_careful, H].
  eapply careful_set_group; [apply lookup_insert_eq|reflexivity].
Qed.

End RefreshFacts.

(** The propagator refreshes no renderable of a group that is about to
    be rebuilt.  A pass over a render group leaves the flag
    [structureDidChange] of every group as it was, and every
    [updateRenderable] it calls goes to a group whose flag is clear:
    the renderables of a group whose instructions will be built again
    in the same frame are not refreshed in place. *)
Theorem propagator_skips_groups_to_rebuild (X : Scene.externals) (fuel : nat)
    (w w' : Scene.world) (g : nat) :
  Scene.Be X fuel w g false = Some w' ->
  (forall l, flag w' l = flag w l)
  /\ exists evs,
       Scene.events w' = Scene.events w ++ evs
       /\ forall l n, Scene.updateRenderable l n ∈ evs -> flag w l = Some false.
Proof.
  intros H. apply Be_careful in H as (Hf & evs & He & Ha).
  split; [exact Hf|]. exists evs. split; [exact He|].
  intros l n Hin. rewrite Forall_forall in Ha. exact (Ha _ Hin).
Qed.

(** The sample scene before its first frame: the flag of the stage group
    is set, and the pass calls no [updateRenderable]. *)
Lemma propagator_skips_witness :
  Scene.Be Sample.X 10 Sample.scene 100 false = Some Sample.scene_after_pass
  /\ flag Sample.scene 100 = Some true
  /\ flag Sample.scene_after_pass 100 = Some true
  /\ Scene.events Sample.scene_after_pass
     = [Scene.updateLocalTransform 1; Scene.updateLocalTransform 2].
Proof.
  assert (H : Scene.Be Sample.X 10 Sample.scene 100 false = Some Sample.scene_after_pass)
    by (vm_compute; reflexivity).
  split; [exact H|]. split; [vm_compute; reflexivity|].
  destruct (propagator_skips_groups_to_rebuild _ _ _ _ _ H) as (Hf & _).
  split; [rewrite Hf; vm_compute; reflexivity|]. vm_compute. reflexivity.
Defined.

(** ** The byte layout of vertex attributes *)

Section LayoutFacts.
Import GeometryLayout.

Variable Me : option string -> option Z.

Lemma zeros_lookup (buffers : list nat) (u : nat) :
  u ∈ buffers -> zeros buffers !! u = Some (Int 0).
Proof.
  unfold zeros.
  assert (H : forall m, u ∈ buffers \/ m !! u = Some (Int 0) ->
                        fold_left (fun (m : gmap nat num) u => <[u := Int 0]> m) buffers m !! u
                        = Some (Int 0)).
  { induction buffers as [|b bs IH]; intros m; cbn [fold_left].
    - intros [H|H]; [inversion H|exact H].
    - intros H. apply IH. destruct (decide (b = u)) as [->|Hne].
      + right. apply lookup_insert_eq.
      + rewrite lookup_insert_ne by assumption.
        destruct H as [H|H]; [|now right].
        apply elem_of_cons in H as [H|H]; [congruence|now left]. }
  intros Hu. apply H. now left.
Qed.

Lemma bytes_app (u : nat) (l1 l2 : list (string * attribute)) (x y : Z) :
  bytes Me u l1 = Some x -> bytes Me u l2 = Some y ->
  bytes Me u (l1 ++ l2) = Some (x + y).
Proof.
  revert x. induction l1 as [|[i a] l1 IH]; intros x; cbn [bytes app].
  - intros [= <-] ->. reflexivity.
  - destruct (Me (format a)) as [n|]; [|discriminate]. cbn [mbind option_bind].
    destruct (bytes Me u l1) as [m|]; [|discriminate]. cbn [mbind option_bind].
    intros [= <-] Hy. rewrite (IH m eq_refl Hy). cbn [mbind option_bind].
    f_equal. lia.
Qed.

Lemma bytes_known (u : nat) (l : list (string * attribute)) :
  Forall (fun ia => is_Some (Me (format (snd ia)))) l -> is_Some (bytes Me u l).
Proof.
  induction 1 as [|[i a] l [n Hn] _ [m Hm]]; cbn [bytes]; [eauto|].
  cbn [snd] in Hn. rewrite Hn, Hm. cbn. eauto.
Qed.

(** The second loop: the table holds, for every buffer, the bytes of the
    attributes on it. *)
Lemma totals_spec (t : list (string * attribute)) :
  forall r,
    Forall (fun ia => is_Some (Me (format (snd ia)))) t ->
    exists r', totals Me r t = Some r'
      /\ forall u z x, r !! u = Some (Int z) -> bytes Me u t = Some x ->
                       r' !! u = Some (Int (z + x)).
Proof.
  induction t as [|[i a] t IH]; intros r Hall; cbn [totals bytes].
  - exists r. split; [reflexivity|]. intros u z x Hz [= <-]. now rewrite Z.add_0_r.
  - apply Forall_cons in Hall as [[n Hn] Hall]. cbn [snd] in Hn. rewrite Hn.
    cbn [mbind option_bind].
    destruct (IH (<[buffer a := plus (r !! buffer a) n]> r) Hall) as (r' & Hr' & Hsum).
    exists r'. split; [exact Hr'|]. intros u z x Hz.
    destruct (bytes Me u t) as [m|] eqn:Hm; [|discriminate]. cbn [mbind option_bind].
    intros [= <-]. destruct (Nat.eqb_spec (buffer a) u) as [Heq|Hne].
    + rewrite (Hsum u (z + n) m); [f_equal; f_equal; lia| |exact Hm].
      rewrite Heq, lookup_insert_eq, Hz. reflexivity.
    + rewrite (Hsum u z m); [f_equal; f_equal; lia| |exact Hm].
      now rewrite lookup_insert_ne.
Qed.

(** The third loop: an attribute without a stride gets the total of its
    buffer, one without a start the bytes of the attributes before it
    on its buffer. *)
Lemma place_spec (r : gmap nat num) (t : list (string * attribute)) :
  forall s,
    Forall (fun ia => is_Some (Me (format (snd ia)))) t ->
    exists t', place Me r s t = Some t'
      /\ length t' = length t
      /\ forall k i a, t !! k = Some (i, a) ->
           exists a', t' !! k = Some (i, a')
             /\ buffer a' = buffer a /\ format a' = format a
             /\ stride a' = match stride a with
                            | Some x => Some x
                            | None => r !! buffer a
                            end
             /\ (forall x, start a = Some x -> start a' = Some x)
             /\ forall z x, start a = None -> s !! buffer a = Some (Int z) ->
                  bytes Me (buffer a) (take k t) = Some x ->
                  start a' = Some (Int (z + x)).
Proof.
  induction t as [|[i a] t IH]; intros s Hall; cbn [place].
  - exists []. split; [reflexivity|]. split; [reflexivity|]. intros k j b Hk. inversion Hk.
  - apply Forall_cons in Hall as [[n Hn] Hall]. cbn [snd] in Hn. rewrite Hn.
    cbn [mbind option_bind].
    destruct (IH (<[buffer a := plus (s !! buffer a) n]> s) Hall) as (t' & Ht' & Hlen & Hk).
    rewrite Ht'. cbn [mbind option_bind]. eexists. split; [reflexivity|].
    split; [cbn [length]; now rewrite Hlen|].
    intros [|k] j b Hb.
    + cbn in Hb. injection Hb as <- <-. eexists. split; [reflexivity|].
      cbn [buffer format stride start]. split; [reflexivity|]. split; [reflexivity|].
      split; [reflexivity|]. split; [intros x ->; reflexivity|].
      intros z x Hstart Hz [= <-]. rewrite Hstart, Hz.
      now rewrite Z.add_0_r.
    + cbn in Hb. destruct (Hk k j b Hb) as (b' & Hb' & H1 & H2 & H3 & H5 & H4).
      exists b'. split; [exact Hb'|]. split; [exact H1|]. split; [exact H2|].
      split; [exact H3|]. split; [exact H5|].
      intros z x Hstart Hz. cbn [take bytes]. rewrite Hn.
      cbn [mbind option_bind].
      destruct (bytes Me (buffer b) (take k t)) as [m|] eqn:Hm; [|discriminate].
      cbn [mbind option_bind]. intros [= <-].
      destruct (Nat.eqb_spec (buffer a) (buffer b)) as [Heq|Hne].
      * rewrite (H4 (z + n) m Hstart); [f_equal; f_equal; lia| |reflexivity].
        rewrite <- Heq, lookup_insert_eq. rewrite Heq, Hz. reflexivity.
      * rewrite (H4 z m Hstart); [f_equal; f_equal; lia| |reflexivity].
        now rewrite lookup_insert_ne.
Qed.

(** [Wt] packs the attributes of a buffer one behind the other.  When
    every attribute names a buffer of the geometry and a format with a
    known size, an attribute that comes without a stride gets the bytes
    of all attributes on its buffer as its stride, and one that comes
    without a start gets the bytes of the attributes that are listed
    before it on the same buffer; a stride or start that is given is
    kept, and the buffer and the format are not touched. *)
Theorem attributes_are_packed_in_order (buffers : list nat)
    (attributes : list (string * attribute)) :
  Forall (fun ia => buffer (snd ia) ∈ buffers) attributes ->
  Forall (fun ia => is_Some (Me (format (snd ia)))) attributes ->
  exists placed,
    Wt Me buffers attributes = Some placed
    /\ length placed = length attributes
    /\ forall k i a, attributes !! k = Some (i, a) ->
         exists a' total before,
           placed !! k = Some (i, a')
           /\ buffer a' = buffer a /\ format a' = format a
           /\ bytes Me (buffer a) attributes = Some total
           /\ bytes Me (buffer a) (take k attributes) = Some before
           /\ stride a' = match stride a with
                          | Some x => Some x
                          | None => Some (Int total)
                          end
           /\ start a' = match start a with
                         | Some x => Some x
                         | None => Some (Int before)
                         end.
Proof.
  intros Hbuf Hfmt. unfold Wt.
  destruct (totals_spec attributes (zeros buffers) Hfmt) as (r & Hr & Hsum).
  rewrite Hr. cbn [mbind option_bind].
  destruct (place_spec r attributes (zeros buffers) Hfmt) as (placed & Hp & Hlen & Hk).
  exists placed. split; [exact Hp|]. split; [exact Hlen|].
  intros k i a Ha. destruct (Hk k i a Ha) as (a' & Ha' & H1 & H2 & H3 & H5 & H4).
  assert (Hin : buffer a ∈ buffers).
  { rewrite Forall_forall in Hbuf. apply (Hbuf (i, a)). eapply list_elem_of_lookup_2, Ha. }
  pose proof (zeros_lookup buffers _ Hin) as Hz.
  destruct (bytes_known (buffer a) attributes Hfmt) as [total Htotal].
  destruct (bytes_known (buffer a) (take k attributes)) as [before Hbefore].
  { apply Forall_take, Hfmt. }
  exists a', total, before. split; [exact Ha'|]. split; [exact H1|]. split; [exact H2|].
  split; [exact Htotal|]. split; [exact Hbefore|]. split.
  - rewrite H3. destruct (stride a); [reflexivity|].
    now rewrite (Hsum _ 0 total Hz Htotal).
  - destruct (start a) as [x|] eqn:Hs.
    + now apply H5.
    + now rewrite (H4 0 before eq_refl Hz Hbefore).
Qed.

Lemma zeros_lookup_None (buffers : list nat) (u : nat) :
  u ∉ buffers -> zeros buffers !! u = None.
Proof.
  unfold zeros.
  assert (H : forall m : gmap nat num, u ∉ buffers -> m !! u = None ->
                fold_left (fun (m : gmap nat num) u => <[u := Int 0]> m) buffers m !! u
                = None).
  { induction buffers as [|b bs IH]; intros m Hu Hm; cbn [fold_left]; [exact Hm|].
    apply not_elem_of_cons in Hu as [Hne Hu]. apply IH; [exact Hu|].
    rewrite lookup_insert_ne by congruence. exact Hm. }
  intros Hu. apply H; [exact Hu|]. apply lookup_empty.
Qed.

Lemma totals_known (t : list (string * attribute)) :
  forall r r', totals Me r t = Some r' ->
               Forall (fun ia => is_Some (Me (format (snd ia)))) t.
Proof.
  induction t as [|[i a] t IH]; intros r r'; cbn [totals]; [constructor|].
  destruct (Me (format a)) as [n|] eqn:Hn; [|discriminate]. cbn [mbind option_bind].
  intros H. constructor; [cbn [snd]; rewrite Hn; eauto|]. eapply IH, H.
Qed.

Lemma totals_NaN (u : nat) (t : list (string * attribute)) :
  forall r r', totals Me r t = Some r' -> r !! u = Some NaN -> r' !! u = Some NaN.
Proof.
  induction t as [|[i a] t IH]; intros r r'; cbn [totals]; [now intros [= <-]|].
  destruct (Me (format a)) as [n|]; [|discriminate]. cbn [mbind option_bind].
  intros H Hu. apply (IH _ _ H). destruct (decide (buffer a = u)) as [Heq|Hne].
  - rewrite Heq, lookup_insert_eq, Hu. reflexivity.
  - now rewrite lookup_insert_ne.
Qed.

Lemma totals_unlisted (u : nat) (t : list (string * attribute)) :
  forall r r', totals Me r t = Some r' -> r !! u = None ->
               (exists k i a, t !! k = Some (i, a) /\ buffer a = u) ->
               r' !! u = Some NaN.
Proof.
  induction t as [|[i a] t IH]; intros r r'; cbn [totals].
  - intros _ _ (k & j & b & Hk & _). inversion Hk.
  - destruct (Me (format a)) as [n|]; [|discriminate]. cbn [mbind option_bind].
    intros H Hu (k & j & b & Hk & Hb). destruct (decide (buffer a = u)) as [Heq|Hne].
    + apply (totals_NaN u t _ _ H). rewrite Heq, lookup_insert_eq, Hu. reflexivity.
    + apply (IH _ _ H); [now rewrite lookup_insert_ne|].
      destruct k as [|k]; [cbn in Hk; injection Hk as <- <-; contradiction|].
      exists k, j, b. split; [exact Hk|exact Hb].
Qed.

Lemma place_unlisted (r : gmap nat num) (u : nat) (t : list (string * attribute)) :
  r !! u = Some NaN ->
  forall s placed k i a,
    place Me r s t = Some placed -> t !! k = Some (i, a) -> buffer a = u ->
    exists a',
      placed !! k = Some (i, a')
      /\ (stride a = None -> stride a' = Some NaN)
      /\ (start a = None -> s !! u = None ->
          Forall (fun ia => buffer (snd ia) <> u) (take k t) ->
          start a' = None).
Proof.
  intros Hnan. induction t as [|[j b] t IH]; intros s placed k i a; cbn [place];
    [intros _ H; inversion H|].
  destruct (Me (format b)) as [n|]; [|discriminate]. cbn [mbind option_bind].
  destruct (place Me r _ t) as [rest|] eqn:Hrest; [|discriminate].
  cbn [mbind option_bind]. intros [= <-] Ha Hu. destruct k as [|k].
  - cbn in Ha. injection Ha as <- <-. eexists. split; [reflexivity|].
    cbn [stride start]. split.
    + intros ->. rewrite Hu. exact Hnan.
    + intros -> Hs _. rewrite Hu. exact Hs.
  - cbn in Ha. destruct (IH _ rest k i a Hrest Ha Hu) as (a' & Ha' & Hs & Hst).
    exists a'. split; [exact Ha'|]. split; [exact Hs|].
    intros Hstart Hnone Hall. cbn [take] in Hall.
    apply Forall_cons in Hall as [Hne Hall]. cbn [snd] in Hne.
    apply Hst; [exact Hstart| |exact Hall]. now rewrite lookup_insert_ne.
Qed.

(** An attribute on a buffer that the geometry does not list gets no
    layout: where [Wt] returns, such an attribute that came without a
    stride has NaN as its stride, and if it came without a start and
    no attribute before it is on its buffer, it is still without
    one. *)
Theorem unlisted_buffer_gets_no_layout (buffers : list nat)
    (attributes placed : list (string * attribute)) (k : nat) (i : string)
    (a : attribute) :
  Wt Me buffers attributes = Some placed ->
  attributes !! k = Some (i, a) ->
  (buffer a ∉ buffers) ->
  exists a',
    placed !! k = Some (i, a')
    /\ (stride a = None -> stride a' = Some NaN)
    /\ (start a = None ->
        Forall (fun ia => buffer (snd ia) <> buffer a) (take k attributes) ->
        start a' = None).
Proof.
  unfold Wt. destruct (totals Me (zeros buffers) attributes) as [r|] eqn:Hr; [|discriminate].
  cbn [mbind option_bind]. intros Hp Ha Hu.
  pose proof (zeros_lookup_None buffers _ Hu) as Hz.
  assert (Hnan : r !! buffer a = Some NaN).
  { apply (totals_unlisted _ _ _ _ Hr Hz). exists k, i, a. split; [exact Ha|reflexivity]. }
  destruct (place_unlisted r (buffer a) attributes Hnan _ _ _ _ _ Hp Ha eq_refl)
    as (a' & Ha' & Hs & Hst).
  exists a'. split; [exact Ha'|]. split; [exact Hs|].
  intros Hstart Hall. now apply Hst.
Qed.

End LayoutFacts.

Lemma attributes_are_packed_witness :
  exists placed a',
    GeometryLayout.Wt GeometryLayout.sample_Me [7%nat] GeometryLayout.sample_attributes
    = Some placed
    /\ placed !! 2%nat = Some ("aColor", a')
    /\ GeometryLayout.stride a' = Some (GeometryLayout.Int 20)
    /\ GeometryLayout.start a' = Some (GeometryLayout.Int 16).
Proof.
  assert (Hbuf : Forall (fun ia => GeometryLayout.buffer (snd ia) ∈ [7%nat])
                        GeometryLayout.sample_attributes).
  { repeat constructor. }
  assert (Hfmt : Forall (fun ia => is_Some (GeometryLayout.sample_Me
                                              (GeometryLayout.format (snd ia))))
                        GeometryLayout.sample_attributes).
  { repeat (constructor; [eexists; reflexivity|]). constructor. }
  destruct (attributes_are_packed_in_order GeometryLayout.sample_Me [7%nat]
              GeometryLayout.sample_attributes Hbuf Hfmt) as (placed & Hp & _ & Hk).
  destruct (Hk 2%nat _ _ eq_refl) as (a' & total & before & Ha' & _ & _ & Ht & Hb & Hs & Hst).
  vm_compute in Ht. vm_compute in Hb. injection Ht as <-. injection Hb as <-.
  exists placed, a'. repeat split; assumption.
Defined.

Lemma unlisted_buffer_witness :
  exists a',
    [("aPosition", GeometryLayout.mkAttribute 7 (Some "float32x2")
                     (Some (GeometryLayout.NaN)) None)] !! 0%nat
    = Some ("aPosition", a')
    /\ GeometryLayout.stride a' = Some GeometryLayout.NaN
    /\ GeometryLayout.start a' = None.
Proof.
  destruct (unlisted_buffer_gets_no_layout GeometryLayout.sample_Me [3%nat]
              (take 1 GeometryLayout.sample_attributes)
              [("aPosition", GeometryLayout.mkAttribute 7 (Some "float32x2")
                               (Some (GeometryLayout.NaN)) None)]
              0%nat "aPosition"
              (GeometryLayout.mkAttribute 7 (Some "float32x2") None None))
    as (a' & Ha' & Hs & Hst).
  - reflexivity.
  - reflexivity.
  - cbn [GeometryLayout.buffer]. intros H. apply list_elem_of_singleton in H. discriminate.
  - exists a'. split; [exact Ha'|]. split; [apply Hs; reflexivity|].
    apply Hst; [reflexivity|constructor].
Defined.
